(** * Citation detection and resolution engine of the TOA generator

    A shallow embedding of [app/models.py], [app/detection/detector.py],
    [app/detection/short_form.py], [app/detection/patterns.py] and
    [app/classifier/rule_classifier.py], of the presets and the section
    logic of [app/formatter] and of the page logic of [app/parsers],
    with the properties of the engine proved over it.

    Conventions of the embedding:
    - a Python [str] is a [string]; its characters are the code points
      0..255 (the Latin-1 range), so [ascii] 167 is the section sign;
    - a Python [int] is a [Z];
    - the [re] module is embedded as a backtracking matcher over a regex
      syntax tree, with a parser from pattern text to that tree;
    - [list.sort] / [sorted] is a stable insertion sort;
    - a [dict] iterated in insertion order is an association list;
    - [confidence] only ever receives the constants 1.0, 0.9 and 0.6 and
      is never computed with: it is a rational. *)

From Stdlib Require Import ZArith NArith QArith Strings.String Strings.Ascii Bool Lia.
From Stdlib Require Import DecimalString DecimalZ.
From stdpp Require Import base list.
From Stdlib Require Import Sorted Permutation.
Import ListNotations.

Open Scope string_scope.
Open Scope Z_scope.

(** ** Characters *)

Module Char.

Definition code (c : ascii) : N := N_of_ascii c.

Definition between (lo hi : N) (c : ascii) : bool :=
  ((lo <=? code c) && (code c <=? hi))%N.

(** [str.isspace] on one character, which is also what [\s] matches. *)
Definition isspace (c : ascii) : bool :=
  between 9 13 c || between 28 32 c || (code c =? 133)%N || (code c =? 160)%N.

(** What [\d] matches: the decimal digits. *)
Definition isdecimal (c : ascii) : bool := between 48 57 c.

(** What [\w] matches: alphanumerics and the underscore. *)
Definition isword (c : ascii) : bool :=
  between 48 57 c || between 65 90 c || between 97 122 c || (code c =? 95)%N
  || (code c =? 170)%N || (code c =? 178)%N || (code c =? 179)%N
  || (code c =? 181)%N || (code c =? 185)%N || (code c =? 186)%N
  || between 188 190 c || between 192 214 c || between 216 246 c
  || between 248 255 c.

Definition lower (c : ascii) : ascii :=
  if between 65 90 c || (between 192 222 c && negb (code c =? 215)%N)
  then ascii_of_N (code c + 32) else c.

Definition upper (c : ascii) : ascii :=
  if between 97 122 c || (between 224 254 c && negb (code c =? 247)%N)
  then ascii_of_N (code c - 32) else c.

Definition eqb_ci (a b : ascii) : bool := Ascii.eqb (lower a) (lower b).

End Char.

(** ** Strings: the [str] methods the engine uses *)

Module Str.

Fixpoint map (f : ascii -> ascii) (s : string) : string :=
  match s with
  | EmptyString => EmptyString
  | String c s' => String (f c) (map f s')
  end.

Fixpoint existsb (p : ascii -> bool) (s : string) : bool :=
  match s with
  | EmptyString => false
  | String c s' => p c || existsb p s'
  end.

(** [s.lower()] *)
Definition lower (s : string) : string := map Char.lower s.

Fixpoint lstrip (s : string) : string :=
  match s with
  | EmptyString => EmptyString
  | String c s' => if Char.isspace c then lstrip s' else s
  end.

Fixpoint rstrip (s : string) : string :=
  match s with
  | EmptyString => EmptyString
  | String c s' =>
      match rstrip s' with
      | EmptyString => if Char.isspace c then EmptyString else String c EmptyString
      | r => String c r
      end
  end.

(** [s.strip()] *)
Definition strip (s : string) : string := rstrip (lstrip s).

(** [s.lstrip(ch)] for a one-character argument. *)
Fixpoint lstrip_char (ch : ascii) (s : string) : string :=
  match s with
  | EmptyString => EmptyString
  | String c s' => if Ascii.eqb c ch then lstrip_char ch s' else s
  end.

(** [s.startswith(p)] *)
Definition startswith (s p : string) : bool := String.prefix p s.

(** [sub in s] *)
Fixpoint contains (sub s : string) : bool :=
  String.prefix sub s ||
  match s with
  | EmptyString => false
  | String _ s' => contains sub s'
  end.

(** [s.split(sep)[0]]: the text before the first occurrence of [sep],
    all of [s] when there is none. *)
Fixpoint split_head (sep s : string) : string :=
  if String.prefix sep s then EmptyString
  else match s with
       | EmptyString => EmptyString
       | String c s' => String c (split_head sep s')
       end.

(** [s[n:]] *)
Fixpoint drop (n : nat) (s : string) : string :=
  match n, s with
  | O, _ => s
  | S n', String _ s' => drop n' s'
  | S _, EmptyString => EmptyString
  end.

Definition nonempty (s : string) : bool :=
  match s with EmptyString => false | _ => true end.

(** [s[:n]] *)
Fixpoint take (n : nat) (s : string) : string :=
  match n, s with
  | S n', String c s' => String c (take n' s')
  | _, _ => EmptyString
  end.

(** [s.split(sep, 1)[1]]: the text after the first occurrence of [sep],
    when there is one. *)
Fixpoint split_tail (sep s : string) : option string :=
  if String.prefix sep s then Some (Str.drop (String.length sep) s)
  else match s with
       | EmptyString => None
       | String _ s' => split_tail sep s'
       end.

End Str.

(** ** The [re] module *)

Module Re.

Inductive char_category := CatSpace | CatDigit | CatWord.

(** One member of a bracket expression. *)
Inductive cls_item :=
| One (c : ascii)
| Range (lo hi : ascii)
| Cat (neg : bool) (k : char_category).

Inductive regex :=
| Eps
| Bol                                        (* ^ *)
| Cls (neg : bool) (items : list cls_item)   (* a literal, \s, \d, [...], [^...] *)
| Seq (r1 r2 : regex)
| Alt (r1 r2 : regex)
| Star (r : regex)                           (* greedy *)
| Grp (n : nat) (r : regex).                 (* capturing group number n *)

Definition Lit (c : ascii) : regex := Cls false [One c].
Definition Plus (r : regex) : regex := Seq r (Star r).
Definition Opt (r : regex) : regex := Alt r Eps.

(** [r{0,n}], greedy: as many as possible first. *)
Fixpoint upto (r : regex) (n : nat) : regex :=
  match n with
  | O => Eps
  | S n' => Alt (Seq r (upto r n')) Eps
  end.

(** [r{m,m+n}] *)
Fixpoint repeat (r : regex) (m n : nat) : regex :=
  match m with
  | O => upto r n
  | S m' => Seq r (repeat r m' n)
  end.

Definition cat_matches (k : char_category) (c : ascii) : bool :=
  match k with
  | CatSpace => Char.isspace c
  | CatDigit => Char.isdecimal c
  | CatWord => Char.isword c
  end.

Definition in_range (lo hi c : ascii) : bool :=
  ((Char.code lo <=? Char.code c) && (Char.code c <=? Char.code hi))%N.

(** With [ic] (re.IGNORECASE) the subject character is lowered and
    compared with the lowered members of the set. *)
Definition item_matches (ic : bool) (it : cls_item) (c : ascii) : bool :=
  match it with
  | One a => if ic then Char.eqb_ci a c else Ascii.eqb a c
  | Range lo hi =>
      if ic then in_range lo hi (Char.lower c) || in_range lo hi (Char.upper c)
      else in_range lo hi c
  | Cat neg k => xorb neg (cat_matches k (if ic then Char.lower c else c))
  end.

Definition cls_matches (ic neg : bool) (items : list cls_item) (c : ascii) : bool :=
  xorb neg (List.existsb (fun it => item_matches ic it c) items).

(** Captures: group number, start and end offsets; the newest first. *)
Definition captures := list (nat * (nat * nat)).

Record mstate := MState {
  m_pos : nat;          (* offset in the subject *)
  m_rest : string;      (* the subject from that offset on *)
  m_caps : captures
}.

Definition set_cap (n start : nat) (st : mstate) : mstate :=
  MState (m_pos st) (m_rest st) ((n, (start, m_pos st)) :: m_caps st).

(** The greedy loop of a [Star]: one more iteration of [body] first, which
    must consume at least one character, and the continuation [k] when
    no further iteration leads to a match.  No iteration is left when the
    fuel, one more than the characters that remain, is used up. *)
Fixpoint star_loop (body : (mstate -> option mstate) -> mstate -> option mstate)
    (k : mstate -> option mstate) (fuel : nat) (st : mstate) {struct fuel}
  : option mstate :=
  match fuel with
  | O => k st
  | S fuel' =>
      match body (fun st' => if (m_pos st <? m_pos st')%nat
                             then star_loop body k fuel' st' else None) st with
      | Some res => Some res
      | None => k st
      end
  end.

(** The backtracking matcher, in continuation-passing style: alternatives
    are tried in order and the first complete match is kept, as [re]
    does. *)
Fixpoint run (ic : bool) (r : regex) (k : mstate -> option mstate)
    (st : mstate) {struct r} : option mstate :=
  match r with
  | Eps => k st
  | Bol => if (m_pos st =? 0)%nat then k st else None
  | Cls neg items =>
      match m_rest st with
      | String c s' =>
          if cls_matches ic neg items c
          then k (MState (S (m_pos st)) s' (m_caps st))
          else None
      | EmptyString => None
      end
  | Seq r1 r2 => run ic r1 (run ic r2 k) st
  | Alt r1 r2 =>
      match run ic r1 k st with
      | Some res => Some res
      | None => run ic r2 k st
      end
  | Star r1 => star_loop (run ic r1) k (S (String.length (m_rest st))) st
  | Grp n r1 => run ic r1 (fun st' => k (set_cap n (m_pos st) st')) st
  end.

(** A match object: where it starts, and the final matcher state. *)
Record mobj := MObj { mo_start : nat; mo_state : mstate }.

Definition mo_end (m : mobj) : nat := m_pos (mo_state m).

Definition match_at (ic : bool) (r : regex) (pos : nat) (rest : string)
  : option mobj :=
  match run ic r Some (MState pos rest []) with
  | Some st => Some (MObj pos st)
  | None => None
  end.

(** [pattern.match(s)] *)
Definition rmatch (ic : bool) (r : regex) (s : string) : option mobj :=
  match_at ic r 0 s.

Fixpoint search_from (ic : bool) (r : regex) (pos : nat) (rest : string)
  : option mobj :=
  match match_at ic r pos rest with
  | Some m => Some m
  | None =>
      match rest with
      | EmptyString => None
      | String _ rest' => search_from ic r (S pos) rest'
      end
  end.

(** [pattern.search(s)] *)
Definition search (ic : bool) (r : regex) (s : string) : option mobj :=
  search_from ic r 0 s.

Fixpoint lookup_cap (n : nat) (cs : captures) : option (nat * nat) :=
  match cs with
  | [] => None
  | (n', se) :: cs' => if (n =? n')%nat then Some se else lookup_cap n cs'
  end.

(** [m.group(n)] for [n >= 1] on the subject [s]; the empty string stands
    for a group that took no part in the match. *)
Definition group (s : string) (m : mobj) (n : nat) : string :=
  match lookup_cap n (m_caps (mo_state m)) with
  | Some (b, e) => String.substring b (e - b) s
  | None => EmptyString
  end.

(** [m.group(0)] *)
Definition group0 (s : string) (m : mobj) : string :=
  String.substring (mo_start m) (mo_end m - mo_start m) s.

(** [pattern.finditer(s)]: the matches from left to right, each search
    resuming where the previous match ended (one character further after
    an empty match). *)
Fixpoint finditer_from (fuel : nat) (ic : bool) (r : regex) (pos : nat)
    (rest : string) : list mobj :=
  match fuel with
  | O => []
  | S fuel' =>
      match match_at ic r pos rest with
      | Some m =>
          if (pos <? mo_end m)%nat
          then m :: finditer_from fuel' ic r (mo_end m) (m_rest (mo_state m))
          else m :: match rest with
                    | EmptyString => []
                    | String _ rest' => finditer_from fuel' ic r (S pos) rest'
                    end
      | None =>
          match rest with
          | EmptyString => []
          | String _ rest' => finditer_from fuel' ic r (S pos) rest'
          end
      end
  end.

Definition finditer (ic : bool) (r : regex) (s : string) : list mobj :=
  finditer_from (S (String.length s)) ic r 0 s.

(** [pattern.sub(repl, s)] for a replacement without group references. *)
Fixpoint sub_from (fuel : nat) (ic : bool) (r : regex) (repl : string)
    (pos : nat) (rest : string) : string :=
  match fuel with
  | O => rest
  | S fuel' =>
      match match_at ic r pos rest with
      | Some m =>
          if (pos <? mo_end m)%nat
          then repl ++ sub_from fuel' ic r repl (mo_end m) (m_rest (mo_state m))
          else repl ++ match rest with
                       | EmptyString => EmptyString
                       | String c rest' =>
                           String c (sub_from fuel' ic r repl (S pos) rest')
                       end
      | None =>
          match rest with
          | EmptyString => EmptyString
          | String c rest' => String c (sub_from fuel' ic r repl (S pos) rest')
          end
      end
  end.

Definition sub (ic : bool) (r : regex) (repl s : string) : string :=
  sub_from (S (String.length s)) ic r repl 0 s.

End Re.

(** ** [re.compile]: from pattern text to the syntax tree *)

Module Parse.
Import Re.

Definition digit_val (c : ascii) : nat := N.to_nat (Char.code c - 48).

Fixpoint parse_nat (acc : nat) (s : string) : nat * string :=
  match s with
  | String c s' =>
      if Char.isdecimal c then parse_nat (10 * acc + digit_val c) s' else (acc, s)
  | EmptyString => (acc, s)
  end.

(** The character after a backslash.  The class escapes are [\s \S \d \D
    \w \W]; an escaped punctuation character is itself; any other escaped
    letter or digit is not part of the modelled syntax. *)
Definition escape_item (c : ascii) : option cls_item :=
  match c with
  | "s"%char => Some (Cat false CatSpace)
  | "S"%char => Some (Cat true CatSpace)
  | "d"%char => Some (Cat false CatDigit)
  | "D"%char => Some (Cat true CatDigit)
  | "w"%char => Some (Cat false CatWord)
  | "W"%char => Some (Cat true CatWord)
  | _ => if Char.isword c && Char.between 0 127 c then None else Some (One c)
  end.

(** The members of a bracket expression, up to the closing bracket. *)
Fixpoint parse_class (s : string) (acc : list cls_item)
  : option (list cls_item * string) :=
  match s with
  | EmptyString => None
  | String "]" s' => Some (rev acc, s')
  | String "\" (String c s') =>
      match escape_item c with
      | Some it => parse_class s' (it :: acc)
      | None => None
      end
  | String "\" EmptyString => None
  | String c (String "-" (String "]" s')) =>
      Some (rev (One "-" :: One c :: acc), s')
  | String _ (String "-" (String "\" _)) => None
  | String c (String "-" (String d s')) => parse_class s' (Range c d :: acc)
  | String c s' => parse_class s' (One c :: acc)
  end.

(** The quantifier, if any, that follows an atom: [* + ? {m} {m,n}].
    Lazy and possessive quantifiers are not part of the modelled syntax. *)
Definition no_second_quantifier (s : string) : bool :=
  match s with
  | String "?" _ | String "*" _ | String "+" _ => false
  | _ => true
  end.

Definition parse_quant (a : regex) (s : string) : option (regex * string) :=
  let ok r s' := if no_second_quantifier s' then Some (r, s') else None in
  match s with
  | String "*" s' => ok (Star a) s'
  | String "+" s' => ok (Plus a) s'
  | String "?" s' => ok (Opt a) s'
  | String "{" s' =>
      let '(m, s1) := parse_nat 0 s' in
      match s1 with
      | String "}" s2 => ok (repeat a m 0) s2
      | String "," s2 =>
          let '(n, s3) := parse_nat 0 s2 in
          match s3 with
          | String "}" s4 => if (m <=? n)%nat then ok (repeat a m (n - m)) s4 else None
          | _ => None
          end
      | _ => None
      end
  | _ => Some (a, s)
  end.

Definition is_meta (c : ascii) : bool :=
  match c with
  | "*"%char | "+"%char | "?"%char | "{"%char | "}"%char
  | ")"%char | "|"%char | "$"%char => true
  | _ => false
  end.

Definition result := option (regex * string * nat).

(** Recursive descent; the third component threads the number of the
    next capturing group. *)
Fixpoint parse_alt (fuel : nat) (s : string) (g : nat) {struct fuel} : result :=
  match fuel with
  | O => None
  | S f =>
      match parse_seq f s g with
      | Some (r1, String "|" s', g') =>
          match parse_alt f s' g' with
          | Some (r2, s'', g'') => Some (Alt r1 r2, s'', g'')
          | None => None
          end
      | other => other
      end
  end
with parse_seq (fuel : nat) (s : string) (g : nat) {struct fuel} : result :=
  match fuel with
  | O => None
  | S f =>
      match s with
      | EmptyString | String "|" _ | String ")" _ => Some (Eps, s, g)
      | _ =>
          match parse_atom f s g with
          | Some (a, s1, g1) =>
              match parse_quant a s1 with
              | Some (q, s2) =>
                  match parse_seq f s2 g1 with
                  | Some (Eps, s3, g3) => Some (q, s3, g3)
                  | Some (r, s3, g3) => Some (Seq q r, s3, g3)
                  | None => None
                  end
              | None => None
              end
          | None => None
          end
      end
  end
with parse_atom (fuel : nat) (s : string) (g : nat) {struct fuel} : result :=
  match fuel with
  | O => None
  | S f =>
      match s with
      | EmptyString => None
      | String "(" (String "?" (String ":" s')) =>
          match parse_alt f s' g with
          | Some (r, String ")" s'', g') => Some (r, s'', g')
          | _ => None
          end
      | String "(" (String "?" _) => None
      | String "(" s' =>
          match parse_alt f s' (S g) with
          | Some (r, String ")" s'', g') => Some (Grp g r, s'', g')
          | _ => None
          end
      | String "[" (String "^" s') =>
          match parse_class s' [] with
          | Some (items, s'') => Some (Cls true items, s'', g)
          | None => None
          end
      | String "[" s' =>
          match parse_class s' [] with
          | Some (items, s'') => Some (Cls false items, s'', g)
          | None => None
          end
      | String "\" (String c s') =>
          match escape_item c with
          | Some it => Some (Cls false [it], s', g)
          | None => None
          end
      | String "\" EmptyString => None
      | String "^" s' => Some (Bol, s', g)
      | String "." s' => Some (Cls true [One "010"%char], s', g)
      | String c s' => if is_meta c then None else Some (Lit c, s', g)
      end
  end.

(** [re.compile(pattern)]; [None] where Python raises [re.error] or the
    pattern uses syntax outside the modelled fragment. *)
Definition compile (p : string) : option regex :=
  match parse_alt (4 * String.length p + 4) p 1 with
  | Some (r, EmptyString, _) => Some r
  | _ => None
  end.

(** Patterns of the program are constants that compile; a pattern that
    does not is read as the regex that matches nothing. *)
Definition re (p : string) : regex :=
  match compile p with
  | Some r => r
  | None => Cls false []
  end.

End Parse.

(** ** [list.sort(key=...)] and [sorted]: a stable sort *)

Section Sort.
Context {A : Type} (le : A -> A -> bool).

(** [x] goes in front of the first element it does not exceed, so it
    stays in front of the equal elements that followed it. *)
Fixpoint insert_sorted (x : A) (l : list A) : list A :=
  match l with
  | [] => [x]
  | y :: l' => if le x y then x :: l else y :: insert_sorted x l'
  end.

Fixpoint sort (l : list A) : list A :=
  match l with
  | [] => []
  | x :: l' => insert_sorted x (sort l')
  end.

End Sort.

(** Sorting on an integer key. *)
Definition sort_on {A : Type} (key : A -> Z) : list A -> list A :=
  sort (fun a b => key a <=? key b).

(** ** app/models.py *)

Inductive CitationCategory :=
| CASES | STATUTES | CONSTITUTIONAL | RULES | OTHER.

Definition category_eqb (a b : CitationCategory) : bool :=
  match a, b with
  | CASES, CASES | STATUTES, STATUTES | CONSTITUTIONAL, CONSTITUTIONAL
  | RULES, RULES | OTHER, OTHER => true
  | _, _ => false
  end.

(** [list(CitationCategory).index(self)] *)
Definition sort_order (c : CitationCategory) : Z :=
  match c with
  | CASES => 0 | STATUTES => 1 | CONSTITUTIONAL => 2 | RULES => 3 | OTHER => 4
  end.

Record Citation := mkCitation {
  full_text : string;
  display_name : string;
  category : CitationCategory;
  pages : list Z;
  is_primary : bool;
  is_short_form : bool;
  parent_key : option string;
  normalized_key : string;
  confidence : Q;
  sort_key : string
}.

Definition set_pages (c : Citation) (ps : list Z) : Citation :=
  mkCitation (full_text c) (display_name c) (category c) ps (is_primary c)
    (is_short_form c) (parent_key c) (normalized_key c) (confidence c) (sort_key c).

Definition set_category (c : Citation) (cat : CitationCategory) : Citation :=
  mkCitation (full_text c) (display_name c) cat (pages c) (is_primary c)
    (is_short_form c) (parent_key c) (normalized_key c) (confidence c) (sort_key c).

Definition set_parent_key (c : Citation) (k : option string) : Citation :=
  mkCitation (full_text c) (display_name c) (category c) (pages c) (is_primary c)
    (is_short_form c) k (normalized_key c) (confidence c) (sort_key c).

Definition set_confidence (c : Citation) (q : Q) : Citation :=
  mkCitation (full_text c) (display_name c) (category c) (pages c) (is_primary c)
    (is_short_form c) (parent_key c) (normalized_key c) q (sort_key c).

Definition set_sort_key (c : Citation) (k : string) : Citation :=
  mkCitation (full_text c) (display_name c) (category c) (pages c) (is_primary c)
    (is_short_form c) (parent_key c) (normalized_key c) (confidence c) k.

(** [p in pages] *)
Definition page_in (p : Z) (ps : list Z) : bool := List.existsb (Z.eqb p) ps.

(** The loop of [Citation.merge_pages]: every page of [other] that the
    receiver does not hold yet is appended. *)
Fixpoint append_new_pages (self_pages other_pages : list Z) : list Z :=
  match other_pages with
  | [] => self_pages
  | p :: ps =>
      append_new_pages
        (if page_in p self_pages then self_pages else self_pages ++ [p]) ps
  end.

(** [Citation.merge_pages] *)
Definition merge_pages (self other : Citation) : Citation :=
  set_pages self (sort Z.leb (append_new_pages (pages self) (pages other))).

(** The article loop of [generate_sort_key]: the first of ["A "], ["An "],
    ["The "] that starts the name is cut off. *)
Fixpoint strip_article (articles : list string) (name : string) : string :=
  match articles with
  | [] => name
  | a :: rest =>
      if Str.startswith name a then Str.drop (String.length a) name
      else strip_article rest name
  end.

(** [Citation.generate_sort_key] *)
Definition generate_sort_key (c : Citation) : Citation :=
  let name := Str.strip (display_name c) in
  let name := Str.strip (Str.lstrip_char "*" name) in
  let name := strip_article ["A "; "An "; "The "] name in
  set_sort_key c
    (Str.strip (Re.sub false (Parse.re "[^a-z0-9 ]") "" (Str.lower name))).

(** [str(n)] for an [int]: its decimal digits, after a minus sign when
    it is negative. *)
Definition str_of_int (n : Z) : string := NilZero.string_of_int (Z.to_int n).

(** [set(pages)], listed: the order of a set is not observable and
    [page_display] sorts it at once. *)
Fixpoint set_of (ps : list Z) : list Z :=
  match ps with
  | [] => []
  | p :: ps' => if page_in p ps' then set_of ps' else p :: set_of ps'
  end.

(** The text of one range: [f"{start}" if start == end else f"{start}-{end}"]. *)
Definition range_text (start end_ : Z) : string :=
  if start =? end_ then str_of_int start
  else str_of_int start ++ "-" ++ str_of_int end_.

(** The loop of [page_display] over [pages[1:]] and the append after it. *)
Fixpoint page_display_loop (ranges : list string) (start end_ : Z) (ps : list Z)
  : list string :=
  match ps with
  | [] => (ranges ++ [range_text start end_])%list
  | p :: ps' =>
      if p =? end_ + 1 then page_display_loop ranges start p ps'
      else page_display_loop (ranges ++ [range_text start end_])%list p p ps'
  end.

(** [Citation.page_display] *)
Definition page_display (c : Citation) : string :=
  match pages c with
  | [] => ""
  | _ =>
      match sort Z.leb (set_of (pages c)) with
      | [] => ""
      | p0 :: rest => String.concat ", " (page_display_loop [] p0 p0 rest)
      end
  end.

(** [list(CitationCategory)]: the categories in the order of the enum. *)
Definition ALL_CATEGORIES : list CitationCategory :=
  [CASES; STATUTES; CONSTITUTIONAL; RULES; OTHER].

Module CourtPreset.
Record t := mk {
  name : string;
  code : string;
  categories_order : list CitationCategory;
  case_italics : bool;
  primary_marker : string;
  font_name : string;
  font_size_title : Z;
  font_size_heading : Z;
  font_size_body : Z;
  hanging_indent_inches : Q;
  tab_position_inches : Q;
  notes : string
}.
End CourtPreset.

Module TOAProject.

Record t := mk {
  source_path : option string;
  source_type : option string;
  citations : list Citation;
  preset : option CourtPreset.t;
  output_path : option string
}.

Definition set_citations (self : t) (cs : list Citation) : t :=
  mk (source_path self) (source_type self) cs (preset self) (output_path self).

(** [primary_citations] *)
Definition primary_citations (self : t) : list Citation :=
  List.filter (fun c => negb (is_short_form c)) (citations self).

(** [citation_count] *)
Definition citation_count (self : t) : Z :=
  Z.of_nat (length (primary_citations self)).

(** [if not e.sort_key: e.generate_sort_key()] *)
Definition ensure_sort_key (e : Citation) : Citation :=
  if Str.nonempty (sort_key e) then e else generate_sort_key e.

(** [c.category == cat and not c.is_short_form] *)
Definition is_entry (cat : CitationCategory) (c : Citation) : bool :=
  category_eqb (category c) cat && negb (is_short_form c).

(** The sort key [c.sort_key] of the entries of a category. *)
Definition by_sort_key (a b : Citation) : bool := String.leb (sort_key a) (sort_key b).

(** The loop of [citations_by_category] over the categories: the
    entries of a category are objects of [self.citations]; their sort
    keys are completed in place, then the list of them is sorted and
    stored under the category. *)
Fixpoint citations_by_category_loop (cats : list CitationCategory)
    (cs : list Citation) (grouped : list (CitationCategory * list Citation))
  : list Citation * list (CitationCategory * list Citation) :=
  match cats with
  | [] => (cs, grouped)
  | cat :: cats' =>
      match List.filter (is_entry cat) cs with
      | [] => citations_by_category_loop cats' cs grouped
      | _ =>
          let cs' := List.map (fun c => if is_entry cat c then ensure_sort_key c else c) cs in
          let entries := sort by_sort_key (List.filter (is_entry cat) cs') in
          citations_by_category_loop cats' cs' (grouped ++ [(cat, entries)])%list
      end
  end.

(** [citations_by_category]: the project after the call and the dict
    returned, in insertion order. *)
Definition citations_by_category (self : t)
  : t * list (CitationCategory * list Citation) :=
  let '(cs, grouped) := citations_by_category_loop ALL_CATEGORIES (citations self) [] in
  (set_citations self cs, grouped).

End TOAProject.

(** ** app/detection/patterns.py *)

Module Patterns.

(** The section sign, code point 167. *)
Definition SECT : string := String (ascii_of_nat 167) EmptyString.

(** [re.escape]: a backslash in front of every character that can have
    a special meaning in a pattern. *)
Definition is_special (c : ascii) : bool :=
  Str.existsb (Ascii.eqb c) "()[]{}?*+-|^$\.&~# "
  || Char.between 9 13 c.

Fixpoint escape (s : string) : string :=
  match s with
  | EmptyString => EmptyString
  | String c s' =>
      if is_special c then String "\" (String c (escape s'))
      else String c (escape s')
  end.

Definition _reporter_alts (reporters : list string) : string :=
  "(?:" ++ String.concat "|" (List.map escape reporters) ++ ")".

Definition FEDERAL_REPORTERS : list string :=
  [ "U.S."; "S. Ct."; "S.Ct."; "L. Ed."; "L.Ed."; "L. Ed. 2d"; "L.Ed.2d";
    "F."; "F.2d"; "F.3d"; "F.4th";
    "F. Supp."; "F.Supp."; "F. Supp. 2d"; "F.Supp.2d";
    "F. Supp. 3d"; "F.Supp.3d";
    "F. App'x"; "F.App'x"; "Fed. Appx."; "Fed.Appx.";
    "B.R." ].

Definition MICHIGAN_REPORTERS : list string :=
  [ "Mich"; "Mich."; "Mich App"; "Mich. App.";
    "NW2d"; "N.W.2d"; "NW 2d"; "N.W. 2d";
    "Mich Ct Cl"; "Mich. Ct. Cl." ].

Definition REGIONAL_REPORTERS : list string :=
  [ "N.E.2d"; "N.E.3d"; "N.W.2d"; "S.E.2d"; "S.W.2d"; "S.W.3d";
    "So. 2d"; "So.2d"; "So. 3d"; "So.3d";
    "A.2d"; "A.3d"; "P.2d"; "P.3d";
    "Cal. Rptr."; "Cal.Rptr."; "Cal. Rptr. 2d"; "Cal.Rptr.2d";
    "Cal. Rptr. 3d"; "Cal.Rptr.3d" ].

Definition ALL_REPORTERS : list string :=
  (FEDERAL_REPORTERS ++ MICHIGAN_REPORTERS ++ REGIONAL_REPORTERS)%list.

Definition _ALL_REPORTERS_RE : string := _reporter_alts ALL_REPORTERS.

Definition _PARTY : string :=
  "(?:"
  ++ "(?:In\s+re|Ex\s+parte|Matter\s+of)\s+[A-Z][A-Za-z\s.''\-]+"
  ++ "|"
  ++ "[A-Z][A-Za-z.''\-]+(?:\s+[A-Za-z.''\-]+){0,5}"
  ++ "\s+v\.?\s+"
  ++ "[A-Z][A-Za-z.''\-]+(?:\s+[A-Za-z.''\-]+){0,5}"
  ++ ")".

Definition _VOL_REP_PAGE : string :=
  "\d{1,4}\s+" ++ _ALL_REPORTERS_RE ++ "\s+\d{1,5}".

(** In the source the bracket expressions of [_PINCITE], [STATUTE_PUB_LAW]
    and [SHORT_ID] also list the en dash, code point 8211; no character
    of the modelled range equals it, so the sets below match the same
    characters. *)
Definition _PINCITE : string :=
  "(?:(?:,\s*|\s+at\s+)\d{1,5}(?:[\-]\d{1,5})?)?".

Definition CASE_FULL : string :=
  "(?:" ++ _PARTY ++ ",\s*" ++ _VOL_REP_PAGE ++ _PINCITE
  ++ "(?:\s*\([^)]+\d{4}\))?)".

Definition CASE_PARALLEL : string :=
  "(?:" ++ _PARTY ++ ",\s*" ++ _VOL_REP_PAGE
  ++ "(?:\s*;\s*" ++ _VOL_REP_PAGE ++ ")+"
  ++ _PINCITE ++ "(?:\s*\([^)]+\d{4}\))?)".

Definition CASE_UNPUBLISHED : string :=
  "(?:" ++ _PARTY ++ ",\s*"
  ++ "(?:No\.|Nos\.)\s*[\w\-]+(?:\s*,\s*[\w\-]+)*"
  ++ ",?\s*\d{4}\s+(?:WL|LEXIS)\s+\d+"
  ++ "(?:\s*\([^)]+\d{4}\))?)".

Definition STATUTE_USC : string :=
  "(?:\d{1,2}\s+U\.?\s*S\.?\s*C\.?(?:\.?A\.?)?\s*"
  ++ SECT ++ "+\s*[\d]+(?:\.\d+)?(?:\([a-zA-Z0-9]+\))*)".

Definition STATUTE_MCL : string :=
  "(?:M\.?C\.?L\.?(?:A\.?)?\s*" ++ SECT ++ "?\s*"
  ++ "\d{1,4}\.\d{1,5}[a-z]?(?:\([a-zA-Z0-9]+\))*)".

Definition STATUTE_PUB_LAW : string :=
  "(?:(?:Pub\.?\s*L\.?\s*No\.?|Public\s+Law)\s*\d{1,3}[-]\d{1,4})".

Definition CONST_US : string :=
  "(?:U\.?\s*S\.?\s*Const\.?\s*"
  ++ "(?:art\.?\s*[IVX]+|[Aa]mend\.?\s*[IVX]+|\s*" ++ SECT ++ "\s*\d+)"
  ++ "(?:\s*,?\s*(?:" ++ SECT ++ "\s*\d+|cl\.?\s*\d+))*)".

Definition CONST_MICH : string :=
  "(?:(?:Mich\.?\s*|MI\s+)Const\.?\s*(?:(?:19|20)\d{2}\s*)?"
  ++ "(?:art\.?\s*[IVX]+\d*|[Aa]mend\.?\s*[IVX]+)"
  ++ "(?:\s*,?\s*" ++ SECT ++ "\s*\d+)*)".

Definition RULE_FEDERAL : string :=
  "(?:Fed\.?\s*R\.?\s*"
  ++ "(?:Civ\.?\s*P\.?|App\.?\s*P\.?|Evid\.?|Crim\.?\s*P\.?|Bankr\.?\s*P\.?)"
  ++ "\s*\d{1,4}(?:\([a-zA-Z0-9]+\))*)".

Definition RULE_MICHIGAN : string :=
  "(?:(?:MCR|MRE|MRCrP|M\.?C\.?R\.?|Mich\.?\s*(?:Ct\.?\s*)?R\.?)\s*"
  ++ "\d{1,2}\.\d{1,4}(?:\([A-Za-z0-9]+\))*)".

Definition RULE_LOCAL : string :=
  "(?:(?:[EWSN]\.?D\.?\s*(?:Mich|Tex|Cal|N\.?Y|Ill|Ohio|Pa)\.?\s*)"
  ++ "(?:LR|LCivR|LCrR|LBR)\s*\d{1,3}\.\d{1,3}(?:\([a-zA-Z0-9]+\))*)".

Definition SHORT_ID : string :=
  "(?:Id\.(?:\s+at\s+\d{1,5}(?:[\-]\d{1,5})?)?)".

Definition SHORT_SUPRA : string :=
  "(?:[A-Z][a-z]+(?:\s+[A-Z][a-z]+)?"
  ++ ",?\s+supra"
  ++ "(?:,?\s+at\s+\d{1,5})?)".

Definition SHORT_CASE_PINCITE : string :=
  "(?:\d{1,4}\s+" ++ _ALL_REPORTERS_RE ++ "\s+at\s+\d{1,5})".

Definition OTHER_RESTATEMENT : string :=
  "(?:Restatement\s*\([^)]+\)\s*(?:of\s+)?"
  ++ "[A-Z][a-zA-Z\s]+" ++ SECT ++ "\s*\d+[A-Z]?)".

Definition OTHER_LAW_REVIEW : string :=
  "(?:\d{1,3}\s+[A-Z][a-zA-Z.]+\s+(?:L\.?\s*(?:Rev|J)\.?|Law\s+(?:Review|Journal))"
  ++ "\s+\d{1,5}(?:\s*\(\d{4}\))?)".

Definition OTHER_TREATISE : string :=
  "(?:[A-Z][a-z]+(?:\s*[&,]\s*[A-Z][a-z]+)+,?\s+"
  ++ "[A-Z][a-zA-Z\s]+" ++ SECT ++ "\s*\d+(?:\.\d+)?)".

(** The registry of the source, as (name, pattern text, category); the
    pattern is compiled where it is used. *)
Definition PATTERN_SOURCES : list (string * string * CitationCategory) :=
  [ ("case_parallel", CASE_PARALLEL, CASES);
    ("case_unpublished", CASE_UNPUBLISHED, CASES);
    ("case_full", CASE_FULL, CASES);
    ("statute_usc", STATUTE_USC, STATUTES);
    ("statute_mcl", STATUTE_MCL, STATUTES);
    ("statute_pub_law", STATUTE_PUB_LAW, STATUTES);
    ("const_us", CONST_US, CONSTITUTIONAL);
    ("const_mich", CONST_MICH, CONSTITUTIONAL);
    ("rule_federal", RULE_FEDERAL, RULES);
    ("rule_michigan", RULE_MICHIGAN, RULES);
    ("rule_local", RULE_LOCAL, RULES);
    ("other_restatement", OTHER_RESTATEMENT, OTHER);
    ("other_law_review", OTHER_LAW_REVIEW, OTHER);
    ("other_treatise", OTHER_TREATISE, OTHER);
    ("short_id", SHORT_ID, CASES);
    ("short_supra", SHORT_SUPRA, CASES);
    ("short_case_pincite", SHORT_CASE_PINCITE, CASES) ].

Definition PATTERN_REGISTRY : list (string * Re.regex * CitationCategory) :=
  List.map (fun '(name, p, cat) => (name, Parse.re p, cat)) PATTERN_SOURCES.

End Patterns.

(** ** app/detection/short_form.py *)

(** Citations are mutable objects shared between lists: a heap holds the
    objects and the lists hold references (indices) into it.  Python has
    no dangling reference; a lookup outside the heap leaves it as it is. *)
Abbreviation heap := (list Citation).

(** The objects a list of references stands for. *)
Fixpoint derefs (h : heap) (refs : list nat) : list Citation :=
  match refs with
  | [] => []
  | r :: refs' =>
      match h !! r with
      | Some c => c :: derefs h refs'
      | None => derefs h refs'
      end
  end.

(** [min(c.pages) if c.pages else 0] *)
Definition min_page (c : Citation) : Z :=
  match pages c with
  | [] => 0
  | p :: ps => fold_left Z.min ps p
  end.

Module ShortForm.

Definition ID_RE : Re.regex := Parse.re "^Id\.|^Ibid\.".
Definition SUPRA_NAME_RE : Re.regex := Parse.re "^([A-Z][a-z]+(?:\s+[A-Z][a-z]+)?)".
Definition VOL_REPORTER_RE : Re.regex := Parse.re "(\d+)\s+(\S+(?:\.\S+)*)".
Definition SPACE_OR_DOT_RE : Re.regex := Parse.re "[\s.]".

Definition _is_id_cite (text : string) : bool :=
  match Re.rmatch true ID_RE text with Some _ => true | None => false end.

Definition _is_supra_cite (text : string) : bool :=
  Str.contains "supra" (Str.lower text).

(** The two assignments every strategy ends with:
    [short_cite.parent_key = fc.normalized_key] and
    [short_cite.category = fc.category]. *)
Definition link (short_cite fc : Citation) : Citation :=
  set_category (set_parent_key short_cite (Some (normalized_key fc))) (category fc).

(** The loop of [_resolve_id]: [best] follows the citations whose first
    page is not after [sc_page], until the first one that is. *)
Fixpoint _resolve_id_loop (best : option Citation) (ordered_fulls : list Citation)
    (sc_page : Z) : option Citation :=
  match ordered_fulls with
  | [] => best
  | fc :: rest =>
      if min_page fc <=? sc_page
      then _resolve_id_loop (Some fc) rest sc_page
      else best
  end.

Definition _resolve_id (short_cite : Citation) (ordered_fulls : list Citation)
    (sc_page : Z) : Citation :=
  match _resolve_id_loop None ordered_fulls sc_page with
  | Some best => link short_cite best
  | None => short_cite
  end.

Definition first_party (fc : Citation) : string :=
  Str.lower (Str.strip (Str.split_head " v " (Str.split_head " v." (display_name fc)))).

Fixpoint _resolve_supra_loop (short_cite : Citation) (name : string)
    (ordered_fulls : list Citation) : Citation :=
  match ordered_fulls with
  | [] => short_cite
  | fc :: rest =>
      let fc_first_party := first_party fc in
      if Str.contains name fc_first_party || Str.startswith fc_first_party name
      then link short_cite fc
      else _resolve_supra_loop short_cite name rest
  end.

Definition _resolve_supra (short_cite : Citation) (ordered_fulls : list Citation)
    (text : string) : Citation :=
  match Re.rmatch false SUPRA_NAME_RE text with
  | None => short_cite
  | Some m =>
      let name := Str.lower (Re.group text m 1) in
      _resolve_supra_loop short_cite name ordered_fulls
  end.

(** Volume and reporter of a match of [VOL_REPORTER_RE] on [text]: group 1
    as it is, group 2 lowered and without whitespace and periods. *)
Definition vol_reporter (text : string) (m : Re.mobj) : string * string :=
  (Re.group text m 1,
   Re.sub false SPACE_OR_DOT_RE "" (Str.lower (Re.group text m 2))).

Fixpoint _resolve_short_pincite_loop (short_cite : Citation) (vol reporter : string)
    (full_cites : list Citation) : Citation :=
  match full_cites with
  | [] => short_cite
  | fc :: rest =>
      match Re.search false VOL_REPORTER_RE (full_text fc) with
      | Some fc_match =>
          let '(fc_vol, fc_reporter) := vol_reporter (full_text fc) fc_match in
          if String.eqb vol fc_vol && String.eqb reporter fc_reporter
          then link short_cite fc
          else _resolve_short_pincite_loop short_cite vol reporter rest
      | None => _resolve_short_pincite_loop short_cite vol reporter rest
      end
  end.

Definition _resolve_short_pincite (short_cite : Citation) (full_cites : list Citation)
    (text : string) : Citation :=
  match Re.rmatch false VOL_REPORTER_RE text with
  | None => short_cite
  | Some m =>
      let '(vol, reporter) := vol_reporter text m in
      _resolve_short_pincite_loop short_cite vol reporter full_cites
  end.

(** The body of the loop of [resolve_short_forms], on the object [sc]. *)
Definition resolve_one (ordered_fulls full_cites : list Citation) (sc : Citation)
  : Citation :=
  let sc_page := min_page sc in
  let text := Str.strip (full_text sc) in
  if _is_id_cite text then _resolve_id sc ordered_fulls sc_page
  else if _is_supra_cite text then _resolve_supra sc ordered_fulls text
  else _resolve_short_pincite sc full_cites text.

(** One iteration on the heap: the full citations are read through their
    references, the short citation is written back in place. *)
Definition resolve_step (ordered_fulls full_cites : list nat) (h : heap) (sc : nat)
  : heap :=
  match h !! sc with
  | Some c =>
      <[sc := resolve_one (derefs h ordered_fulls) (derefs h full_cites) c]> h
  | None => h
  end.

Definition ref_min_page (h : heap) (r : nat) : Z :=
  match h !! r with Some c => min_page c | None => 0 end.

(** [resolve_short_forms(full_cites, short_cites)]: the heap after the call. *)
Definition resolve_short_forms (h : heap) (full_cites short_cites : list nat) : heap :=
  match full_cites, short_cites with
  | [], _ | _, [] => h
  | _, _ =>
      let ordered_fulls := sort_on (ref_min_page h) full_cites in
      fold_left (resolve_step ordered_fulls full_cites) short_cites h
  end.

End ShortForm.

(** ** app/detection/detector.py *)

Module PageText.
Record t := mk { page : Z; text : string }.
End PageText.

(** [_RawMatch] *)
Module RawMatch.
Record t := mk {
  text : string;
  start : Z;
  end_ : Z;
  page : Z;
  pattern_name : string;
  category : CitationCategory
}.
End RawMatch.

Module Detector.

(** The matches of every registry pattern on one page, offsets shifted
    by the length of the pages before it. *)
Definition scan_page (registry : list (string * Re.regex * CitationCategory))
    (char_offset : Z) (page_data : PageText.t) : list RawMatch.t :=
  let text := PageText.text page_data in
  flat_map
    (fun '(name, pattern, category) =>
       List.map
         (fun m =>
            RawMatch.mk (Str.strip (Re.group0 text m))
              (char_offset + Z.of_nat (Re.mo_start m))
              (char_offset + Z.of_nat (Re.mo_end m))
              (PageText.page page_data) name category)
         (Re.finditer false pattern text))
    registry.

Fixpoint scan_from (registry : list (string * Re.regex * CitationCategory))
    (char_offset : Z) (pages : list PageText.t) : list RawMatch.t :=
  match pages with
  | [] => []
  | page_data :: rest =>
      (scan_page registry char_offset page_data
       ++ scan_from registry
            (char_offset + Z.of_nat (String.length (PageText.text page_data))) rest)%list
  end.

Definition _scan (pages : list PageText.t) : list RawMatch.t :=
  scan_from Patterns.PATTERN_REGISTRY 0 pages.

(** [m.start < occ_end and m.end > occ_start] *)
Definition overlaps (m : RawMatch.t) (occ : Z * Z) : bool :=
  let '(occ_start, occ_end) := occ in
  (RawMatch.start m <? occ_end) && (RawMatch.end_ m >? occ_start).

(** The sort key [(-(m.end - m.start), m.start)], compared as a tuple. *)
Definition longer_first (a b : RawMatch.t) : bool :=
  let ka := - (RawMatch.end_ a - RawMatch.start a) in
  let kb := - (RawMatch.end_ b - RawMatch.start b) in
  (ka <? kb) || ((ka =? kb) && (RawMatch.start a <=? RawMatch.start b)).

Fixpoint keep_loop (matches kept : list RawMatch.t) (occupied : list (Z * Z))
  : list RawMatch.t :=
  match matches with
  | [] => kept
  | m :: rest =>
      if List.existsb (overlaps m) occupied
      then keep_loop rest kept occupied
      else keep_loop rest (kept ++ [m])%list
             (occupied ++ [(RawMatch.start m, RawMatch.end_ m)])%list
  end.

Definition _remove_overlaps (matches : list RawMatch.t) : list RawMatch.t :=
  match matches with
  | [] => []
  | _ =>
      let matches := sort longer_first matches in
      let kept := keep_loop matches [] [] in
      sort_on RawMatch.start kept
  end.

Definition WS_RUN_RE : Re.regex := Parse.re "\s+".
Definition CASE_TRIPLE_RE : Re.regex := Parse.re "(\d+)\s+(\S+(?:\.\s*\S+)*)\s+(\d+)".
Definition SPACE_OR_DOT_RE : Re.regex := Parse.re "[\s.]".
Definition SECT_RUN_RE : Re.regex := Parse.re ("[" ++ Patterns.SECT ++ "]+").
Definition SPACE_DOT_RUN_RE : Re.regex := Parse.re "[\s.]+".

(** The case branch of [_normalize]: volume, reporter and start page of
    the first match of [CASE_TRIPLE_RE], when there is one. *)
Definition case_key (norm : string) : option string :=
  match Re.search false CASE_TRIPLE_RE norm with
  | Some vol_match =>
      let vol := Re.group norm vol_match 1 in
      let rep := Re.sub false SPACE_OR_DOT_RE "" (Re.group norm vol_match 2) in
      let page := Re.group norm vol_match 3 in
      Some (vol ++ "_" ++ rep ++ "_" ++ page)
  | None => None
  end.

Definition _normalize (text pattern_name : string) : string :=
  let norm := Re.sub false WS_RUN_RE " " (Str.lower (Str.strip text)) in
  match (if Str.startswith pattern_name "case_" then case_key norm else None) with
  | Some key => key
  | None =>
      if Str.startswith pattern_name "statute_" then
        let norm := Re.sub false SECT_RUN_RE "s" norm in
        Re.sub false SPACE_DOT_RUN_RE "_" norm
      else if Str.startswith pattern_name "rule_" then
        Re.sub false SPACE_DOT_RUN_RE "_" norm
      else if Str.startswith pattern_name "const_" then
        Re.sub false SPACE_DOT_RUN_RE "_" norm
      else
        Re.sub false SPACE_DOT_RUN_RE "_" norm
  end.

Definition _make_display_name (text : string) (category : CitationCategory) : string :=
  Re.sub false WS_RUN_RE " " (Str.strip text).

Definition to_citation (m : RawMatch.t) : Citation :=
  let is_short := Str.startswith (RawMatch.pattern_name m) "short_" in
  let norm_key :=
    if negb is_short then _normalize (RawMatch.text m) (RawMatch.pattern_name m)
    else "" in
  let display := _make_display_name (RawMatch.text m) (RawMatch.category m) in
  mkCitation (RawMatch.text m) display (RawMatch.category m) [RawMatch.page m]
    false is_short None norm_key 1 "".

Definition _to_citations (matches : list RawMatch.t) : list Citation :=
  List.map to_citation matches.

(** The references, in order, of the objects of [h] that satisfy [p]:
    the list comprehensions of step 4 of [detect]. *)
Fixpoint refs_where (p : Citation -> bool) (h : heap) (i : nat) : list nat :=
  match h with
  | [] => []
  | c :: h' => if p c then i :: refs_where p h' (S i) else refs_where p h' (S i)
  end.

(** [key_to_cite]: a dict in insertion order. *)
Fixpoint dict_has (k : string) (d : list (string * Citation)) : bool :=
  match d with
  | [] => false
  | (k', _) :: d' => String.eqb k k' || dict_has k d'
  end.

Fixpoint dict_get (k : string) (d : list (string * Citation)) : option Citation :=
  match d with
  | [] => None
  | (k', v) :: d' => if String.eqb k k' then Some v else dict_get k d'
  end.

(** The object under key [k] is changed in place. *)
Fixpoint dict_update (k : string) (f : Citation -> Citation)
    (d : list (string * Citation)) : list (string * Citation) :=
  match d with
  | [] => []
  | (k', v) :: d' =>
      if String.eqb k k' then (k', f v) :: d' else (k', v) :: dict_update k f d'
  end.

(** One iteration of the first loop of step 6. *)
Definition merge_full (d : list (string * Citation)) (c : Citation)
  : list (string * Citation) :=
  if dict_has (normalized_key c) d
  then dict_update (normalized_key c) (fun canon => merge_pages canon c) d
  else (d ++ [(normalized_key c, c)])%list.

(** [if p not in pages: pages.append(p); pages.sort()] *)
Definition absorb_page (canon : Citation) (p : Z) : Citation :=
  if page_in p (pages canon) then canon
  else set_pages canon (sort Z.leb (pages canon ++ [p])%list).

(** One iteration of the second loop of step 6. *)
Definition absorb_short (d : list (string * Citation)) (sc : Citation)
  : list (string * Citation) :=
  match parent_key sc with
  | Some pk =>
      if Str.nonempty pk && dict_has pk d
      then dict_update pk (fun canon => fold_left absorb_page (pages sc) canon) d
      else d
  | None => d
  end.

(** The sort key [(c.category.sort_order, c.sort_key)], compared as a tuple. *)
Definition by_category_then_key (a b : Citation) : bool :=
  (sort_order (category a) <? sort_order (category b))
  || ((sort_order (category a) =? sort_order (category b))
      && String.leb (sort_key a) (sort_key b)).

(** Steps 3 to 5 of [detect]: the heap of citation objects after short
    forms have been resolved, with the references of the full and of the
    short-form citations. *)
Definition resolved (raw_matches : list RawMatch.t) : heap * list nat * list nat :=
  let citations := _to_citations raw_matches in
  let full_cites := refs_where (fun c => negb (is_short_form c)) citations 0 in
  let short_cites := refs_where is_short_form citations 0 in
  (ShortForm.resolve_short_forms citations full_cites short_cites,
   full_cites, short_cites).

(** Step 6 of [detect]. *)
Definition merged (full_cites short_cites : list Citation) : list (string * Citation) :=
  let key_to_cite := fold_left merge_full full_cites [] in
  fold_left absorb_short short_cites key_to_cite.

(** Steps 2 to 8 of [detect], from the raw matches of the scan. *)
Definition detect_matches (raw_matches : list RawMatch.t) : list Citation :=
  let raw_matches := _remove_overlaps raw_matches in
  let '(h, full_cites, short_cites) := resolved raw_matches in
  let key_to_cite := merged (derefs h full_cites) (derefs h short_cites) in
  let result := List.map snd key_to_cite in
  let result := List.map generate_sort_key result in
  sort by_category_then_key result.

(** [CitationDetector.detect] *)
Definition detect (pages : list PageText.t) : list Citation :=
  detect_matches (_scan pages).

End Detector.

(** ** app/classifier/rule_classifier.py *)

Module RuleClassifier.

Definition TREATISE_SIGNALS : list string :=
  [ "Wright\s*[&,]\s*Miller";
    "Moore['']s\s+Federal\s+Practice";
    "Prosser\s*[&,]\s*Keeton";
    "Wigmore";
    "Corbin\s+on\s+Contracts";
    "Williston\s+on\s+Contracts";
    "Am\.?\s*Jur\.?\s*2d";
    "C\.?J\.?S\.?";
    "A\.?L\.?R\.?" ].

Definition _TREATISE_RE : Re.regex := Parse.re (String.concat "|" TREATISE_SIGNALS).

Definition _LAW_REVIEW_RE : Re.regex :=
  Parse.re "(?:L\.?\s*Rev|Law\s+Review|L\.?\s*J|Law\s+Journal)".

Definition IN_RE_RE : Re.regex := Parse.re "(?:In\s+re|Ex\s+parte|Matter\s+of)".

Definition found (o : option Re.mobj) : bool :=
  match o with Some _ => true | None => false end.

(** The body of the loop of [reclassify], on the object [cite]. *)
Definition reclassify_one (cite : Citation) : Citation :=
  if is_short_form cite then cite
  else
    let text := full_text cite in
    if category_eqb (category cite) CASES && found (Re.search true _TREATISE_RE text)
    then set_confidence (set_category cite OTHER) (9 # 10)
    else if category_eqb (category cite) CASES
            && found (Re.search true _LAW_REVIEW_RE text)
    then set_confidence (set_category cite OTHER) (9 # 10)
    else if category_eqb (category cite) CASES then
      if negb (Str.contains " v." text) && negb (Str.contains " v " text) then
        if negb (found (Re.rmatch false IN_RE_RE text))
        then set_confidence cite (6 # 10)
        else cite
      else cite
    else cite.

(** [reclassify]: the objects of the list after the call, in list order. *)
Definition reclassify (citations : list Citation) : list Citation :=
  List.map reclassify_one citations.

(** [get_ambiguous] *)
Definition get_ambiguous (citations : list Citation) (threshold : Q) : list Citation :=
  List.filter (fun c => match (confidence c ?= threshold)%Q with Lt => true | _ => false end
                        && negb (is_short_form c)) citations.

End RuleClassifier.

(** ** app/formatter/court_presets.py *)

Module CourtPresets.

Definition michigan_coa : CourtPreset.t :=
  CourtPreset.mk "Michigan Court of Appeals" "michigan_coa"
    [CASES; STATUTES; CONSTITUTIONAL; RULES; OTHER]
    true "*" "Times New Roman" 14 12 12 (1 # 2) (13 # 2) "MCR 7.212(D)".

Definition sixth_circuit : CourtPreset.t :=
  CourtPreset.mk "Sixth Circuit Court of Appeals" "sixth_circuit"
    [CASES; STATUTES; CONSTITUTIONAL; RULES; OTHER]
    true "*" "Times New Roman" 14 12 12 (1 # 2) (13 # 2) "6th Cir. R. 28(a)".

Definition scotus : CourtPreset.t :=
  CourtPreset.mk "Supreme Court of the United States" "scotus"
    [CASES; CONSTITUTIONAL; STATUTES; RULES; OTHER]
    true "*" "Century Schoolbook" 14 12 12 (1 # 2) (13 # 2) "S. Ct. R. 34.1".

Definition ed_michigan : CourtPreset.t :=
  CourtPreset.mk "U.S. District Court, Eastern District of Michigan" "ed_michigan"
    [CASES; STATUTES; CONSTITUTIONAL; RULES; OTHER]
    true "*" "Times New Roman" 14 12 12 (1 # 2) (13 # 2) "E.D. Mich. LR 7.1".

Definition wd_michigan : CourtPreset.t :=
  CourtPreset.mk "U.S. District Court, Western District of Michigan" "wd_michigan"
    [CASES; STATUTES; CONSTITUTIONAL; RULES; OTHER]
    true "*" "Times New Roman" 14 12 12 (1 # 2) (13 # 2) "W.D. Mich. LCivR 7.1".

Definition PRESETS : list (string * CourtPreset.t) :=
  [ ("michigan_coa", michigan_coa); ("sixth_circuit", sixth_circuit);
    ("scotus", scotus); ("ed_michigan", ed_michigan); ("wd_michigan", wd_michigan) ].

Definition DEFAULT_PRESET : string := "michigan_coa".

(** [PRESETS[code]], [None] for the [KeyError]. *)
Fixpoint lookup (code : string) (presets : list (string * CourtPreset.t))
  : option CourtPreset.t :=
  match presets with
  | [] => None
  | (k, p) :: rest => if String.eqb code k then Some p else lookup code rest
  end.

End CourtPresets.

(** ** app/formatter/toa_writer.py *)

Module TOAWriter.

(** [TOAWriter.__init__]: [project.preset or PRESETS[DEFAULT_PRESET]]. *)
Definition init_preset (project : TOAProject.t) : option CourtPreset.t :=
  match TOAProject.preset project with
  | Some p => Some p
  | None => CourtPresets.lookup CourtPresets.DEFAULT_PRESET CourtPresets.PRESETS
  end.




Definition VOLUME_START_RE : Re.regex := Parse.re ",?\s*\d{1,4}\s+(?:[A-Z]|[FBUS])".

(** The texts [case_name] and [rest] that [_add_case_entry] makes of
    [display]: the first in italics, the second not. *)
Definition case_entry_split (display : string) : string * string :=
  match Re.search false VOLUME_START_RE display with
  | Some vol_match =>
      (Str.strip (Str.take (Re.mo_start vol_match) display),
       Str.drop (Re.mo_start vol_match) display)
  | None =>
      (Str.strip (Str.split_head "," display),
       match Str.split_tail "," display with
       | Some after => "," ++ after
       | None => ""
       end)
  end.

End TOAWriter.

(** ** app/parsers/docx_parser.py *)

Module DocxParser.

Definition CHARS_PER_PAGE : Z := 3000.

(** The line feed, code point 10. *)
Definition NL : string := String (ascii_of_nat 10) EmptyString.

(** What [parse_docx] reads of a paragraph of the document: its text,
    and the answers of [_paragraph_has_page_break] and
    [_paragraph_has_section_break], which inspect its XML. *)
Record Paragraph := mkParagraph {
  text : string;
  has_page_break : bool;
  has_section_break : bool
}.

(** The variables of [parse_docx] that [_flush_page] shares with it. *)
Record state := mkState {
  pages : list PageText.t;
  current_page : Z;
  current_text_parts : list string
}.

Definition _flush_page (st : state) : state :=
  let text := Str.strip (String.concat NL (current_text_parts st)) in
  mkState
    (if Str.nonempty text
     then (pages st ++ [PageText.mk (current_page st) text])%list
     else pages st)
    (current_page st) [].

(** [_flush_page(); current_page += 1] *)
Definition break_page (st : state) : state :=
  let st := _flush_page st in
  mkState (pages st) (current_page st + 1) (current_text_parts st).

(** [current_text_parts.append(para_text)] *)
Definition add_part (st : state) (para_text : string) : state :=
  mkState (pages st) (current_page st) (current_text_parts st ++ [para_text])%list.

(** The body of the loop of the first strategy. *)
Definition explicit_step (st : state) (paragraph : Paragraph) : state :=
  let para_text := Str.strip (text paragraph) in
  let st := if has_page_break paragraph then break_page st else st in
  let st := if Str.nonempty para_text then add_part st para_text else st in
  if has_section_break paragraph then break_page st else st.

(** The body of the loop of the second strategy, with [char_count]. *)
Definition estimate_step (acc : state * Z) (paragraph : Paragraph) : state * Z :=
  let '(st, char_count) := acc in
  let para_text := Str.strip (text paragraph) in
  if negb (Str.nonempty para_text) then (st, char_count)
  else
    let char_count := char_count + Z.of_nat (String.length para_text) in
    let st := add_part st para_text in
    if char_count >=? CHARS_PER_PAGE then (break_page st, 0) else (st, char_count).

(** [parse_docx], on the answer of [_has_page_breaks] and the
    paragraphs of the document. *)
Definition parse_docx (has_explicit_breaks : bool) (paragraphs : list Paragraph)
  : list PageText.t :=
  let st0 := mkState [] 1 [] in
  if has_explicit_breaks then
    pages (_flush_page (fold_left explicit_step paragraphs st0))
  else
    let all_text := String.concat NL (List.map text paragraphs) in
    if negb (Str.nonempty (Str.strip all_text)) then []
    else pages (_flush_page (fst (fold_left estimate_step paragraphs (st0, 0)))).

End DocxParser.

(** ** app/parsers/pdf_parser.py *)

Module PdfParser.

(** The loop of [parse_pdf] over the pages of the file, numbered from
    [i]; of a page it reads what [extract_text] returns, [None] or a
    text. *)
Fixpoint parse_pdf_loop (i : Z) (pdf_pages : list (option string))
    (pages : list PageText.t) : list PageText.t :=
  match pdf_pages with
  | [] => pages
  | extracted :: rest =>
      let text := match extracted with Some t => t | None => "" end in
      let text := Str.strip text in
      parse_pdf_loop (i + 1) rest
        (if Str.nonempty text then (pages ++ [PageText.mk i text])%list else pages)
  end.

Definition parse_pdf (pdf_pages : list (option string)) : list PageText.t :=
  parse_pdf_loop 1 pdf_pages [].

End PdfParser.

(** * The vocabulary of the properties *)

Import Detector.
Import ShortForm.

(** ** Lists *)

(** A boolean order read as a relation. *)
Definition le_prop {A : Type} (le : A -> A -> bool) (a b : A) : Prop :=
  le a b = true.

(** [R] holds from every element to every later one. *)
Fixpoint pairwise {A : Type} (R : A -> A -> Prop) (l : list A) : Prop :=
  match l with
  | [] => True
  | x :: l' => Forall (R x) l' /\ pairwise R l'
  end.

(** ** Overlap resolution *)

(** The overlap test of the resolver, between an accepted match [a] and
    a match [b]: [a.start < b.end] and [a.end > b.start]. *)
Definition intersects (a b : RawMatch.t) : Prop :=
  RawMatch.start a < RawMatch.end_ b /\ RawMatch.end_ a > RawMatch.start b.

Definition disjoint (a b : RawMatch.t) : Prop := ~ intersects a b.

(** The entry of [occupied] that an accepted match leaves. *)
Definition span (m : RawMatch.t) : Z * Z := (RawMatch.start m, RawMatch.end_ m).

(** Three candidates on one page: a case citation, a shorter match
    inside it, and a short form after it. *)
Definition sample_long : RawMatch.t :=
  RawMatch.mk "Smith v. Jones, 123 F.3d 456" 0 28 1 "case_full" CASES.
Definition sample_inner : RawMatch.t :=
  RawMatch.mk "123 F.3d 456" 16 28 1 "other_law_review" OTHER.
Definition sample_later : RawMatch.t :=
  RawMatch.mk "Id. at 460" 30 40 1 "short_id" CASES.

Definition match_length (m : RawMatch.t) : Z := RawMatch.end_ m - RawMatch.start m.

(** [a] comes strictly before [m] in the order of the resolver: it is
    longer, or as long and starts earlier. *)
Definition preferred (a m : RawMatch.t) : Prop :=
  match_length m < match_length a
  \/ (match_length m = match_length a /\ RawMatch.start a < RawMatch.start m).

(** A page on which the longer of two intersecting candidates is
    discarded and the shorter survives: the case citation (30 characters)
    loses to the 43-character law-review match that shares its last
    character, after which the short form inside the case citation is
    free to be accepted. *)
Definition crowded_page : PageText.t :=
  PageText.mk 1
    "Smith supra v. Jones, 1 F.3d 2 Northwesternuniversity L. Rev. 456 (2020)".
Definition crowded_case : RawMatch.t :=
  RawMatch.mk "Smith supra v. Jones, 1 F.3d 2" 0 30 1 "case_full" CASES.
Definition crowded_review : RawMatch.t :=
  RawMatch.mk "2 Northwesternuniversity L. Rev. 456 (2020)" 29 72 1
    "other_law_review" OTHER.
Definition crowded_supra : RawMatch.t :=
  RawMatch.mk "Smith supra" 0 11 1 "short_supra" CASES.

(** ** Short-form resolution *)

(** Every field but [parent_key] and [category] is the same. *)
Definition same_but_link (c c' : Citation) : Prop :=
  full_text c' = full_text c /\ display_name c' = display_name c
  /\ pages c' = pages c /\ is_primary c' = is_primary c
  /\ is_short_form c' = is_short_form c
  /\ normalized_key c' = normalized_key c
  /\ confidence c' = confidence c /\ sort_key c' = sort_key c.

(** The strategies as a choice of parent: what the loops of the three
    [_resolve_*] functions select, if anything. *)
Definition supra_match (name : string) (fc : Citation) : bool :=
  Str.contains name (first_party fc) || Str.startswith (first_party fc) name.

(** The test of the loop of [_resolve_short_pincite]: the first volume
    and reporter of [fc.full_text] are [vol] and [reporter]. *)
Definition pincite_match (vol reporter : string) (fc : Citation) : bool :=
  match Re.search false VOL_REPORTER_RE (full_text fc) with
  | Some fc_match =>
      String.eqb vol (fst (vol_reporter (full_text fc) fc_match))
      && String.eqb reporter (snd (vol_reporter (full_text fc) fc_match))
  | None => false
  end.

(** The full citation, if any, that [resolve_one] links [sc] to. *)
Definition parent_of (ordered_fulls full_cites : list Citation) (sc : Citation)
  : option Citation :=
  let text := Str.strip (full_text sc) in
  if _is_id_cite text then _resolve_id_loop None ordered_fulls (min_page sc)
  else if _is_supra_cite text then
    match Re.rmatch false SUPRA_NAME_RE text with
    | Some m => List.find (supra_match (Str.lower (Re.group text m 1))) ordered_fulls
    | None => None
    end
  else
    match Re.rmatch false VOL_REPORTER_RE text with
    | Some m =>
        List.find (pincite_match (fst (vol_reporter text m)) (snd (vol_reporter text m)))
          full_cites
    | None => None
    end.

(** [sc] with [parent_key] and [category] set from [parent], or as it
    is without one. *)
Definition link_to (sc : Citation) (parent : option Citation) : Citation :=
  match parent with Some fc => link sc fc | None => sc end.

(** A heap of three objects: a full citation at reference 0, an [Id.]
    form at 1 and a short pincite at 2. *)
Definition sample_full : Citation :=
  mkCitation "Smith v. Jones, 123 F.3d 456 (6th Cir. 2020)"
    "Smith v. Jones, 123 F.3d 456 (6th Cir. 2020)" CASES [1] false false None
    "123_f3d_456" 1 "".
Definition sample_id : Citation :=
  mkCitation "Id. at 460" "Id. at 460" CASES [2] false true None "" 1 "".
Definition sample_pincite : Citation :=
  mkCitation "123 F.3d at 470" "123 F.3d at 470" CASES [3] false true None "" 1 "".
Definition sample_heap : list Citation := [sample_full; sample_id; sample_pincite].

(** [text] begins with [p], letter case apart. *)
Definition begins_ci (p text : string) : bool :=
  Str.startswith (Str.lower text) (Str.lower p).

(** ** Key normalization *)

(** The first steps of [_normalize]: trimmed, lowered, every run of
    whitespace turned into one space. *)
Definition collapsed (text : string) : string :=
  Re.sub false WS_RUN_RE " " (Str.lower (Str.strip text)).

(** The generic rule: every run of whitespace and periods becomes ["_"]. *)
Definition generic_key (norm : string) : string :=
  Re.sub false SPACE_DOT_RUN_RE "_" norm.

(** The key built from the groups of a match [m] of a triple pattern on
    [norm]: volume, reporter without whitespace and periods, page. *)
Definition triple_key (norm : string) (m : Re.mobj) : string :=
  Re.group norm m 1 ++ "_" ++ Re.sub false Detector.SPACE_OR_DOT_RE "" (Re.group norm m 2)
  ++ "_" ++ Re.group norm m 3.

(** The case rule in the words of the specification, section 4.3: the
    triple is the first match of the pattern the specification gives,
    written here with its three parts as groups. *)
Definition SPEC_TRIPLE_RE : Re.regex := Parse.re "(\d+) (\S+(?:\.\S+)*) (\d+)".

Definition spec_case_key (text : string) : string :=
  let norm := collapsed text in
  match Re.search false SPEC_TRIPLE_RE norm with
  | Some m => triple_key norm m
  | None => generic_key norm
  end.

(** ** The patterns of the program *)

(** [r] can match the empty string. *)
Fixpoint nullable (r : Re.regex) : bool :=
  match r with
  | Re.Eps | Re.Bol | Re.Star _ => true
  | Re.Cls _ _ => false
  | Re.Seq a b => nullable a && nullable b
  | Re.Alt a b => nullable a || nullable b
  | Re.Grp _ a => nullable a
  end.

(** No repetition in [r] is over a body that can match the empty string. *)
Fixpoint plain_stars (r : Re.regex) : bool :=
  match r with
  | Re.Eps | Re.Bol | Re.Cls _ _ => true
  | Re.Seq a b | Re.Alt a b => plain_stars a && plain_stars b
  | Re.Star a => negb (nullable a) && plain_stars a
  | Re.Grp _ a => plain_stars a
  end.

(** The text of every pattern the program compiles outside the registry. *)
Definition INLINE_PATTERNS : list string :=
  [ "^Id\.|^Ibid\."; "^([A-Z][a-z]+(?:\s+[A-Z][a-z]+)?)"; "(\d+)\s+(\S+(?:\.\S+)*)";
    "[\s.]"; "\s+"; "(\d+)\s+(\S+(?:\.\s*\S+)*)\s+(\d+)"; "[\s.]+";
    "[" ++ Patterns.SECT ++ "]+"; "[^a-z0-9 ]";
    String.concat "|" RuleClassifier.TREATISE_SIGNALS;
    "(?:L\.?\s*Rev|Law\s+Review|L\.?\s*J|Law\s+Journal)";
    "(?:In\s+re|Ex\s+parte|Matter\s+of)" ].

(** [p] is in the modelled fragment, matches no empty string and repeats
    no body that could. *)
Definition well_behaved (p : string) : bool :=
  match Parse.compile p with
  | Some r => negb (nullable r) && plain_stars r
  | None => false
  end.

(** ** What a match of a pattern must contain *)

Module Solid.
Import Re.

(** The 256 characters of the model. *)
Definition all_chars : list ascii := List.map ascii_of_nat (seq 0 256).

(** Not whitespace. *)
Definition visible (c : ascii) : bool := negb (Char.isspace c).

(** Every character the set accepts is not whitespace. *)
Definition cls_solid (ic neg : bool) (items : list cls_item) : bool :=
  List.forallb (fun c => implb (cls_matches ic neg items c) (visible c)) all_chars.

(** A sufficient condition, read off the syntax, for every match of [r]
    to hold a character that is not whitespace. *)
Fixpoint solid (ic : bool) (r : regex) : bool :=
  match r with
  | Eps | Bol | Star _ => false
  | Cls neg items => cls_solid ic neg items
  | Seq r1 r2 => solid ic r1 || solid ic r2
  | Alt r1 r2 => solid ic r1 && solid ic r2
  | Grp _ r1 => solid ic r1
  end.

(** [st'] is [st] after the characters [w] have been consumed. *)
Definition advanced (st st' : mstate) (w : string) : Prop :=
  m_rest st = w ++ m_rest st' /\ m_pos st' = (m_pos st + String.length w)%nat.

(** What a successful run tells: the continuation succeeded on a state
    reached by consuming some [w], and [w] holds a visible character
    when the pattern is solid. *)
Definition sound (need : bool) (body : (mstate -> option mstate) -> mstate -> option mstate) : Prop :=
  forall k st res, body k st = Some res ->
    exists st' w, k st' = Some res /\ advanced st st' w
                  /\ (need = true -> Str.existsb visible w = true).

(** A match that [finditer] reports: where it lies in the text searched
    and what it spans. *)
Definition spans (rest : string) (pos : nat) (m : mobj) (w : string) : Prop :=
  exists pre post, rest = pre ++ w ++ post
    /\ mo_start m = (pos + String.length pre)%nat
    /\ mo_end m = (mo_start m + String.length w)%nat.

End Solid.

(** A raw match is well formed when it is a short form or its text holds
    a visible character; every match of a scan is. *)
Definition well_formed (m : RawMatch.t) : Prop :=
  Str.startswith (RawMatch.pattern_name m) "short_" = false ->
  Str.existsb Solid.visible (RawMatch.text m) = true.

(** ** The stages and the output of [detect] *)

(** Sorted ascending with no duplicates. *)
Definition increasing (ps : list Z) : Prop := StronglySorted Z.lt ps.

(** The lists [full_cites] and [short_cites] of [detect] after step 5,
    as the objects they refer to. *)
Definition full_cites_of (raw_matches : list RawMatch.t) : list Citation :=
  let '(h, full_cites, _) := resolved (_remove_overlaps raw_matches) in
  derefs h full_cites.

Definition short_cites_of (raw_matches : list RawMatch.t) : list Citation :=
  let '(h, _, short_cites) := resolved (_remove_overlaps raw_matches) in
  derefs h short_cites.

Definition is_full (c : Citation) : bool := negb (is_short_form c).

(** Every field but [pages] is the same. *)
Definition same_but_pages (c c' : Citation) : Prop :=
  full_text c' = full_text c /\ display_name c' = display_name c
  /\ category c' = category c /\ is_primary c' = is_primary c
  /\ is_short_form c' = is_short_form c /\ parent_key c' = parent_key c
  /\ normalized_key c' = normalized_key c
  /\ confidence c' = confidence c /\ sort_key c' = sort_key c.

(** The update of one key, entry by entry. *)
Definition upd (k : string) (f : Citation -> Citation) (e : string * Citation)
  : string * Citation :=
  if String.eqb k (fst e) then (fst e, f (snd e)) else e.

(** What the dict holds under [k] once the full citations [done] have
    been walked: the first of them with that key, its pages being the
    pages of all of them with that key, in ascending order. *)
Definition merged_entry (done : list Citation) (k : string) (v : Citation) : Prop :=
  exists l1 c l2,
    done = (l1 ++ c :: l2)%list /\ normalized_key c = k
    /\ (forall x, In x l1 -> normalized_key x <> k)
    /\ same_but_pages c v /\ increasing (pages v)
    /\ (forall p, In p (pages v) <->
                  exists x, In x done /\ normalized_key x = k /\ In p (pages x)).

(** The invariant of the first loop of step 6: distinct keys, every
    entry a [merged_entry], every walked citation's key present. *)
Definition merge_inv (done : list Citation) (d : list (string * Citation)) : Prop :=
  NoDup (List.map fst d)
  /\ (forall k v, In (k, v) d -> merged_entry done k v)
  /\ (forall c, In c done -> In (normalized_key c) (List.map fst d)).

(** The short form [sc] is folded into the entry under key [k]:
    [sc.parent_key] is set, not empty, and equal to [k]. *)
Definition absorbs (k : string) (sc : Citation) : bool :=
  match parent_key sc with
  | Some pk => Str.nonempty pk && String.eqb pk k
  | None => false
  end.

(** The entry [v] under key [k] after the second loop has seen [sc]. *)
Definition absorb_into (k : string) (v sc : Citation) : Citation :=
  if absorbs k sc then fold_left absorb_page (pages sc) v else v.

(** [detect]'s [full_cites] (in document order), its [short_cites] after
    resolution, and its [key_to_cite] after the first loop of step 6. *)
Definition detect_full_cites (doc : list PageText.t) : list Citation :=
  full_cites_of (_scan doc).
Definition detect_short_cites (doc : list PageText.t) : list Citation :=
  short_cites_of (_scan doc).
Definition detect_key_to_cite (doc : list PageText.t) : list (string * Citation) :=
  fold_left merge_full (detect_full_cites doc) [].

(** Every field but [pages] and [sort_key] is the same. *)
Definition same_entry (f c : Citation) : Prop :=
  full_text c = full_text f /\ display_name c = display_name f
  /\ category c = category f /\ is_primary c = is_primary f
  /\ is_short_form c = is_short_form f /\ parent_key c = parent_key f
  /\ normalized_key c = normalized_key f /\ confidence c = confidence f.

(** Every maximal run of characters that satisfy [p] replaced by one
    [repl]; [in_run] tells that the character before was of the run. *)
Fixpoint squeeze (p : ascii -> bool) (repl : string) (in_run : bool) (s : string) : string :=
  match s with
  | EmptyString => EmptyString
  | String c s' =>
      if p c then (if in_run then squeeze p repl true s' else repl ++ squeeze p repl true s')
      else String c (squeeze p repl false s')
  end.

(** Every character that satisfies [p] replaced by [repl]. *)
Fixpoint replace_each (p : ascii -> bool) (repl : string) (s : string) : string :=
  match s with
  | EmptyString => EmptyString
  | String c s' =>
      if p c then repl ++ replace_each p repl s' else String c (replace_each p repl s')
  end.

(** The number of leading characters that satisfy [p]. *)
Fixpoint span_len (p : ascii -> bool) (s : string) : nat :=
  match s with
  | EmptyString => O
  | String c s' => if p c then S (span_len p s') else O
  end.

(** The character sets of the substitutions of the program. *)
Definition space_or_dot (c : ascii) : bool := Char.isspace c || Ascii.eqb "." c.
Definition is_sect (c : ascii) : bool := Ascii.eqb (ascii_of_nat 167) c.
Definition sort_char (c : ascii) : bool :=
  Char.between 97 122 c || Char.between 48 57 c || Ascii.eqb " " c.

Fixpoint forall_chars (p : ascii -> bool) (s : string) : bool :=
  match s with
  | EmptyString => true
  | String c s' => p c && forall_chars p s'
  end.

(** [s] does not begin with whitespace. *)
Definition starts_visible (s : string) : bool :=
  match s with
  | EmptyString => true
  | String c _ => Solid.visible c
  end.

Definition space_only (c : ascii) : bool := implb (Char.isspace c) (Ascii.eqb " " c).

(** No two characters in a row satisfy [p]. *)
Fixpoint no_run (p : ascii -> bool) (prev : bool) (s : string) : bool :=
  match s with
  | EmptyString => true
  | String c s' => negb (prev && p c) && no_run p (p c) s'
  end.

(** ** What a group of a pattern captures *)

Module Captured.
Import Re.

(** Every character a set of [r] accepts satisfies [p]. *)
Fixpoint chars_all (ic : bool) (p : ascii -> bool) (r : regex) : bool :=
  match r with
  | Eps | Bol => true
  | Cls neg items =>
      List.forallb (fun c => implb (cls_matches ic neg items c) (p c)) Solid.all_chars
  | Seq r1 r2 | Alt r1 r2 => chars_all ic p r1 && chars_all ic p r2
  | Star r1 | Grp _ r1 => chars_all ic p r1
  end.

(** Every group numbered [n] of [r] only matches characters that
    satisfy [p]. *)
Fixpoint grp_all (ic : bool) (p : ascii -> bool) (n : nat) (r : regex) : bool :=
  match r with
  | Eps | Bol | Cls _ _ => true
  | Seq r1 r2 | Alt r1 r2 => grp_all ic p n r1 && grp_all ic p n r2
  | Star r1 => grp_all ic p n r1
  | Grp n' r1 => (if (n' =? n)%nat then chars_all ic p r1 else true) && grp_all ic p n r1
  end.

(** The state [st] is a state of a match on the subject [s]. *)
Definition on_subject (s : string) (st : mstate) : Prop :=
  exists pre, s = pre ++ m_rest st /\ String.length pre = m_pos st.

(** Every capture of group [n] in [st] spans characters of [s] that
    satisfy [p]. *)
Definition caps_ok (p : ascii -> bool) (n : nat) (s : string) (st : mstate) : Prop :=
  forall b e, In (n, (b, e)) (m_caps st) ->
    forall_chars p (String.substring b (e - b) s) = true.

Definition csound (p : ascii -> bool) (n : nat) (s : string) (all : bool)
    (body : (mstate -> option mstate) -> mstate -> option mstate) : Prop :=
  forall k st res, on_subject s st -> caps_ok p n s st -> body k st = Some res ->
    exists st' w, k st' = Some res /\ Solid.advanced st st' w /\ caps_ok p n s st'
                  /\ (all = true -> forall_chars p w = true).

End Captured.

(** Neither whitespace nor a period. *)
Definition key_char (c : ascii) : bool := negb (space_or_dot c).

(** ** Page ranges *)

(** The ranges of [page_display] as pairs of first and last page. *)
Fixpoint ranges_loop (start end_ : Z) (ps : list Z) : list (Z * Z) :=
  match ps with
  | [] => [(start, end_)]
  | p :: ps' =>
      if p =? end_ + 1 then ranges_loop start p ps'
      else (start, end_) :: ranges_loop p p ps'
  end.

Definition page_ranges (ps : list Z) : list (Z * Z) :=
  match sort Z.leb (set_of ps) with
  | [] => []
  | p0 :: rest => ranges_loop p0 p0 rest
  end.

(** [r2] lies after [r1] with at least one page between them. *)
Definition apart (r1 r2 : Z * Z) : Prop := snd r1 + 1 < fst r2.

(** ** The groups of a project *)

(** The entries of the group of [cat], as [citations_by_category]
    stores them. *)
Definition group_of (cat : CitationCategory) (cs : list Citation) : list Citation :=
  sort TOAProject.by_sort_key
    (List.map TOAProject.ensure_sort_key (List.filter (TOAProject.is_entry cat) cs)).

(** The dict over the categories [cats]: a group for every category
    that has an entry. *)
Definition groups_of (cats : list CitationCategory) (cs : list Citation)
  : list (CitationCategory * list Citation) :=
  List.filter (fun g => match snd g with [] => false | _ => true end)
    (List.map (fun cat => (cat, group_of cat cs)) cats).

(** The citations after the call: those that are not short forms have
    a sort key, generated when they had none. *)
Definition with_sort_keys (cs : list Citation) : list Citation :=
  List.map (fun c => if is_short_form c then c else TOAProject.ensure_sort_key c) cs.

(** The state of the loop once the categories [done] have been walked. *)
Definition touched (done : list CitationCategory) (c : Citation) : Citation :=
  if List.existsb (fun cat => TOAProject.is_entry cat c) done then TOAProject.ensure_sort_key c else c.

(** ** The scan *)

(** The number of characters of the pages of [doc]: the offset at which
    a page after them starts. *)
Definition doc_length (doc : list PageText.t) : Z :=
  fold_right (fun pd n => Z.of_nat (String.length (PageText.text pd)) + n) 0 doc.

(** A raw match moved [d] characters to the right. *)
Definition shift (d : Z) (m : RawMatch.t) : RawMatch.t :=
  RawMatch.mk (RawMatch.text m) (RawMatch.start m + d) (RawMatch.end_ m + d)
    (RawMatch.page m) (RawMatch.pattern_name m) (RawMatch.category m).

(** ** Reclassification *)

(** Every field but [category] and [confidence] is the same. *)
Definition same_but_class (c c' : Citation) : Prop :=
  full_text c' = full_text c /\ display_name c' = display_name c
  /\ pages c' = pages c /\ is_primary c' = is_primary c
  /\ is_short_form c' = is_short_form c /\ parent_key c' = parent_key c
  /\ normalized_key c' = normalized_key c /\ sort_key c' = sort_key c.

(** The three tests of [reclassify] on the text of a citation. *)
Definition treatise_like (text : string) : bool :=
  RuleClassifier.found (Re.search true RuleClassifier._TREATISE_RE text).
Definition review_like (text : string) : bool :=
  RuleClassifier.found (Re.search true RuleClassifier._LAW_REVIEW_RE text).
Definition partyless (text : string) : bool :=
  negb (Str.contains " v." text) && negb (Str.contains " v " text)
  && negb (RuleClassifier.found (Re.rmatch false RuleClassifier.IN_RE_RE text)).

(** ** The pages of a parser *)

(** A text that is not empty and has no whitespace at either end. *)
Definition trimmed (s : string) : Prop := s <> "" /\ Str.strip s = s.

(** The texts of the paragraphs that have one, trimmed. *)
Definition paragraph_texts (paragraphs : list DocxParser.Paragraph) : list string :=
  List.filter Str.nonempty
    (List.map (fun p => Str.strip (DocxParser.text p)) paragraphs).

(** A page produced by a parser is well formed: a number from 1 on and
    a trimmed text. *)
Definition page_ok (pg : PageText.t) : Prop :=
  1 <= PageText.page pg /\ trimmed (PageText.text pg).

Definition page_before (a b : PageText.t) : Prop := PageText.page a < PageText.page b.

Module DocxInv.
Import DocxParser.

(** What the loops keep: the pages so far are well formed, in ascending
    order and before the current page; they are the groups of parts
    flushed so far, and the groups with the parts at hand are the
    paragraph texts seen. *)
Definition inv (seen : list string) (st : state) : Prop :=
  Forall page_ok (pages st)
  /\ StronglySorted page_before (pages st)
  /\ Forall (fun pg => PageText.page pg < current_page st) (pages st)
  /\ 1 <= current_page st
  /\ Forall trimmed (current_text_parts st)
  /\ exists groups,
       Forall (fun g => g <> []) groups
       /\ List.map PageText.text (pages st) = List.map (String.concat NL) groups
       /\ (concat groups ++ current_text_parts st)%list = seen.

(** The sum of the lengths of the parts: [char_count]. *)
Definition total_length (parts : list string) : Z :=
  fold_right (fun t n => Z.of_nat (String.length t) + n) 0 parts.

Definition long_page (pg : PageText.t) : Prop :=
  CHARS_PER_PAGE <= Z.of_nat (String.length (PageText.text pg)).

Definition numbered (out : list PageText.t) : Prop :=
  List.map PageText.page out = List.map Z.of_nat (seq 1 (length out)).

Definition inv2 (seen : list string) (acc : state * Z) : Prop :=
  inv seen (fst acc)
  /\ numbered (pages (fst acc))
  /\ current_page (fst acc) = Z.of_nat (length (pages (fst acc))) + 1
  /\ snd acc = total_length (current_text_parts (fst acc))
  /\ Forall long_page (pages (fst acc)).

End DocxInv.

(** ** Samples *)

(** A document of one page and the citation [detect] returns for it. *)
Definition sample_doc : list PageText.t :=
  [PageText.mk 1 "Smith v. Jones, 123 F.3d 456 (6th Cir. 2020)"].
Definition sample_output : Citation :=
  mkCitation "Smith v. Jones, 123 F.3d 456 (6th Cir. 2020)"
    "Smith v. Jones, 123 F.3d 456 (6th Cir. 2020)" CASES [1] false false None
    "123_f3d_456" 1 "smith v jones 123 f3d 456 6th cir 2020".


(** ** The matcher, some characters further *)

(** The state of the matcher [n] characters further. *)
Definition advance (st : Re.mstate) (n : nat) : Re.mstate :=
  Re.MState (Re.m_pos st + n) (Str.drop n (Re.m_rest st)) (Re.m_caps st).

(** ** First pages and links *)

(** [p] is the first page of [c]: the least of its pages, and 0 when it
    has none. *)
Definition first_page (c : Citation) (p : Z) : Prop :=
  match pages c with
  | [] => p = 0
  | _ :: _ => In p (pages c) /\ forall q, In q (pages c) -> p <= q
  end.

(** [c'] is [c] resolved to [fc]: its [parent_key] is the
    [normalized_key] of [fc], its category the category of [fc], and
    every other field is the one of [c]. *)
Definition linked (c fc c' : Citation) : Prop :=
  parent_key c' = Some (normalized_key fc) /\ category c' = category fc
  /\ same_but_link c c'.

(** Five full citations, whose first pages are 2, 3, 1, 5 and 3, and an
    [Id.] form on page 4. *)
Definition id_full_0 : Citation :=
  mkCitation "Adams v. Baker, 123 F.2d 99 (2d Cir. 1950)"
    "Adams v. Baker, 123 F.2d 99 (2d Cir. 1950)" CASES [2] false false None
    "123_f2d_99" 1 "".
Definition id_full_1 : Citation :=
  mkCitation "Clark v. Dunn, 77 F.3d 5 (1st Cir. 1996)"
    "Clark v. Dunn, 77 F.3d 5 (1st Cir. 1996)" CASES [9; 3] false false None
    "77_f3d_5" 1 "".
Definition id_full_2 : Citation :=
  mkCitation "Smith v. Jones, 123 F.3d 456 (6th Cir. 2020)"
    "Smith v. Jones, 123 F.3d 456 (6th Cir. 2020)" CASES [1] false false None
    "123_f3d_456" 1 "".
Definition id_full_3 : Citation :=
  mkCitation "Fed. R. Civ. P. 56" "Fed. R. Civ. P. 56" RULES [5] false false None
    "fedrcivp56" 1 "".
Definition id_full_4 : Citation :=
  mkCitation "28 U.S.C. 1331" "28 U.S.C. 1331" STATUTES [3; 8] false false None
    "28usc1331" 1 "".
Definition id_short : Citation :=
  mkCitation "Id. at 460" "Id. at 460" CASES [4] false true None "" 1 "".
Definition id_heap : list Citation :=
  [id_full_0; id_full_1; id_full_2; id_full_3; id_full_4; id_short].
Definition id_fulls : list nat := [0%nat; 1%nat; 2%nat; 3%nat; 4%nat].

(** ** Volume and reporter token *)

(** [s] is at its end or goes on with whitespace. *)
Definition at_break (s : string) : Prop :=
  match s with
  | EmptyString => True
  | String c _ => Char.isspace c = true
  end.

(** [text] begins with a volume and a reporter token: the digits [vol],
    whitespace after them, and then [tok], the characters up to the
    next whitespace or the end of the text. *)
Definition leads_with (text vol tok : string) : Prop :=
  exists ws rest,
    text = vol ++ ws ++ tok ++ rest
    /\ vol <> "" /\ forall_chars Char.isdecimal vol = true
    /\ ws <> "" /\ forall_chars Char.isspace ws = true
    /\ tok <> "" /\ forall_chars Solid.visible tok = true
    /\ at_break rest.

(** [vol] and [tok] are the first volume and reporter token of [text]:
    they begin the text at some offset, and no volume and reporter token
    begin it at a smaller one. *)
Definition first_pair (text vol tok : string) : Prop :=
  exists k,
    leads_with (Str.drop k text) vol tok
    /\ forall j, (j < k)%nat -> forall v t, ~ leads_with (Str.drop j text) v t.

(** [s] lowered, without its whitespace and periods. *)
Definition squashed (s : string) : string :=
  replace_each space_or_dot "" (Str.lower s).

(** The first volume and reporter token of the text of [fc] are [vol]
    and a token that is [tok] once both are lowered and rid of
    whitespace and periods. *)
Definition cites_pair (vol tok : string) (fc : Citation) : Prop :=
  exists tok', first_pair (full_text fc) vol tok' /\ squashed tok' = squashed tok.

(** Five full citations and a short pincite.  The volume of the first
    and of the last three is 123; the reporter tokens are "F.2d",
    "F.3d", "F.", "F.3d" and "F3d". *)
Definition pin_full_2 : Citation :=
  mkCitation "Evans v. Ford, 123 F. 3d 789 (1999)"
    "Evans v. Ford, 123 F. 3d 789 (1999)" CASES [6] false false None
    "123_f3d_789" 1 "".
Definition pin_full_4 : Citation :=
  mkCitation "Gray v. Hill, 123 F3d 1 (2001)"
    "Gray v. Hill, 123 F3d 1 (2001)" OTHER [7] false false None
    "123_f3d_1" 1 "".
Definition pin_short : Citation :=
  mkCitation "123 F.3D at 470" "123 F.3D at 470" OTHER [8] false true None "" 1 "".
Definition pin_heap : list Citation :=
  [id_full_0; id_full_1; pin_full_2; id_full_2; pin_full_4; pin_short].

(** ** The name that leads a text *)

(** The letters A to Z, and a to z. *)
Definition capital (c : ascii) : bool := Char.between 65 90 c.
Definition small (c : ascii) : bool := Char.between 97 122 c.

(** The length of the second word of a name, with the whitespace before
    it: whitespace, a capital letter and small letters at the head of
    [s]; 0 without them. *)
Definition second_word_len (s : string) : nat :=
  let w := span_len Char.isspace s in
  match Str.drop w s with
  | String c2 s2 =>
      if ((0 <? w) && capital c2 && (0 <? span_len small s2))%nat
      then w + S (span_len small s2)
      else 0
  | EmptyString => 0
  end.

(** The length of the name that leads [text], if there is one. *)
Definition name_len (text : string) : option nat :=
  match text with
  | String c1 s1 =>
      if (capital c1 && (0 <? span_len small s1))%nat
      then Some (S (span_len small s1)
                 + second_word_len (Str.drop (span_len small s1) s1))%nat
      else None
  | EmptyString => None
  end.

(** [w] is a capitalised word: a capital letter and one or more small
    letters after it. *)
Definition capitalised (w : string) : Prop :=
  match w with
  | String c l => capital c = true /\ l <> "" /\ forall_chars small l = true
  | EmptyString => False
  end.

(** [s] does not go on with a small letter. *)
Definition word_end (s : string) : Prop :=
  match s with
  | EmptyString => True
  | String c _ => small c = false
  end.

(** [name] is the name that leads [text]: the capitalised word the text
    begins with, taken up to its last small letter, and with it the
    whitespace and the second capitalised word when these come next. *)
Definition leading_name (text name : string) : Prop :=
  exists w1 rest1,
    text = w1 ++ rest1 /\ capitalised w1 /\ word_end rest1
    /\ ((exists ws w2 rest2,
           rest1 = ws ++ w2 ++ rest2
           /\ ws <> "" /\ forall_chars Char.isspace ws = true
           /\ capitalised w2 /\ word_end rest2
           /\ name = w1 ++ ws ++ w2)
        \/ (name = w1
            /\ forall ws w2 rest2,
                 ws <> "" -> forall_chars Char.isspace ws = true -> capitalised w2 ->
                 rest1 <> ws ++ w2 ++ rest2)).

(** ** First parties *)

(** [head] is [s] up to the first place at which [sep] stands in it, and
    all of [s] when [sep] stands nowhere in it. *)
Definition before_first (sep s head : string) : Prop :=
  (exists tail,
     s = head ++ sep ++ tail
     /\ forall k, (k < String.length head)%nat -> String.prefix sep (Str.drop k s) = false)
  \/ (head = s /\ forall k, String.prefix sep (Str.drop k s) = false).

(** [party] is the first party of [fc]: its display name up to the
    first " v.", of that the part up to the first " v ", without the
    whitespace around it, lowered. *)
Definition first_party_of (fc : Citation) (party : string) : Prop :=
  exists h1 h2,
    before_first " v." (display_name fc) h1 /\ before_first " v " h1 h2
    /\ party = Str.lower (Str.strip h2).

(** The first party of [fc] holds [name], letter case apart. *)
Definition names_party (name : string) (fc : Citation) : Prop :=
  exists party, first_party_of fc party /\ Str.contains (Str.lower name) party = true.

(** Four full citations and a supra form.  "smith" stands in the first
    party of the first and the third, and after the "v" of the other
    two; the first pages are 3, 1, 2 and 1. *)
Definition supra_full_0 : Citation :=
  mkCitation "Goldsmith v. Lee, 5 U.S. 7 (1900)" "Goldsmith v. Lee, 5 U.S. 7 (1900)"
    OTHER [3] false false None "5_us_7" 1 "".
Definition supra_full_1 : Citation :=
  mkCitation "Adams v. Smith, 8 U.S. 9 (1901)" "Adams v. Smith, 8 U.S. 9 (1901)"
    CASES [1] false false None "8_us_9" 1 "".
Definition supra_full_2 : Citation :=
  mkCitation "Smith v. Jones, 123 F.3d 456 (6th Cir. 2020)"
    "Smith v. Jones, 123 F.3d 456 (6th Cir. 2020)" CASES [4; 2] false false None
    "123_f3d_456" 1 "".
Definition supra_full_3 : Citation :=
  mkCitation "Brown v Smith, 1 U.S. 1 (1899)" "Brown v Smith, 1 U.S. 1 (1899)"
    CASES [1] false false None "1_us_1" 1 "".
Definition supra_short : Citation :=
  mkCitation "Smith, supra, at 130" "Smith, supra, at 130" OTHER [5] false true None "" 1 "".
Definition supra_heap : list Citation :=
  [supra_full_0; supra_full_1; supra_full_2; supra_full_3; supra_short].
Definition supra_fulls : list nat := [0%nat; 1%nat; 2%nat; 3%nat].

(** ** Candidates on one span *)

(** A candidate on the span of [sample_inner], from another pattern. *)
Definition sample_twin : RawMatch.t :=
  RawMatch.mk "123 F.3d 456" 16 28 1 "other_treatise" OTHER.

(** * Properties *)

(** ** Facts about the stable sort *)

Section SortFacts.
Context {A : Type} (le : A -> A -> bool).

Lemma insert_sorted_perm (x : A) (l : list A) :
  Permutation (insert_sorted le x l) (x :: l).
Proof.
  induction l as [|y l IH]; simpl; [reflexivity|].
  destruct (le x y); [reflexivity|].
  rewrite IH. apply perm_swap.
Qed.

Lemma sort_perm (l : list A) : Permutation (sort le l) l.
Proof.
  induction l as [|x l IH]; simpl; [reflexivity|].
  rewrite insert_sorted_perm. now rewrite IH.
Qed.

Lemma sort_In (x : A) (l : list A) : In x (sort le l) <-> In x l.
Proof.
  split; apply Permutation_in; [apply sort_perm | symmetry; apply sort_perm].
Qed.

Lemma sort_nil_inv (l : list A) : sort le l = [] -> l = [].
Proof.
  intros H. apply Permutation_nil. rewrite <- H. apply sort_perm.
Qed.

Hypothesis le_total : forall a b, le a b = true \/ le b a = true.
Hypothesis le_trans : forall a b c, le a b = true -> le b c = true -> le a c = true.

Lemma insert_sorted_sorted (x : A) (l : list A) :
  StronglySorted (le_prop le) l -> StronglySorted (le_prop le) (insert_sorted le x l).
Proof.
  induction 1 as [|y l Hs IH Hy]; simpl.
  - repeat constructor.
  - destruct (le x y) eqn:Hxy.
    + constructor; [now constructor|].
      constructor; [exact Hxy|].
      eapply Forall_impl; [exact Hy|]. intros z Hz. eapply le_trans; eauto.
    + constructor; [exact IH|].
      eapply Permutation_Forall; [symmetry; apply insert_sorted_perm|].
      constructor; [|exact Hy].
      destruct (le_total x y) as [H|H]; [congruence|exact H].
Qed.

Lemma sort_sorted (l : list A) : StronglySorted (le_prop le) (sort le l).
Proof.
  induction l as [|x l IH]; simpl; [constructor|].
  now apply insert_sorted_sorted.
Qed.

End SortFacts.

(** ** A relation that holds between any two elements at distinct places *)

Section Pairwise.
Context {A : Type} (R : A -> A -> Prop).
Hypothesis R_sym : forall a b, R a b -> R b a.

Lemma pairwise_snoc (l : list A) (x : A) :
  pairwise R l -> Forall (fun y => R y x) l -> pairwise R (l ++ [x]).
Proof.
  induction l as [|y l IH]; simpl; intros Hp Hf.
  - split; [constructor|exact I].
  - destruct Hp as [Hy Hp]. inversion Hf; subst. split.
    + apply Forall_app. split; [exact Hy|]. now repeat constructor.
    + now apply IH.
Qed.

Lemma pairwise_perm (l l' : list A) :
  Permutation l l' -> pairwise R l -> pairwise R l'.
Proof.
  induction 1 as [|x l l' Hperm IH|x y l|l l' l'' _ IH1 _ IH2]; simpl.
  - trivial.
  - intros [Hx Hp]. split; [|now apply IH].
    eapply Permutation_Forall; eauto.
  - intros [Hy [Hx Hp]]. inversion Hy; subst. repeat split; trivial.
    constructor; [now apply R_sym|exact Hx].
  - intros Hp. now apply IH2, IH1.
Qed.

Lemma pairwise_lookup (l : list A) (i j : nat) (a b : A) :
  pairwise R l -> i <> j -> l !! i = Some a -> l !! j = Some b -> R a b.
Proof.
  revert i j. induction l as [|x l IH]; intros i j Hp Hij Hi Hj; [discriminate|].
  destruct Hp as [Hx Hp].
  destruct i as [|i], j as [|j]; simpl in *.
  - congruence.
  - injection Hi as ->. rewrite Forall_forall in Hx. apply Hx.
    eapply list_elem_of_lookup_2; eauto.
  - injection Hj as ->. apply R_sym. rewrite Forall_forall in Hx. apply Hx.
    eapply list_elem_of_lookup_2; eauto.
  - apply (IH i j Hp); [congruence | exact Hi | exact Hj].
Qed.

End Pairwise.

(** * Overlap resolution *)

Lemma intersects_sym (a b : RawMatch.t) : intersects a b -> intersects b a.
Proof. unfold intersects. intros [H1 H2]. split; lia. Qed.

Lemma disjoint_sym (a b : RawMatch.t) : disjoint a b -> disjoint b a.
Proof. unfold disjoint. intros H H'. apply H. now apply intersects_sym. Qed.

Lemma overlaps_span (m k : RawMatch.t) :
  overlaps m (span k) = true <-> intersects k m.
Proof.
  unfold overlaps, span, intersects. simpl.
  rewrite andb_true_iff, Z.ltb_lt, Z.gtb_gt. lia.
Qed.

Lemma no_overlaps_disjoint (m : RawMatch.t) (kept : list RawMatch.t) :
  List.existsb (overlaps m) (List.map span kept) = false ->
  Forall (fun k => disjoint k m) kept.
Proof.
  intros H. apply Forall_forall. intros k Hk Hint.
  apply overlaps_span in Hint.
  assert (List.existsb (overlaps m) (List.map span kept) = true); [|congruence].
  apply existsb_exists. exists (span k). split; [|exact Hint].
  apply in_map. now apply list_elem_of_In.
Qed.

Lemma keep_loop_disjoint (matches kept : list RawMatch.t) :
  pairwise disjoint kept ->
  pairwise disjoint (keep_loop matches kept (List.map span kept)).
Proof.
  revert kept. induction matches as [|m rest IH]; intros kept Hp; simpl; [exact Hp|].
  destruct (List.existsb (overlaps m) (List.map span kept)) eqn:Hov.
  - now apply IH.
  - replace (List.map span kept ++ [(RawMatch.start m, RawMatch.end_ m)])%list
      with (List.map span (kept ++ [m])) by (now rewrite map_app).
    apply IH. apply pairwise_snoc; [exact Hp|].
    now apply no_overlaps_disjoint.
Qed.

Lemma remove_overlaps_disjoint (matches : list RawMatch.t) :
  pairwise disjoint (_remove_overlaps matches).
Proof.
  unfold _remove_overlaps. destruct matches as [|m0 ms]; [exact I|].
  eapply pairwise_perm; [exact disjoint_sym | symmetry; apply sort_perm |].
  apply (keep_loop_disjoint _ []). exact I.
Qed.

(** Claim C2 (no-overlap invariant).  For every list of raw matches, two
    matches at different places of the list that [_remove_overlaps]
    returns never intersect, where an accepted match [a] intersects [b]
    exactly when [a.start < b.end] and [a.end > b.start]. *)
Theorem remove_overlaps_no_overlap (matches : list RawMatch.t) (i j : nat)
    (a b : RawMatch.t) :
  i <> j ->
  _remove_overlaps matches !! i = Some a ->
  _remove_overlaps matches !! j = Some b ->
  ~ intersects a b.
Proof.
  intros Hij Hi Hj.
  exact (pairwise_lookup disjoint disjoint_sym _ i j a b
           (remove_overlaps_disjoint matches) Hij Hi Hj).
Qed.

Lemma remove_overlaps_no_overlap_witness : ~ intersects sample_long sample_later.
Proof.
  apply (remove_overlaps_no_overlap [sample_inner; sample_later; sample_long]
           0%nat 1%nat);
    [discriminate | reflexivity | reflexivity].
Defined.

Lemma longer_first_spec (a b : RawMatch.t) :
  longer_first a b = true <-> ~ preferred b a.
Proof.
  unfold longer_first, preferred, match_length.
  rewrite orb_true_iff, andb_true_iff, Z.ltb_lt, Z.eqb_eq, Z.leb_le. lia.
Qed.

Lemma longer_first_total (a b : RawMatch.t) :
  longer_first a b = true \/ longer_first b a = true.
Proof. rewrite !longer_first_spec. unfold preferred. lia. Qed.

Lemma longer_first_trans (a b c : RawMatch.t) :
  longer_first a b = true -> longer_first b c = true -> longer_first a c = true.
Proof. rewrite !longer_first_spec. unfold preferred. lia. Qed.

Lemma intersects_dec (a b : RawMatch.t) : intersects a b \/ disjoint a b.
Proof. unfold disjoint, intersects. lia. Qed.

Lemma disjoint_no_overlaps (m : RawMatch.t) (kept : list RawMatch.t) :
  (forall k, In k kept -> disjoint k m) ->
  List.existsb (overlaps m) (List.map span kept) = false.
Proof.
  intros H. destruct (List.existsb _ _) eqn:E; [|reflexivity].
  apply existsb_exists in E. destruct E as [occ [Hocc Hov]].
  apply in_map_iff in Hocc. destruct Hocc as [k [<- Hk]].
  apply overlaps_span in Hov. now apply H in Hk.
Qed.

Lemma keep_loop_incl (matches kept : list RawMatch.t) (occupied : list (Z * Z)) (x : RawMatch.t) :
  In x kept -> In x (keep_loop matches kept occupied).
Proof.
  revert kept occupied. induction matches as [|m rest IH]; intros kept occ Hx; simpl; [exact Hx|].
  destruct (List.existsb _ _); apply IH; [exact Hx|].
  apply in_or_app. now left.
Qed.

(** A match that nothing in front of it (in the sorted list) or already
    kept intersects is kept. *)
Lemma keep_loop_keeps (a : RawMatch.t) (matches kept : list RawMatch.t) :
  StronglySorted (le_prop longer_first) matches ->
  In a matches ->
  (forall m, In m matches -> intersects a m -> m = a \/ preferred a m) ->
  (forall k, In k kept -> disjoint k a) ->
  In a (keep_loop matches kept (List.map span kept)).
Proof.
  revert kept. induction matches as [|m rest IH]; intros kept Hs Ha Hdom Hkept; [destruct Ha|].
  inversion Hs as [|? ? Hs' Hm]; subst.
  assert (Hcase : m = a \/ (In a rest /\ disjoint m a)).
  { destruct Ha as [->|Ha]; [now left|].
    destruct (intersects_dec a m) as [Hi|Hd].
    - destruct (Hdom m (or_introl eq_refl) Hi) as [->|Hp]; [now left|].
      exfalso. rewrite Forall_forall in Hm.
      assert (Hle : longer_first m a = true) by (apply Hm; now apply list_elem_of_In).
      now apply longer_first_spec in Hle.
    - right. split; [exact Ha|]. now apply disjoint_sym. }
  simpl. destruct Hcase as [->|[Ha' Hd]].
  - rewrite (disjoint_no_overlaps a kept Hkept).
    apply keep_loop_incl. apply in_or_app. right. now left.
  - assert (Hrest : forall m', In m' rest -> intersects a m' -> m' = a \/ preferred a m')
      by (intros m' Hm'; apply Hdom; now right).
    destruct (List.existsb _ _) eqn:E.
    + now apply IH.
    + replace (List.map span kept ++ [(RawMatch.start m, RawMatch.end_ m)])%list
        with (List.map span (kept ++ [m])) by (now rewrite map_app).
      apply IH; trivial.
      intros k Hk. apply in_app_or in Hk. destruct Hk as [Hk|[<-|[]]]; auto.
Qed.

Lemma preferred_neq (a b : RawMatch.t) : preferred a b -> a <> b.
Proof. intros Hp ->. unfold preferred in Hp. lia. Qed.

Lemma In_lookup {A : Type} (x : A) (l : list A) : In x l -> exists i, l !! i = Some x.
Proof. intros H. apply list_elem_of_In in H. now apply list_elem_of_lookup_1. Qed.

(** Claim C7 (length preference), as amended.  Of two intersecting
    candidates [a] and [b] where [a] is longer, or as long with the
    smaller start offset, [a] survives overlap resolution and [b] is
    discarded, whatever pattern or category produced them and wherever
    they stand in the input list, provided every other candidate that
    intersects [a] comes after it in the same order (is shorter, or as
    long with a larger start offset). *)
Theorem length_preference (matches : list RawMatch.t) (a b : RawMatch.t) :
  In a matches -> In b matches ->
  intersects a b -> preferred a b ->
  (forall m, In m matches -> intersects a m -> m = a \/ preferred a m) ->
  In a (_remove_overlaps matches) /\ ~ In b (_remove_overlaps matches).
Proof.
  intros Ha Hb Hab Hpref Hdom.
  assert (Hkept : In a (_remove_overlaps matches)).
  { unfold _remove_overlaps. destruct matches as [|m0 ms]; [destruct Ha|].
    apply sort_In.
    apply (keep_loop_keeps a _ []).
    - apply sort_sorted; [apply longer_first_total | apply longer_first_trans].
    - now apply sort_In.
    - intros m Hm. apply Hdom. now apply sort_In in Hm.
    - intros k []. }
  split; [exact Hkept|]. intros Hb'.
  destruct (In_lookup _ _ Hkept) as [i Hi], (In_lookup _ _ Hb') as [j Hj].
  assert (Hij : i <> j).
  { intros ->. rewrite Hi in Hj. injection Hj. now apply preferred_neq. }
  exact (pairwise_lookup disjoint disjoint_sym _ i j a b
           (remove_overlaps_disjoint matches) Hij Hi Hj Hab).
Qed.

Lemma length_preference_witness :
  In sample_long (_remove_overlaps [sample_inner; sample_long])
  /\ ~ In sample_inner (_remove_overlaps [sample_inner; sample_long]).
Proof.
  apply (length_preference [sample_inner; sample_long] sample_long sample_inner).
  - right. now left.
  - now left.
  - unfold intersects. simpl. lia.
  - left. unfold match_length. simpl. lia.
  - intros m [<-|[<-|[]]] _.
    + right. left. unfold match_length. simpl. lia.
    + now left.
Defined.

Lemma crowded_page_scan :
  _scan [crowded_page] = [crowded_case; crowded_review; crowded_supra].
Proof. vm_compute. reflexivity. Qed.

Lemma length_preference_counterexample :
  In crowded_case (_scan [crowded_page])
  /\ In crowded_supra (_scan [crowded_page])
  /\ intersects crowded_case crowded_supra
  /\ match_length crowded_supra < match_length crowded_case
  /\ _remove_overlaps (_scan [crowded_page]) = [crowded_supra; crowded_review].
Proof.
  rewrite crowded_page_scan.
  split; [now left|]. split; [right; right; now left|].
  split; [unfold intersects; simpl; lia|].
  split; [unfold match_length; simpl; lia|].
  vm_compute. reflexivity.
Qed.

(** Extra X1 (two candidates).  When two intersecting matches are the
    only candidates, in either order, the one that is longer, or as long
    with the smaller start offset, is the only match accepted. *)
Lemma length_preference_two (a b : RawMatch.t) :
  intersects a b -> preferred a b ->
  _remove_overlaps [a; b] = [a] /\ _remove_overlaps [b; a] = [a].
Proof.
  intros Hab Hp.
  assert (Hba : longer_first b a = false).
  { destruct (longer_first b a) eqn:E; [|reflexivity].
    now apply longer_first_spec in E. }
  assert (Hov : overlaps b (span a) = true) by now apply overlaps_span.
  assert (Hab' : longer_first a b = true).
  { destruct (longer_first_total a b); congruence. }
  unfold _remove_overlaps, sort_on. simpl. rewrite Hba, Hab'. simpl.
  unfold span, overlaps in Hov. rewrite Hov. simpl. auto.
Qed.

(** * The rule-based reclassifier *)

Lemma reclassify_one_idempotent (c : Citation) :
  RuleClassifier.reclassify_one (RuleClassifier.reclassify_one c)
  = RuleClassifier.reclassify_one c.
Proof.
  destruct c as [ft dn cat pg pr sf pk nk cf sk].
  remember (RuleClassifier.found (Re.search true RuleClassifier._TREATISE_RE ft)) as treatise.
  remember (RuleClassifier.found (Re.search true RuleClassifier._LAW_REVIEW_RE ft)) as review.
  remember (RuleClassifier.found (Re.rmatch false RuleClassifier.IN_RE_RE ft)) as inre.
  remember (Str.contains " v." ft) as v1.
  remember (Str.contains " v " ft) as v2.
  unfold RuleClassifier.reclassify_one at 2.
  cbn [full_text category is_short_form].
  rewrite <- Heqtreatise, <- Heqreview, <- Heqinre, <- Heqv1, <- Heqv2.
  destruct sf, cat, treatise, review, v1, v2, inre;
    cbn [category_eqb andb negb];
    unfold RuleClassifier.reclassify_one;
    cbn [full_text category is_short_form set_category set_confidence category_eqb andb negb];
    rewrite <- ?Heqtreatise, <- ?Heqreview, <- ?Heqinre, <- ?Heqv1, <- ?Heqv2;
    reflexivity.
Qed.

(** Claim C9 (reclassifier idempotence).  Running [reclassify] over its
    own output changes nothing: every citation keeps the category and the
    confidence the first run left it with. *)
Theorem reclassify_idempotent (citations : list Citation) :
  RuleClassifier.reclassify (RuleClassifier.reclassify citations)
  = RuleClassifier.reclassify citations.
Proof.
  unfold RuleClassifier.reclassify. rewrite List.map_map.
  apply List.map_ext. intros c. apply reclassify_one_idempotent.
Qed.

(** * Short-form resolution *)

Lemma same_but_link_refl (c : Citation) : same_but_link c c.
Proof. repeat split. Qed.

Lemma link_same (c fc : Citation) : same_but_link c (link c fc).
Proof. repeat split. Qed.

Lemma resolve_supra_loop_find (sc : Citation) (name : string) (fulls : list Citation) :
  _resolve_supra_loop sc name fulls = link_to sc (List.find (supra_match name) fulls).
Proof.
  induction fulls as [|fc rest IH]; simpl; [reflexivity|].
  unfold supra_match at 1. destruct (_ || _); [reflexivity|exact IH].
Qed.

Lemma resolve_short_pincite_loop_find (sc : Citation) (vol reporter : string)
    (fulls : list Citation) :
  _resolve_short_pincite_loop sc vol reporter fulls
  = link_to sc (List.find (pincite_match vol reporter) fulls).
Proof.
  induction fulls as [|fc rest IH]; simpl; [reflexivity|].
  unfold pincite_match at 1.
  destruct (Re.search false VOL_REPORTER_RE (full_text fc)) as [m|]; [|exact IH].
  unfold vol_reporter. simpl.
  destruct (_ && _); [reflexivity|exact IH].
Qed.

Lemma resolve_one_parent (ordered_fulls full_cites : list Citation) (sc : Citation) :
  resolve_one ordered_fulls full_cites sc
  = link_to sc (parent_of ordered_fulls full_cites sc).
Proof.
  unfold resolve_one, parent_of.
  destruct (_is_id_cite _); [reflexivity|].
  destruct (_is_supra_cite _).
  - unfold _resolve_supra. destruct (Re.rmatch false SUPRA_NAME_RE _); [|reflexivity].
    apply resolve_supra_loop_find.
  - unfold _resolve_short_pincite. destruct (Re.rmatch false VOL_REPORTER_RE _) as [m|]; [|reflexivity].
    destruct (vol_reporter _ m) as [v r] eqn:E. simpl.
    apply resolve_short_pincite_loop_find.
Qed.

Lemma parent_of_same (ordered_fulls full_cites : list Citation) (c c' : Citation) :
  same_but_link c c' ->
  parent_of ordered_fulls full_cites c' = parent_of ordered_fulls full_cites c.
Proof.
  intros (Ht & _ & Hp & _). unfold parent_of, min_page. now rewrite Ht, Hp.
Qed.

Lemma resolve_one_same (ordered_fulls full_cites : list Citation) (c : Citation) :
  same_but_link c (resolve_one ordered_fulls full_cites c).
Proof.
  rewrite resolve_one_parent. destruct (parent_of _ _ c); simpl;
    [apply link_same | apply same_but_link_refl].
Qed.

Lemma resolve_one_idempotent (ordered_fulls full_cites : list Citation) (c : Citation) :
  resolve_one ordered_fulls full_cites (resolve_one ordered_fulls full_cites c)
  = resolve_one ordered_fulls full_cites c.
Proof.
  rewrite (resolve_one_parent _ _ (resolve_one _ _ c)).
  rewrite (parent_of_same _ _ c) by apply resolve_one_same.
  rewrite resolve_one_parent. now destruct (parent_of _ _ c).
Qed.

Lemma resolve_id_loop_In (best : option Citation) (ordered : list Citation) (p : Z) (fc : Citation) :
  _resolve_id_loop best ordered p = Some fc -> best = Some fc \/ In fc ordered.
Proof.
  revert best. induction ordered as [|x rest IH]; intros best H; simpl in *; [now left|].
  destruct (min_page x <=? p); [|now left].
  apply IH in H. destruct H as [H|H]; [injection H as ->; right; now left|right; now right].
Qed.

(** The parent is one of the full citations handed to the resolver. *)
Lemma parent_of_In (ordered_fulls full_cites : list Citation) (sc fc : Citation) :
  parent_of ordered_fulls full_cites sc = Some fc ->
  In fc ordered_fulls \/ In fc full_cites.
Proof.
  unfold parent_of. destruct (_is_id_cite _).
  - intros H. apply resolve_id_loop_In in H. destruct H; [discriminate|now left].
  - destruct (_is_supra_cite _).
    + destruct (Re.rmatch false SUPRA_NAME_RE _); [|discriminate].
      intros H. apply find_some in H. left. tauto.
    + destruct (Re.rmatch false VOL_REPORTER_RE _); [|discriminate].
      intros H. apply find_some in H. right. tauto.
Qed.

Lemma resolve_one_nil (sc : Citation) : resolve_one [] [] sc = sc.
Proof.
  rewrite resolve_one_parent.
  destruct (parent_of [] [] sc) eqn:E; [|reflexivity].
  apply parent_of_In in E. now destruct E.
Qed.

(** ** On the heap *)

Lemma derefs_ext (h h' : list Citation) (refs : list nat) :
  (forall r, In r refs -> h' !! r = h !! r) -> derefs h' refs = derefs h refs.
Proof.
  induction refs as [|r refs IH]; intros H; [reflexivity|].
  assert (IH' : derefs h' refs = derefs h refs)
    by (apply IH; intros r' Hr'; apply H; now right).
  simpl. rewrite (H r) by now left. now rewrite IH'.
Qed.

Section ResolveFold.
Variables (h0 : list Citation) (ordered_fulls full_cites : list nat).

Let E : Citation -> Citation :=
  resolve_one (derefs h0 ordered_fulls) (derefs h0 full_cites).

Lemma resolve_fold (todo done : list nat) (hcur : list Citation) :
  (forall r, In r ordered_fulls \/ In r full_cites -> ~ In r (done ++ todo)) ->
  (forall r, In r done -> hcur !! r = E <$> h0 !! r) ->
  (forall r, ~ In r done -> hcur !! r = h0 !! r) ->
  (forall r, In r (done ++ todo) ->
     fold_left (resolve_step ordered_fulls full_cites) todo hcur !! r = E <$> h0 !! r)
  /\ (forall r, ~ In r (done ++ todo) ->
     fold_left (resolve_step ordered_fulls full_cites) todo hcur !! r = h0 !! r).
Proof.
  revert done hcur. induction todo as [|sc todo IH]; intros done hcur Hdisj Hdone Hrest.
  - rewrite app_nil_r. simpl. split; assumption.
  - simpl.
    replace (done ++ sc :: todo)%list with ((done ++ [sc]) ++ todo)%list
      by (now rewrite <- app_assoc).
    assert (Hreads : forall refs, (forall r, In r refs -> In r ordered_fulls \/ In r full_cites) ->
                                  derefs hcur refs = derefs h0 refs).
    { intros refs Hsub. apply derefs_ext. intros r Hr. apply Hrest. intros Hd.
      apply (Hdisj r (Hsub r Hr)). apply in_or_app. now left. }
    assert (Hstep : resolve_step ordered_fulls full_cites hcur sc !! sc = E <$> h0 !! sc
                    /\ forall r, r <> sc ->
                         resolve_step ordered_fulls full_cites hcur sc !! r = hcur !! r).
    { unfold resolve_step.
      destruct (hcur !! sc) as [c|] eqn:Hsc.
      - rewrite (Hreads ordered_fulls), (Hreads full_cites) by tauto. fold E.
        split; [|intros r Hr; now apply list_lookup_insert_ne].
        rewrite list_lookup_insert_eq by (eapply lookup_lt_Some; eauto).
        destruct (in_dec Nat.eq_dec sc done) as [Hin|Hnin].
        + rewrite (Hdone sc Hin) in Hsc. destruct (h0 !! sc) as [c0|]; [|discriminate].
          simpl in *. injection Hsc as <-. unfold E. now rewrite resolve_one_idempotent.
        + rewrite (Hrest sc Hnin) in Hsc. now rewrite Hsc.
      - split; [|reflexivity]. rewrite Hsc.
        destruct (in_dec Nat.eq_dec sc done) as [Hin|Hnin].
        + now rewrite <- (Hdone sc Hin).
        + rewrite <- (Hrest sc Hnin). now rewrite Hsc. }
    destruct Hstep as [Hsc Hother].
    apply IH.
    + intros r Hr. rewrite <- app_assoc. now apply Hdisj.
    + intros r Hr. apply in_app_or in Hr.
      destruct (Nat.eq_dec r sc) as [->|Hne]; [exact Hsc|].
      rewrite Hother by exact Hne. apply Hdone.
      destruct Hr as [Hr|[Hr|[]]]; [exact Hr|congruence].
    + intros r Hr. assert (r <> sc) by (intros ->; apply Hr, in_or_app; right; now left).
      rewrite Hother by assumption. apply Hrest.
      intros Hd. apply Hr, in_or_app. now left.
Qed.

End ResolveFold.

(** What [resolve_short_forms] leaves on the heap when no reference is
    in both lists: the objects of [short_cites] are resolved against the
    full citations as first read, everything else is as it was. *)
Lemma resolve_short_forms_lookup (h : list Citation) (full_cites short_cites : list nat) :
  (forall r, In r full_cites -> ~ In r short_cites) ->
  let E := resolve_one (derefs h (sort_on (ref_min_page h) full_cites)) (derefs h full_cites) in
  (forall r, In r short_cites ->
     resolve_short_forms h full_cites short_cites !! r = E <$> h !! r)
  /\ (forall r, ~ In r short_cites ->
     resolve_short_forms h full_cites short_cites !! r = h !! r).
Proof.
  intros Hdisj E. subst E.
  destruct full_cites as [|f fs].
  { split; [|reflexivity]. intros r _. simpl.
    destruct (h !! r); simpl; [|reflexivity]. now rewrite resolve_one_nil. }
  destruct short_cites as [|s ss].
  { split; [intros r []|reflexivity]. }
  unfold resolve_short_forms. cbv beta iota zeta.
  apply (resolve_fold h (sort_on (ref_min_page h) (f :: fs)) (f :: fs) (s :: ss) [] h).
  - intros r [Hr|Hr]; apply Hdisj; [|exact Hr].
    unfold sort_on in Hr. now apply sort_In in Hr.
  - intros r [].
  - reflexivity.
Qed.

Lemma same_but_link_trans (a b c : Citation) :
  same_but_link a b -> same_but_link b c -> same_but_link a c.
Proof.
  unfold same_but_link. intros (A1&A2&A3&A4&A5&A6&A7&A8) (B1&B2&B3&B4&B5&B6&B7&B8).
  repeat split; congruence.
Qed.

Lemma resolve_step_frame (ordered_fulls full_cites : list nat) (h : list Citation) (sc : nat) :
  (forall r, r <> sc -> resolve_step ordered_fulls full_cites h sc !! r = h !! r)
  /\ (forall r c, h !! r = Some c ->
        exists c', resolve_step ordered_fulls full_cites h sc !! r = Some c'
                   /\ same_but_link c c').
Proof.
  unfold resolve_step. destruct (h !! sc) as [c0|] eqn:Hsc.
  - split; [intros r Hr; now apply list_lookup_insert_ne|].
    intros r c Hr. destruct (Nat.eq_dec r sc) as [->|Hne].
    + rewrite list_lookup_insert_eq by (eapply lookup_lt_Some; eauto).
      eexists. split; [reflexivity|].
      assert (c0 = c) as -> by congruence. apply resolve_one_same.
    + rewrite list_lookup_insert_ne by congruence.
      exists c. split; [exact Hr|apply same_but_link_refl].
  - split; [reflexivity|]. intros r c Hr. exists c. split; [exact Hr|apply same_but_link_refl].
Qed.

Lemma resolve_fold_frame (ordered_fulls full_cites todo : list nat) (h : list Citation) :
  (forall r, ~ In r todo ->
     fold_left (resolve_step ordered_fulls full_cites) todo h !! r = h !! r)
  /\ (forall r c, h !! r = Some c ->
        exists c', fold_left (resolve_step ordered_fulls full_cites) todo h !! r = Some c'
                   /\ same_but_link c c').
Proof.
  revert h. induction todo as [|sc todo IH]; intros h; simpl.
  - split; [reflexivity|]. intros r c Hr. exists c. split; [exact Hr|apply same_but_link_refl].
  - destruct (resolve_step_frame ordered_fulls full_cites h sc) as [Hne Hsame].
    destruct (IH (resolve_step ordered_fulls full_cites h sc)) as [IH1 IH2].
    split.
    + intros r Hr. rewrite IH1 by tauto. apply Hne. intros ->. tauto.
    + intros r c Hr. destruct (Hsame r c Hr) as [c1 [H1 S1]].
      destruct (IH2 r c1 H1) as [c2 [H2 S2]].
      exists c2. split; [exact H2|]. eapply same_but_link_trans; eauto.
Qed.

Lemma resolve_short_forms_untouched (h : list Citation) (full_cites short_cites : list nat) :
  (forall r, ~ In r short_cites ->
     resolve_short_forms h full_cites short_cites !! r = h !! r)
  /\ (forall r c, h !! r = Some c ->
        exists c', resolve_short_forms h full_cites short_cites !! r = Some c'
                   /\ same_but_link c c').
Proof.
  unfold resolve_short_forms.
  assert (Hid : (forall r, ~ In r short_cites -> h !! r = h !! r)
                /\ (forall r c, h !! r = Some c ->
                      exists c', h !! r = Some c' /\ same_but_link c c')).
  { split; [reflexivity|]. intros r c Hr. exists c. split; [exact Hr|apply same_but_link_refl]. }
  destruct full_cites as [|f fs]; [exact Hid|].
  destruct short_cites as [|s ss]; [exact Hid|].
  apply resolve_fold_frame.
Qed.

(** Claim C10 (frame of short-form resolution).  When [short_cites] holds
    short-form citations only, [resolve_short_forms] leaves every object
    that is not a short form as it was, in every field: so every citation
    of [full_cites], which holds the full ones; and what it changes of any
    object is at most [parent_key] and [category]. *)
Theorem resolve_short_forms_frame (h : list Citation) (full_cites short_cites : list nat) :
  (forall r c, In r short_cites -> h !! r = Some c -> is_short_form c = true) ->
  (forall r c, In r full_cites -> h !! r = Some c -> is_short_form c = false) ->
  (forall r c, In r full_cites -> h !! r = Some c ->
     resolve_short_forms h full_cites short_cites !! r = Some c)
  /\ (forall r c, h !! r = Some c -> is_short_form c = false ->
     resolve_short_forms h full_cites short_cites !! r = Some c)
  /\ (forall r c, h !! r = Some c ->
     exists c', resolve_short_forms h full_cites short_cites !! r = Some c'
                /\ same_but_link c c').
Proof.
  intros Hshort Hfull.
  destruct (resolve_short_forms_untouched h full_cites short_cites) as [Hout Hsame].
  assert (Hns : forall r c, h !! r = Some c -> is_short_form c = false ->
                  resolve_short_forms h full_cites short_cites !! r = Some c).
  { intros r c Hr Hc. rewrite Hout; [exact Hr|].
    intros Hin. rewrite (Hshort r c Hin Hr) in Hc. discriminate. }
  split; [|split; [exact Hns | exact Hsame]].
  intros r c Hin Hr. apply Hns; [exact Hr|]. eapply Hfull; eauto.
Qed.

Lemma sample_heap_shorts (r : nat) (c : Citation) :
  In r [1%nat; 2%nat] -> sample_heap !! r = Some c -> is_short_form c = true.
Proof. intros [<-|[<-|[]]] H; injection H as <-; reflexivity. Qed.

Lemma sample_heap_fulls (r : nat) (c : Citation) :
  In r [0%nat] -> sample_heap !! r = Some c -> is_short_form c = false.
Proof. intros [<-|[]] H; injection H as <-; reflexivity. Qed.

Lemma resolve_short_forms_frame_witness :
  resolve_short_forms sample_heap [0%nat] [1%nat; 2%nat] !! 0%nat = Some sample_full.
Proof.
  apply (resolve_short_forms_frame sample_heap [0%nat] [1%nat; 2%nat]
           sample_heap_shorts sample_heap_fulls);
    first [reflexivity | now left].
Defined.

(** ** Id. and Ibid. *)

Lemma ID_RE_eq :
  ID_RE = Re.Alt (Re.Seq Re.Bol (Re.Seq (Re.Lit "I") (Re.Seq (Re.Lit "d") (Re.Lit "."))))
            (Re.Seq Re.Bol (Re.Seq (Re.Lit "I") (Re.Seq (Re.Lit "b")
               (Re.Seq (Re.Lit "i") (Re.Seq (Re.Lit "d") (Re.Lit ".")))))).
Proof. vm_compute. reflexivity. Qed.

Lemma lit_matches_ci (a c : ascii) :
  Re.cls_matches true false [Re.One a] c = Ascii.eqb (Char.lower a) (Char.lower c).
Proof. unfold Re.cls_matches. simpl. unfold Char.eqb_ci. now rewrite orb_false_r. Qed.

Lemma prefix_cons (a c : ascii) (p s : string) :
  String.prefix (String a p) (String c s) = Ascii.eqb a c && String.prefix p s.
Proof.
  simpl. destruct (ascii_dec a c) as [->|Hne].
  - now rewrite Ascii.eqb_refl.
  - apply Ascii.eqb_neq in Hne. now rewrite Hne.
Qed.

Lemma prefix_nil (s : string) : String.prefix "" s = true.
Proof. now destruct s. Qed.

Ltac id_step :=
  cbn [Re.run Re.m_pos Re.m_rest Re.m_caps Nat.eqb Str.lower Str.map andb orb];
  rewrite ?lit_matches_ci, ?prefix_cons;
  change (Char.lower "I") with "i"%char;
  change (Char.lower "d") with "d"%char;
  change (Char.lower "b") with "b"%char;
  change (Char.lower "i") with "i"%char;
  change (Char.lower ".") with "."%char.

Lemma is_id_cite_spec (text : string) :
  _is_id_cite text = begins_ci "Id." text || begins_ci "Ibid." text.
Proof.
  unfold _is_id_cite, Re.rmatch, Re.match_at. rewrite ID_RE_eq.
  unfold begins_ci, Str.startswith.
  change (Str.lower "Id.") with "id."; change (Str.lower "Ibid.") with "ibid.".
  unfold Re.Lit.
  destruct text as [|c0 t0]; [reflexivity|]. id_step.
  destruct (Ascii.eqb "i" (Char.lower c0)); [|reflexivity].
  destruct t0 as [|c1 t1]; [reflexivity|]. id_step.
  destruct (Ascii.eqb "d" (Char.lower c1)) eqn:Hd.
  - assert (Ascii.eqb "b" (Char.lower c1) = false) as ->.
    { apply Ascii.eqb_eq in Hd. rewrite <- Hd. reflexivity. }
    destruct t1 as [|c2 t2]; [reflexivity|]. id_step.
    destruct (Ascii.eqb "." (Char.lower c2)); simpl; rewrite ?prefix_nil; reflexivity.
  - destruct (Ascii.eqb "b" (Char.lower c1)); [|reflexivity].
    destruct t1 as [|c2 t2]; [reflexivity|]. id_step.
    destruct (Ascii.eqb "i" (Char.lower c2)); [|reflexivity].
    destruct t2 as [|c3 t3]; [reflexivity|]. id_step.
    destruct (Ascii.eqb "d" (Char.lower c3)); [|reflexivity].
    destruct t3 as [|c4 t4]; [reflexivity|]. id_step.
    destruct (Ascii.eqb "." (Char.lower c4)); simpl; rewrite ?prefix_nil; reflexivity.
Qed.

(** On a list in ascending order of first page, the loop of [_resolve_id]
    ends on the last citation whose first page is not after [sc_page]. *)
Lemma resolve_id_loop_last (best : option Citation) (ordered : list Citation) (sc_page : Z) :
  StronglySorted (fun a b => min_page a <= min_page b) ordered ->
  _resolve_id_loop best ordered sc_page
  = match last (List.filter (fun fc => min_page fc <=? sc_page) ordered) with
    | Some fc => Some fc
    | None => best
    end.
Proof.
  intros Hs. revert best. induction Hs as [|x rest Hs IH Hx]; intros best; simpl; [reflexivity|].
  destruct (min_page x <=? sc_page) eqn:Hle.
  - rewrite IH, last_cons. now destruct (last _).
  - replace (List.filter (fun fc => min_page fc <=? sc_page) rest) with (@nil Citation);
      [reflexivity|].
    symmetry. apply Z.leb_gt in Hle.
    clear IH Hs. induction rest as [|y rest IH]; [reflexivity|].
    inversion Hx; subst. simpl.
    destruct (min_page y <=? sc_page) eqn:Hy; [apply Z.leb_le in Hy; lia|].
    now apply IH.
Qed.

Lemma derefs_insert_sorted (h : list Citation) (r : nat) (c : Citation) (l : list nat) :
  h !! r = Some c ->
  (forall r', In r' l -> is_Some (h !! r')) ->
  derefs h (insert_sorted (fun a b => ref_min_page h a <=? ref_min_page h b) r l)
  = insert_sorted (fun a b => min_page a <=? min_page b) c (derefs h l).
Proof.
  intros Hr. induction l as [|y l IH]; intros Hv; simpl.
  - now rewrite Hr.
  - destruct (Hv y (or_introl eq_refl)) as [cy Hy]. rewrite Hy. simpl.
    unfold ref_min_page at 1 2. rewrite Hr, Hy.
    destruct (min_page c <=? min_page cy); simpl.
    + now rewrite Hr, Hy.
    + rewrite Hy, IH; [reflexivity|]. intros r' Hr'. apply Hv. now right.
Qed.

Lemma derefs_sort_on (h : list Citation) (l : list nat) :
  (forall r, In r l -> is_Some (h !! r)) ->
  derefs h (sort_on (ref_min_page h) l) = sort_on min_page (derefs h l).
Proof.
  unfold sort_on. induction l as [|r l IH]; intros Hv; simpl; [reflexivity|].
  destruct (Hv r (or_introl eq_refl)) as [c Hc]. rewrite Hc. simpl.
  rewrite <- IH by (intros r' Hr'; apply Hv; now right).
  apply derefs_insert_sorted; [exact Hc|].
  intros r' Hr'. apply sort_In in Hr'. apply Hv. now right.
Qed.

Lemma sort_on_sorted {A : Type} (key : A -> Z) (l : list A) :
  StronglySorted (fun a b => key a <= key b) (sort_on key l).
Proof.
  unfold sort_on.
  assert (H : StronglySorted (le_prop (fun a b => key a <=? key b))
                (sort (fun a b => key a <=? key b) l)).
  { apply sort_sorted.
    - intros a b. rewrite !Z.leb_le. lia.
    - intros a b c. rewrite !Z.leb_le. lia. }
  induction H as [|x rest Hs IH Hx]; constructor; [exact IH|].
  eapply Forall_impl; [exact Hx|]. intros y Hy. now apply Z.leb_le.
Qed.

(** The parent of an [Id.] or [Ibid.] form, as the loop finds it in the
    sorted list.  ([link_to c (Some fc)] is [c] with [parent_key] and
    [category] set from [fc], [link_to c None] is [c].) *)
Lemma resolve_id_lookup (h : list Citation) (full_cites short_cites : list nat)
    (sc : nat) (c : Citation) :
  (forall r, In r full_cites -> ~ In r short_cites) ->
  (forall r, In r full_cites -> is_Some (h !! r)) ->
  In sc short_cites -> h !! sc = Some c ->
  begins_ci "Id." (Str.strip (full_text c)) = true
  \/ begins_ci "Ibid." (Str.strip (full_text c)) = true ->
  resolve_short_forms h full_cites short_cites !! sc
  = Some (link_to c
            (last (List.filter (fun fc => min_page fc <=? min_page c)
                     (sort_on min_page (derefs h full_cites))))).
Proof.
  intros Hdisj Hvalid Hsc Hc Hid.
  destruct (resolve_short_forms_lookup h full_cites short_cites Hdisj) as [Hin _].
  rewrite (Hin sc Hsc), Hc. simpl. f_equal.
  rewrite resolve_one_parent. f_equal.
  unfold parent_of.
  assert (Hcite : _is_id_cite (Str.strip (full_text c)) = true).
  { rewrite is_id_cite_spec. destruct Hid as [-> | ->]; [reflexivity|apply orb_true_r]. }
  rewrite Hcite, derefs_sort_on by exact Hvalid.
  rewrite resolve_id_loop_last by apply sort_on_sorted.
  now destruct (last _).
Qed.

Lemma sample_heap_disjoint (r : nat) : In r [0%nat] -> ~ In r [1%nat; 2%nat].
Proof. intros [<-|[]] [H|[H|[]]]; discriminate. Qed.

Lemma sample_heap_valid (r : nat) : In r [0%nat] -> is_Some (sample_heap !! r).
Proof. intros [<-|[]]. now exists sample_full. Qed.

(** ** Short pincites *)

(** The parent of a short pincite, as the loop finds it in
    [full_cites]. *)
Lemma resolve_short_pincite_lookup (h : list Citation)
    (full_cites short_cites : list nat) (sc : nat) (c : Citation) :
  (forall r, In r full_cites -> ~ In r short_cites) ->
  In sc short_cites -> h !! sc = Some c ->
  _is_id_cite (Str.strip (full_text c)) = false ->
  _is_supra_cite (Str.strip (full_text c)) = false ->
  resolve_short_forms h full_cites short_cites !! sc
  = Some match Re.rmatch false VOL_REPORTER_RE (Str.strip (full_text c)) with
         | Some m =>
             let '(vol, reporter) := vol_reporter (Str.strip (full_text c)) m in
             link_to c (List.find (pincite_match vol reporter) (derefs h full_cites))
         | None => c
         end.
Proof.
  intros Hdisj Hsc Hc Hid Hsupra.
  destruct (resolve_short_forms_lookup h full_cites short_cites Hdisj) as [Hin _].
  rewrite (Hin sc Hsc), Hc. simpl. f_equal.
  rewrite resolve_one_parent. unfold parent_of. rewrite Hid, Hsupra.
  destruct (Re.rmatch false VOL_REPORTER_RE _) as [m|]; [|reflexivity].
  reflexivity.
Qed.

(** * Key normalization *)

Lemma case_not_statute (pattern_name : string) :
  Str.startswith pattern_name "case_" = true ->
  Str.startswith pattern_name "statute_" = false.
Proof.
  unfold Str.startswith. destruct pattern_name as [|c rest]; [discriminate|].
  rewrite !prefix_cons. destruct (Ascii.eqb "c" c) eqn:Hc; [|discriminate].
  apply Ascii.eqb_eq in Hc. subst c. reflexivity.
Qed.

(** Claim C5 (case-key normalization), as amended.  For a match of a
    [case_*] pattern the key is built from the first match, on the
    lowered and whitespace-collapsed text, of the pattern of the code,
    [CASE_TRIPLE_RE], in which whitespace may follow a period inside the
    reporter: volume, reporter without whitespace and periods, and page, joined by
    ["_"]; without such a match the generic rule applies.  The text
    "Smith v. Jones, 123 F.3d 456 (6th Cir. 2020)" gets "123_f3d_456". *)
Theorem normalize_case_key (text pattern_name : string) :
  Str.startswith pattern_name "case_" = true ->
  _normalize text pattern_name
  = match Re.search false CASE_TRIPLE_RE (collapsed text) with
    | Some m => triple_key (collapsed text) m
    | None => generic_key (collapsed text)
    end
  /\ _normalize "Smith v. Jones, 123 F.3d 456 (6th Cir. 2020)" pattern_name
     = "123_f3d_456".
Proof.
  intros Hcase. unfold _normalize. rewrite Hcase.
  rewrite (case_not_statute _ Hcase). unfold case_key. fold (collapsed text).
  split.
  - destruct (Re.search false CASE_TRIPLE_RE (collapsed text)); [reflexivity|].
    unfold generic_key. now destruct (Str.startswith pattern_name "rule_"),
      (Str.startswith pattern_name "const_").
  - vm_compute. reflexivity.
Qed.

Lemma normalize_case_key_witness :
  _normalize "Doe v. Roe, 410 U.S. 113 (1973)" "case_full"
  = match Re.search false CASE_TRIPLE_RE (collapsed "Doe v. Roe, 410 U.S. 113 (1973)") with
    | Some m => triple_key (collapsed "Doe v. Roe, 410 U.S. 113 (1973)") m
    | None => generic_key (collapsed "Doe v. Roe, 410 U.S. 113 (1973)")
    end
  /\ _normalize "Smith v. Jones, 123 F.3d 456 (6th Cir. 2020)" "case_full"
     = "123_f3d_456".
Proof.
  apply (normalize_case_key "Doe v. Roe, 410 U.S. 113 (1973)" "case_full").
  reflexivity.
Defined.

(** A reporter written with a space after its period: the pattern of the
    code reads "s. ct." as one reporter, the pattern of the specification
    finds no triple and falls back to the generic rule. *)
Lemma normalize_case_key_counterexample :
  List.map (fun c => (full_text c, normalized_key c))
    (detect [PageText.mk 1 "Smith v. Jones, 123 S. Ct. 456"])
  = [("Smith v. Jones, 123 S. Ct. 456", "123_sct_456")]
  /\ _normalize "Smith v. Jones, 123 S. Ct. 456" "case_full" = "123_sct_456"
  /\ spec_case_key "Smith v. Jones, 123 S. Ct. 456"
     = "smith_v_jones,_123_s_ct_456".
Proof. repeat split; vm_compute; reflexivity. Qed.

(** * What a match of a pattern must contain *)

Module SolidFacts.
Import Re Solid.

Lemma all_chars_complete (c : ascii) : In c all_chars.
Proof.
  unfold all_chars. apply in_map_iff. exists (nat_of_ascii c). split.
  - apply ascii_nat_embedding.
  - apply in_seq. pose proof (nat_ascii_bounded c). lia.
Qed.

Lemma advanced_refl (st : mstate) : advanced st st "".
Proof. split; simpl; [reflexivity|lia]. Qed.

Lemma append_assoc (a b c : string) : (a ++ b) ++ c = a ++ (b ++ c).
Proof. induction a as [|x a IH]; simpl; [reflexivity|now rewrite IH]. Qed.

Lemma length_append (a b : string) :
  String.length (a ++ b) = (String.length a + String.length b)%nat.
Proof. induction a as [|x a IH]; simpl; [reflexivity|now rewrite IH]. Qed.

Lemma existsb_append (p : ascii -> bool) (a b : string) :
  Str.existsb p (a ++ b) = Str.existsb p a || Str.existsb p b.
Proof. induction a as [|x a IH]; simpl; [reflexivity|]. now rewrite IH, orb_assoc. Qed.

Lemma advanced_trans (st1 st2 st3 : mstate) (w1 w2 : string) :
  advanced st1 st2 w1 -> advanced st2 st3 w2 -> advanced st1 st3 (w1 ++ w2).
Proof.
  intros [R1 P1] [R2 P2]. split.
  - now rewrite R1, R2, append_assoc.
  - rewrite length_append. lia.
Qed.

Lemma star_loop_sound (body : (mstate -> option mstate) -> mstate -> option mstate) :
  sound false body -> forall fuel, sound false (fun k => star_loop body k fuel).
Proof.
  intros Hbody fuel. unfold sound. induction fuel as [|fuel IH]; intros k st res H; simpl in H.
  - exists st, "". split; [exact H|]. split; [apply advanced_refl|discriminate].
  - destruct (body _ st) as [res'|] eqn:Hb.
    + injection H as ->. apply Hbody in Hb.
      destruct Hb as (st1 & w1 & Hk & Hadv & _).
      destruct (m_pos st <? m_pos st1)%nat; [|discriminate].
      apply IH in Hk. destruct Hk as (st2 & w2 & Hk & Hadv2 & _).
      exists st2, (w1 ++ w2). split; [exact Hk|]. split; [|discriminate].
      eapply advanced_trans; eauto.
    + exists st, "". split; [exact H|]. split; [apply advanced_refl|discriminate].
Qed.

Lemma sound_weaken (need : bool) body : sound need body -> sound false body.
Proof.
  intros H k st res Hr. destruct (H k st res Hr) as (st' & w & Hk & Ha & _).
  exists st', w. repeat split; try apply Ha; [exact Hk|discriminate].
Qed.

Lemma cls_solid_visible (ic neg : bool) (items : list cls_item) (c : ascii) :
  cls_solid ic neg items = true -> cls_matches ic neg items c = true -> visible c = true.
Proof.
  unfold cls_solid. intros H Hm. rewrite forallb_forall in H.
  specialize (H c (all_chars_complete c)). now rewrite Hm in H.
Qed.

Lemma run_sound (ic : bool) (r : regex) : sound (solid ic r) (run ic r).
Proof.
  induction r as [| |neg items|r1 IH1 r2 IH2|r1 IH1 r2 IH2|r1 IH1|n r1 IH1];
    intros k st res H; simpl in H.
  - exists st, "". split; [exact H|]. split; [apply advanced_refl|discriminate].
  - destruct (m_pos st =? 0)%nat; [|discriminate].
    exists st, "". split; [exact H|]. split; [apply advanced_refl|discriminate].
  - destruct (m_rest st) as [|c s'] eqn:Hrest; [discriminate|].
    destruct (cls_matches ic neg items c) eqn:Hm; [|discriminate].
    eexists _, (String c ""). split; [exact H|]. split.
    + split; simpl; [exact Hrest|lia].
    + simpl. intros Hs. rewrite (cls_solid_visible _ _ _ _ Hs Hm). reflexivity.
  - apply IH1 in H. destruct H as (st1 & w1 & H & Ha1 & Hv1).
    apply IH2 in H. destruct H as (st2 & w2 & H & Ha2 & Hv2).
    exists st2, (w1 ++ w2). split; [exact H|]. split; [eapply advanced_trans; eauto|].
    simpl. rewrite existsb_append. intros Hs. apply orb_true_iff in Hs.
    destruct Hs as [Hs|Hs]; [rewrite Hv1|rewrite Hv2]; auto using orb_true_r.
  - simpl. destruct (run ic r1 k st) as [res'|] eqn:H1.
    + injection H as ->. apply IH1 in H1. destruct H1 as (st' & w & Hk & Ha & Hv).
      exists st', w. repeat split; try apply Ha; [exact Hk|].
      intros Hs. apply andb_true_iff in Hs. now apply Hv.
    + apply IH2 in H. destruct H as (st' & w & Hk & Ha & Hv).
      exists st', w. repeat split; try apply Ha; [exact Hk|].
      intros Hs. apply andb_true_iff in Hs. now apply Hv.
  - destruct (star_loop_sound (run ic r1) (sound_weaken _ _ IH1)
                (S (String.length (m_rest st))) k st res H) as (st' & w & Hk & Ha & _).
    exists st', w. repeat split; try apply Ha; [exact Hk|discriminate].
  - apply IH1 in H. destruct H as (st' & w & Hk & Ha & Hv).
    exists (set_cap n (m_pos st) st'), w. split; [exact Hk|]. split; [exact Ha|exact Hv].
Qed.

Lemma match_at_text (ic : bool) (r : regex) (pos : nat) (rest : string) (m : mobj) :
  match_at ic r pos rest = Some m ->
  exists w, rest = w ++ m_rest (mo_state m) /\ mo_start m = pos
            /\ mo_end m = (pos + String.length w)%nat
            /\ (solid ic r = true -> Str.existsb visible w = true).
Proof.
  unfold match_at. destruct (run ic r Some _) as [st|] eqn:H; [|discriminate].
  intros [= <-]. apply run_sound in H.
  destruct H as (st' & w & [= ->] & [Hr Hp] & Hv).
  exists w. simpl in *. repeat split; assumption.
Qed.

Lemma spans_later (c : ascii) (rest : string) (pos : nat) (m : mobj) (w : string) :
  spans rest (S pos) m w -> spans (String c rest) pos m w.
Proof.
  intros (pre & post & -> & Hs & He). exists (String c pre), post.
  simpl. repeat split; [lia|exact He].
Qed.

Lemma finditer_from_spans (ic : bool) (r : regex) (fuel pos : nat) (rest : string) (m : mobj) :
  In m (finditer_from fuel ic r pos rest) ->
  exists w, spans rest pos m w /\ (solid ic r = true -> Str.existsb visible w = true).
Proof.
  revert pos rest. induction fuel as [|fuel IH]; intros pos rest Hin; simpl in Hin; [destruct Hin|].
  assert (Hskip : In m match rest with
                       | EmptyString => []
                       | String _ rest' => finditer_from fuel ic r (S pos) rest'
                       end ->
                  exists w, spans rest pos m w
                            /\ (solid ic r = true -> Str.existsb visible w = true)).
  { destruct rest as [|c rest']; [intros []|]. intros H. apply IH in H.
    destruct H as (w & Hsp & Hv). exists w. split; [now apply spans_later|exact Hv]. }
  destruct (match_at ic r pos rest) as [m0|] eqn:Hm; [|now apply Hskip].
  destruct (match_at_text _ _ _ _ _ Hm) as (w0 & Hrest & Hstart & Hend & Hv0).
  assert (Hhere : exists w, spans rest pos m0 w
                            /\ (solid ic r = true -> Str.existsb visible w = true)).
  { exists w0. split; [|exact Hv0]. exists "", (m_rest (mo_state m0)).
    simpl. repeat split; [exact Hrest|lia|lia]. }
  destruct (pos <? mo_end m0)%nat.
  - destruct Hin as [<-|Hin]; [exact Hhere|].
    apply IH in Hin. destruct Hin as (w & (pre & post & Hr & Hs & He) & Hv).
    exists w. split; [|exact Hv]. exists (w0 ++ pre), post.
    rewrite Hrest, Hr, append_assoc, length_append. repeat split; lia.
  - destruct Hin as [<-|Hin]; [exact Hhere|now apply Hskip].
Qed.

Lemma substring_skip (pre s : string) (n : nat) :
  String.substring (String.length pre) n (pre ++ s) = String.substring 0 n s.
Proof. induction pre as [|c pre IH]; simpl; [reflexivity|exact IH]. Qed.

Lemma substring_prefix (w post : string) :
  String.substring 0 (String.length w) (w ++ post) = w.
Proof.
  induction w as [|c w IH]; simpl; [now destruct post|]. now rewrite IH.
Qed.

Lemma finditer_group0 (ic : bool) (r : regex) (s : string) (m : mobj) :
  In m (finditer ic r s) ->
  solid ic r = true -> Str.existsb visible (group0 s m) = true.
Proof.
  intros Hin Hs. apply finditer_from_spans in Hin.
  destruct Hin as (w & (pre & post & Hr & Hstart & Hend) & Hv).
  unfold group0. rewrite Hend, Hstart. simpl.
  replace (String.length pre + String.length w - String.length pre)%nat
    with (String.length w) by lia.
  rewrite Hr, substring_skip, substring_prefix. now apply Hv.
Qed.

End SolidFacts.

(** ** Trimming and substitution keep a text non-empty *)

Lemma lstrip_visible (s : string) :
  Str.existsb Solid.visible (Str.lstrip s) = Str.existsb Solid.visible s.
Proof.
  unfold Solid.visible. induction s as [|c s IH]; simpl; [reflexivity|].
  destruct (Char.isspace c) eqn:E; simpl; [exact IH|now rewrite E].
Qed.

Lemma rstrip_visible (s : string) :
  Str.existsb Solid.visible (Str.rstrip s) = Str.existsb Solid.visible s.
Proof.
  unfold Solid.visible. induction s as [|c s IH]; simpl; [reflexivity|]. rewrite <- IH.
  destruct (Str.rstrip s) as [|c' r]; simpl.
  - destruct (Char.isspace c) eqn:E; simpl; [reflexivity|now rewrite E].
  - reflexivity.
Qed.

Lemma strip_visible (s : string) :
  Str.existsb Solid.visible (Str.strip s) = Str.existsb Solid.visible s.
Proof. unfold Str.strip. now rewrite rstrip_visible, lstrip_visible. Qed.

Lemma visible_nonempty (s : string) : Str.existsb Solid.visible s = true -> s <> "".
Proof. now destruct s. Qed.

Lemma lower_nonempty (s : string) : s <> "" -> Str.lower s <> "".
Proof. now destruct s. Qed.

Lemma append_nonempty_r (a b : string) : b <> "" -> a ++ b <> "".
Proof. destruct a; simpl; [trivial|discriminate]. Qed.

Lemma append_nonempty_l (a b : string) : a <> "" -> a ++ b <> "".
Proof. destruct a; simpl; [congruence|discriminate]. Qed.

Lemma sub_nonempty (ic : bool) (r : Re.regex) (repl s : string) :
  repl <> "" -> s <> "" -> Re.sub ic r repl s <> "".
Proof.
  intros Hrepl Hs. unfold Re.sub. destruct s as [|c s]; [congruence|].
  simpl. destruct (Re.match_at ic r 0 (String c s)) as [m|]; [|discriminate].
  destruct (0 <? Re.mo_end m)%nat; now apply append_nonempty_l.
Qed.

Lemma normalize_nonempty (text pattern_name : string) :
  Str.existsb Solid.visible text = true -> _normalize text pattern_name <> "".
Proof.
  intros Hv. unfold _normalize.
  assert (Hnorm : Re.sub false WS_RUN_RE " " (Str.lower (Str.strip text)) <> "").
  { apply sub_nonempty; [discriminate|]. apply lower_nonempty, visible_nonempty.
    now rewrite strip_visible. }
  destruct (if Str.startswith pattern_name "case_" then _ else None) as [key|] eqn:Hk.
  - destruct (Str.startswith pattern_name "case_"); [|discriminate].
    unfold case_key in Hk. destruct (Re.search _ _ _); [|discriminate].
    injection Hk as <-. apply append_nonempty_r. discriminate.
  - repeat match goal with |- context [if ?b then _ else _] => destruct b end;
      repeat (first [exact Hnorm | apply sub_nonempty; [discriminate|]]).
Qed.

(** Every pattern of the registry that is not a short-form pattern only
    matches text that holds a visible character. *)
Lemma registry_solid :
  List.forallb (fun '(name, r, _) => Str.startswith name "short_" || Solid.solid false r)
    Patterns.PATTERN_REGISTRY = true.
Proof. vm_compute. reflexivity. Qed.

Lemma scan_page_visible (registry : list (string * Re.regex * CitationCategory))
    (off : Z) (pd : PageText.t) (m : RawMatch.t) :
  List.forallb (fun '(name, r, _) => Str.startswith name "short_" || Solid.solid false r)
    registry = true ->
  In m (scan_page registry off pd) ->
  Str.startswith (RawMatch.pattern_name m) "short_" = false ->
  Str.existsb Solid.visible (RawMatch.text m) = true.
Proof.
  intros Hreg Hin Hfull. unfold scan_page in Hin. apply in_flat_map in Hin.
  destruct Hin as ([[name r] cat] & Hentry & Hin).
  apply in_map_iff in Hin. destruct Hin as (mo & <- & Hmo). simpl in *.
  rewrite forallb_forall in Hreg. specialize (Hreg _ Hentry). simpl in Hreg.
  rewrite Hfull in Hreg. simpl in Hreg.
  rewrite strip_visible. now apply (SolidFacts.finditer_group0 false r).
Qed.

Lemma scan_from_visible (registry : list (string * Re.regex * CitationCategory))
    (pages : list PageText.t) (off : Z) (m : RawMatch.t) :
  List.forallb (fun '(name, r, _) => Str.startswith name "short_" || Solid.solid false r)
    registry = true ->
  In m (scan_from registry off pages) ->
  Str.startswith (RawMatch.pattern_name m) "short_" = false ->
  Str.existsb Solid.visible (RawMatch.text m) = true.
Proof.
  intros Hreg. revert off. induction pages as [|pd pages IH]; intros off Hin Hfull; [destruct Hin|].
  simpl in Hin. apply in_app_or in Hin. destruct Hin as [Hin|Hin].
  - eapply scan_page_visible; eauto.
  - eapply IH; eauto.
Qed.

Lemma scan_well_formed (pages : list PageText.t) (m : RawMatch.t) :
  In m (_scan pages) -> well_formed m.
Proof. intros Hin Hfull. eapply scan_from_visible; eauto. apply registry_solid. Qed.

(** * Page lists *)

Lemma increasing_NoDup (ps : list Z) : increasing ps -> NoDup ps.
Proof.
  induction 1 as [|p ps Hs IH Hp]; constructor; [|exact IH].
  intros Hin. rewrite Forall_forall in Hp.
  apply Hp in Hin. lia.
Qed.

Lemma page_in_spec (p : Z) (ps : list Z) : page_in p ps = true <-> In p ps.
Proof.
  unfold page_in. rewrite existsb_exists. split.
  - intros (x & Hx & He). apply Z.eqb_eq in He. now subst.
  - intros H. exists p. split; [exact H|apply Z.eqb_refl].
Qed.

Lemma sort_pages_increasing (ps : list Z) :
  NoDup ps -> increasing (sort Z.leb ps).
Proof.
  intros Hnd.
  assert (Hs : StronglySorted (le_prop Z.leb) (sort Z.leb ps)).
  { apply sort_sorted.
    - intros a b. rewrite !Z.leb_le. lia.
    - intros a b c. rewrite !Z.leb_le. lia. }
  assert (Hnd' : NoDup (sort Z.leb ps)).
  { now rewrite sort_perm. }
  unfold increasing. induction Hs as [|p l Hs IH Hp]; constructor.
  - apply IH. now inversion Hnd'.
  - inversion Hnd' as [|? ? Hnotin _]; subst.
    rewrite Forall_forall in *. intros x Hx. specialize (Hp x Hx).
    unfold le_prop in Hp. apply Z.leb_le in Hp.
    assert (x <> p) by (intros ->; now apply Hnotin).
    lia.
Qed.

Lemma append_new_pages_In (self_pages other_pages : list Z) (p : Z) :
  In p (append_new_pages self_pages other_pages) <-> In p self_pages \/ In p other_pages.
Proof.
  revert self_pages. induction other_pages as [|q qs IH]; intros self_pages; simpl; [tauto|].
  rewrite IH. destruct (page_in q self_pages) eqn:Hq.
  - apply page_in_spec in Hq. split; [tauto|].
    intros [H|[<-|H]]; tauto.
  - rewrite in_app_iff. simpl. tauto.
Qed.

Lemma append_new_pages_NoDup (self_pages other_pages : list Z) :
  NoDup self_pages -> NoDup (append_new_pages self_pages other_pages).
Proof.
  revert self_pages. induction other_pages as [|q qs IH]; intros self_pages Hnd; simpl; [exact Hnd|].
  apply IH. destruct (page_in q self_pages) eqn:Hq; [exact Hnd|].
  apply NoDup_app. repeat split; [exact Hnd| |apply NoDup_singleton].
  intros x Hx Hx'. apply list_elem_of_In in Hx, Hx'. destruct Hx' as [<-|[]].
  apply page_in_spec in Hx. congruence.
Qed.

Lemma merge_pages_pages (self other : Citation) :
  NoDup (pages self) ->
  increasing (pages (merge_pages self other))
  /\ forall p, In p (pages (merge_pages self other)) <-> In p (pages self) \/ In p (pages other).
Proof.
  intros Hnd. unfold merge_pages. simpl. split.
  - apply sort_pages_increasing. now apply append_new_pages_NoDup.
  - intros p. rewrite sort_In. apply append_new_pages_In.
Qed.

Lemma absorb_page_pages (canon : Citation) (q : Z) :
  increasing (pages canon) ->
  increasing (pages (absorb_page canon q))
  /\ forall p, In p (pages (absorb_page canon q)) <-> In p (pages canon) \/ p = q.
Proof.
  intros Hinc. unfold absorb_page. destruct (page_in q (pages canon)) eqn:Hq.
  - split; [exact Hinc|]. apply page_in_spec in Hq. intros p. split; [tauto|].
    intros [H| ->]; assumption.
  - simpl. split.
    + apply sort_pages_increasing. apply NoDup_app.
      repeat split; [now apply increasing_NoDup| |apply NoDup_singleton].
      intros x Hx Hx'. apply list_elem_of_In in Hx, Hx'. destruct Hx' as [<-|[]].
      apply page_in_spec in Hx. congruence.
    + intros p. rewrite sort_In, in_app_iff. simpl. intuition congruence.
Qed.

Lemma absorb_pages_pages (qs : list Z) (canon : Citation) :
  increasing (pages canon) ->
  increasing (pages (fold_left absorb_page qs canon))
  /\ forall p, In p (pages (fold_left absorb_page qs canon)) <-> In p (pages canon) \/ In p qs.
Proof.
  revert canon. induction qs as [|q qs IH]; intros canon Hinc; simpl; [split; [exact Hinc|tauto]|].
  destruct (absorb_page_pages canon q Hinc) as [Hinc' Hin'].
  destruct (IH _ Hinc') as [Hinc'' Hin''].
  split; [exact Hinc''|]. intros p. rewrite Hin'', Hin'. intuition congruence.
Qed.

(** * The stages of [detect] *)

Lemma refs_where_lookup (p : Citation -> bool) (h : list Citation) (i r : nat) :
  In r (refs_where p h i) ->
  exists c, h !! (r - i)%nat = Some c /\ p c = true /\ (i <= r)%nat.
Proof.
  revert i. induction h as [|c h IH]; intros i Hin; simpl in Hin; [destruct Hin|].
  assert (Hlater : In r (refs_where p h (S i)) ->
                   exists c', (c :: h) !! (r - i)%nat = Some c' /\ p c' = true /\ (i <= r)%nat).
  { intros H. apply IH in H. destruct H as (c' & Hl & Hp & Hle).
    exists c'. replace (r - i)%nat with (S (r - S i)) by lia.
    repeat split; [exact Hl|exact Hp|lia]. }
  destruct (p c) eqn:Hp; [|now apply Hlater].
  destruct Hin as [<-|Hin]; [|now apply Hlater].
  exists c. rewrite Nat.sub_diag. repeat split; [exact Hp|lia].
Qed.

Lemma derefs_refs_where (p : Citation -> bool) (pre h : list Citation) :
  derefs (pre ++ h)%list (refs_where p h (length pre)) = List.filter p h.
Proof.
  revert pre. induction h as [|c h IH]; intros pre; simpl; [reflexivity|].
  assert (Hrest : derefs (pre ++ c :: h)%list (refs_where p h (S (length pre))) = List.filter p h).
  { specialize (IH (pre ++ [c])%list). rewrite <- app_assoc in IH. simpl in IH.
    rewrite length_app in IH. simpl in IH.
    now replace (length pre + 1)%nat with (S (length pre)) in IH by lia. }
  destruct (p c); [|exact Hrest].
  simpl. rewrite list_lookup_middle by reflexivity. now rewrite Hrest.
Qed.

Lemma derefs_fmap (f : Citation -> Citation) (h h' : list Citation) (refs : list nat) :
  (forall r, In r refs -> h' !! r = f <$> h !! r) ->
  derefs h' refs = List.map f (derefs h refs).
Proof.
  induction refs as [|r refs IH]; intros H; simpl; [reflexivity|].
  rewrite (H r) by now left.
  assert (IH' : derefs h' refs = List.map f (derefs h refs))
    by (apply IH; intros r' Hr'; apply H; now right).
  destruct (h !! r); simpl; now rewrite IH'.
Qed.

(** The heap of [detect] seen as values: the full citations are the
    citations built from the accepted matches that are not short forms,
    unchanged and in document order; the short forms are each resolved
    against them. *)
Lemma resolved_view (raw_matches : list RawMatch.t) :
  let cs := _to_citations raw_matches in
  let fulls := List.filter is_full cs in
  let '(h, full_refs, short_refs) := resolved raw_matches in
  derefs h full_refs = fulls
  /\ derefs h short_refs
     = List.map (resolve_one (sort_on min_page fulls) fulls) (List.filter is_short_form cs).
Proof.
  intros cs fulls. unfold resolved. fold cs.
  set (full_refs := refs_where (fun c => negb (is_short_form c)) cs 0).
  set (short_refs := refs_where is_short_form cs 0).
  assert (Hfull : forall r, In r full_refs ->
                    exists c, cs !! r = Some c /\ is_short_form c = false).
  { intros r Hr. apply refs_where_lookup in Hr. destruct Hr as (c & Hl & Hp & _).
    rewrite Nat.sub_0_r in Hl. exists c. split; [exact Hl|]. now apply negb_true_iff. }
  assert (Hshort : forall r, In r short_refs ->
                    exists c, cs !! r = Some c /\ is_short_form c = true).
  { intros r Hr. apply refs_where_lookup in Hr. destruct Hr as (c & Hl & Hp & _).
    rewrite Nat.sub_0_r in Hl. now exists c. }
  assert (Hdisj : forall r, In r full_refs -> ~ In r short_refs).
  { intros r Hf Hs. destruct (Hfull r Hf) as (c & Hc & Hcf), (Hshort r Hs) as (c' & Hc' & Hcs).
    congruence. }
  assert (Hfulls : derefs cs full_refs = fulls) by apply (derefs_refs_where _ [] cs).
  destruct (resolve_short_forms_lookup cs full_refs short_refs Hdisj) as [Hin Hout].
  split.
  - rewrite <- Hfulls. apply derefs_ext. intros r Hr. apply Hout. now apply Hdisj.
  - rewrite (derefs_fmap _ cs _ short_refs Hin).
    rewrite derefs_sort_on, Hfulls.
    + f_equal. apply (derefs_refs_where _ [] cs).
    + intros r Hr. destruct (Hfull r Hr) as (c & Hc & _). now exists c.
Qed.

Lemma full_cites_of_view (raw_matches : list RawMatch.t) :
  full_cites_of raw_matches
  = List.filter is_full (_to_citations (_remove_overlaps raw_matches)).
Proof.
  unfold full_cites_of. pose proof (resolved_view (_remove_overlaps raw_matches)) as H.
  cbv zeta in H. destruct (resolved _) as [[h f] s]. apply H.
Qed.

Lemma short_cites_of_view (raw_matches : list RawMatch.t) :
  short_cites_of raw_matches
  = List.map (resolve_one (sort_on min_page (full_cites_of raw_matches))
                (full_cites_of raw_matches))
      (List.filter is_short_form (_to_citations (_remove_overlaps raw_matches))).
Proof.
  rewrite full_cites_of_view.
  unfold short_cites_of. pose proof (resolved_view (_remove_overlaps raw_matches)) as H.
  cbv zeta in H. destruct (resolved _) as [[h f] s]. apply H.
Qed.

Lemma detect_matches_view (raw_matches : list RawMatch.t) :
  detect_matches raw_matches
  = sort by_category_then_key
      (List.map generate_sort_key
         (List.map snd (merged (full_cites_of raw_matches) (short_cites_of raw_matches)))).
Proof.
  unfold detect_matches, full_cites_of, short_cites_of.
  now destruct (resolved _) as [[h f] s].
Qed.

(** * Deduplication and page absorption *)

Lemma same_but_pages_refl (c : Citation) : same_but_pages c c.
Proof. repeat split. Qed.

Lemma same_but_pages_trans (a b c : Citation) :
  same_but_pages a b -> same_but_pages b c -> same_but_pages a c.
Proof.
  unfold same_but_pages.
  intros (A1&A2&A3&A4&A5&A6&A7&A8&A9) (B1&B2&B3&B4&B5&B6&B7&B8&B9).
  repeat split; congruence.
Qed.

Lemma merge_pages_same (self other : Citation) : same_but_pages self (merge_pages self other).
Proof. repeat split. Qed.

Lemma absorb_page_same (canon : Citation) (p : Z) : same_but_pages canon (absorb_page canon p).
Proof. unfold absorb_page. destruct (page_in _ _); repeat split. Qed.

Lemma absorb_pages_same (ps : list Z) (canon : Citation) :
  same_but_pages canon (fold_left absorb_page ps canon).
Proof.
  revert canon. induction ps as [|p ps IH]; intros canon; simpl; [apply same_but_pages_refl|].
  eapply same_but_pages_trans; [apply absorb_page_same|apply IH].
Qed.

(** ** The dict *)

Lemma dict_has_spec (k : string) (d : list (string * Citation)) :
  dict_has k d = true <-> In k (List.map fst d).
Proof.
  induction d as [|[k' v] d IH]; simpl; [split; [discriminate|tauto]|].
  rewrite orb_true_iff, IH, String.eqb_eq. intuition congruence.
Qed.

Lemma map_upd_absent (k : string) (f : Citation -> Citation) (d : list (string * Citation)) :
  ~ In k (List.map fst d) -> List.map (upd k f) d = d.
Proof.
  induction d as [|[k' v] d IH]; simpl; intros Hk; [reflexivity|].
  unfold upd at 1. simpl. destruct (String.eqb k k') eqn:E.
  - apply String.eqb_eq in E. subst k'. tauto.
  - rewrite IH; [reflexivity|tauto].
Qed.

Lemma dict_update_map (k : string) (f : Citation -> Citation) (d : list (string * Citation)) :
  NoDup (List.map fst d) -> dict_update k f d = List.map (upd k f) d.
Proof.
  induction d as [|[k' v] d IH]; simpl; intros Hnd; [reflexivity|].
  apply NoDup_cons in Hnd. destruct Hnd as [Hk' Hnd].
  unfold upd at 1. simpl. destruct (String.eqb k k') eqn:E.
  - apply String.eqb_eq in E. subst k'. rewrite map_upd_absent; [reflexivity|].
    intros H. apply Hk'. now apply list_elem_of_In.
  - now rewrite IH.
Qed.

Lemma map_upd_keys (k : string) (f : Citation -> Citation) (d : list (string * Citation)) :
  List.map fst (List.map (upd k f) d) = List.map fst d.
Proof.
  rewrite List.map_map. apply List.map_ext. intros [k' v]. unfold upd. simpl.
  now destruct (String.eqb k k').
Qed.

(** ** The first loop of step 6 *)

Lemma merged_entry_other (done : list Citation) (k : string) (v c : Citation) :
  merged_entry done k v -> normalized_key c <> k -> merged_entry (done ++ [c]) k v.
Proof.
  intros (l1 & c0 & l2 & -> & Hk & Hfirst & Hsame & Hinc & Hp) Hne.
  exists l1, c0, (l2 ++ [c])%list.
  split; [now rewrite <- app_assoc|].
  do 4 (split; [assumption|]). intros p. split.
  - intros H. apply Hp in H. destruct H as (x & Hx & Hkx & Hpx).
    exists x. repeat split; try assumption. apply in_or_app. now left.
  - intros (x & Hx & Hkx & Hpx). apply Hp. exists x. repeat split; try assumption.
    apply in_app_or in Hx.
    destruct Hx as [Hx|[<-|[]]]; [exact Hx|congruence].
Qed.

Lemma merged_entry_merge (done : list Citation) (k : string) (v c : Citation) :
  merged_entry done k v -> normalized_key c = k ->
  merged_entry (done ++ [c]) k (merge_pages v c).
Proof.
  intros (l1 & c0 & l2 & -> & Hk & Hfirst & Hsame & Hinc & Hp) Hkc.
  destruct (merge_pages_pages v c (increasing_NoDup _ Hinc)) as [Hinc' Hp'].
  exists l1, c0, (l2 ++ [c])%list.
  split; [now rewrite <- app_assoc|].
  do 2 (split; [assumption|]).
  split; [eapply same_but_pages_trans; [exact Hsame|apply merge_pages_same]|].
  split; [exact Hinc'|]. intros p. split.
  - intros H. apply Hp' in H. destruct H as [H|H].
    + apply Hp in H. destruct H as (x & Hx & Hkx & Hpx).
      exists x. repeat split; try assumption. apply in_or_app. now left.
    + exists c. repeat split; try assumption.
      apply in_or_app. right. now left.
  - intros (x & Hx & Hkx & Hpx). apply Hp'.
    apply in_app_or in Hx.
    destruct Hx as [Hx|[<-|[]]]; [left|now right].
    apply Hp. now exists x.
Qed.

Lemma merged_entry_new (done : list Citation) (c : Citation) :
  (forall x, In x done -> normalized_key x <> normalized_key c) ->
  increasing (pages c) ->
  merged_entry (done ++ [c]) (normalized_key c) c.
Proof.
  intros Hfresh Hinc. exists done, c, [].
  do 3 (split; [first [reflexivity | assumption]|]).
  split; [apply same_but_pages_refl|]. split; [exact Hinc|]. intros p. split.
  - intros Hp. exists c. repeat split; [|exact Hp]. apply in_or_app. right. now left.
  - intros (x & Hx & Hkx & Hpx). apply in_app_or in Hx.
    destruct Hx as [Hx|[<-|[]]]; [|exact Hpx]. now apply Hfresh in Hx.
Qed.

Lemma merge_full_inv (done : list Citation) (d : list (string * Citation)) (c : Citation) :
  increasing (pages c) -> merge_inv done d -> merge_inv (done ++ [c]) (merge_full d c).
Proof.
  intros Hinc (Hnd & Hent & Hcov). unfold merge_full.
  destruct (dict_has (normalized_key c) d) eqn:Hhas.
  - apply dict_has_spec in Hhas. rewrite dict_update_map by exact Hnd.
    split; [now rewrite map_upd_keys|]. split.
    + intros k v Hin. apply in_map_iff in Hin. destruct Hin as ([k0 v0] & Heq & Hin0).
      unfold upd in Heq. simpl in Heq.
      destruct (String.eqb (normalized_key c) k0) eqn:E.
      * apply String.eqb_eq in E. injection Heq as <- <-.
        apply merged_entry_merge; [now apply Hent|exact E].
      * apply String.eqb_neq in E. injection Heq as <- <-.
        apply merged_entry_other; [now apply Hent|exact E].
    + intros x Hx. rewrite map_upd_keys. apply in_app_or in Hx.
      destruct Hx as [Hx|[<-|[]]]; [now apply Hcov|exact Hhas].
  - assert (Hfresh : ~ In (normalized_key c) (List.map fst d)).
    { intros H. apply dict_has_spec in H. congruence. }
    split; [|split].
    + rewrite map_app. simpl. apply NoDup_app. repeat split; [exact Hnd| |apply NoDup_singleton].
      intros k Hk Hk'. apply list_elem_of_In in Hk, Hk'. destruct Hk' as [<-|[]]. tauto.
    + intros k v Hin. apply in_app_or in Hin. destruct Hin as [Hin|[[= <- <-]|[]]].
      * apply merged_entry_other; [now apply Hent|].
        intros Heq. apply Hfresh. rewrite Heq. apply in_map_iff. now exists (k, v).
      * apply merged_entry_new; [|exact Hinc].
        intros x Hx Heq. apply Hfresh. rewrite <- Heq. now apply Hcov.
    + intros x Hx. rewrite map_app. apply in_or_app. apply in_app_or in Hx.
      destruct Hx as [Hx|[<-|[]]]; [left; now apply Hcov|right; now left].
Qed.

Lemma fold_merge_full_inv (todo done : list Citation) (d : list (string * Citation)) :
  (forall c, In c todo -> increasing (pages c)) ->
  merge_inv done d -> merge_inv (done ++ todo) (fold_left merge_full todo d).
Proof.
  revert done d. induction todo as [|c todo IH]; intros done d Hinc Hinv; simpl.
  - now rewrite app_nil_r.
  - replace (done ++ c :: todo)%list with ((done ++ [c]) ++ todo)%list
      by (now rewrite <- app_assoc).
    apply IH; [intros x Hx; apply Hinc; now right|].
    apply merge_full_inv; [apply Hinc; now left|exact Hinv].
Qed.

Lemma key_to_cite_inv (full_cites : list Citation) :
  (forall c, In c full_cites -> increasing (pages c)) ->
  merge_inv full_cites (fold_left merge_full full_cites []).
Proof.
  intros Hinc. apply (fold_merge_full_inv full_cites [] [] Hinc).
  split; [constructor|]. split; [intros k v []|intros c []].
Qed.

(** ** The second loop of step 6 *)

Lemma absorb_short_map (d : list (string * Citation)) (sc : Citation) :
  NoDup (List.map fst d) ->
  absorb_short d sc = List.map (fun e => (fst e, absorb_into (fst e) (snd e) sc)) d.
Proof.
  intros Hnd. unfold absorb_short, absorb_into, absorbs.
  assert (Hid : forall g : string * Citation -> string * Citation,
             (forall e, In e d -> g e = e) -> d = List.map g d).
  { intros g Hg. rewrite <- (List.map_id d) at 1. apply List.map_ext_in.
    intros e He. symmetry. now apply Hg. }
  destruct (parent_key sc) as [pk|]; [|apply Hid; now intros [k v]].
  destruct (Str.nonempty pk); simpl; [|apply Hid; now intros [k v]].
  destruct (dict_has pk d) eqn:Hhas.
  - rewrite dict_update_map by exact Hnd. apply List.map_ext. intros [k v].
    unfold upd. simpl. now destruct (String.eqb pk k).
  - apply Hid. intros [k v] He. simpl. destruct (String.eqb pk k) eqn:E; [|reflexivity].
    apply String.eqb_eq in E. subst k.
    assert (dict_has pk d = true); [|congruence].
    apply dict_has_spec, in_map_iff. now exists (pk, v).
Qed.

Lemma fold_absorb_short_map (shorts : list Citation) (d : list (string * Citation)) :
  NoDup (List.map fst d) ->
  fold_left absorb_short shorts d
  = List.map (fun e => (fst e, fold_left (absorb_into (fst e)) shorts (snd e))) d.
Proof.
  revert d. induction shorts as [|sc shorts IH]; intros d Hnd; simpl.
  - rewrite <- (List.map_id d) at 1. apply List.map_ext. now intros [k v].
  - rewrite absorb_short_map by exact Hnd. rewrite IH.
    + rewrite List.map_map. reflexivity.
    + rewrite List.map_map. simpl. exact Hnd.
Qed.

Lemma absorb_into_pages (k : string) (shorts : list Citation) (v : Citation) :
  increasing (pages v) ->
  same_but_pages v (fold_left (absorb_into k) shorts v)
  /\ increasing (pages (fold_left (absorb_into k) shorts v))
  /\ (forall p, In p (pages (fold_left (absorb_into k) shorts v)) <->
                In p (pages v)
                \/ exists sc, In sc shorts /\ absorbs k sc = true /\ In p (pages sc)).
Proof.
  revert v. induction shorts as [|sc shorts IH]; intros v Hinc; simpl.
  - split; [apply same_but_pages_refl|]. split; [exact Hinc|].
    intros p. split; [tauto|]. intros [H|(sc & [] & _)]. exact H.
  - assert (Hstep : same_but_pages v (absorb_into k v sc)
                    /\ increasing (pages (absorb_into k v sc))
                    /\ forall p, In p (pages (absorb_into k v sc)) <->
                                 In p (pages v) \/ (absorbs k sc = true /\ In p (pages sc))).
    { unfold absorb_into. destruct (absorbs k sc).
      - destruct (absorb_pages_pages (pages sc) v Hinc) as [Hi Hp].
        split; [apply absorb_pages_same|]. split; [exact Hi|].
        intros p. rewrite Hp. tauto.
      - split; [apply same_but_pages_refl|]. split; [exact Hinc|].
        intros p. split; [tauto|]. intros [H|[H _]]; [exact H|discriminate]. }
    destruct Hstep as (Hs1 & Hi1 & Hp1).
    destruct (IH _ Hi1) as (Hs2 & Hi2 & Hp2).
    split; [eapply same_but_pages_trans; eauto|]. split; [exact Hi2|].
    intros p. rewrite Hp2, Hp1. split.
    + intros [[H|[Ha H]]|(sc' & Hin & Ha & H)]; [now left| |].
      * right. exists sc. repeat split; [now left|exact Ha|exact H].
      * right. exists sc'. repeat split; [now right|exact Ha|exact H].
    + intros [H|(sc' & [<-|Hin] & Ha & H)]; [now left; left|left; right; tauto|].
      right. now exists sc'.
Qed.

(** * The output of [detect] *)

Lemma keep_loop_subset (matches kept : list RawMatch.t) (occupied : list (Z * Z))
    (x : RawMatch.t) :
  In x (keep_loop matches kept occupied) -> In x kept \/ In x matches.
Proof.
  revert kept occupied. induction matches as [|m rest IH]; intros kept occ H; simpl in H;
    [now left|].
  destruct (List.existsb _ _); apply IH in H.
  - destruct H; [now left|right; now right].
  - destruct H as [H|H]; [|right; now right].
    apply in_app_or in H. destruct H as [H|[<-|[]]]; [now left|right; now left].
Qed.

Lemma remove_overlaps_subset (matches : list RawMatch.t) (x : RawMatch.t) :
  In x (_remove_overlaps matches) -> In x matches.
Proof.
  unfold _remove_overlaps. destruct matches as [|m0 ms]; [intros []|].
  intros H. unfold sort_on in H. apply sort_In in H.
  apply keep_loop_subset in H. destruct H as [[]|H]. now apply sort_In in H.
Qed.

Lemma full_cites_of_spec (raw_matches : list RawMatch.t) (c : Citation) :
  In c (full_cites_of raw_matches) ->
  exists m, In m raw_matches /\ c = to_citation m
            /\ Str.startswith (RawMatch.pattern_name m) "short_" = false.
Proof.
  rewrite full_cites_of_view. intros H. apply filter_In in H. destruct H as [H Hf].
  apply in_map_iff in H. destruct H as (m & <- & Hm).
  exists m. split; [now apply remove_overlaps_subset|]. split; [reflexivity|].
  unfold is_full in Hf. simpl in Hf. now apply negb_true_iff in Hf.
Qed.

Lemma short_cites_of_spec (raw_matches : list RawMatch.t) (sc : Citation) :
  In sc (short_cites_of raw_matches) ->
  exists m, In m raw_matches
            /\ Str.startswith (RawMatch.pattern_name m) "short_" = true
            /\ sc = resolve_one (sort_on min_page (full_cites_of raw_matches))
                      (full_cites_of raw_matches) (to_citation m).
Proof.
  rewrite short_cites_of_view. intros H. apply in_map_iff in H.
  destruct H as (c0 & <- & H). apply filter_In in H. destruct H as [H Hs].
  apply in_map_iff in H. destruct H as (m & <- & Hm).
  exists m. split; [now apply remove_overlaps_subset|]. now split.
Qed.

Lemma full_cite_facts (raw_matches : list RawMatch.t) (c : Citation) :
  In c (full_cites_of raw_matches) ->
  increasing (pages c) /\ is_short_form c = false
  /\ ((forall m, In m raw_matches -> well_formed m) -> normalized_key c <> "").
Proof.
  intros H. apply full_cites_of_spec in H. destruct H as (m & Hm & -> & Hfull).
  split; [repeat constructor|]. split; [simpl; now rewrite Hfull|].
  intros Hwf. simpl. rewrite Hfull. simpl.
  apply normalize_nonempty. now apply Hwf.
Qed.

Lemma short_cite_facts (raw_matches : list RawMatch.t) (sc : Citation) :
  In sc (short_cites_of raw_matches) ->
  is_short_form sc = true
  /\ forall k, parent_key sc = Some k ->
       exists fc, In fc (full_cites_of raw_matches) /\ normalized_key fc = k.
Proof.
  intros H. apply short_cites_of_spec in H. destruct H as (m & Hm & Hshort & ->).
  split.
  - destruct (resolve_one_same (sort_on min_page (full_cites_of raw_matches))
                (full_cites_of raw_matches) (to_citation m)) as (_&_&_&_&Hs&_).
    rewrite Hs. exact Hshort.
  - intros k. rewrite resolve_one_parent.
    destruct (parent_of _ _ (to_citation m)) as [fc|] eqn:Hp; simpl; [|discriminate].
    intros [= <-]. exists fc. split; [|reflexivity].
    apply parent_of_In in Hp. destruct Hp as [Hp|Hp]; [|exact Hp].
    unfold sort_on in Hp. now apply sort_In in Hp.
Qed.

Lemma generate_sort_key_same (c : Citation) : same_entry c (generate_sort_key c).
Proof. repeat split. Qed.

Lemma generate_sort_key_pages (c : Citation) : pages (generate_sort_key c) = pages c.
Proof. reflexivity. Qed.

Lemma detect_matches_In (raw_matches : list RawMatch.t) (c : Citation) :
  In c (detect_matches raw_matches) <->
  exists k v, In (k, v) (fold_left merge_full (full_cites_of raw_matches) [])
              /\ c = generate_sort_key
                       (fold_left (absorb_into k) (short_cites_of raw_matches) v).
Proof.
  rewrite detect_matches_view, sort_In. unfold merged.
  destruct (key_to_cite_inv (full_cites_of raw_matches)) as (Hnd & _).
  { intros x Hx. now apply full_cite_facts in Hx. }
  rewrite fold_absorb_short_map by exact Hnd. rewrite !List.map_map. simpl.
  rewrite in_map_iff. split.
  - intros ([k v] & <- & Hin). now exists k, v.
  - intros (k & v & Hin & ->). now exists (k, v).
Qed.

Lemma absorbs_spec (k : string) (sc : Citation) :
  absorbs k sc = true <-> parent_key sc = Some k /\ k <> "".
Proof.
  unfold absorbs. destruct (parent_key sc) as [pk|]; [|split; [discriminate|intros [[=] _]]].
  rewrite andb_true_iff, String.eqb_eq. split.
  - intros [Hne ->]. split; [reflexivity|]. now destruct k.
  - intros [[= ->] Hne]. split; [|reflexivity]. now destruct k.
Qed.

(** What every entry of the output is, for raw matches that are well
    formed. *)
Lemma detect_matches_entry (raw_matches : list RawMatch.t) (c : Citation) :
  (forall m, In m raw_matches -> well_formed m) ->
  In c (detect_matches raw_matches) ->
  exists l1 f l2,
    full_cites_of raw_matches = (l1 ++ f :: l2)%list
    /\ (forall x, In x l1 -> normalized_key x <> normalized_key f)
    /\ same_entry f c /\ increasing (pages c)
    /\ (forall p, In p (pages c) <->
          (exists x, In x (full_cites_of raw_matches)
                     /\ normalized_key x = normalized_key c /\ In p (pages x))
          \/ (exists sc, In sc (short_cites_of raw_matches)
                         /\ parent_key sc = Some (normalized_key c) /\ In p (pages sc))).
Proof.
  intros Hwf Hin. apply detect_matches_In in Hin. destruct Hin as (k & v & Hin & ->).
  destruct (key_to_cite_inv (full_cites_of raw_matches)) as (_ & Hent & _).
  { intros x Hx. now apply full_cite_facts in Hx. }
  destruct (Hent k v Hin) as (l1 & f & l2 & Hsplit & Hk & Hfirst & Hsame & Hinc & Hp).
  destruct (absorb_into_pages k (short_cites_of raw_matches) v Hinc) as (Hs2 & Hi2 & Hp2).
  assert (Hkey : normalized_key (fold_left (absorb_into k) (short_cites_of raw_matches) v) = k).
  { destruct Hs2 as (_&_&_&_&_&_&Hk2&_), Hsame as (_&_&_&_&_&_&Hk1&_). congruence. }
  assert (Hkne : k <> "").
  { rewrite <- Hk. apply (full_cite_facts raw_matches f); [|exact Hwf].
    rewrite Hsplit. apply in_or_app. right. now left. }
  exists l1, f, l2. split; [exact Hsplit|]. split; [now rewrite Hk|]. split.
  - destruct Hs2 as (A1&A2&A3&A4&A5&A6&A7&A8&_), Hsame as (B1&B2&B3&B4&B5&B6&B7&B8&_).
    destruct (generate_sort_key_same
                (fold_left (absorb_into k) (short_cites_of raw_matches) v))
      as (C1&C2&C3&C4&C5&C6&C7&C8).
    repeat split; congruence.
  - split; [exact Hi2|]. intros p. rewrite generate_sort_key_pages.
    change (normalized_key (generate_sort_key ?x)) with (normalized_key x).
    rewrite Hkey, Hp2, Hp. split.
    + intros [H|(sc & Hsc & Ha & Hpsc)]; [now left|right].
      apply absorbs_spec in Ha. exists sc. tauto.
    + intros [H|(sc & Hsc & Hpk & Hpsc)]; [now left|right].
      exists sc. split; [exact Hsc|]. split; [|exact Hpsc]. now apply absorbs_spec.
Qed.

Lemma detect_matches_keys (raw_matches : list RawMatch.t) :
  NoDup (List.map normalized_key (detect_matches raw_matches)).
Proof.
  destruct (key_to_cite_inv (full_cites_of raw_matches)) as (Hnd & Hent & _).
  { intros x Hx. now apply full_cite_facts in Hx. }
  rewrite detect_matches_view. unfold merged.
  rewrite fold_absorb_short_map by exact Hnd.
  rewrite (Permutation_map normalized_key (sort_perm by_category_then_key _)).
  rewrite !List.map_map. simpl.
  erewrite List.map_ext_in; [exact Hnd|].
  intros [k v] Hin. simpl.
  destruct (Hent k v Hin) as (l1 & f & l2 & _ & Hk & _ & Hsame & Hinc & _).
  destruct (absorb_into_pages k (short_cites_of raw_matches) v Hinc) as (Hs2 & _).
  destruct Hs2 as (_&_&_&_&_&_&Hk2&_), Hsame as (_&_&_&_&_&_&Hk1&_). congruence.
Qed.

Lemma detect_entry_full (doc : list PageText.t) (c : Citation) :
  In c (detect doc) -> is_short_form c = false.
Proof.
  intros H. apply detect_matches_entry in H; [|intros m; apply scan_well_formed].
  destruct H as (l1 & f & l2 & Hsplit & _ & Hsame & _).
  destruct Hsame as (_&_&_&_&Hs&_). rewrite Hs.
  apply (full_cite_facts (_scan doc) f). rewrite Hsplit.
  apply in_or_app. right. now left.
Qed.

(** Claim C1 (deduplication and merge).  In the output of [detect] no two
    entries have the same [normalized_key].  Every entry is the first
    full citation, in document order, with its key: it has that
    citation's fields, and its pages, in ascending order without
    duplicates, are the pages of all the full citations with that key,
    together with those of the short forms resolved to the key.  Every
    full citation's key has its entry.  After the merge loop alone, an
    entry's pages are exactly the pages of the full citations that share
    its key ([merged_entry]). *)
Theorem detect_dedup_merge (doc : list PageText.t) :
  (forall i j a b, i <> j -> detect doc !! i = Some a -> detect doc !! j = Some b ->
     normalized_key a <> normalized_key b)
  /\ (forall c, In c (detect doc) ->
        exists l1 f l2,
          detect_full_cites doc = (l1 ++ f :: l2)%list
          /\ (forall x, In x l1 -> normalized_key x <> normalized_key f)
          /\ same_entry f c /\ increasing (pages c)
          /\ (forall p, In p (pages c) <->
                (exists x, In x (detect_full_cites doc)
                           /\ normalized_key x = normalized_key c /\ In p (pages x))
                \/ (exists sc, In sc (detect_short_cites doc)
                               /\ parent_key sc = Some (normalized_key c)
                               /\ In p (pages sc))))
  /\ (forall f, In f (detect_full_cites doc) ->
        exists c, In c (detect doc) /\ normalized_key c = normalized_key f)
  /\ (forall k v, In (k, v) (detect_key_to_cite doc) ->
        merged_entry (detect_full_cites doc) k v).
Proof.
  assert (Hinc : forall x, In x (full_cites_of (_scan doc)) -> increasing (pages x)).
  { intros x Hx. now apply full_cite_facts in Hx. }
  destruct (key_to_cite_inv (full_cites_of (_scan doc)) Hinc) as (Hnd & Hent & Hcov).
  split; [|split; [|split]].
  - intros i j a b Hij Hi Hj Heq.
    pose proof (detect_matches_keys (_scan doc)) as Hkeys.
    apply Hij. eapply NoDup_lookup; [exact Hkeys| |].
    + change (List.map normalized_key ?l) with (normalized_key <$> l).
      rewrite list_lookup_fmap. unfold detect in Hi. rewrite Hi. reflexivity.
    + change (List.map normalized_key ?l) with (normalized_key <$> l).
      rewrite list_lookup_fmap. unfold detect in Hj. rewrite Hj. simpl. now rewrite Heq.
  - intros c Hc. apply detect_matches_entry; [intros m; apply scan_well_formed|exact Hc].
  - intros f Hf. specialize (Hcov f Hf). apply in_map_iff in Hcov.
    destruct Hcov as ([k v] & Hk & Hin). simpl in Hk. subst k.
    exists (generate_sort_key
              (fold_left (absorb_into (normalized_key f)) (short_cites_of (_scan doc)) v)).
    split; [apply detect_matches_In; now exists (normalized_key f), v|].
    destruct (Hent _ v Hin) as (l1 & f0 & l2 & _ & Hk & _ & Hsame & Hi & _).
    destruct (absorb_into_pages (normalized_key f) (short_cites_of (_scan doc)) v Hi)
      as (Hs2 & _).
    destruct Hs2 as (_&_&_&_&_&_&Hk2&_), Hsame as (_&_&_&_&_&_&Hk1&_).
    change (normalized_key (generate_sort_key ?x)) with (normalized_key x). congruence.
  - exact Hent.
Qed.

(** Claim C3 (short-form closure).  No short-form citation appears in
    the output of [detect]: unresolved, it leaves no trace; resolved
    ([parent_key] set to [k]), each of its pages is among the pages of
    the output entry whose [normalized_key] is [k]. *)
Theorem short_form_closure (doc : list PageText.t) :
  (forall c, In c (detect doc) -> is_short_form c = false)
  /\ (forall sc, In sc (detect_short_cites doc) ->
        is_short_form sc = true /\ ~ In sc (detect doc))
  /\ (forall sc k, In sc (detect_short_cites doc) -> parent_key sc = Some k ->
        exists c, In c (detect doc) /\ normalized_key c = k
                  /\ forall p, In p (pages sc) -> In p (pages c)).
Proof.
  split; [apply detect_entry_full|]. split.
  - intros sc Hsc. apply short_cite_facts in Hsc. destruct Hsc as [Hs _].
    split; [exact Hs|]. intros Hin. apply detect_entry_full in Hin. congruence.
  - intros sc k Hsc Hpk.
    destruct (short_cite_facts _ _ Hsc) as [_ Hparent].
    destruct (Hparent k Hpk) as (fc & Hfc & Hk).
    assert (Hkne : k <> "").
    { rewrite <- Hk. apply (full_cite_facts (_scan doc) fc Hfc).
      intros m. apply scan_well_formed. }
    assert (Hinc : forall x, In x (full_cites_of (_scan doc)) -> increasing (pages x)).
    { intros x Hx. now apply full_cite_facts in Hx. }
    destruct (key_to_cite_inv (full_cites_of (_scan doc)) Hinc) as (Hnd & Hent & Hcov).
    specialize (Hcov fc Hfc). rewrite Hk in Hcov. apply in_map_iff in Hcov.
    destruct Hcov as ([k' v] & Hk' & Hin). simpl in Hk'. subst k'.
    destruct (Hent k v Hin) as (l1 & f0 & l2 & _ & Hk0 & _ & Hsame & Hi & _).
    destruct (absorb_into_pages k (short_cites_of (_scan doc)) v Hi) as (Hs2 & _ & Hp2).
    exists (generate_sort_key (fold_left (absorb_into k) (short_cites_of (_scan doc)) v)).
    split; [apply detect_matches_In; now exists k, v|]. split.
    + destruct Hs2 as (_&_&_&_&_&_&Hk2&_), Hsame as (_&_&_&_&_&_&Hk1&_).
      change (normalized_key (generate_sort_key ?x)) with (normalized_key x). congruence.
    + intros p Hp. rewrite generate_sort_key_pages. apply Hp2. right.
      exists sc. split; [exact Hsc|]. split; [|exact Hp]. now apply absorbs_spec.
Qed.

(** Claim C8 (pages invariant and merge monotonicity).  The page list of
    a citation is in ascending order without duplicates when the Citation
    Builder creates it, stays so under [Citation.merge_pages] and under
    the absorption of a short form's page in [detect], and is so for
    every citation of [detect]'s output; [merge_pages], like the
    absorption, removes no page the receiver already holds. *)
Theorem pages_invariant :
  (forall m, increasing (pages (to_citation m)))
  /\ (forall self other, increasing (pages self) ->
        increasing (pages (merge_pages self other)))
  /\ (forall self other p, In p (pages self) -> In p (pages (merge_pages self other)))
  /\ (forall canon q, increasing (pages canon) ->
        increasing (pages (absorb_page canon q))
        /\ forall p, In p (pages canon) -> In p (pages (absorb_page canon q)))
  /\ (forall doc c, In c (detect doc) -> increasing (pages c)).
Proof.
  split; [intros m; repeat constructor|]. split; [|split; [|split]].
  - intros self other Hinc. now apply merge_pages_pages, increasing_NoDup.
  - intros self other p Hp. unfold merge_pages. simpl.
    apply sort_In, append_new_pages_In. now left.
  - intros canon q Hinc. destruct (absorb_page_pages canon q Hinc) as [Hi Hp].
    split; [exact Hi|]. intros p H. apply Hp. now left.
  - intros doc c Hc.
    apply detect_matches_entry in Hc; [|intros m; apply scan_well_formed].
    now destruct Hc as (l1 & f & l2 & _ & _ & _ & Hi & _).
Qed.

(** * Further properties *)

Lemma length_preference_two_witness :
  _remove_overlaps [sample_long; sample_inner] = [sample_long]
  /\ _remove_overlaps [sample_inner; sample_long] = [sample_long].
Proof.
  apply (length_preference_two sample_long sample_inner).
  - unfold intersects. simpl. lia.
  - left. unfold match_length. simpl. lia.
Defined.

(** Extra X2 (key and short form).  For a match of a scan, the citation
    built from it has an empty [normalized_key] exactly when it is a
    short form. *)
Theorem scanned_key_empty_iff_short (doc : list PageText.t) (m : RawMatch.t) :
  In m (_scan doc) ->
  normalized_key (to_citation m) = "" <-> is_short_form (to_citation m) = true.
Proof.
  intros Hin. simpl.
  destruct (Str.startswith (RawMatch.pattern_name m) "short_") eqn:Hs; simpl.
  - tauto.
  - split; [|discriminate]. intros Hk. exfalso.
    apply (normalize_nonempty (RawMatch.text m) (RawMatch.pattern_name m)); [|exact Hk].
    now apply (scan_well_formed doc).
Qed.

Lemma scanned_key_empty_iff_short_witness :
  normalized_key (to_citation crowded_supra) = ""
  <-> is_short_form (to_citation crowded_supra) = true.
Proof.
  apply (scanned_key_empty_iff_short [crowded_page] crowded_supra).
  rewrite crowded_page_scan. right. right. now left.
Defined.

(** The scenarios of the specification.  One case citation;

    the same with an [Id.] on the next page; a statute cited on two
    pages; a case citation with a later supra form. *)
Theorem specification_scenarios :
  List.map (fun c => (category c, normalized_key c, pages c))
    (detect [PageText.mk 1 "Smith v. Jones, 123 F.3d 456 (6th Cir. 2020)"])
  = [(CASES, "123_f3d_456", [1])]
  /\ List.map (fun c => (category c, normalized_key c, pages c))
       (detect [PageText.mk 1 "Smith v. Jones, 123 F.3d 456 (6th Cir. 2020)";
                PageText.mk 2 "Id. at 460."])
     = [(CASES, "123_f3d_456", [1; 2])]
  /\ List.map (fun c => (category c, normalized_key c, pages c))
       (detect [PageText.mk 3 ("42 U.S.C. " ++ Patterns.SECT ++ " 1983");
                PageText.mk 7 ("42 U.S.C. " ++ Patterns.SECT ++ " 1983")])
     = [(STATUTES, "42_u_s_c_s_1983", [3; 7])]
  /\ List.map (fun c => (category c, normalized_key c, pages c))
       (detect [PageText.mk 1 "Smith v. Jones, 123 F.3d 456 (2020)";
                PageText.mk 5 "Smith, supra, at 130."])
     = [(CASES, "123_f3d_456", [1; 5])].
Proof. repeat split; vm_compute; reflexivity. Qed.

(** ** The final order *)

Lemma ascii_compare_N (a b : ascii) :
  Ascii.compare a b = (N_of_ascii a ?= N_of_ascii b)%N.
Proof. reflexivity. Qed.

Lemma string_compare_le_trans (a b c : string) :
  String.compare a b <> Gt -> String.compare b c <> Gt -> String.compare a c <> Gt.
Proof.
  revert b c. induction a as [|x a IH]; intros [|y b] [|z c]; simpl; try congruence.
  rewrite !ascii_compare_N.
  destruct (N.compare_spec (N_of_ascii x) (N_of_ascii y)) as [Hxy|Hxy|Hxy];
    destruct (N.compare_spec (N_of_ascii y) (N_of_ascii z)) as [Hyz|Hyz|Hyz];
    destruct (N.compare_spec (N_of_ascii x) (N_of_ascii z)) as [Hxz|Hxz|Hxz];
    try congruence; try lia; intros H1 H2.
  now apply (IH b c).
Qed.

Lemma string_leb_trans (a b c : string) :
  String.leb a b = true -> String.leb b c = true -> String.leb a c = true.
Proof.
  unfold String.leb. intros H1 H2.
  pose proof (string_compare_le_trans a b c) as H.
  destruct (String.compare a b), (String.compare b c), (String.compare a c);
    try discriminate; try reflexivity; exfalso; apply H; congruence.
Qed.

Lemma by_category_then_key_total (a b : Citation) :
  by_category_then_key a b = true \/ by_category_then_key b a = true.
Proof.
  unfold by_category_then_key.
  destruct (String.leb_total (sort_key a) (sort_key b)) as [H|H]; rewrite H;
    rewrite !orb_true_iff, !andb_true_iff, !Z.ltb_lt, !Z.eqb_eq; lia.
Qed.

Lemma by_category_then_key_trans (a b c : Citation) :
  by_category_then_key a b = true -> by_category_then_key b c = true ->
  by_category_then_key a c = true.
Proof.
  unfold by_category_then_key.
  rewrite !orb_true_iff, !andb_true_iff, !Z.ltb_lt, !Z.eqb_eq.
  intros [H1|[H1 L1]] [H2|[H2 L2]]; try (left; lia).
  right. split; [lia|]. eapply string_leb_trans; eauto.
Qed.


(** ** The patterns are in the modelled fragment *)

(** Every pattern of the program compiles, never matches the empty
    string, and has no repetition over a body that could: the matcher is
    never asked what [re] does with an empty iteration or an empty match. *)
Lemma patterns_well_behaved :
  List.forallb (fun '(_, p, _) => well_behaved p) Patterns.PATTERN_SOURCES = true
  /\ List.forallb well_behaved INLINE_PATTERNS = true.
Proof. split; vm_compute; reflexivity. Qed.

(** * Substitution and trimming *)

Lemma drop_length (n : nat) (s : string) :
  (String.length (Str.drop n s) <= String.length s)%nat.
Proof.
  revert s. induction n as [|n IH]; intros [|c s]; simpl; try lia.
  specialize (IH s). lia.
Qed.

Lemma star_loop_cls (ic neg : bool) (items : list Re.cls_item) (fuel : nat) (st : Re.mstate) :
  (String.length (Re.m_rest st) < fuel)%nat ->
  Re.star_loop (Re.run ic (Re.Cls neg items)) Some fuel st
  = Some (Re.MState (Re.m_pos st + span_len (Re.cls_matches ic neg items) (Re.m_rest st))
            (Str.drop (span_len (Re.cls_matches ic neg items) (Re.m_rest st)) (Re.m_rest st))
            (Re.m_caps st)).
Proof.
  revert st. induction fuel as [|fuel IH]; intros [pos rest caps] Hlen; simpl in Hlen; [lia|].
  cbn [Re.star_loop Re.run Re.m_rest Re.m_pos Re.m_caps].
  destruct rest as [|c s'].
  - simpl. now rewrite Nat.add_0_r.
  - cbn [span_len]. destruct (Re.cls_matches ic neg items c).
    + replace (pos <? S pos)%nat with true by (symmetry; apply Nat.ltb_lt; lia).
      rewrite IH by (simpl in *; lia). cbn [Re.m_rest Re.m_pos Re.m_caps Str.drop].
      now replace (S pos + span_len (Re.cls_matches ic neg items) s')%nat
        with (pos + S (span_len (Re.cls_matches ic neg items) s'))%nat by lia.
    + simpl. now rewrite Nat.add_0_r.
Qed.

Lemma match_at_cls (ic neg : bool) (items : list Re.cls_item) (pos : nat) (rest : string) :
  Re.match_at ic (Re.Cls neg items) pos rest
  = match rest with
    | String c s' =>
        if Re.cls_matches ic neg items c
        then Some (Re.MObj pos (Re.MState (S pos) s' []))
        else None
    | EmptyString => None
    end.
Proof.
  unfold Re.match_at. simpl. destruct rest as [|c s']; [reflexivity|].
  now destruct (Re.cls_matches ic neg items c).
Qed.

Lemma run_seq (ic : bool) (r1 r2 : Re.regex) k st :
  Re.run ic (Re.Seq r1 r2) k st = Re.run ic r1 (Re.run ic r2 k) st.
Proof. reflexivity. Qed.

Lemma run_star (ic : bool) (r : Re.regex) k st :
  Re.run ic (Re.Star r) k st
  = Re.star_loop (Re.run ic r) k (S (String.length (Re.m_rest st))) st.
Proof. reflexivity. Qed.

Lemma run_cls (ic neg : bool) (items : list Re.cls_item) k st :
  Re.run ic (Re.Cls neg items) k st
  = match Re.m_rest st with
    | String c s' =>
        if Re.cls_matches ic neg items c
        then k (Re.MState (S (Re.m_pos st)) s' (Re.m_caps st))
        else None
    | EmptyString => None
    end.
Proof. reflexivity. Qed.

Lemma match_at_cls_plus (ic neg : bool) (items : list Re.cls_item) (pos : nat) (rest : string) :
  Re.match_at ic (Re.Plus (Re.Cls neg items)) pos rest
  = match rest with
    | String c s' =>
        if Re.cls_matches ic neg items c
        then Some (Re.MObj pos
                     (Re.MState (S pos + span_len (Re.cls_matches ic neg items) s')
                        (Str.drop (span_len (Re.cls_matches ic neg items) s') s') []))
        else None
    | EmptyString => None
    end.
Proof.
  unfold Re.match_at, Re.Plus. rewrite run_seq, run_cls. cbn [Re.m_rest Re.m_pos Re.m_caps].
  destruct rest as [|c s']; [reflexivity|].
  destruct (Re.cls_matches ic neg items c); [|reflexivity].
  rewrite run_star, star_loop_cls by (simpl; lia). reflexivity.
Qed.

Lemma squeeze_run (p : ascii -> bool) (repl s : string) :
  squeeze p repl true s = squeeze p repl false (Str.drop (span_len p s) s).
Proof.
  induction s as [|c s IH]; simpl; [reflexivity|].
  destruct (p c) eqn:E; simpl; [exact IH|now rewrite E].
Qed.

Lemma sub_from_cls_plus (ic neg : bool) (items : list Re.cls_item) (repl : string)
    (fuel pos : nat) (rest : string) :
  (String.length rest < fuel)%nat ->
  Re.sub_from fuel ic (Re.Plus (Re.Cls neg items)) repl pos rest
  = squeeze (Re.cls_matches ic neg items) repl false rest.
Proof.
  revert pos rest. induction fuel as [|fuel IH]; intros pos rest Hlen; [lia|].
  cbn [Re.sub_from]. rewrite match_at_cls_plus.
  destruct rest as [|c s']; [reflexivity|]. cbn [squeeze].
  destruct (Re.cls_matches ic neg items c).
  - unfold Re.mo_end. cbn [Re.mo_state Re.m_pos Re.m_rest].
    replace (pos <? S pos + span_len (Re.cls_matches ic neg items) s')%nat with true
      by (symmetry; apply Nat.ltb_lt; lia).
    rewrite IH.
    + now rewrite squeeze_run.
    + pose proof (drop_length (span_len (Re.cls_matches ic neg items) s') s').
      simpl in Hlen. lia.
  - rewrite IH by (simpl in Hlen; lia). reflexivity.
Qed.

(** [pattern.sub(repl, s)] for a pattern [[...]+]. *)
Lemma sub_cls_plus (ic neg : bool) (items : list Re.cls_item) (repl s : string) :
  Re.sub ic (Re.Plus (Re.Cls neg items)) repl s
  = squeeze (Re.cls_matches ic neg items) repl false s.
Proof. unfold Re.sub. apply sub_from_cls_plus. lia. Qed.

Lemma sub_from_cls (ic neg : bool) (items : list Re.cls_item) (repl : string)
    (fuel pos : nat) (rest : string) :
  (String.length rest < fuel)%nat ->
  Re.sub_from fuel ic (Re.Cls neg items) repl pos rest
  = replace_each (Re.cls_matches ic neg items) repl rest.
Proof.
  revert pos rest. induction fuel as [|fuel IH]; intros pos rest Hlen; [lia|].
  cbn [Re.sub_from]. rewrite match_at_cls.
  destruct rest as [|c s']; [reflexivity|]. cbn [replace_each].
  destruct (Re.cls_matches ic neg items c).
  - unfold Re.mo_end. cbn [Re.mo_state Re.m_pos Re.m_rest].
    replace (pos <? S pos)%nat with true by (symmetry; apply Nat.ltb_lt; lia).
    rewrite IH by (simpl in Hlen; lia). reflexivity.
  - rewrite IH by (simpl in Hlen; lia). reflexivity.
Qed.

(** [pattern.sub(repl, s)] for a pattern [[...]]. *)
Lemma sub_cls (ic neg : bool) (items : list Re.cls_item) (repl s : string) :
  Re.sub ic (Re.Cls neg items) repl s
  = replace_each (Re.cls_matches ic neg items) repl s.
Proof. unfold Re.sub. apply sub_from_cls. lia. Qed.

Ltac cls_eq :=
  unfold Re.cls_matches;
  cbn [List.existsb Re.item_matches Re.cat_matches xorb];
  rewrite ?orb_false_r; reflexivity.

Lemma squeeze_ext (p q : ascii -> bool) (repl : string) (b : bool) (s : string) :
  (forall c, p c = q c) -> squeeze p repl b s = squeeze q repl b s.
Proof.
  intros H. revert b. induction s as [|c s IH]; intros b; simpl; [reflexivity|].
  now rewrite H, !IH.
Qed.

Lemma replace_each_ext (p q : ascii -> bool) (repl s : string) :
  (forall c, p c = q c) -> replace_each p repl s = replace_each q repl s.
Proof.
  intros H. induction s as [|c s IH]; simpl; [reflexivity|]. now rewrite H, IH.
Qed.

Lemma sub_ws_run (repl s : string) :
  Re.sub false WS_RUN_RE repl s = squeeze Char.isspace repl false s.
Proof.
  change WS_RUN_RE with (Re.Plus (Re.Cls false [Re.Cat false Re.CatSpace])).
  rewrite sub_cls_plus. apply squeeze_ext. intros c.
  cls_eq.
Qed.

Lemma sub_space_dot_run (repl s : string) :
  Re.sub false SPACE_DOT_RUN_RE repl s = squeeze space_or_dot repl false s.
Proof.
  change SPACE_DOT_RUN_RE
    with (Re.Plus (Re.Cls false [Re.Cat false Re.CatSpace; Re.One "."])).
  rewrite sub_cls_plus. apply squeeze_ext. intros c.
  unfold space_or_dot. cls_eq.
Qed.

Lemma sub_space_or_dot (repl s : string) :
  Re.sub false Detector.SPACE_OR_DOT_RE repl s = replace_each space_or_dot repl s.
Proof.
  change Detector.SPACE_OR_DOT_RE
    with (Re.Cls false [Re.Cat false Re.CatSpace; Re.One "."]).
  rewrite sub_cls. apply replace_each_ext. intros c.
  unfold space_or_dot. cls_eq.
Qed.

Lemma sub_sect_run (repl s : string) :
  Re.sub false SECT_RUN_RE repl s = squeeze is_sect repl false s.
Proof.
  change SECT_RUN_RE with (Re.Plus (Re.Cls false [Re.One (ascii_of_nat 167)])).
  rewrite sub_cls_plus. apply squeeze_ext. intros c.
  unfold is_sect. cls_eq.
Qed.

Lemma forall_chars_append (p : ascii -> bool) (a b : string) :
  forall_chars p (a ++ b) = forall_chars p a && forall_chars p b.
Proof. induction a as [|c a IH]; simpl; [reflexivity|]. now rewrite IH, andb_assoc. Qed.

Lemma squeeze_chars (p q : ascii -> bool) (repl : string) (b : bool) (s : string) :
  forall_chars q repl = true ->
  (forall c, p c = false -> Str.existsb (Ascii.eqb c) s = true -> q c = true) ->
  forall_chars q (squeeze p repl b s) = true.
Proof.
  intros Hrepl. revert b. induction s as [|c s IH]; intros b H; simpl; [reflexivity|].
  assert (IH' : forall b', forall_chars q (squeeze p repl b' s) = true).
  { intros b'. apply IH. intros c' Hp Hin. apply H; [exact Hp|]. simpl. rewrite Hin.
    apply orb_true_r. }
  destruct (p c) eqn:Hp.
  - destruct b; [apply IH'|]. rewrite forall_chars_append, Hrepl. apply IH'.
  - simpl. rewrite IH'. rewrite H; [reflexivity|exact Hp|]. simpl.
    now rewrite Ascii.eqb_refl.
Qed.

(** ** Trimming *)

Lemma isspace_lower (c : ascii) : Char.isspace (Char.lower c) = Char.isspace c.
Proof.
  destruct c as [[] [] [] [] [] [] [] []]; vm_compute; reflexivity.
Qed.

Lemma lower_lstrip (s : string) : Str.lower (Str.lstrip s) = Str.lstrip (Str.lower s).
Proof.
  induction s as [|c s IH]; [reflexivity|]. cbn [Str.lstrip Str.lower Str.map].
  rewrite isspace_lower. destruct (Char.isspace c); [exact IH|reflexivity].
Qed.

Lemma lower_rstrip (s : string) : Str.lower (Str.rstrip s) = Str.rstrip (Str.lower s).
Proof.
  induction s as [|c s IH]; [reflexivity|].
  cbn [Str.rstrip Str.lower Str.map]. fold (Str.lower s). rewrite <- IH, isspace_lower.
  destruct (Str.rstrip s) as [|c' r]; simpl; [now destruct (Char.isspace c)|reflexivity].
Qed.

Lemma lower_strip (s : string) : Str.lower (Str.strip s) = Str.strip (Str.lower s).
Proof. unfold Str.strip. now rewrite lower_rstrip, lower_lstrip. Qed.

Lemma rstrip_empty (s : string) :
  Str.rstrip s = "" <-> Str.existsb Solid.visible s = false.
Proof.
  induction s as [|c s IH]; [now split|]. cbn [Str.rstrip Str.existsb].
  unfold Solid.visible at 1. split.
  - destruct (Str.rstrip s) as [|c' r]; [|discriminate].
    destruct (Char.isspace c); [|discriminate]. intros _. simpl. now apply IH.
  - intros H. apply orb_false_iff in H. destruct H as [Hc Hs].
    apply IH in Hs. rewrite Hs. apply negb_false_iff in Hc. now rewrite Hc.
Qed.

Lemma rstrip_cons (c : ascii) (s : string) :
  Str.rstrip (String c s)
  = if Str.existsb Solid.visible s then String c (Str.rstrip s)
    else if Char.isspace c then "" else String c "".
Proof.
  cbn [Str.rstrip]. destruct (Str.existsb Solid.visible s) eqn:E.
  - destruct (Str.rstrip s) as [|c' r] eqn:Er; [|reflexivity].
    apply rstrip_empty in Er. congruence.
  - apply rstrip_empty in E. now rewrite E.
Qed.

Lemma rstrip_idem (s : string) : Str.rstrip (Str.rstrip s) = Str.rstrip s.
Proof.
  induction s as [|c s IH]; [reflexivity|]. rewrite rstrip_cons.
  destruct (Str.existsb Solid.visible s) eqn:E.
  - rewrite rstrip_cons, rstrip_visible, E. now rewrite IH.
  - destruct (Char.isspace c) eqn:Ec; [reflexivity|].
    rewrite rstrip_cons. simpl. now rewrite Ec.
Qed.

Lemma lstrip_idem (s : string) : Str.lstrip (Str.lstrip s) = Str.lstrip s.
Proof.
  induction s as [|c s IH]; [reflexivity|]. simpl.
  destruct (Char.isspace c) eqn:E; [exact IH|]. simpl. now rewrite E.
Qed.

Lemma lstrip_fixed (s : string) : Str.lstrip s = s <-> starts_visible s = true.
Proof.
  destruct s as [|c s]; [now split|]. simpl. unfold Solid.visible.
  destruct (Char.isspace c) eqn:E; simpl; [|now split].
  split; [|discriminate]. intros H.
  assert (Hlen : (String.length (Str.lstrip s) <= String.length s)%nat).
  { clear. induction s as [|c s IH]; simpl; [lia|]. destruct (Char.isspace c); simpl; lia. }
  rewrite H in Hlen. simpl in Hlen. lia.
Qed.

Lemma lstrip_starts (s : string) : starts_visible (Str.lstrip s) = true.
Proof. apply lstrip_fixed, lstrip_idem. Qed.

Lemma rstrip_starts (s : string) :
  starts_visible s = true -> starts_visible (Str.rstrip s) = true.
Proof.
  destruct s as [|c s]; [reflexivity|]. rewrite rstrip_cons. simpl. intros H.
  destruct (Str.existsb Solid.visible s); [exact H|].
  pose proof H as H'. unfold Solid.visible in H'. apply negb_true_iff in H'.
  rewrite H'. exact H.
Qed.

Lemma strip_starts (s : string) : starts_visible (Str.strip s) = true.
Proof. apply rstrip_starts, lstrip_starts. Qed.

Lemma strip_rstrip (s : string) : Str.rstrip (Str.strip s) = Str.strip s.
Proof. apply rstrip_idem. Qed.

Lemma strip_fixed (s : string) :
  Str.strip s = s <-> starts_visible s = true /\ Str.rstrip s = s.
Proof.
  split.
  - intros H. split; [rewrite <- H; apply strip_starts|].
    rewrite <- H at 1. rewrite strip_rstrip. exact H.
  - intros [H1 H2]. unfold Str.strip. apply lstrip_fixed in H1. now rewrite H1.
Qed.

Lemma strip_idem (s : string) : Str.strip (Str.strip s) = Str.strip s.
Proof. apply strip_fixed. split; [apply strip_starts|apply strip_rstrip]. Qed.

Lemma forall_chars_lstrip (p : ascii -> bool) (s : string) :
  forall_chars p s = true -> forall_chars p (Str.lstrip s) = true.
Proof.
  induction s as [|c s IH]; [reflexivity|]. simpl. intros H.
  apply andb_true_iff in H. destruct H as [Hc Hs].
  destruct (Char.isspace c); [now apply IH|]. simpl. now rewrite Hc.
Qed.

Lemma forall_chars_rstrip (p : ascii -> bool) (s : string) :
  forall_chars p s = true -> forall_chars p (Str.rstrip s) = true.
Proof.
  induction s as [|c s IH]; [reflexivity|]. rewrite rstrip_cons. simpl. intros H.
  apply andb_true_iff in H. destruct H as [Hc Hs].
  destruct (Str.existsb Solid.visible s).
  - simpl. rewrite Hc. now apply IH.
  - destruct (Char.isspace c); [reflexivity|]. simpl. now rewrite Hc.
Qed.

Lemma forall_chars_strip (p : ascii -> bool) (s : string) :
  forall_chars p s = true -> forall_chars p (Str.strip s) = true.
Proof. intros H. now apply forall_chars_rstrip, forall_chars_lstrip. Qed.

(** ** Whitespace runs *)

Lemma squeeze_idem (p : ascii -> bool) (c0 : ascii) (s : string) :
  p c0 = true ->
  (forall b, squeeze p (String c0 "") false (squeeze p (String c0 "") b s)
             = squeeze p (String c0 "") b s)
  /\ squeeze p (String c0 "") true (squeeze p (String c0 "") true s)
     = squeeze p (String c0 "") true s.
Proof.
  intros H0. induction s as [|c s [IH1 IH2]]; [split; [intros b|]; reflexivity|].
  cbn [squeeze]. destruct (p c) eqn:Hc.
  - split; [intros [|]|]; [apply IH1| |exact IH2].
    cbn [append squeeze]. rewrite H0. cbn [append]. now rewrite IH2.
  - split; [intros b|]; cbn [squeeze]; rewrite Hc; now rewrite IH1.
Qed.

Lemma squeeze_visible (repl : string) (b : bool) (s : string) :
  Str.existsb Solid.visible s = true ->
  Str.existsb Solid.visible (squeeze Char.isspace repl b s) = true.
Proof.
  revert b. induction s as [|c s IH]; intros b; [discriminate|]. simpl.
  unfold Solid.visible at 1. destruct (Char.isspace c) eqn:E; simpl.
  - intros H. destruct b; [now apply IH|].
    rewrite SolidFacts.existsb_append, IH by exact H. apply orb_true_r.
  - intros _. unfold Solid.visible at 1. now rewrite E.
Qed.

Lemma squeeze_rstrip (b : bool) (s : string) :
  Str.rstrip s = s ->
  Str.rstrip (squeeze Char.isspace " " b s) = squeeze Char.isspace " " b s.
Proof.
  revert b. induction s as [|c s IH]; intros b; [reflexivity|].
  rewrite rstrip_cons. destruct (Str.existsb Solid.visible s) eqn:Ev.
  - intros [= Hs]. cbn [squeeze].
    assert (Hx : forall b', Str.existsb Solid.visible (squeeze Char.isspace " " b' s) = true)
      by (intros b'; now apply squeeze_visible).
    destruct (Char.isspace c).
    + destruct b; [now apply IH|]. cbn [append]. rewrite rstrip_cons, Hx.
      now rewrite IH.
    + rewrite rstrip_cons, Hx. now rewrite IH.
  - destruct (Char.isspace c) eqn:Ec; [discriminate|]. intros [= Hs]. subst s.
    cbn [squeeze]. rewrite Ec. simpl. now rewrite Ec.
Qed.

Lemma squeeze_starts (repl : string) (s : string) :
  starts_visible s = true ->
  starts_visible (squeeze Char.isspace repl false s) = true.
Proof.
  destruct s as [|c s]; [reflexivity|]. simpl. unfold Solid.visible.
  intros H. apply negb_true_iff in H. rewrite H. simpl. unfold Solid.visible. now rewrite H.
Qed.

Lemma display_name_eq (text : string) (category : CitationCategory) :
  _make_display_name text category = squeeze Char.isspace " " false (Str.strip text).
Proof. unfold _make_display_name. apply sub_ws_run. Qed.

Lemma squeeze_no_run (p : ascii -> bool) (c0 : ascii) (b : bool) (s : string) :
  no_run p b (squeeze p (String c0 "") b s) = true.
Proof.
  revert b. induction s as [|c s IH]; intros b; [reflexivity|]. cbn [squeeze].
  destruct (p c) eqn:Hc.
  - destruct b; [apply IH|]. cbn [append no_run andb negb].
    specialize (IH true). destruct (p c0).
    + exact IH.
    + revert IH. generalize (squeeze p (String c0 "") true s). intros [|x r]; [reflexivity|].
      cbn [no_run]. intros H. apply andb_true_iff in H. destruct H as [_ H].
      now rewrite H.
  - cbn [no_run]. rewrite Hc, andb_false_r. apply IH.
Qed.

(** [_make_display_name]: the name it returns has no whitespace at
    either end, no whitespace character but the space, never two of them
    in a row; of a name of that form it returns the name itself. *)
Lemma display_name_tidy (text : string) (category : CitationCategory) :
  let display := _make_display_name text category in
  Str.strip display = display
  /\ forall_chars space_only display = true
  /\ no_run Char.isspace false display = true
  /\ _make_display_name display category = display.
Proof.
  cbv zeta. rewrite !display_name_eq.
  set (s := Str.strip text).
  assert (Hfix : Str.strip (squeeze Char.isspace " " false s)
                 = squeeze Char.isspace " " false s).
  { apply strip_fixed. split.
    - apply squeeze_starts, strip_starts.
    - apply squeeze_rstrip, strip_rstrip. }
  split; [exact Hfix|]. split; [|split].
  - apply squeeze_chars; [reflexivity|]. intros c Hc _. unfold space_only. now rewrite Hc.
  - apply squeeze_no_run.
  - rewrite Hfix. now apply (squeeze_idem Char.isspace " " s).
Qed.

(** * What a group of a pattern captures *)

Module CapturedFacts.
Import Re Solid SolidFacts Captured.

Lemma on_subject_advanced (s : string) (st st' : mstate) (w : string) :
  on_subject s st -> advanced st st' w -> on_subject s st'.
Proof.
  intros (pre & Hs & Hl) [Hr Hp]. exists (pre ++ w). split.
  - now rewrite Hs, Hr, append_assoc.
  - rewrite length_append. lia.
Qed.

Lemma lookup_cap_In (n : nat) (cs : captures) (se : nat * nat) :
  lookup_cap n cs = Some se -> In (n, se) cs.
Proof.
  induction cs as [|[n' se'] cs IH]; [discriminate|]. simpl.
  destruct (n =? n')%nat eqn:E.
  - intros [= ->]. apply Nat.eqb_eq in E. subst. now left.
  - intros H. right. now apply IH.
Qed.

Section Run.
Context (ic : bool) (p : ascii -> bool) (n : nat) (s : string).

Lemma csound_weaken (all : bool) body : csound p n s all body -> csound p n s false body.
Proof.
  intros H k st res Hs Hc Hr. destruct (H k st res Hs Hc Hr) as (st' & w & Hk & Ha & Hc' & _).
  exists st', w. repeat split; try apply Ha; [exact Hk|exact Hc'|discriminate].
Qed.

Lemma star_loop_csound (all : bool) body :
  csound p n s all body -> forall fuel, csound p n s all (fun k => star_loop body k fuel).
Proof.
  intros Hbody fuel. induction fuel as [|fuel IH]; intros k st res Hs Hc H; simpl in H.
  - exists st, "". split; [exact H|]. split; [apply advanced_refl|]. now split.
  - destruct (body _ st) as [res'|] eqn:Hb.
    + injection H as ->. apply Hbody in Hb; [|exact Hs|exact Hc].
      destruct Hb as (st1 & w1 & Hk & Hadv & Hc1 & Hw1).
      destruct (m_pos st <? m_pos st1)%nat; [|discriminate].
      apply IH in Hk; [|eapply on_subject_advanced; eauto|exact Hc1].
      destruct Hk as (st2 & w2 & Hk & Hadv2 & Hc2 & Hw2).
      exists st2, (w1 ++ w2). split; [exact Hk|]. split; [eapply advanced_trans; eauto|].
      split; [exact Hc2|]. intros Ha. rewrite forall_chars_append, Hw1, Hw2; auto.
    + exists st, "". split; [exact H|]. split; [apply advanced_refl|]. now split.
Qed.

Lemma run_csound (r : regex) :
  grp_all ic p n r = true -> csound p n s (chars_all ic p r) (run ic r).
Proof.
  induction r as [| |neg items|r1 IH1 r2 IH2|r1 IH1 r2 IH2|r1 IH1|n' r1 IH1];
    intros Hg k st res Hs Hc H; simpl in H; cbn [grp_all] in Hg.
  - exists st, "". split; [exact H|]. split; [apply advanced_refl|]. now split.
  - destruct (m_pos st =? 0)%nat; [|discriminate].
    exists st, "". split; [exact H|]. split; [apply advanced_refl|]. now split.
  - destruct (m_rest st) as [|c s'] eqn:Hrest; [discriminate|].
    destruct (cls_matches ic neg items c) eqn:Hm; [|discriminate].
    eexists _, (String c ""). split; [exact H|]. split; [split; simpl; [exact Hrest|lia]|].
    split; [exact Hc|]. cbn [chars_all]. intros Ha. rewrite forallb_forall in Ha.
    specialize (Ha c (all_chars_complete c)). rewrite Hm in Ha. simpl in Ha. simpl. now rewrite Ha.
  - apply andb_true_iff in Hg. destruct Hg as [Hg1 Hg2].
    apply (IH1 Hg1) in H; [|exact Hs|exact Hc]. destruct H as (st1 & w1 & H & Ha1 & Hc1 & Hw1).
    apply (IH2 Hg2) in H; [|eapply on_subject_advanced; eauto|exact Hc1].
    destruct H as (st2 & w2 & H & Ha2 & Hc2 & Hw2).
    exists st2, (w1 ++ w2). split; [exact H|]. split; [eapply advanced_trans; eauto|].
    split; [exact Hc2|]. cbn [chars_all]. intros Ha. apply andb_true_iff in Ha.
    rewrite forall_chars_append, Hw1, Hw2; tauto.
  - apply andb_true_iff in Hg. destruct Hg as [Hg1 Hg2].
    destruct (run ic r1 k st) as [res'|] eqn:H1.
    + injection H as ->. apply (IH1 Hg1) in H1; [|exact Hs|exact Hc].
      destruct H1 as (st' & w & Hk & Ha & Hc' & Hw).
      exists st', w. split; [exact Hk|]. split; [exact Ha|]. split; [exact Hc'|].
      cbn [chars_all]. intros Hall. apply andb_true_iff in Hall. now apply Hw.
    + apply (IH2 Hg2) in H; [|exact Hs|exact Hc].
      destruct H as (st' & w & Hk & Ha & Hc' & Hw).
      exists st', w. split; [exact Hk|]. split; [exact Ha|]. split; [exact Hc'|].
      cbn [chars_all]. intros Hall. apply andb_true_iff in Hall. now apply Hw.
  - exact (star_loop_csound _ _ (IH1 Hg) (S (String.length (m_rest st))) k st res Hs Hc H).
  - apply andb_true_iff in Hg. destruct Hg as [Hn Hg].
    apply (IH1 Hg) in H; [|exact Hs|exact Hc]. destruct H as (st' & w & Hk & Ha & Hc' & Hw).
    exists (set_cap n' (m_pos st) st'), w. split; [exact Hk|]. split; [exact Ha|].
    split; [|exact Hw].
    intros b e [Hin|Hin]; [|now apply Hc'].
    injection Hin as Hn' Hb He. subst b e n'. rewrite Nat.eqb_refl in Hn.
    destruct Hs as (pre & Hs & Hl), Ha as [Hr Hp].
    rewrite Hp, <- Hl, Hs, Hr.
    replace (String.length pre + String.length w - String.length pre)%nat
      with (String.length w) by lia.
    rewrite substring_skip, substring_prefix. now apply Hw.
Qed.

Lemma match_at_caps (r : regex) (pos : nat) (rest : string) (m : mobj) :
  grp_all ic p n r = true ->
  on_subject s (MState pos rest []) ->
  match_at ic r pos rest = Some m -> caps_ok p n s (mo_state m).
Proof.
  intros Hg Hs. unfold match_at.
  destruct (run ic r Some _) as [st|] eqn:H; [|discriminate]. intros [= <-].
  apply (run_csound r Hg) in H; [|exact Hs|intros b e []].
  destruct H as (st' & w & [= ->] & _ & Hc & _). exact Hc.
Qed.

Lemma search_from_caps (r : regex) (pos : nat) (rest : string) (m : mobj) :
  grp_all ic p n r = true ->
  on_subject s (MState pos rest []) ->
  search_from ic r pos rest = Some m -> caps_ok p n s (mo_state m).
Proof.
  intros Hg. revert pos. induction rest as [|c rest IH]; intros pos Hs; simpl.
  - destruct (match_at ic r pos "") as [m'|] eqn:Hm; [|discriminate].
    intros [= <-]. eapply match_at_caps; eauto.
  - destruct (match_at ic r pos (String c rest)) as [m'|] eqn:Hm.
    + intros [= <-]. eapply match_at_caps; eauto.
    + apply IH. destruct Hs as (pre & Hs & Hl). simpl in *.
      exists (pre ++ String c ""). split; simpl.
      * now rewrite Hs, append_assoc.
      * rewrite length_append. simpl. lia.
Qed.

End Run.

(** The text of group [n] of a match found by [search] (or [match])
    holds only characters that the group can match. *)
Lemma search_group_chars (ic : bool) (p : ascii -> bool) (n : nat) (r : regex)
    (s : string) (m : mobj) :
  grp_all ic p n r = true -> search ic r s = Some m ->
  forall_chars p (group s m n) = true.
Proof.
  intros Hg Hm. unfold group.
  destruct (lookup_cap n (m_caps (mo_state m))) as [[b e]|] eqn:Hl; [|reflexivity].
  apply lookup_cap_In in Hl.
  refine (search_from_caps ic p n s r 0 s m Hg _ Hm b e Hl).
  exists "". now split.
Qed.

End CapturedFacts.

(** * The characters of keys *)

Lemma forall_chars_impl (p q : ascii -> bool) (s : string) :
  (forall c, p c = true -> q c = true) ->
  forall_chars p s = true -> forall_chars q s = true.
Proof.
  intros H. induction s as [|c s IH]; [reflexivity|]. simpl. intros Hs.
  apply andb_true_iff in Hs. destruct Hs as [Hc Hs]. now rewrite (H c Hc), IH.
Qed.

Lemma replace_each_chars (p : ascii -> bool) (s : string) :
  forall_chars (fun c => negb (p c)) (replace_each p "" s) = true.
Proof.
  induction s as [|c s IH]; [reflexivity|]. simpl.
  destruct (p c) eqn:E; simpl; [exact IH|]. now rewrite E, IH.
Qed.

Lemma digit_key_char (c : ascii) : Char.isdecimal c = true -> key_char c = true.
Proof.
  destruct c as [[] [] [] [] [] [] [] []]; vm_compute; intros H; first [reflexivity|discriminate].
Qed.

Lemma case_triple_groups :
  Captured.grp_all false Char.isdecimal 1 CASE_TRIPLE_RE = true
  /\ Captured.grp_all false Char.isdecimal 3 CASE_TRIPLE_RE = true.
Proof. split; vm_compute; reflexivity. Qed.

Lemma case_key_chars (norm key : string) :
  case_key norm = Some key -> forall_chars key_char key = true.
Proof.
  unfold case_key. destruct (Re.search false CASE_TRIPLE_RE norm) as [m|] eqn:Hm; [|discriminate].
  intros [= <-]. rewrite sub_space_or_dot.
  destruct case_triple_groups as [H1 H3].
  pose proof (forall_chars_impl _ _ _ digit_key_char
                (CapturedFacts.search_group_chars _ _ _ _ _ _ H1 Hm)) as Hvol.
  pose proof (forall_chars_impl _ _ _ digit_key_char
                (CapturedFacts.search_group_chars _ _ _ _ _ _ H3 Hm)) as Hpage.
  pose proof (replace_each_chars space_or_dot (Re.group norm m 2)) as Hrep.
  fold key_char in Hrep.
  rewrite forall_chars_append, Hvol. cbn [append forall_chars andb].
  rewrite forall_chars_append, Hrep. cbn [forall_chars andb]. rewrite Hpage.
  reflexivity.
Qed.

Lemma generic_key_chars (norm : string) :
  forall_chars key_char (Re.sub false SPACE_DOT_RUN_RE "_" norm) = true.
Proof.
  rewrite sub_space_dot_run. apply squeeze_chars; [reflexivity|].
  intros c Hc _. unfold key_char. now rewrite Hc.
Qed.

(** Extra X8 (characters of a key).  [_normalize]: whatever the text and
    the pattern, the key holds no whitespace and no period. *)
Theorem normalize_key_chars (text pattern_name : string) :
  forall_chars key_char (_normalize text pattern_name) = true.
Proof.
  unfold _normalize.
  destruct (if Str.startswith pattern_name "case_" then _ else None) as [key|] eqn:Hk.
  - destruct (Str.startswith pattern_name "case_"); [|discriminate].
    now apply case_key_chars in Hk.
  - repeat match goal with |- context [if ?b then _ else _] => destruct b end;
      apply generic_key_chars.
Qed.

Lemma lower_squeeze_ws (b : bool) (s : string) :
  Str.lower (squeeze Char.isspace " " b s) = squeeze Char.isspace " " b (Str.lower s).
Proof.
  revert b. induction s as [|c s IH]; intros b; [reflexivity|].
  cbn [squeeze Str.lower Str.map]. fold (Str.lower s). rewrite isspace_lower.
  destruct (Char.isspace c).
  - destruct b; [apply IH|]. cbn [append]. rewrite <- IH. reflexivity.
  - cbn [Str.lower Str.map]. fold (Str.lower (squeeze Char.isspace " " false s)).
    now rewrite IH.
Qed.

Lemma collapsed_eq (text : string) :
  collapsed text = squeeze Char.isspace " " false (Str.lower (Str.strip text)).
Proof. unfold collapsed. apply sub_ws_run. Qed.

Lemma normalize_collapsed (t1 t2 pattern_name : string) :
  collapsed t1 = collapsed t2 -> _normalize t1 pattern_name = _normalize t2 pattern_name.
Proof. unfold _normalize, collapsed. now intros ->. Qed.

(** Extra X9 (what a key ignores).  [_normalize]: texts that differ only
    in letter case, in the whitespace around them or in the length of
    their runs of whitespace get the same key; so the display name of a
    citation gets the key of its text. *)
Theorem normalize_insensitive (text pattern_name : string) :
  (forall text', Str.lower text' = Str.lower text ->
     _normalize text' pattern_name = _normalize text pattern_name)
  /\ _normalize (Str.strip text) pattern_name = _normalize text pattern_name
  /\ (forall category,
        _normalize (_make_display_name text category) pattern_name
        = _normalize text pattern_name).
Proof.
  split; [|split].
  - intros text' H. apply normalize_collapsed. rewrite !collapsed_eq, !lower_strip.
    now rewrite H.
  - apply normalize_collapsed. rewrite !collapsed_eq. now rewrite strip_idem.
  - intros category. apply normalize_collapsed.
    destruct (display_name_tidy text category) as (Hfix & _ & _ & _).
    cbv zeta in Hfix. rewrite !collapsed_eq, Hfix, display_name_eq.
    rewrite <- !lower_squeeze_ws. f_equal.
    now apply (squeeze_idem Char.isspace " " (Str.strip text)).
Qed.

(** ** The sort key *)

Lemma sort_key_eq (c : Citation) :
  sort_key (generate_sort_key c)
  = Str.strip
      (replace_each (fun ch => negb (sort_char ch)) ""
         (Str.lower
            (strip_article ["A "; "An "; "The "]
               (Str.strip (Str.lstrip_char "*" (Str.strip (display_name c))))))).
Proof.
  unfold generate_sort_key. cbn [sort_key set_sort_key]. f_equal.
  change (Parse.re "[^a-z0-9 ]")
    with (Re.Cls true [Re.Range "a" "z"; Re.Range "0" "9"; Re.One " "]).
  rewrite sub_cls. apply replace_each_ext. intros ch.
  unfold Re.cls_matches, sort_char.
  cbn [List.existsb Re.item_matches xorb]. rewrite orb_false_r.
  unfold Re.in_range, Char.between.
  change (Char.code "a") with 97%N. change (Char.code "z") with 122%N.
  change (Char.code "0") with 48%N. change (Char.code "9") with 57%N.
  now rewrite orb_assoc.
Qed.

(** Extra X11 (characters of a sort key).  [generate_sort_key]: the key
    holds only the letters a to z, digits and spaces, and no space at
    either end. *)
Theorem sort_key_chars (c : Citation) :
  forall_chars sort_char (sort_key (generate_sort_key c)) = true
  /\ Str.strip (sort_key (generate_sort_key c)) = sort_key (generate_sort_key c).
Proof.
  rewrite sort_key_eq. split; [|apply strip_idem].
  apply forall_chars_strip.
  eapply forall_chars_impl; [|apply replace_each_chars].
  intros ch H. now apply negb_true_iff, negb_false_iff in H.
Qed.

(** * The display of pages *)

Lemma set_of_In (p : Z) (ps : list Z) : In p (set_of ps) <-> In p ps.
Proof.
  induction ps as [|q ps IH]; simpl; [tauto|].
  destruct (page_in q ps) eqn:E; simpl; rewrite IH; [|tauto].
  apply page_in_spec in E. split; [tauto|]. intros [<-|H]; tauto.
Qed.

Lemma set_of_NoDup (ps : list Z) : NoDup (set_of ps).
Proof.
  induction ps as [|q ps IH]; simpl; [constructor|].
  destruct (page_in q ps) eqn:E; [exact IH|]. constructor; [|exact IH].
  intros H. apply list_elem_of_In in H. apply (proj1 (set_of_In q ps)) in H.
  apply (proj2 (page_in_spec q ps)) in H. congruence.
Qed.

Lemma sorted_set_increasing (ps : list Z) : increasing (sort Z.leb (set_of ps)).
Proof. apply sort_pages_increasing, set_of_NoDup. Qed.

Lemma sorted_set_In (p : Z) (ps : list Z) : In p (sort Z.leb (set_of ps)) <-> In p ps.
Proof. now rewrite sort_In, set_of_In. Qed.

(** Two lists in ascending order without duplicates that hold the same
    elements are the same list. *)
Lemma increasing_unique (l1 l2 : list Z) :
  increasing l1 -> increasing l2 -> (forall p, In p l1 <-> In p l2) -> l1 = l2.
Proof.
  intros H1. revert l2. induction H1 as [|x l1 Hs1 IH Hx]; intros l2 H2 Heq.
  - destruct l2 as [|y l2]; [reflexivity|]. exfalso. apply (Heq y). now left.
  - destruct H2 as [|y l2 Hs2 Hy].
    + exfalso. apply (Heq x). now left.
    + rewrite Forall_forall in Hx, Hy.
      assert (x = y).
      { destruct (proj1 (Heq x) (or_introl eq_refl)) as [->|Hin]; [reflexivity|].
        destruct (proj2 (Heq y) (or_introl eq_refl)) as [->|Hin']; [reflexivity|].
        apply list_elem_of_In, Hy in Hin. apply list_elem_of_In, Hx in Hin'. lia. }
      subst y. f_equal. apply IH; [exact Hs2|]. intros p. split; intros Hp.
      * destruct (proj1 (Heq p) (or_intror Hp)) as [->|H]; [|exact H].
        apply list_elem_of_In, Hx in Hp. lia.
      * destruct (proj2 (Heq p) (or_intror Hp)) as [->|H]; [|exact H].
        apply list_elem_of_In, Hy in Hp. lia.
Qed.

Lemma page_display_loop_ranges (ranges : list string) (start end_ : Z) (ps : list Z) :
  page_display_loop ranges start end_ ps
  = (ranges ++ List.map (fun r => range_text (fst r) (snd r)) (ranges_loop start end_ ps))%list.
Proof.
  revert ranges start end_. induction ps as [|p ps IH]; intros ranges start end_; simpl;
    [reflexivity|].
  destruct (p =? end_ + 1); rewrite IH; [reflexivity|].
  now rewrite <- app_assoc.
Qed.

Lemma page_display_ranges (c : Citation) :
  page_display c
  = String.concat ", " (List.map (fun r => range_text (fst r) (snd r)) (page_ranges (pages c))).
Proof.
  unfold page_display, page_ranges. destruct (pages c) as [|p ps] eqn:E; [reflexivity|].
  destruct (sort Z.leb (set_of (p :: ps))) as [|p0 rest]; [reflexivity|].
  now rewrite page_display_loop_ranges.
Qed.

Lemma ranges_loop_spec (start end_ : Z) (ps : list Z) :
  start <= end_ -> increasing (end_ :: ps) ->
  let rs := ranges_loop start end_ ps in
  Forall (fun r => start <= fst r <= snd r) rs
  /\ StronglySorted apart rs
  /\ (forall p, (exists r, In r rs /\ fst r <= p <= snd r)
                <-> start <= p <= end_ \/ In p ps).
Proof.
  cbv zeta. revert start end_. induction ps as [|q ps IH]; intros start end_ Hle Hinc.
  - simpl. split; [repeat constructor; simpl; lia|]. split; [repeat constructor|].
    intros p. split.
    + intros (r & [<-|[]] & Hr). now left.
    + intros [H|[]]. exists (start, end_). split; [now left|exact H].
  - inversion Hinc as [|? ? Hinc' Hall]; subst.
    assert (Hq : end_ < q) by (inversion Hall; assumption).
    assert (Hinc'' : increasing (q :: ps)) by exact Hinc'.
    simpl. destruct (q =? end_ + 1) eqn:E.
    + apply Z.eqb_eq in E.
      destruct (IH start q ltac:(lia) Hinc'') as (Hf & Hs & Hp).
      split; [exact Hf|]. split; [exact Hs|].
      intros p. rewrite Hp. split; [intros [H|H]|intros [H|[<-|H]]]; try tauto.
      * destruct (Z.eq_dec p q) as [->|Hne]; [right; now left|left; lia].
      * left. lia.
      * left. lia.
    + apply Z.eqb_neq in E.
      destruct (IH q q ltac:(lia) Hinc'') as (Hf & Hs & Hp).
      split; [|split].
      * constructor; [simpl; lia|]. eapply Forall_impl; [exact Hf|].
        intros r Hr. simpl in Hr. lia.
      * constructor; [exact Hs|]. eapply Forall_impl; [exact Hf|].
        intros r Hr. unfold apart. simpl in *. lia.
      * intros p. split.
        -- intros (r & [<-|Hr] & Hin); [now left|].
           right. assert (Hx : q <= p <= q \/ In p ps) by (apply Hp; now exists r).
           destruct Hx as [Hx|Hx]; [left; lia|now right].
        -- intros [H|[<-|H]].
           ++ exists (start, end_). split; [now left|exact H].
           ++ assert (Hx : exists r, In r (ranges_loop q q ps) /\ fst r <= q <= snd r)
                by (apply Hp; left; lia).
              destruct Hx as (r & Hr & Hin). exists r. split; [now right|exact Hin].
           ++ assert (Hx : exists r, In r (ranges_loop q q ps) /\ fst r <= p <= snd r)
                by (apply Hp; now right).
              destruct Hx as (r & Hr & Hin). exists r. split; [now right|exact Hin].
Qed.

Lemma str_of_int_nonempty (n : Z) : str_of_int n <> "".
Proof.
  unfold str_of_int. destruct n as [|p|p]; simpl; [discriminate| |discriminate].
  unfold NilZero.string_of_uint.
  destruct (Pos.to_uint p); discriminate.
Qed.

Lemma range_text_nonempty (r : Z * Z) : range_text (fst r) (snd r) <> "".
Proof.
  unfold range_text. destruct (fst r =? snd r); [apply str_of_int_nonempty|].
  apply append_nonempty_l, str_of_int_nonempty.
Qed.

Lemma concat_nonempty (sep x : string) (l : list string) :
  x <> "" -> String.concat sep (x :: l) <> "".
Proof.
  intros Hx. destruct l as [|y l]; simpl; [exact Hx|]. now apply append_nonempty_l.
Qed.

Lemma ranges_loop_nonempty (start end_ : Z) (ps : list Z) : ranges_loop start end_ ps <> [].
Proof.
  revert start end_. induction ps as [|p ps IH]; intros start end_; simpl; [discriminate|].
  destruct (p =? end_ + 1); [apply IH|discriminate].
Qed.

(** [Citation.page_display]: no text exactly when the citation has no
    page; otherwise the ranges it lists, in ascending order and each at
    least one page away from the next, cover the pages of the citation
    and nothing else; the text depends on which pages the citation has,
    not on their order or on repetitions. *)
Lemma page_display_facts (c : Citation) :
  (page_display c = "" <-> pages c = [])
  /\ page_display c
     = String.concat ", "
         (List.map (fun r => range_text (fst r) (snd r)) (page_ranges (pages c)))
  /\ Forall (fun r => fst r <= snd r) (page_ranges (pages c))
  /\ StronglySorted apart (page_ranges (pages c))
  /\ (forall p, In p (pages c)
                <-> exists r, In r (page_ranges (pages c)) /\ fst r <= p <= snd r)
  /\ (forall c', (forall p, In p (pages c') <-> In p (pages c)) ->
                 page_display c' = page_display c).
Proof.
  split; [|split; [apply page_display_ranges|]].
  - split; [|unfold page_display; now intros ->].
    rewrite page_display_ranges. unfold page_ranges.
    destruct (pages c) as [|p ps] eqn:E; [reflexivity|]. intros H. exfalso.
    destruct (sort Z.leb (set_of (p :: ps))) as [|p0 rest] eqn:Es.
    + assert (Hin : In p (sort Z.leb (set_of (p :: ps)))) by (apply sorted_set_In; now left).
      now rewrite Es in Hin.
    + destruct (ranges_loop p0 p0 rest) as [|r rs] eqn:Er; [now apply ranges_loop_nonempty in Er|].
      revert H. apply concat_nonempty, range_text_nonempty.
  - assert (Hspec : Forall (fun r => fst r <= snd r) (page_ranges (pages c))
                    /\ StronglySorted apart (page_ranges (pages c))
                    /\ (forall p, In p (pages c)
                          <-> exists r, In r (page_ranges (pages c)) /\ fst r <= p <= snd r)).
    { unfold page_ranges. pose proof (sorted_set_increasing (pages c)) as Hinc.
      pose proof (fun p => sorted_set_In p (pages c)) as Hin.
      destruct (sort Z.leb (set_of (pages c))) as [|p0 rest].
      - split; [constructor|]. split; [constructor|]. intros p. rewrite <- Hin.
        split; [intros []|intros (r & [] & _)].
      - destruct (ranges_loop_spec p0 p0 rest (Z.le_refl p0) Hinc) as (Hf & Hs & Hp).
        split; [|split; [exact Hs|]].
        + eapply Forall_impl; [exact Hf|]. intros r Hr. simpl in Hr. lia.
        + intros p. rewrite <- Hin, Hp. simpl. split; [intros [<-|H]|intros [H|H]].
          * left. lia.
          * now right.
          * left. lia.
          * now right. }
    destruct Hspec as (Hf & Hs & Hp). split; [exact Hf|]. split; [exact Hs|].
    split; [exact Hp|].
    intros c' Heq. rewrite !page_display_ranges. f_equal. f_equal. unfold page_ranges.
    replace (sort Z.leb (set_of (pages c'))) with (sort Z.leb (set_of (pages c)));
      [reflexivity|].
    apply increasing_unique; try apply sorted_set_increasing.
    intros p. rewrite !sorted_set_In. symmetry. apply Heq.
Qed.

(** * The citations of a project by category *)

Section ProjectFacts.
Import TOAProject.

Lemma ensure_sort_key_same (c : Citation) :
  category (ensure_sort_key c) = category c
  /\ is_short_form (ensure_sort_key c) = is_short_form c.
Proof. unfold ensure_sort_key. now destruct (Str.nonempty (sort_key c)). Qed.

Lemma ensure_sort_key_idem (c : Citation) :
  ensure_sort_key (ensure_sort_key c) = ensure_sort_key c.
Proof.
  unfold ensure_sort_key. destruct (Str.nonempty (sort_key c)) eqn:E; [now rewrite E|].
  destruct (Str.nonempty (sort_key (generate_sort_key c))); reflexivity.
Qed.

Lemma category_eqb_eq (a b : CitationCategory) : category_eqb a b = true <-> a = b.
Proof. destruct a, b; simpl; split; congruence. Qed.

Lemma is_entry_ensure (cat : CitationCategory) (c : Citation) :
  is_entry cat (ensure_sort_key c) = is_entry cat c.
Proof.
  unfold is_entry. destruct (ensure_sort_key_same c) as [-> ->]. reflexivity.
Qed.

Lemma is_entry_other (cat cat' : CitationCategory) (c : Citation) :
  cat <> cat' -> is_entry cat c = true -> is_entry cat' c = false.
Proof.
  unfold is_entry. intros Hne H. apply andb_true_iff in H. destruct H as [H _].
  apply category_eqb_eq in H. destruct (category_eqb (category c) cat') eqn:E; [|reflexivity].
  apply category_eqb_eq in E. congruence.
Qed.

Lemma touched_entry (done : list CitationCategory) (cat : CitationCategory) (c : Citation) :
  is_entry cat (touched done c) = is_entry cat c.
Proof. unfold touched. destruct (List.existsb _ done); [apply is_entry_ensure|reflexivity]. Qed.

Lemma touched_snoc (done : list CitationCategory) (cat : CitationCategory) (c : Citation) :
  (if is_entry cat (touched done c) then ensure_sort_key (touched done c) else touched done c)
  = touched (done ++ [cat]) c.
Proof.
  rewrite touched_entry. unfold touched. rewrite existsb_app. simpl. rewrite orb_false_r.
  destruct (List.existsb _ done), (is_entry cat c); simpl; try reflexivity.
  apply ensure_sort_key_idem.
Qed.

Lemma filter_touched (done : list CitationCategory) (cat : CitationCategory) (cs : list Citation) :
  List.filter (is_entry cat) (List.map (touched done) cs)
  = List.map (touched done) (List.filter (is_entry cat) cs).
Proof.
  induction cs as [|c cs IH]; [reflexivity|]. simpl. rewrite touched_entry.
  destruct (is_entry cat c); simpl; now rewrite IH.
Qed.

Lemma map_touched_entries (done : list CitationCategory) (cat : CitationCategory)
    (cs : list Citation) :
  In cat done ->
  List.map (touched done) (List.filter (is_entry cat) cs)
  = List.map ensure_sort_key (List.filter (is_entry cat) cs).
Proof.
  intros Hin. apply map_ext_in. intros c Hc. apply filter_In in Hc. destruct Hc as [_ Hc].
  unfold touched.
  replace (List.existsb (fun cat0 => is_entry cat0 c) done) with true; [reflexivity|].
  symmetry. apply existsb_exists. now exists cat.
Qed.

Lemma citations_by_category_loop_spec (cats done : list CitationCategory)
    (cs : list Citation) (grouped : list (CitationCategory * list Citation)) :
  citations_by_category_loop cats (List.map (touched done) cs) grouped
  = (List.map (touched (done ++ cats)) cs, (grouped ++ groups_of cats cs)%list).
Proof.
  revert done grouped. induction cats as [|cat cats IH]; intros done grouped.
  - simpl. now rewrite !app_nil_r.
  - cbn [citations_by_category_loop]. rewrite filter_touched.
    unfold groups_of. cbn [List.map List.filter snd].
    destruct (List.filter (is_entry cat) cs) as [|e es] eqn:Ef.
    + cbn [List.map]. rewrite IH.
      unfold group_of at 1. rewrite Ef. cbn [List.map sort].
      replace (done ++ cat :: cats)%list with ((done ++ [cat]) ++ cats)%list
        by (now rewrite <- app_assoc).
      f_equal. apply map_ext_in. intros c Hc. unfold touched. rewrite !existsb_app.
      simpl. rewrite orb_false_r.
      replace (is_entry cat c) with false; [now rewrite orb_false_r|].
      destruct (is_entry cat c) eqn:E; [|reflexivity].
      assert (Hin : In c (List.filter (is_entry cat) cs)) by (apply filter_In; now split).
      now rewrite Ef in Hin.
    + cbn [List.map]. rewrite List.map_map.
      rewrite (map_ext _ _ (touched_snoc done cat)).
      rewrite IH. replace ((done ++ [cat]) ++ cats)%list with (done ++ cat :: cats)%list
        by (now rewrite <- app_assoc).
      f_equal. rewrite <- app_assoc. f_equal. cbn [app].
      rewrite filter_touched.
      rewrite map_touched_entries by (apply in_or_app; right; now left).
      rewrite Ef.
      assert (Hg : group_of cat cs
                   = sort by_sort_key (List.map ensure_sort_key (e :: es)))
        by (unfold group_of; now rewrite Ef).
      rewrite Hg.
      destruct (sort by_sort_key (List.map ensure_sort_key (e :: es))) as [|x xs] eqn:Es;
        [|reflexivity].
      exfalso. assert (Hin : In (ensure_sort_key e) (sort by_sort_key (List.map ensure_sort_key (e :: es))))
        by (apply sort_In; now left).
      now rewrite Es in Hin.
Qed.

Lemma touched_all (c : Citation) :
  touched ALL_CATEGORIES c = if is_short_form c then c else ensure_sort_key c.
Proof.
  unfold touched, ALL_CATEGORIES, is_entry. simpl.
  destruct (category c), (is_short_form c); reflexivity.
Qed.

Lemma citations_by_category_eq (self : TOAProject.t) :
  citations_by_category self
  = (set_citations self (with_sort_keys (citations self)),
     groups_of ALL_CATEGORIES (citations self)).
Proof.
  unfold citations_by_category.
  pose proof (citations_by_category_loop_spec ALL_CATEGORIES [] (citations self) []) as H.
  assert (Hid : List.map (touched []) (citations self) = citations self).
  { rewrite <- (map_id (citations self)) at 2. now apply map_ext. }
  rewrite Hid in H. rewrite H. cbn [app]. f_equal. f_equal.
  apply map_ext. intros c. apply touched_all.
Qed.

Lemma by_sort_key_total (a b : Citation) :
  by_sort_key a b = true \/ by_sort_key b a = true.
Proof. apply String.leb_total. Qed.

Lemma by_sort_key_trans (a b c : Citation) :
  by_sort_key a b = true -> by_sort_key b c = true -> by_sort_key a c = true.
Proof. apply string_leb_trans. Qed.

Lemma group_of_spec (cat : CitationCategory) (cs : list Citation) :
  StronglySorted (le_prop by_sort_key) (group_of cat cs)
  /\ Permutation (group_of cat cs)
       (List.map ensure_sort_key (List.filter (is_entry cat) cs))
  /\ forall e, In e (group_of cat cs) -> category e = cat /\ is_short_form e = false.
Proof.
  unfold group_of. split; [|split].
  - apply sort_sorted; [apply by_sort_key_total|apply by_sort_key_trans].
  - apply sort_perm.
  - intros e He. apply sort_In in He. apply in_map_iff in He.
    destruct He as (c & <- & Hc). apply filter_In in Hc. destruct Hc as [_ Hc].
    destruct (ensure_sort_key_same c) as [-> ->].
    unfold is_entry in Hc. apply andb_true_iff in Hc. destruct Hc as [H1 H2].
    split; [now apply category_eqb_eq|now apply negb_true_iff].
Qed.

Lemma concat_groups_of (cats : list CitationCategory) (cs : list Citation) :
  concat (List.map snd (groups_of cats cs)) = flat_map (fun cat => group_of cat cs) cats.
Proof.
  unfold groups_of. induction cats as [|cat cats IH]; [reflexivity|].
  cbn [List.map List.filter snd flat_map].
  destruct (group_of cat cs) as [|e es] eqn:E; simpl; now rewrite IH.
Qed.

Lemma entries_partition (cs : list Citation) :
  Permutation (flat_map (fun cat => List.filter (is_entry cat) cs) ALL_CATEGORIES)
    (List.filter (fun c => negb (is_short_form c)) cs).
Proof.
  unfold ALL_CATEGORIES. cbn [flat_map]. rewrite app_nil_r.
  induction cs as [|c cs IH]; [reflexivity|]. cbn [List.filter].
  assert (H : forall cat, is_entry cat c
                         = category_eqb (category c) cat && negb (is_short_form c))
    by reflexivity.
  rewrite !H. clear H.
  destruct (category c), (is_short_form c); cbn [category_eqb andb negb];
    try exact IH; cbn [app]; rewrite <- ?Permutation_middle; apply perm_skip, IH.
Qed.

Lemma flat_map_perm {A B : Type} (f g : A -> list B) (l : list A) :
  (forall a, Permutation (f a) (g a)) -> Permutation (flat_map f l) (flat_map g l).
Proof.
  intros H. induction l as [|a l IH]; [reflexivity|]. simpl. now rewrite H, IH.
Qed.

Lemma flat_map_map_each {A B C : Type} (h : B -> C) (f : A -> list B) (l : list A) :
  flat_map (fun a => List.map h (f a)) l = List.map h (flat_map f l).
Proof.
  induction l as [|a l IH]; [reflexivity|]. simpl. now rewrite IH, map_app.
Qed.

Lemma primary_with_sort_keys (cs : list Citation) :
  List.filter (fun c => negb (is_short_form c)) (with_sort_keys cs)
  = List.map ensure_sort_key (List.filter (fun c => negb (is_short_form c)) cs).
Proof.
  unfold with_sort_keys. induction cs as [|c cs IH]; [reflexivity|]. simpl.
  destruct (is_short_form c) eqn:E; simpl.
  - now rewrite E.
  - destruct (ensure_sort_key_same c) as [_ ->]. rewrite E. simpl. now rewrite IH.
Qed.

Lemma sublist_filter_map {A B : Type} (p : B -> bool) (f : A -> B) (l : list A) :
  sublist (List.map fst (List.filter (fun g => p (snd g)) (List.map (fun a => (a, f a)) l))) l.
Proof.
  induction l as [|a l IH]; [apply sublist_nil|]. simpl.
  destruct (p (f a)); simpl; [now apply sublist_skip|now apply sublist_cons].
Qed.

(** [TOAProject.citations_by_category]: the dict holds a group, never
    empty, for the categories that have an entry, in the order of the
    enum; a group holds citations of its category that are not short
    forms, in ascending order of sort key; and the groups together hold
    each citation of [primary_citations] exactly once.  The call leaves
    every citation as it was but for the sort key it generates where a
    primary citation had none. *)
Lemma grouped_partition (self : TOAProject.t) :
  let '(self', grouped) := citations_by_category self in
  citations self' = with_sort_keys (citations self)
  /\ sublist (List.map fst grouped) ALL_CATEGORIES
  /\ (forall cat entries, In (cat, entries) grouped ->
        entries <> []
        /\ StronglySorted (le_prop by_sort_key) entries
        /\ forall e, In e entries -> category e = cat /\ is_short_form e = false)
  /\ Permutation (concat (List.map snd grouped)) (primary_citations self')
  /\ Z.of_nat (length (concat (List.map snd grouped))) = citation_count self.
Proof.
  rewrite citations_by_category_eq. split; [reflexivity|].
  assert (Hperm : Permutation (concat (List.map snd (groups_of ALL_CATEGORIES (citations self))))
                    (List.map ensure_sort_key (primary_citations self))).
  { rewrite concat_groups_of.
    rewrite (flat_map_perm _ (fun cat => List.map ensure_sort_key
                                           (List.filter (is_entry cat) (citations self))))
      by (intros cat; apply group_of_spec).
    rewrite flat_map_map_each. apply Permutation_map, entries_partition. }
  split; [|split; [|split]].
  - unfold groups_of.
    apply (sublist_filter_map (fun l => match l with [] => false | _ => true end)
             (fun cat => group_of cat (citations self))).
  - intros cat entries Hin. unfold groups_of in Hin. apply filter_In in Hin.
    destruct Hin as [Hin Hne]. apply in_map_iff in Hin. destruct Hin as (cat' & [= <- <-] & _).
    simpl in Hne. split; [now destruct (group_of cat' (citations self))|].
    destruct (group_of_spec cat' (citations self)) as (Hs & _ & He). now split.
  - unfold primary_citations. cbn [citations set_citations].
    now rewrite primary_with_sort_keys.
  - rewrite (Permutation_length Hperm), length_map. reflexivity.
Qed.

Lemma sort_sorted_id {A : Type} (le : A -> A -> bool) (l : list A) :
  StronglySorted (le_prop le) l -> sort le l = l.
Proof.
  induction 1 as [|x l Hs IH Hx]; [reflexivity|]. simpl. rewrite IH.
  destruct l as [|y l]; [reflexivity|]. simpl.
  inversion Hx as [|? ? Hxy _]; subst. unfold le_prop in Hxy. now rewrite Hxy.
Qed.

Lemma filter_none {A : Type} (p : A -> bool) (l : list A) :
  Forall (fun x => p x = false) l -> List.filter p l = [].
Proof.
  induction 1 as [|x l Hx _ IH]; [reflexivity|]. simpl. now rewrite Hx.
Qed.

Lemma filter_sorted {A : Type} (R : A -> A -> Prop) (p : A -> bool) (l : list A) :
  StronglySorted R l -> StronglySorted R (List.filter p l).
Proof.
  induction 1 as [|x l Hs IH Hx]; [constructor|]. simpl.
  destruct (p x); [|exact IH]. constructor; [exact IH|].
  rewrite Forall_forall in *. intros y Hy. apply Hx.
  apply list_elem_of_In in Hy. apply filter_In in Hy. apply list_elem_of_In. tauto.
Qed.

Lemma generate_sort_key_idem (c : Citation) :
  generate_sort_key (generate_sort_key c) = generate_sort_key c.
Proof. destruct c. reflexivity. Qed.

Lemma ensure_generated (c : Citation) :
  ensure_sort_key (generate_sort_key c) = generate_sort_key c.
Proof.
  unfold ensure_sort_key.
  destruct (Str.nonempty (sort_key (generate_sort_key c))); [reflexivity|].
  apply generate_sort_key_idem.
Qed.

(** Cutting a list in the order of [detect] into the entries of each
    category gives the list back. *)
Lemma entries_of_ordered (l : list Citation) :
  StronglySorted (le_prop by_category_then_key) l ->
  Forall (fun c => is_short_form c = false) l ->
  flat_map (fun cat => List.filter (is_entry cat) l) ALL_CATEGORIES = l.
Proof.
  unfold ALL_CATEGORIES. cbn [flat_map]. rewrite app_nil_r.
  induction 1 as [|c l Hs IH Hc]; intros Hf; [reflexivity|].
  inversion Hf as [|? ? Hcf Hf']; subst. specialize (IH Hf').
  assert (Hlater : forall cat, sort_order cat < sort_order (category c) ->
                     List.filter (is_entry cat) l = []).
  { intros cat Hlt. apply filter_none. rewrite Forall_forall in *. intros x Hx.
    specialize (Hc x Hx). unfold le_prop, by_category_then_key in Hc.
    unfold is_entry. destruct (category_eqb (category x) cat) eqn:E; [|reflexivity].
    apply category_eqb_eq in E. subst cat. exfalso.
    apply orb_true_iff in Hc. destruct Hc as [Hc|Hc].
    - apply Z.ltb_lt in Hc. lia.
    - apply andb_true_iff in Hc. destruct Hc as [Hc _]. apply Z.eqb_eq in Hc. lia. }
  cbn [List.filter].
  assert (H : forall cat, is_entry cat c
                         = category_eqb (category c) cat && negb (is_short_form c))
    by reflexivity.
  rewrite !H, Hcf. clear H.
  destruct (category c) eqn:Ec; cbn [category_eqb andb negb];
    rewrite ?(Hlater CASES), ?(Hlater STATUTES), ?(Hlater CONSTITUTIONAL), ?(Hlater RULES)
      by (simpl; lia);
    rewrite ?(Hlater CASES), ?(Hlater STATUTES), ?(Hlater CONSTITUTIONAL), ?(Hlater RULES) in IH
      by (simpl; lia);
    cbn [app] in *; now rewrite IH.
Qed.

Lemma by_key_of_category (cat : CitationCategory) (l : list Citation) :
  StronglySorted (le_prop by_category_then_key) l ->
  StronglySorted (le_prop by_sort_key) (List.filter (is_entry cat) l).
Proof.
  intros Hs. apply (filter_sorted _ (is_entry cat)) in Hs.
  revert Hs. generalize (fun x => proj1 (filter_In (is_entry cat) x l)).
  generalize (List.filter (is_entry cat) l). intros f Hf Hs.
  induction Hs as [|x f Hs IH Hx]; constructor.
  - apply IH. intros y Hy. apply Hf. now right.
  - rewrite Forall_forall in *. intros y Hy. specialize (Hx y Hy).
    assert (Hcx : category x = cat).
    { destruct (Hf x (or_introl eq_refl)) as [_ H]. unfold is_entry in H.
      apply andb_true_iff in H. now apply category_eqb_eq. }
    assert (Hcy : category y = cat).
    { apply list_elem_of_In in Hy. destruct (Hf y (or_intror Hy)) as [_ H].
      unfold is_entry in H. apply andb_true_iff in H. now apply category_eqb_eq. }
    unfold le_prop, by_category_then_key in Hx. unfold le_prop, by_sort_key.
    rewrite Hcx, Hcy, Z.ltb_irrefl, Z.eqb_refl in Hx. exact Hx.
Qed.

Lemma detect_sorted_aux (doc : list PageText.t) :
  StronglySorted (le_prop by_category_then_key) (detect doc).
Proof.
  unfold detect. rewrite detect_matches_view.
  apply sort_sorted; [apply by_category_then_key_total|apply by_category_then_key_trans].
Qed.

(** [citations_by_category] on the output of [detect]: the groups, one
    after the other, are the output itself, cut into categories; no
    citation is changed. *)
Lemma grouped_of_detect (doc : list PageText.t) (self : TOAProject.t) :
  citations self = detect doc ->
  let '(self', grouped) := citations_by_category self in
  citations self' = detect doc
  /\ concat (List.map snd grouped) = detect doc
  /\ primary_citations self' = detect doc.
Proof.
  intros Hc. rewrite citations_by_category_eq, Hc.
  assert (Hgen : forall c, In c (detect doc) ->
                   is_short_form c = false /\ ensure_sort_key c = c).
  { intros c Hin. split; [now apply (detect_entry_full doc)|].
    unfold detect in Hin. apply detect_matches_In in Hin.
    destruct Hin as (k & v & _ & ->). apply ensure_generated. }
  assert (Hkeys : with_sort_keys (detect doc) = detect doc).
  { unfold with_sort_keys. rewrite <- (map_id (detect doc)) at 2.
    apply map_ext_in. intros c Hin. destruct (Hgen c Hin) as [-> ->]. reflexivity. }
  assert (Hfull : Forall (fun c => is_short_form c = false) (detect doc)).
  { apply Forall_forall. intros c Hin. apply list_elem_of_In in Hin. now apply Hgen. }
  split; [exact Hkeys|]. split.
  - rewrite concat_groups_of.
    etransitivity;
      [|apply (entries_of_ordered (detect doc)); [apply detect_sorted_aux|exact Hfull]].
    unfold ALL_CATEGORIES. cbn [flat_map]. unfold group_of.
    assert (Hg : forall cat,
               sort by_sort_key (List.map ensure_sort_key (List.filter (is_entry cat) (detect doc)))
               = List.filter (is_entry cat) (detect doc)).
    { intros cat.
      assert (Hm : List.map ensure_sort_key (List.filter (is_entry cat) (detect doc))
                   = List.filter (is_entry cat) (detect doc)).
      { rewrite <- (map_id (List.filter _ _)) at 2. apply map_ext_in.
        intros c Hin. apply filter_In in Hin. now apply Hgen. }
      rewrite Hm. apply sort_sorted_id, by_key_of_category, detect_sorted_aux. }
    now rewrite !Hg.
  - unfold primary_citations. cbn [citations set_citations]. rewrite Hkeys.
    clear Hkeys Hc. induction (detect doc) as [|c l IH]; [reflexivity|].
    inversion Hfull as [|? ? Hcf Hf']; subst. simpl. rewrite Hcf. simpl. f_equal.
    apply IH; [|exact Hf']. intros x Hx. apply Hgen. now right.
Qed.

End ProjectFacts.

(** * The scan *)

Lemma registry_all_solid :
  List.forallb (fun '(_, r, _) => Solid.solid false r) Patterns.PATTERN_REGISTRY = true.
Proof. vm_compute. reflexivity. Qed.

Lemma scan_page_shift (registry : list (string * Re.regex * CitationCategory))
    (off : Z) (pd : PageText.t) :
  scan_page registry off pd = List.map (shift off) (scan_page registry 0 pd).
Proof.
  unfold scan_page. induction registry as [|[[name r] cat] registry IH]; [reflexivity|].
  cbn [flat_map]. rewrite map_app, IH. f_equal.
  rewrite List.map_map. apply map_ext. intros m. unfold shift. simpl. f_equal; lia.
Qed.

Lemma shift_shift (d d' : Z) (m : RawMatch.t) : shift d (shift d' m) = shift (d' + d) m.
Proof. unfold shift. simpl. f_equal; lia. Qed.

Lemma scan_from_shift (registry : list (string * Re.regex * CitationCategory))
    (off : Z) (doc : list PageText.t) :
  scan_from registry off doc = List.map (shift off) (scan_from registry 0 doc).
Proof.
  revert off. induction doc as [|pd doc IH]; intros off; [reflexivity|].
  cbn [scan_from]. rewrite map_app. f_equal; [apply scan_page_shift|].
  rewrite IH. rewrite (IH (0 + _)). rewrite List.map_map.
  apply map_ext. intros m. rewrite shift_shift. f_equal. lia.
Qed.

Lemma scan_from_app (registry : list (string * Re.regex * CitationCategory))
    (off : Z) (d1 d2 : list PageText.t) :
  scan_from registry off (d1 ++ d2)
  = (scan_from registry off d1 ++ scan_from registry (off + doc_length d1) d2)%list.
Proof.
  revert off. induction d1 as [|pd d1 IH]; intros off.
  - simpl. now rewrite Z.add_0_r.
  - cbn [app scan_from doc_length fold_right]. rewrite IH, <- app_assoc.
    fold (doc_length d1). do 3 f_equal. lia.
Qed.

Lemma scan_page_bounds (registry : list (string * Re.regex * CitationCategory))
    (off : Z) (pd : PageText.t) (m : RawMatch.t) :
  List.forallb (fun '(_, r, _) => Solid.solid false r) registry = true ->
  In m (scan_page registry off pd) ->
  RawMatch.page m = PageText.page pd
  /\ off <= RawMatch.start m < RawMatch.end_ m
  /\ RawMatch.end_ m <= off + Z.of_nat (String.length (PageText.text pd))
  /\ RawMatch.text m
     = Str.strip (String.substring (Z.to_nat (RawMatch.start m - off))
                    (Z.to_nat (RawMatch.end_ m - RawMatch.start m)) (PageText.text pd))
  /\ In (RawMatch.pattern_name m, RawMatch.category m)
        (List.map (fun '(name, _, cat) => (name, cat)) registry).
Proof.
  intros Hreg Hin. unfold scan_page in Hin. apply in_flat_map in Hin.
  destruct Hin as ([[name r] cat] & Hentry & Hin).
  apply in_map_iff in Hin. destruct Hin as (mo & <- & Hmo). cbn [RawMatch.page RawMatch.start
    RawMatch.end_ RawMatch.text RawMatch.pattern_name RawMatch.category].
  rewrite forallb_forall in Hreg. specialize (Hreg _ Hentry). simpl in Hreg.
  apply SolidFacts.finditer_from_spans in Hmo.
  destruct Hmo as (w & (pre & post & Htext & Hstart & Hend) & Hv).
  specialize (Hv Hreg).
  assert (Hw : (0 < String.length w)%nat) by (destruct w; [discriminate|simpl; lia]).
  assert (Hlen : String.length (PageText.text pd)
                 = (String.length pre + String.length w + String.length post)%nat).
  { rewrite Htext, !SolidFacts.length_append. lia. }
  split; [reflexivity|]. split; [lia|]. split; [lia|]. split.
  - unfold Re.group0. repeat f_equal; lia.
  - apply in_map_iff. now exists (name, r, cat).
Qed.

Lemma doc_length_app (d1 d2 : list PageText.t) :
  doc_length (d1 ++ d2) = doc_length d1 + doc_length d2.
Proof.
  induction d1 as [|pd d1 IH]; [reflexivity|].
  cbn [app doc_length fold_right]. fold (doc_length (d1 ++ d2)) (doc_length d1). lia.
Qed.

Lemma doc_length_nonneg (doc : list PageText.t) : 0 <= doc_length doc.
Proof.
  induction doc as [|pd doc IH]; [reflexivity|].
  cbn [doc_length fold_right]. fold (doc_length doc). lia.
Qed.

(** [_scan]: every raw match comes from one page of the document: it has
    the number of that page, lies, not empty, between the offset at which
    the page starts and the offset at which it ends, its text is the
    text of the page at that place with the whitespace around it cut
    off, and its name and category are those of an entry of the
    registry. *)
Lemma scan_match_page (doc : list PageText.t) (m : RawMatch.t) :
  In m (_scan doc) ->
  exists before pd after,
    doc = (before ++ pd :: after)%list
    /\ RawMatch.page m = PageText.page pd
    /\ doc_length before <= RawMatch.start m < RawMatch.end_ m
    /\ RawMatch.end_ m <= doc_length before + Z.of_nat (String.length (PageText.text pd))
    /\ RawMatch.text m
       = Str.strip
           (String.substring (Z.to_nat (RawMatch.start m - doc_length before))
              (Z.to_nat (RawMatch.end_ m - RawMatch.start m)) (PageText.text pd))
    /\ In (RawMatch.pattern_name m, RawMatch.category m)
          (List.map (fun '(name, _, cat) => (name, cat)) Patterns.PATTERN_SOURCES).
Proof.
  unfold _scan.
  assert (Hgen : forall before doc,
             In m (scan_from Patterns.PATTERN_REGISTRY (doc_length before) doc) ->
             exists before' pd after,
               (before ++ doc)%list = (before' ++ pd :: after)%list
               /\ RawMatch.page m = PageText.page pd
               /\ doc_length before' <= RawMatch.start m < RawMatch.end_ m
               /\ RawMatch.end_ m
                  <= doc_length before' + Z.of_nat (String.length (PageText.text pd))
               /\ RawMatch.text m
                  = Str.strip
                      (String.substring (Z.to_nat (RawMatch.start m - doc_length before'))
                         (Z.to_nat (RawMatch.end_ m - RawMatch.start m)) (PageText.text pd))
               /\ In (RawMatch.pattern_name m, RawMatch.category m)
                     (List.map (fun '(name, _, cat) => (name, cat)) Patterns.PATTERN_SOURCES)).
  { intros before doc'. revert before. induction doc' as [|pd doc' IH]; intros before Hin;
      [destruct Hin|].
    cbn [scan_from] in Hin. apply in_app_or in Hin. destruct Hin as [Hin|Hin].
    - apply (scan_page_bounds _ _ _ _ registry_all_solid) in Hin.
      destruct Hin as (Hp & Hs & He & Ht & Hn).
      exists before, pd, doc'. split; [reflexivity|]. split; [exact Hp|].
      split; [exact Hs|]. split; [exact He|]. split; [exact Ht|].
      unfold Patterns.PATTERN_REGISTRY in Hn. rewrite List.map_map in Hn.
      erewrite map_ext; [exact Hn|]. now intros [[name p] cat].
    - specialize (IH (before ++ [pd])%list).
      rewrite doc_length_app in IH. cbn [doc_length fold_right] in IH.
      rewrite Z.add_0_r in IH. specialize (IH Hin).
      now rewrite <- app_assoc in IH. }
  intros Hin. apply (Hgen [] doc Hin).
Qed.

(** Extra X6 (scanning part by part).  [_scan]: the scan of a document
    in two parts is the scan of the first part followed by the scan of
    the second, moved right by the length of the first; no match of the
    one intersects a match of the other. *)
Theorem scan_app (d1 d2 : list PageText.t) :
  _scan (d1 ++ d2) = (_scan d1 ++ List.map (shift (doc_length d1)) (_scan d2))%list
  /\ forall m1 m2, In m1 (_scan d1) -> In m2 (List.map (shift (doc_length d1)) (_scan d2)) ->
       RawMatch.end_ m1 <= RawMatch.start m2 /\ ~ intersects m1 m2 /\ ~ intersects m2 m1.
Proof.
  split.
  - unfold _scan. rewrite scan_from_app, Z.add_0_l. f_equal. apply scan_from_shift.
  - intros m1 m2 H1 H2.
    assert (Hle : RawMatch.end_ m1 <= doc_length d1 <= RawMatch.start m2).
    { apply scan_match_page in H1.
      destruct H1 as (b1 & p1 & a1 & -> & _ & _ & He1 & _).
      apply in_map_iff in H2. destruct H2 as (m & <- & H2).
      apply scan_match_page in H2.
      destruct H2 as (b2 & p2 & a2 & _ & _ & Hs2 & _).
      cbn [shift RawMatch.start].
      rewrite doc_length_app. cbn [doc_length fold_right]. fold (doc_length a1).
      pose proof (doc_length_nonneg a1). pose proof (doc_length_nonneg b2). lia. }
    unfold intersects. lia.
Qed.

(** * What overlap resolution discards *)

Lemma keep_loop_complete (ms kept : list RawMatch.t) :
  StronglySorted (le_prop longer_first) ms ->
  (forall k m, In k kept -> In m ms -> longer_first k m = true) ->
  forall m, In m ms ->
    In m (keep_loop ms kept (List.map span kept))
    \/ exists k, In k (keep_loop ms kept (List.map span kept))
                 /\ intersects k m /\ longer_first k m = true.
Proof.
  intros Hs. revert kept. induction Hs as [|m0 rest Hs IH Hm0]; intros kept Hk m Hin;
    [destruct Hin|].
  cbn [keep_loop].
  destruct (List.existsb (overlaps m0) (List.map span kept)) eqn:Hov.
  - destruct Hin as [<-|Hin].
    + right. apply existsb_exists in Hov. destruct Hov as (occ & Hocc & Ho).
      apply in_map_iff in Hocc. destruct Hocc as (k & <- & Hkin).
      exists k. split; [now apply keep_loop_incl|]. split; [now apply overlaps_span|].
      apply Hk; [exact Hkin|now left].
    + apply IH; [|exact Hin]. intros k x Hkin Hx. apply Hk; [exact Hkin|now right].
  - replace (List.map span kept ++ [(RawMatch.start m0, RawMatch.end_ m0)])%list
      with (List.map span (kept ++ [m0])) by (now rewrite map_app).
    destruct Hin as [<-|Hin].
    + left. apply keep_loop_incl. apply in_or_app. right. now left.
    + apply IH; [|exact Hin]. intros k x Hkin Hx. apply in_app_or in Hkin.
      destruct Hkin as [Hkin|[<-|[]]].
      * apply Hk; [exact Hkin|now right].
      * rewrite Forall_forall in Hm0. apply Hm0. now apply list_elem_of_In.
Qed.

(** Extra X7 (what overlap resolution discards).  [_remove_overlaps]:
    the matches it returns are matches it was given, in ascending order
    of start offset; a match it was given and does not return intersects
    a returned match that is longer, or as long and starting no later. *)
Theorem remove_overlaps_complete (matches : list RawMatch.t) :
  (forall k, In k (_remove_overlaps matches) -> In k matches)
  /\ StronglySorted (fun a b => RawMatch.start a <= RawMatch.start b)
       (_remove_overlaps matches)
  /\ forall m, In m matches ->
       In m (_remove_overlaps matches)
       \/ exists k, In k (_remove_overlaps matches)
                    /\ intersects k m /\ ~ preferred m k.
Proof.
  split; [apply remove_overlaps_subset|]. split.
  - unfold _remove_overlaps. destruct matches; [constructor|]. apply sort_on_sorted.
  - intros m Hin. unfold _remove_overlaps. destruct matches as [|m0 ms]; [destruct Hin|].
    destruct (keep_loop_complete (sort longer_first (m0 :: ms)) []) with (m := m)
      as [H|(k & Hk & Hi & Hl)].
    + apply sort_sorted; [apply longer_first_total|apply longer_first_trans].
    + intros k x [].
    + now apply sort_In.
    + left. unfold sort_on. now apply sort_In.
    + right. exists k. split; [unfold sort_on; now apply sort_In|].
      split; [exact Hi|]. now apply longer_first_spec.
Qed.

(** * More on short-form resolution *)

Lemma prefix_contains (sub s : string) : String.prefix sub s = true -> Str.contains sub s = true.
Proof. intros H. destruct s; cbn [Str.contains]; now rewrite H. Qed.

(** The second test of the loop of [_resolve_supra] never decides: a
    first party that starts with the name contains it. *)
Lemma supra_match_contains (name : string) (fc : Citation) :
  supra_match name fc = Str.contains name (first_party fc).
Proof.
  unfold supra_match, Str.startswith.
  destruct (Str.contains name (first_party fc)) eqn:E; [reflexivity|].
  destruct (String.prefix name (first_party fc)) eqn:P; [|reflexivity].
  apply prefix_contains in P. congruence.
Qed.

Lemma find_ext {A : Type} (p q : A -> bool) (l : list A) :
  (forall x, p x = q x) -> List.find p l = List.find q l.
Proof.
  intros H. induction l as [|x l IH]; [reflexivity|]. simpl. now rewrite H, IH.
Qed.

(** The parent of a supra form, as the loop finds it in the sorted
    list. *)
Lemma resolve_supra_lookup (h : list Citation) (full_cites short_cites : list nat)
    (sc : nat) (c : Citation) :
  (forall r, In r full_cites -> ~ In r short_cites) ->
  (forall r, In r full_cites -> is_Some (h !! r)) ->
  In sc short_cites -> h !! sc = Some c ->
  _is_id_cite (Str.strip (full_text c)) = false ->
  _is_supra_cite (Str.strip (full_text c)) = true ->
  resolve_short_forms h full_cites short_cites !! sc
  = Some match Re.rmatch false SUPRA_NAME_RE (Str.strip (full_text c)) with
         | Some m =>
             let name := Str.lower (Re.group (Str.strip (full_text c)) m 1) in
             link_to c (List.find (fun fc => Str.contains name (first_party fc))
                          (sort_on min_page (derefs h full_cites)))
         | None => c
         end.
Proof.
  intros Hdisj Hvalid Hsc Hc Hid Hsupra.
  destruct (resolve_short_forms_lookup h full_cites short_cites Hdisj) as [Hin _].
  rewrite (Hin sc Hsc), Hc. simpl. f_equal.
  rewrite resolve_one_parent. unfold parent_of. rewrite Hid, Hsupra.
  rewrite derefs_sort_on by exact Hvalid.
  destruct (Re.rmatch false SUPRA_NAME_RE _) as [m|]; [|reflexivity].
  cbv zeta. f_equal. apply find_ext. intros fc. apply supra_match_contains.
Qed.

Lemma derefs_In (h : list Citation) (refs : list nat) (c : Citation) :
  In c (derefs h refs) <-> exists r, In r refs /\ h !! r = Some c.
Proof.
  induction refs as [|r refs IH]; simpl.
  - split; [intros []|intros (r & [] & _)].
  - destruct (h !! r) as [c0|] eqn:E; simpl; rewrite IH; split.
    + intros [<-|(r' & Hr' & Hc)]; [exists r; split; [now left|exact E]|].
      exists r'. split; [now right|exact Hc].
    + intros (r' & [<-|Hr'] & Hc); [left; congruence|right; now exists r'].
    + intros (r' & Hr' & Hc). exists r'. split; [now right|exact Hc].
    + intros (r' & [<-|Hr'] & Hc); [congruence|now exists r'].
Qed.

(** Extra X16 (the parent is a full citation).  [resolve_short_forms]: a
    short form is left as it was or linked to one of the citations of
    [full_cites]: its [parent_key] is the [normalized_key], and its
    category the category, of that citation, and nothing else of it
    changes. *)
Theorem resolve_parent_among_fulls (h : list Citation) (full_cites short_cites : list nat)
    (sc : nat) (c : Citation) :
  (forall r, In r full_cites -> ~ In r short_cites) ->
  In sc short_cites -> h !! sc = Some c ->
  resolve_short_forms h full_cites short_cites !! sc = Some c
  \/ exists r fc, In r full_cites /\ h !! r = Some fc
       /\ resolve_short_forms h full_cites short_cites !! r = Some fc
       /\ resolve_short_forms h full_cites short_cites !! sc = Some (link c fc).
Proof.
  intros Hdisj Hsc Hc.
  destruct (resolve_short_forms_lookup h full_cites short_cites Hdisj) as [Hin Hout].
  rewrite (Hin sc Hsc), Hc. simpl. rewrite resolve_one_parent.
  destruct (parent_of _ _ c) as [fc|] eqn:Hp; [|now left]. right.
  apply parent_of_In in Hp.
  assert (Hfc : exists r, In r full_cites /\ h !! r = Some fc).
  { destruct Hp as [Hp|Hp]; apply derefs_In in Hp; destruct Hp as (r & Hr & Hl).
    - unfold sort_on in Hr. apply sort_In in Hr. now exists r.
    - now exists r. }
  destruct Hfc as (r & Hr & Hl). exists r, fc. split; [exact Hr|]. split; [exact Hl|].
  split; [|reflexivity]. rewrite Hout; [exact Hl|now apply Hdisj].
Qed.

Lemma insert_sorted_ext_in {A : Type} (le le' : A -> A -> bool) (x : A) (l : list A) :
  (forall y, In y l -> le x y = le' x y) ->
  insert_sorted le x l = insert_sorted le' x l.
Proof.
  induction l as [|y l IH]; intros H; [reflexivity|]. simpl.
  rewrite (H y) by now left. destruct (le' x y); [reflexivity|].
  f_equal. apply IH. intros z Hz. apply H. now right.
Qed.

Lemma sort_ext_in {A : Type} (le le' : A -> A -> bool) (l : list A) :
  (forall x y, In x l -> In y l -> le x y = le' x y) -> sort le l = sort le' l.
Proof.
  induction l as [|x l IH]; intros H; [reflexivity|]. simpl.
  rewrite IH by (intros a b Ha Hb; apply H; now right).
  apply insert_sorted_ext_in. intros y Hy. apply sort_In in Hy.
  apply H; [now left|now right].
Qed.

(** Extra X17 (resolving twice).  [resolve_short_forms] a second time,
    on the same lists, changes nothing. *)
Theorem resolve_short_forms_idempotent (h : list Citation) (full_cites short_cites : list nat) :
  (forall r, In r full_cites -> ~ In r short_cites) ->
  resolve_short_forms (resolve_short_forms h full_cites short_cites) full_cites short_cites
  = resolve_short_forms h full_cites short_cites.
Proof.
  intros Hdisj. set (h' := resolve_short_forms h full_cites short_cites).
  destruct (resolve_short_forms_lookup h full_cites short_cites Hdisj) as [Hin Hout].
  destruct (resolve_short_forms_lookup h' full_cites short_cites Hdisj) as [Hin' Hout'].
  fold h' in Hin, Hout.
  assert (Hfull : forall r, In r full_cites -> h' !! r = h !! r)
    by (intros r Hr; apply Hout; now apply Hdisj).
  assert (Hsort : sort_on (ref_min_page h') full_cites = sort_on (ref_min_page h) full_cites).
  { unfold sort_on. apply sort_ext_in. intros x y Hx Hy. unfold ref_min_page.
    now rewrite (Hfull x Hx), (Hfull y Hy). }
  apply list_eq. intros r.
  destruct (in_dec Nat.eq_dec r short_cites) as [Hr|Hr].
  - rewrite (Hin' r Hr), (Hin r Hr), Hsort.
    rewrite (derefs_ext h h' full_cites Hfull).
    rewrite (derefs_ext h h' (sort_on (ref_min_page h) full_cites)).
    + destruct (h !! r); simpl; [|reflexivity]. now rewrite resolve_one_idempotent.
    + intros x Hx. apply Hfull. unfold sort_on in Hx. now apply sort_In in Hx.
  - now rewrite (Hout' r Hr).
Qed.

(** * Reclassification and review *)

Section ReviewFacts.
Import RuleClassifier.

Lemma reclassify_one_cases (c : Citation) :
  reclassify_one c
  = if is_short_form c then c
    else if negb (category_eqb (category c) CASES) then c
    else if treatise_like (full_text c) || review_like (full_text c)
         then set_confidence (set_category c OTHER) (9 # 10)
    else if partyless (full_text c) then set_confidence c (6 # 10)
    else c.
Proof.
  unfold reclassify_one, treatise_like, review_like, partyless.
  destruct (is_short_form c); [reflexivity|].
  destruct (category_eqb (category c) CASES); cbn [andb negb]; [|reflexivity].
  destruct (found (Re.search true _TREATISE_RE (full_text c))); [reflexivity|].
  destruct (found (Re.search true _LAW_REVIEW_RE (full_text c))); [reflexivity|].
  cbn [orb].
  destruct (negb (Str.contains " v." (full_text c)) && negb (Str.contains " v " (full_text c)));
    [|reflexivity].
  cbn [andb]. now destruct (negb (found (Re.rmatch false IN_RE_RE (full_text c)))).
Qed.

(** Extra X18 (what reclassify changes).  [reclassify]: the list keeps
    its length and its order; of a citation only [category] and
    [confidence] can change, and only when it is a Cases citation that
    is no short form: it becomes an Other Authorities citation of
    confidence 0.9, or stays a Cases citation with confidence 0.6. *)
Theorem reclassify_frame (citations : list Citation) :
  length (reclassify citations) = length citations
  /\ forall i c, citations !! i = Some c ->
       exists c', reclassify citations !! i = Some c'
         /\ same_but_class c c'
         /\ (is_short_form c = true \/ category c <> CASES -> c' = c)
         /\ (c' = c
             \/ (category c' = OTHER /\ confidence c' = 9 # 10)
             \/ (category c' = CASES /\ confidence c' = 6 # 10)).
Proof.
  unfold reclassify. split; [apply length_map|].
  intros i c Hc. exists (reclassify_one c). split.
  - change (List.map reclassify_one citations) with (reclassify_one <$> citations).
    now rewrite list_lookup_fmap, Hc.
  - rewrite reclassify_one_cases.
    destruct (is_short_form c) eqn:Hs; [repeat split; auto|].
    destruct (category_eqb (category c) CASES) eqn:Hcat; cbn [negb];
      [|repeat split; auto].
    apply category_eqb_eq in Hcat.
    destruct (_ || _).
    + split; [repeat split|]. split; [intros [H|H]; congruence|]. right. left. now split.
    + destruct (partyless (full_text c)).
      * split; [repeat split|]. split; [intros [H|H]; congruence|]. right. right.
        now split.
      * repeat split; auto.
Qed.

(** What [detect] leaves in the fields it never computes. *)
Lemma detect_entry_fields (doc : list PageText.t) (c : Citation) :
  In c (detect doc) ->
  is_short_form c = false /\ is_primary c = false /\ parent_key c = None
  /\ confidence c = 1%Q
  /\ exists m, In m (_remove_overlaps (_scan doc))
       /\ Str.startswith (RawMatch.pattern_name m) "short_" = false
       /\ full_text c = RawMatch.text m /\ category c = RawMatch.category m
       /\ display_name c = _make_display_name (RawMatch.text m) (RawMatch.category m)
       /\ normalized_key c = _normalize (RawMatch.text m) (RawMatch.pattern_name m).
Proof.
  intros Hin. pose proof (detect_entry_full doc c Hin) as Hs.
  apply detect_matches_entry in Hin; [|intros m; apply scan_well_formed].
  destruct Hin as (l1 & f & l2 & Hsplit & _ & Hsame & _).
  assert (Hf : In f (full_cites_of (_scan doc)))
    by (rewrite Hsplit; apply in_or_app; right; now left).
  rewrite full_cites_of_view in Hf. apply filter_In in Hf. destruct Hf as [Hf Hfull].
  apply in_map_iff in Hf. destruct Hf as (m & <- & Hm).
  destruct Hsame as (E1 & E2 & E3 & E4 & E5 & E6 & E7 & E8).
  unfold is_full in Hfull. cbn [to_citation is_short_form] in Hfull.
  apply negb_true_iff in Hfull.
  split; [exact Hs|]. split; [now rewrite E4|]. split; [now rewrite E6|].
  split; [now rewrite E8|].
  exists m. split; [exact Hm|]. split; [exact Hfull|].
  rewrite E1, E2, E3, E7. cbn [to_citation full_text category display_name normalized_key].
  rewrite Hfull. repeat split.
Qed.

Lemma scan_page_number (doc : list PageText.t) (m : RawMatch.t) :
  In m (_scan doc) -> exists pd, In pd doc /\ PageText.page pd = RawMatch.page m.
Proof.
  intros Hin. apply scan_match_page in Hin.
  destruct Hin as (before & pd & after & -> & Hp & _).
  exists pd. split; [apply in_or_app; right; now left|now rewrite Hp].
Qed.

(** Extra X3 (what detect returns).  [detect]: every citation it returns
    is built from an accepted match of a pattern that is no short-form
    pattern: it has the text and the category of that match, is not
    marked primary, has no parent and has confidence 1.0; and every page
    it lists is the number of a page of the document. *)
Theorem detect_output_fields (doc : list PageText.t) (c : Citation) :
  In c (detect doc) ->
  is_short_form c = false /\ is_primary c = false /\ parent_key c = None
  /\ confidence c = 1%Q
  /\ (exists m, In m (_remove_overlaps (_scan doc))
        /\ Str.startswith (RawMatch.pattern_name m) "short_" = false
        /\ full_text c = RawMatch.text m /\ category c = RawMatch.category m
        /\ display_name c = _make_display_name (RawMatch.text m) (RawMatch.category m)
        /\ normalized_key c = _normalize (RawMatch.text m) (RawMatch.pattern_name m))
  /\ forall p, In p (pages c) -> exists pd, In pd doc /\ PageText.page pd = p.
Proof.
  intros Hin. destruct (detect_entry_fields doc c Hin) as (H1 & H2 & H3 & H4 & H5).
  split; [exact H1|]. split; [exact H2|]. split; [exact H3|]. split; [exact H4|].
  split; [exact H5|].
  apply detect_matches_entry in Hin; [|intros m; apply scan_well_formed].
  destruct Hin as (l1 & f & l2 & _ & _ & _ & _ & Hp).
  intros p Hpin. apply Hp in Hpin. destruct Hpin as [(x & Hx & _ & Hpx)|(sc & Hsc & _ & Hpsc)].
  - apply full_cites_of_spec in Hx. destruct Hx as (m & Hm & -> & _).
    cbn [to_citation pages] in Hpx. destruct Hpx as [<-|[]]. now apply scan_page_number.
  - apply short_cites_of_spec in Hsc. destruct Hsc as (m & Hm & _ & ->).
    destruct (resolve_one_same (sort_on min_page (full_cites_of (_scan doc)))
                (full_cites_of (_scan doc)) (to_citation m)) as (_ & _ & Hpg & _).
    rewrite Hpg in Hpsc. cbn [to_citation pages] in Hpsc. destruct Hpsc as [<-|[]].
    now apply scan_page_number.
Qed.

Lemma get_ambiguous_In (citations : list Citation) (threshold : Q) (c : Citation) :
  In c (get_ambiguous citations threshold)
  <-> In c citations /\ (confidence c < threshold)%Q /\ is_short_form c = false.
Proof.
  unfold get_ambiguous. rewrite filter_In, andb_true_iff, negb_true_iff.
  unfold Qlt, Qcompare. 
  destruct (Z.compare_spec (Qnum (confidence c) * QDen threshold)
              (Qnum threshold * QDen (confidence c))) as [H|H|H];
    split; intros (H1 & H2); try destruct H2 as (H2 & H3); try discriminate;
    repeat split; auto; lia.
Qed.

(** Extra X19 (citations for review).  [get_ambiguous] at the threshold
    0.8 on the reclassified output of [detect]: the citations it returns
    are the Cases citations of [detect] whose text names no treatise and
    no law review, holds neither " v." nor " v " and does not begin with
    "In re", "Ex parte" or "Matter of", each with its confidence lowered
    to 0.6; a citation moved to Other Authorities is never among them. *)
Theorem ambiguous_of_detect (doc : list PageText.t) (c : Citation) :
  In c (get_ambiguous (reclassify (detect doc)) (8 # 10))
  <-> exists c0, In c0 (detect doc) /\ c = set_confidence c0 (6 # 10)
        /\ category c0 = CASES
        /\ treatise_like (full_text c0) = false /\ review_like (full_text c0) = false
        /\ partyless (full_text c0) = true.
Proof.
  rewrite get_ambiguous_In. unfold reclassify. rewrite in_map_iff. split.
  - intros ((c0 & <- & Hin) & Hlt & Hs).
    destruct (detect_entry_fields doc c0 Hin) as (Hs0 & _ & _ & Hconf & _).
    exists c0. split; [exact Hin|]. revert Hlt. rewrite reclassify_one_cases, Hs0.
    destruct (category_eqb (category c0) CASES) eqn:Hcat; cbn [negb].
    + apply category_eqb_eq in Hcat.
      destruct (treatise_like (full_text c0)), (review_like (full_text c0)); cbn [orb];
        try (intros Hlt; exfalso; revert Hlt; cbn [confidence set_confidence]; 
             unfold Qlt; simpl; lia).
      destruct (partyless (full_text c0)); [now repeat split|].
      rewrite Hconf. unfold Qlt. simpl. lia.
    + rewrite Hconf. unfold Qlt. simpl. lia.
  - intros (c0 & Hin & -> & Hcat & Ht & Hr & Hp).
    destruct (detect_entry_fields doc c0 Hin) as (Hs0 & _).
    split; [|split; [unfold Qlt; simpl; lia|exact Hs0]].
    exists c0. split; [|exact Hin].
    rewrite reclassify_one_cases, Hs0, Hcat, Ht, Hr, Hp. reflexivity.
Qed.

End ReviewFacts.

(** * The writer *)

Section WriterFacts.
Import TOAProject TOAWriter.

Lemma take_drop (n : nat) (s : string) : Str.take n s ++ Str.drop n s = s.
Proof.
  revert s. induction n as [|n IH]; intros [|c s]; simpl; try reflexivity.
  now rewrite IH.
Qed.

Lemma split_head_tail (sep s : string) :
  Str.split_head sep s ++ match Str.split_tail sep s with
                          | Some after => sep ++ after
                          | None => ""
                          end = s.
Proof.
  induction s as [|c s IH].
  - now destruct sep.
  - cbn [Str.split_head Str.split_tail].
    destruct (String.prefix sep (String c s)) eqn:E.
    + cbn [append]. clear IH. revert E. generalize (String c s). intros t.
      revert t. induction sep as [|a sep IHs]; intros t E; [reflexivity|].
      destruct t as [|b t]; [discriminate|]. simpl in E.
      destruct (ascii_dec a b) as [->|]; [|discriminate]. simpl. f_equal. now apply IHs.
    + cbn [append]. f_equal. exact IH.
Qed.

(** Extra X23 (splitting a case entry).  [_add_case_entry]: the text in
    italics and the text after it are the display name cut in two, the
    first part without the whitespace around it: nothing else of the
    name is left out or changed. *)
Theorem case_entry_split_lossless (display : string) :
  exists head, display = head ++ snd (case_entry_split display)
               /\ fst (case_entry_split display) = Str.strip head.
Proof.
  unfold case_entry_split.
  destruct (Re.search false VOLUME_START_RE display) as [m|].
  - exists (Str.take (Re.mo_start m) display). split; [|reflexivity].
    simpl. now rewrite take_drop.
  - exists (Str.split_head "," display). split; [|reflexivity].
    cbn [snd]. symmetry. apply (split_head_tail "," display).
Qed.




Lemma init_preset_some (project : TOAProject.t) :
  init_preset project
  = Some match preset project with Some p => p | None => CourtPresets.michigan_coa end.
Proof. unfold init_preset. now destruct (preset project). Qed.

Lemma presets_orders (code : string) (p : CourtPreset.t) :
  In (code, p) CourtPresets.PRESETS ->
  Permutation (CourtPreset.categories_order p) ALL_CATEGORIES /\ CourtPreset.code p = code.
Proof.
  unfold CourtPresets.PRESETS. intros [H|[H|[H|[H|[H|[]]]]]]; injection H as <- <-;
    (split; [|reflexivity]); cbn [CourtPreset.categories_order CourtPresets.michigan_coa
      CourtPresets.sixth_circuit CourtPresets.scotus CourtPresets.ed_michigan
      CourtPresets.wd_michigan]; unfold ALL_CATEGORIES; try reflexivity.
  apply perm_skip, perm_swap.
Qed.




End WriterFacts.

(** * Merging pages *)

Lemma append_new_pages_known (self_pages other_pages : list Z) :
  (forall p, In p other_pages -> In p self_pages) ->
  append_new_pages self_pages other_pages = self_pages.
Proof.
  revert self_pages. induction other_pages as [|q qs IH]; intros self_pages H; [reflexivity|].
  simpl. replace (page_in q self_pages) with true.
  - apply IH. intros p Hp. apply H. now right.
  - symmetry. apply page_in_spec. apply H. now left.
Qed.

Lemma leb_sorted_increasing (ps : list Z) :
  increasing ps -> StronglySorted (le_prop Z.leb) ps.
Proof.
  induction 1 as [|p ps Hs IH Hp]; constructor; [exact IH|].
  eapply Forall_impl; [exact Hp|]. intros x Hx. unfold le_prop. apply Z.leb_le. lia.
Qed.

Lemma set_pages_pages (c : Citation) : set_pages c (pages c) = c.
Proof. now destruct c. Qed.

(** Extra X12 (merging pages).  [Citation.merge_pages]: the receiver
    ends with its own pages and those of the other citation, and nothing
    else of it changes; merging the same citation again, or one without
    pages, changes nothing; the order in which two citations are merged
    into it does not matter. *)
Theorem merge_pages_union (self : Citation) :
  increasing (pages self) ->
  (forall other,
     same_but_pages self (merge_pages self other)
     /\ (forall p, In p (pages (merge_pages self other))
                   <-> In p (pages self) \/ In p (pages other))
     /\ merge_pages (merge_pages self other) other = merge_pages self other
     /\ (pages other = [] -> merge_pages self other = self))
  /\ (forall a b,
        merge_pages (merge_pages self a) b = merge_pages (merge_pages self b) a).
Proof.
  intros Hinc. split.
  - intros other.
    destruct (merge_pages_pages self other (increasing_NoDup _ Hinc)) as [Hi Hp].
    split; [repeat split|]. split; [exact Hp|]. split.
    + unfold merge_pages at 1.
      rewrite append_new_pages_known by (intros p H; apply Hp; now right).
      rewrite sort_sorted_id by (apply leb_sorted_increasing, Hi).
      apply set_pages_pages.
    + intros He. unfold merge_pages. rewrite He. cbn [append_new_pages].
      rewrite sort_sorted_id by (now apply leb_sorted_increasing).
      apply set_pages_pages.
  - intros a b.
    destruct (merge_pages_pages self a (increasing_NoDup _ Hinc)) as [Hia Hpa].
    destruct (merge_pages_pages self b (increasing_NoDup _ Hinc)) as [Hib Hpb].
    destruct (merge_pages_pages _ b (increasing_NoDup _ Hia)) as [Hiab Hpab].
    destruct (merge_pages_pages _ a (increasing_NoDup _ Hib)) as [Hiba Hpba].
    assert (Hpages : pages (merge_pages (merge_pages self a) b)
                     = pages (merge_pages (merge_pages self b) a)).
    { apply increasing_unique; [exact Hiab|exact Hiba|].
      intros p. rewrite Hpab, Hpba, Hpa, Hpb. tauto. }
    revert Hpages. unfold merge_pages.
    destruct self as [ft dn cat pg pr sf pk nk cf sk]. cbn [pages set_pages].
    now intros ->.
Qed.

(** * The parsers *)

Lemma nonempty_spec (s : string) : Str.nonempty s = true <-> s <> "".
Proof. destruct s; simpl; split; congruence. Qed.

Lemma concat_cons (sep x : string) (l : list string) :
  l <> [] -> String.concat sep (x :: l) = x ++ sep ++ String.concat sep l.
Proof. destruct l; [congruence|reflexivity]. Qed.

Lemma concat_app_nonempty (sep : string) (l1 l2 : list string) :
  l1 <> [] -> l2 <> [] ->
  String.concat sep (l1 ++ l2) = String.concat sep l1 ++ sep ++ String.concat sep l2.
Proof.
  intros H1 H2. induction l1 as [|x l1 IH]; [congruence|].
  destruct l1 as [|y l1].
  - cbn [app]. rewrite concat_cons by exact H2. reflexivity.
  - cbn [app] in *. rewrite concat_cons by discriminate.
    rewrite IH by discriminate. rewrite (concat_cons sep x (y :: l1)) by discriminate.
    now rewrite !SolidFacts.append_assoc.
Qed.

Lemma trimmed_visible (s : string) : trimmed s -> Str.existsb Solid.visible s = true.
Proof.
  intros [Hne Hs]. apply strip_fixed in Hs. destruct Hs as [_ Hr].
  destruct (Str.existsb Solid.visible s) eqn:E; [reflexivity|].
  apply rstrip_empty in E. congruence.
Qed.

Lemma rstrip_append (x b : string) :
  Str.existsb Solid.visible b = true -> Str.rstrip b = b -> Str.rstrip (x ++ b) = x ++ b.
Proof.
  intros Hv Hb. induction x as [|c x IH]; [exact Hb|].
  cbn [append]. rewrite rstrip_cons, SolidFacts.existsb_append, Hv, orb_true_r.
  now rewrite IH.
Qed.

Lemma trimmed_append (a x b : string) : trimmed a -> trimmed b -> trimmed (a ++ x ++ b).
Proof.
  intros [Ha Hsa] Hb. pose proof (trimmed_visible b Hb) as Hv. destruct Hb as [Hb Hsb].
  split; [now apply append_nonempty_l|].
  apply strip_fixed in Hsa, Hsb. apply strip_fixed. split.
  - destruct a; [congruence|]. apply Hsa.
  - rewrite <- SolidFacts.append_assoc. apply rstrip_append; tauto.
Qed.

Lemma trimmed_concat (sep : string) (parts : list string) :
  Forall trimmed parts -> parts <> [] -> trimmed (String.concat sep parts).
Proof.
  induction 1 as [|x parts Hx Hs IH]; [congruence|]. intros _.
  destruct parts as [|y parts]; [exact Hx|].
  rewrite concat_cons by discriminate. apply trimmed_append; [exact Hx|].
  now apply IH.
Qed.

Lemma trimmed_strip (s : string) : Str.nonempty (Str.strip s) = true -> trimmed (Str.strip s).
Proof. intros H. split; [now apply nonempty_spec|apply strip_idem]. Qed.

Lemma concat_groups (sep : string) (groups : list (list string)) :
  Forall (fun g => g <> []) groups ->
  String.concat sep (List.map (String.concat sep) groups) = String.concat sep (concat groups).
Proof.
  induction 1 as [|g groups Hg Hs IH]; [reflexivity|].
  cbn [List.map concat]. destruct groups as [|g' groups].
  - cbn [List.map concat]. now rewrite app_nil_r.
  - assert (Hne : concat (g' :: groups) <> []).
    { inversion Hs; subst. cbn [concat]. destruct g'; [congruence|discriminate]. }
    rewrite concat_cons by discriminate. rewrite IH.
    now rewrite concat_app_nonempty.
Qed.

Lemma sorted_snoc {A : Type} (R : A -> A -> Prop) (l : list A) (x : A) :
  StronglySorted R l -> Forall (fun y => R y x) l -> StronglySorted R (l ++ [x]).
Proof.
  induction 1 as [|y l Hs IH Hy]; intros Hx; simpl; [repeat constructor|].
  inversion Hx; subst. constructor; [now apply IH|].
  apply Forall_app. split; [exact Hy|]. now constructor.
Qed.

Module DocxFacts.
Import DocxParser DocxInv.

Lemma inv_add_part (seen : list string) (st : state) (t : string) :
  inv seen st -> trimmed t -> inv (seen ++ [t]) (add_part st t).
Proof.
  intros (H1 & H2 & H3 & H4 & H5 & groups & G1 & G2 & G3) Ht.
  unfold inv, add_part. cbn [pages current_page current_text_parts].
  repeat split; try assumption.
  - apply Forall_app. split; [exact H5|]. now constructor.
  - exists groups. split; [exact G1|]. split; [exact G2|].
    rewrite <- G3. now rewrite <- List.app_assoc.
Qed.

Lemma flush_text (st : state) :
  Forall trimmed (current_text_parts st) ->
  Str.strip (String.concat NL (current_text_parts st))
  = String.concat NL (current_text_parts st)
  /\ (Str.nonempty (String.concat NL (current_text_parts st)) = true
      <-> current_text_parts st <> []).
Proof.
  intros H. destruct (current_text_parts st) as [|x parts] eqn:E.
  - split; [reflexivity|]. simpl. split; [discriminate|congruence].
  - destruct (trimmed_concat NL (x :: parts) H) as [Hne Hs]; [discriminate|].
    split; [exact Hs|]. split; [discriminate|]. intros _. now apply nonempty_spec.
Qed.

Lemma inv_break_page (seen : list string) (st : state) :
  inv seen st -> inv seen (break_page st).
Proof.
  intros (H1 & H2 & H3 & H4 & H5 & groups & G1 & G2 & G3).
  destruct (flush_text st H5) as [Hs Hne].
  unfold inv, break_page, _flush_page. cbn [pages current_page current_text_parts].
  rewrite Hs. destruct (current_text_parts st) as [|x parts] eqn:E.
  - cbn [String.concat Str.nonempty].
    split; [exact H1|]. split; [exact H2|]. split.
    { eapply Forall_impl; [exact H3|]. intros pg Hpg. simpl in *. lia. }
    split; [lia|]. split; [constructor|].
    exists groups. rewrite app_nil_r in *. now repeat split.
  - replace (Str.nonempty (String.concat NL (x :: parts))) with true
      by (symmetry; apply Hne; discriminate).
    assert (Ht : trimmed (String.concat NL (x :: parts)))
      by (apply trimmed_concat; [exact H5|discriminate]).
    split.
    { apply Forall_app. split; [exact H1|]. constructor; [|constructor].
      split; [exact H4|exact Ht]. }
    split; [apply sorted_snoc; [exact H2|exact H3]|]. split.
    { apply Forall_app. split.
      - eapply Forall_impl; [exact H3|]. intros pg Hpg. simpl in *. lia.
      - constructor; [simpl; lia|constructor]. }
    split; [lia|]. split; [constructor|].
    exists (groups ++ [x :: parts])%list. split; [|split].
    + apply Forall_app. split; [exact G1|]. now constructor.
    + now rewrite !map_app, G2.
    + rewrite concat_app. cbn [concat]. now rewrite !app_nil_r.
Qed.

(** The last [_flush_page] of [parse_docx]. *)
Lemma inv_final (seen : list string) (st : state) :
  inv seen st ->
  Forall page_ok (pages (_flush_page st))
  /\ StronglySorted page_before (pages (_flush_page st))
  /\ String.concat NL (List.map PageText.text (pages (_flush_page st)))
     = String.concat NL seen.
Proof.
  intros Hinv. destruct (inv_break_page seen st Hinv)
    as (H1 & H2 & _ & _ & _ & groups & G1 & G2 & G3).
  unfold break_page in *. cbn [pages current_text_parts] in *.
  split; [exact H1|]. split; [exact H2|].
  unfold _flush_page in G3 at 1. cbn [current_text_parts] in G3.
  rewrite app_nil_r in G3. rewrite G2, <- G3. now apply concat_groups.
Qed.

Lemma inv_explicit_step (seen : list string) (st : state) (p : Paragraph) :
  inv seen st ->
  inv (seen ++ List.filter Str.nonempty [Str.strip (text p)]) (explicit_step st p).
Proof.
  intros Hinv. unfold explicit_step.
  assert (H1 : inv seen (if has_page_break p then break_page st else st))
    by (destruct (has_page_break p); [now apply inv_break_page|exact Hinv]).
  cbn [List.filter].
  destruct (Str.nonempty (Str.strip (text p))) eqn:E.
  - apply (inv_add_part _ _ (Str.strip (text p))) in H1; [|now apply trimmed_strip].
    destruct (has_section_break p); [now apply inv_break_page|exact H1].
  - rewrite app_nil_r. destruct (has_section_break p); [now apply inv_break_page|exact H1].
Qed.

Lemma filter_app_single (paragraphs : list Paragraph) (p : Paragraph) :
  paragraph_texts (paragraphs ++ [p])
  = (paragraph_texts paragraphs ++ List.filter Str.nonempty [Str.strip (text p)])%list.
Proof. unfold paragraph_texts. now rewrite map_app, List.filter_app. Qed.

Lemma fold_explicit_inv (paragraphs : list Paragraph) :
  inv (paragraph_texts paragraphs) (fold_left explicit_step paragraphs (mkState [] 1 [])).
Proof.
  induction paragraphs as [|p paragraphs IH] using rev_ind.
  - unfold inv. cbn [fold_left pages current_page current_text_parts paragraph_texts
      List.map List.filter].
    split; [constructor|]. split; [constructor|]. split; [constructor|].
    split; [lia|]. split; [constructor|].
    exists []. split; [constructor|]. now split.
  - rewrite fold_left_app, filter_app_single. cbn [fold_left]. now apply inv_explicit_step.
Qed.

Lemma total_length_app (l1 l2 : list string) :
  total_length (l1 ++ l2) = total_length l1 + total_length l2.
Proof.
  induction l1 as [|x l1 IH]; [reflexivity|].
  cbn [app total_length fold_right]. fold (total_length (l1 ++ l2)) (total_length l1). lia.
Qed.

Lemma concat_length (sep : string) (parts : list string) :
  total_length parts <= Z.of_nat (String.length (String.concat sep parts)).
Proof.
  induction parts as [|x parts IH]; [reflexivity|].
  cbn [total_length fold_right]. fold (total_length parts).
  destruct parts as [|y parts].
  - cbn [String.concat total_length fold_right]. lia.
  - rewrite concat_cons by discriminate. rewrite !SolidFacts.length_append. lia.
Qed.

Lemma flush_nonempty (st : state) :
  Forall trimmed (current_text_parts st) -> current_text_parts st <> [] ->
  pages (_flush_page st)
  = (pages st ++ [PageText.mk (current_page st) (String.concat NL (current_text_parts st))])%list.
Proof.
  intros Ht Hne. destruct (flush_text st Ht) as [Hs Hn].
  unfold _flush_page. cbn [pages]. rewrite Hs.
  now replace (Str.nonempty (String.concat NL (current_text_parts st))) with true
    by (symmetry; now apply Hn).
Qed.

Lemma flush_empty (st : state) :
  current_text_parts st = [] -> pages (_flush_page st) = pages st.
Proof. intros H. unfold _flush_page. now rewrite H. Qed.

Lemma numbered_snoc (out : list PageText.t) (text : string) :
  numbered out -> numbered (out ++ [PageText.mk (Z.of_nat (length out) + 1) text]).
Proof.
  unfold numbered. intros H. rewrite map_app, H, length_app. cbn [List.map length].
  rewrite Nat.add_1_r, seq_S, map_app. cbn [List.map PageText.page]. do 2 f_equal. lia.
Qed.

Lemma inv2_estimate_step (seen : list string) (acc : state * Z) (p : Paragraph) :
  inv2 seen acc ->
  inv2 (seen ++ List.filter Str.nonempty [Str.strip (text p)]) (estimate_step acc p).
Proof.
  destruct acc as [st count]. intros (Hinv & Hnum & Hcp & Hcount & Hlong).
  cbn [fst snd] in *. unfold estimate_step. cbn [List.filter].
  destruct (Str.nonempty (Str.strip (text p))) eqn:E; cbn [negb].
  - pose proof (inv_add_part _ _ (Str.strip (text p)) Hinv (trimmed_strip _ E)) as Hadd.
    destruct (count + Z.of_nat (String.length (Str.strip (text p))) >=? CHARS_PER_PAGE) eqn:Hge.
    + assert (Hparts : Forall trimmed (current_text_parts (add_part st (Str.strip (text p)))))
        by apply Hadd.
      assert (Hne : current_text_parts (add_part st (Str.strip (text p))) <> [])
        by (cbn [add_part current_text_parts]; now destruct (current_text_parts st)).
      pose proof (flush_nonempty _ Hparts Hne) as Hflush.
      cbn [add_part pages current_page current_text_parts] in Hflush.
      split; [now apply inv_break_page|]. cbn [fst snd].
      unfold break_page. cbn [pages current_page current_text_parts]. rewrite Hflush.
      split; [rewrite Hcp; now apply numbered_snoc|]. split.
      { cbn [_flush_page current_page add_part]. rewrite length_app. simpl. lia. }
      split; [reflexivity|].
      apply Forall_app. split; [exact Hlong|]. constructor; [|constructor].
      unfold long_page. cbn [PageText.text].
      pose proof (concat_length NL (current_text_parts st ++ [Str.strip (text p)])) as Hl.
      rewrite total_length_app in Hl. cbn [total_length fold_right] in Hl.
      apply Z.geb_le in Hge. lia.
    + split; [exact Hadd|]. cbn [fst snd add_part pages current_page current_text_parts].
      split; [exact Hnum|]. split; [exact Hcp|]. split; [|exact Hlong].
      rewrite total_length_app. cbn [total_length fold_right]. lia.
  - rewrite app_nil_r. exact (conj Hinv (conj Hnum (conj Hcp (conj Hcount Hlong)))).
Qed.

Lemma fold_estimate_inv (paragraphs : list Paragraph) :
  inv2 (paragraph_texts paragraphs)
    (fold_left estimate_step paragraphs (mkState [] 1 [], 0)).
Proof.
  induction paragraphs as [|p paragraphs IH] using rev_ind.
  - pose proof (fold_explicit_inv []) as Hinv. split; [exact Hinv|].
    cbn [fold_left fst snd pages current_page current_text_parts].
    split; [reflexivity|]. split; [reflexivity|]. split; [reflexivity|constructor].
  - rewrite fold_left_app, filter_app_single. cbn [fold_left]. now apply inv2_estimate_step.
Qed.

Lemma strip_empty (s : string) : Str.strip s = "" <-> Str.existsb Solid.visible s = false.
Proof. unfold Str.strip. now rewrite rstrip_empty, lstrip_visible. Qed.

Lemma concat_invisible (sep : string) (l : list string) :
  Str.existsb Solid.visible (String.concat sep l) = false ->
  Forall (fun t => Str.existsb Solid.visible t = false) l.
Proof.
  induction l as [|x l IH]; [constructor|]. destruct l as [|y l].
  - intros H. now repeat constructor.
  - rewrite concat_cons by discriminate. rewrite !SolidFacts.existsb_append.
    intros H. apply orb_false_iff in H. destruct H as [Hx H].
    apply orb_false_iff in H. destruct H as [_ H]. constructor; [exact Hx|now apply IH].
Qed.

Lemma blank_document (paragraphs : list Paragraph) :
  Str.nonempty (Str.strip (String.concat NL (List.map text paragraphs))) = false ->
  paragraph_texts paragraphs = [].
Proof.
  intros H. assert (Hs : Str.strip (String.concat NL (List.map text paragraphs)) = "")
    by (revert H; now destruct (Str.strip _)).
  apply strip_empty, concat_invisible in Hs. unfold paragraph_texts. clear H.
  induction paragraphs as [|p paragraphs IH]; [reflexivity|].
  cbn [List.map] in *. inversion Hs as [|? ? Hp Hrest]; subst.
  cbn [List.filter]. apply strip_empty in Hp. rewrite Hp. cbn [Str.nonempty]. now apply IH.
Qed.

End DocxFacts.

(** Extra X24 (pages of a document).  [parse_docx]: whichever strategy
    is used, every page it returns has a number from 1 on and a text
    that is not empty and has no whitespace at either end; the page
    numbers ascend strictly; and the texts of the pages, joined by line
    feeds, are the texts of the paragraphs that have one, trimmed and
    joined by line feeds: no text of the document is lost. *)
Theorem parse_docx_pages (has_explicit_breaks : bool)
    (paragraphs : list DocxParser.Paragraph) :
  let out := DocxParser.parse_docx has_explicit_breaks paragraphs in
  Forall page_ok out
  /\ StronglySorted page_before out
  /\ String.concat DocxParser.NL (List.map PageText.text out)
     = String.concat DocxParser.NL (paragraph_texts paragraphs).
Proof.
  cbv zeta. unfold DocxParser.parse_docx. destruct has_explicit_breaks.
  - apply DocxFacts.inv_final, DocxFacts.fold_explicit_inv.
  - destruct (Str.nonempty (Str.strip _)) eqn:E; cbn [negb].
    + apply DocxFacts.inv_final. apply (DocxFacts.fold_estimate_inv paragraphs).
    + rewrite (DocxFacts.blank_document paragraphs E).
      split; [constructor|]. split; [constructor|reflexivity].
Qed.

(** Extra X25 (estimated pages).  [parse_docx] without explicit page
    breaks: the pages are numbered 1, 2, 3 and so on without a gap, and
    every page but the last holds at least [CHARS_PER_PAGE] characters. *)
Theorem parse_docx_estimated (paragraphs : list DocxParser.Paragraph) :
  let out := DocxParser.parse_docx false paragraphs in
  List.map PageText.page out = List.map Z.of_nat (seq 1 (length out))
  /\ exists full last,
       out = (full ++ last)%list /\ (length last <= 1)%nat
       /\ Forall (fun pg => DocxParser.CHARS_PER_PAGE
                            <= Z.of_nat (String.length (PageText.text pg))) full.
Proof.
  cbv zeta. unfold DocxParser.parse_docx.
  destruct (Str.nonempty (Str.strip _)) eqn:E; cbn [negb].
  - destruct (DocxFacts.fold_estimate_inv paragraphs) as (Hinv & Hnum & Hcp & _ & Hlong).
    destruct (fold_left DocxParser.estimate_step paragraphs _) as [st count].
    cbn [fst snd] in *.
    destruct (DocxParser.current_text_parts st) as [|x parts] eqn:Ep.
    + rewrite (DocxFacts.flush_empty st Ep). split; [exact Hnum|].
      exists (DocxParser.pages st), []. rewrite app_nil_r. repeat split; [simpl; lia|exact Hlong].
    + assert (Ht : Forall trimmed (DocxParser.current_text_parts st)) by apply Hinv.
      rewrite (DocxFacts.flush_nonempty st Ht) by (rewrite Ep; discriminate).
      rewrite Hcp. split; [now apply DocxFacts.numbered_snoc|].
      eexists (DocxParser.pages st), [_]. repeat split; [simpl; lia|exact Hlong].
  - split; [reflexivity|]. exists [], []. repeat split; [simpl; lia|constructor].
Qed.

Lemma parse_pdf_loop_spec (pdf_pages : list (option string)) (i : Z) (acc : list PageText.t) :
  1 <= i -> Forall page_ok acc -> StronglySorted page_before acc ->
  Forall (fun pg => PageText.page pg < i) acc ->
  let out := PdfParser.parse_pdf_loop i pdf_pages acc in
  Forall page_ok out
  /\ StronglySorted page_before out
  /\ forall pg, In pg out
       <-> In pg acc
           \/ exists k t, pdf_pages !! k = Some (Some t) /\ Str.strip t <> ""
                /\ pg = PageText.mk (i + Z.of_nat k) (Str.strip t).
Proof.
  cbv zeta. revert i acc. induction pdf_pages as [|extracted rest IH]; intros i acc Hi Hok Hs Hlt.
  - cbn [PdfParser.parse_pdf_loop]. split; [exact Hok|]. split; [exact Hs|].
    intros pg. split; [now left|]. intros [H|(k & t & Hk & _)]; [exact H|].
    now rewrite lookup_nil in Hk.
  - cbn [PdfParser.parse_pdf_loop].
    set (text := Str.strip match extracted with Some t => t | None => "" end).
    assert (Hlt' : forall l, Forall (fun pg => PageText.page pg < i) l ->
                     Forall (fun pg => PageText.page pg < i + 1) l).
    { intros l H. eapply Forall_impl; [exact H|]. intros pg Hpg. simpl in *. lia. }
    destruct (Str.nonempty text) eqn:E.
    + destruct (IH (i + 1) (acc ++ [PageText.mk i text])%list) as (H1 & H2 & H3).
      * lia.
      * apply Forall_app. split; [exact Hok|]. constructor; [|constructor].
        split; [exact Hi|]. subst text. now apply trimmed_strip.
      * now apply sorted_snoc.
      * apply Forall_app. split; [now apply Hlt'|]. constructor; [simpl; lia|constructor].
      * split; [exact H1|]. split; [exact H2|]. intros pg. rewrite H3, in_app_iff. split.
        -- intros [[H|[<-|[]]]|(k & t & Hk & Hne & ->)].
           ++ now left.
           ++ right. destruct extracted as [t|]; [|discriminate]. exists 0%nat, t.
              split; [reflexivity|]. split; [now apply nonempty_spec|].
              f_equal. lia.
           ++ right. exists (S k), t. split; [exact Hk|]. split; [exact Hne|]. f_equal. lia.
        -- intros [H|(k & t & Hk & Hne & ->)]; [left; now left|].
           destruct k as [|k].
           ++ left. right. left. injection Hk as ->. subst text. f_equal. lia.
           ++ right. exists k, t. split; [exact Hk|]. split; [exact Hne|]. f_equal. lia.
    + destruct (IH (i + 1) acc) as (H1 & H2 & H3); [lia|exact Hok|exact Hs|now apply Hlt'|].
      split; [exact H1|]. split; [exact H2|]. intros pg. rewrite H3. split.
      * intros [H|(k & t & Hk & Hne & ->)]; [now left|].
        right. exists (S k), t. split; [exact Hk|]. split; [exact Hne|]. f_equal. lia.
      * intros [H|(k & t & Hk & Hne & ->)]; [now left|].
        destruct k as [|k].
        -- injection Hk as ->. subst text. apply nonempty_spec in Hne. congruence.
        -- right. exists k, t. split; [exact Hk|]. split; [exact Hne|]. f_equal. lia.
Qed.

(** Extra X26 (pages of a PDF).  [parse_pdf]: the pages it returns are
    the pages of the file whose extracted text holds more than
    whitespace, each with its number in the file, counted from 1, and
    its text trimmed; they come in ascending order of page number. *)
Theorem parse_pdf_pages (pdf_pages : list (option string)) :
  let out := PdfParser.parse_pdf pdf_pages in
  Forall page_ok out
  /\ StronglySorted page_before out
  /\ forall pg, In pg out
       <-> exists k t, pdf_pages !! k = Some (Some t) /\ Str.strip t <> ""
             /\ pg = PageText.mk (Z.of_nat k + 1) (Str.strip t).
Proof.
  cbv zeta. unfold PdfParser.parse_pdf.
  destruct (parse_pdf_loop_spec pdf_pages 1 []) as (H1 & H2 & H3);
    [lia|constructor|constructor|constructor|].
  split; [exact H1|]. split; [exact H2|]. intros pg. rewrite H3. split.
  - intros [[]|(k & t & Hk & Hne & ->)]. exists k, t. repeat split; try assumption.
    f_equal. lia.
  - intros (k & t & Hk & Hne & ->). right. exists k, t. repeat split; try assumption.
    f_equal. lia.
Qed.

(** * Further properties, stated *)

(** Extra X10 (display names).  [_make_display_name]: the name it
    returns has no whitespace at either end, no whitespace character but
    the space, never two of them in a row; of a name of that form it
    returns the name itself. *)
Theorem make_display_name_tidy (text : string) (category : CitationCategory) :
  let display := _make_display_name text category in
  Str.strip display = display
  /\ forall_chars space_only display = true
  /\ no_run Char.isspace false display = true
  /\ _make_display_name display category = display.
Proof. apply display_name_tidy. Qed.

(** Extra X13 (page ranges).  [Citation.page_display] joins the texts of
    ranges of pages; the ranges come in ascending order, each at least
    one page away from the next, and a page lies in one of them exactly
    when it is a page of the citation. *)
Theorem page_display_covers (c : Citation) :
  page_display c
  = String.concat ", "
      (List.map (fun r => range_text (fst r) (snd r)) (page_ranges (pages c)))
  /\ Forall (fun r => fst r <= snd r) (page_ranges (pages c))
  /\ StronglySorted apart (page_ranges (pages c))
  /\ (forall p, In p (pages c)
                <-> exists r, In r (page_ranges (pages c)) /\ fst r <= p <= snd r).
Proof.
  destruct (page_display_facts c) as (_ & H1 & H2 & H3 & H4 & _).
  exact (conj H1 (conj H2 (conj H3 H4))).
Qed.

(** Extra X14 (pages as a set).  [Citation.page_display] is the empty
    text exactly when the citation has no page, and two citations with
    the same pages, in whatever order and however often repeated, have
    the same display. *)
Theorem page_display_by_pages (c : Citation) :
  (page_display c = "" <-> pages c = [])
  /\ (forall c', (forall p, In p (pages c') <-> In p (pages c)) ->
                 page_display c' = page_display c).
Proof.
  destruct (page_display_facts c) as (H1 & _ & _ & _ & _ & H2). exact (conj H1 H2).
Qed.

(** Extra X5 (matches and pages).  [_scan]: every raw match comes from
    one page of the document: it has the number of that page, lies, not
    empty, between the offset at which the page starts and the offset at
    which it ends, its text is the text of the page at that place
    with the whitespace around it cut off, and its name and category
    are those of an entry of the registry. *)
Theorem scan_match_in_page (doc : list PageText.t) (m : RawMatch.t) :
  In m (_scan doc) ->
  exists before pd after,
    doc = (before ++ pd :: after)%list
    /\ RawMatch.page m = PageText.page pd
    /\ doc_length before <= RawMatch.start m < RawMatch.end_ m
    /\ RawMatch.end_ m <= doc_length before + Z.of_nat (String.length (PageText.text pd))
    /\ RawMatch.text m
       = Str.strip
           (String.substring (Z.to_nat (RawMatch.start m - doc_length before))
              (Z.to_nat (RawMatch.end_ m - RawMatch.start m)) (PageText.text pd))
    /\ In (RawMatch.pattern_name m, RawMatch.category m)
          (List.map (fun '(name, _, cat) => (name, cat)) Patterns.PATTERN_SOURCES).
Proof. apply scan_match_page. Qed.

Lemma scan_match_in_page_witness :
  exists before pd after,
    [crowded_page] = (before ++ pd :: after)%list
    /\ RawMatch.page crowded_supra = PageText.page pd
    /\ doc_length before <= RawMatch.start crowded_supra < RawMatch.end_ crowded_supra
    /\ RawMatch.end_ crowded_supra
       <= doc_length before + Z.of_nat (String.length (PageText.text pd))
    /\ RawMatch.text crowded_supra
       = Str.strip
           (String.substring (Z.to_nat (RawMatch.start crowded_supra - doc_length before))
              (Z.to_nat (RawMatch.end_ crowded_supra - RawMatch.start crowded_supra))
              (PageText.text pd))
    /\ In (RawMatch.pattern_name crowded_supra, RawMatch.category crowded_supra)
          (List.map (fun '(name, _, cat) => (name, cat)) Patterns.PATTERN_SOURCES).
Proof.
  apply (scan_match_in_page [crowded_page] crowded_supra).
  rewrite crowded_page_scan. right. right. now left.
Defined.


(** Extra X21 (groups of a detection).  [citations_by_category] on a
    project that holds the output of [detect]: the groups, one after the
    other, are the output itself, cut into categories; no citation is
    changed, each is a primary citation and is counted. *)
Theorem citations_by_category_of_detect (doc : list PageText.t)
    (path type : option string) (preset : option CourtPreset.t) (output : option string) :
  let self := TOAProject.mk path type (detect doc) preset output in
  let self' := fst (TOAProject.citations_by_category self) in
  let grouped := snd (TOAProject.citations_by_category self) in
  TOAProject.citations self' = detect doc
  /\ concat (List.map snd grouped) = detect doc
  /\ TOAProject.primary_citations self' = detect doc
  /\ TOAProject.citation_count self = Z.of_nat (length (detect doc)).
Proof.
  cbv zeta.
  pose proof (grouped_of_detect doc (TOAProject.mk path type (detect doc) preset output)
                eq_refl) as H.
  pose proof (grouped_partition (TOAProject.mk path type (detect doc) preset output)) as Hp.
  destruct (TOAProject.citations_by_category _) as [self' grouped]. cbn [fst snd].
  destruct H as (H1 & H2 & H3), Hp as (_ & _ & _ & _ & Hc).
  split; [exact H1|]. split; [exact H2|]. split; [exact H3|].
  now rewrite <- Hc, H2.
Qed.

Lemma resolve_parent_among_fulls_witness :
  resolve_short_forms sample_heap [0%nat] [1%nat; 2%nat] !! 1%nat = Some sample_id
  \/ exists r fc, In r [0%nat] /\ sample_heap !! r = Some fc
       /\ resolve_short_forms sample_heap [0%nat] [1%nat; 2%nat] !! r = Some fc
       /\ resolve_short_forms sample_heap [0%nat] [1%nat; 2%nat] !! 1%nat
          = Some (link sample_id fc).
Proof.
  apply (resolve_parent_among_fulls sample_heap [0%nat] [1%nat; 2%nat] 1%nat sample_id
           sample_heap_disjoint).
  - now left.
  - reflexivity.
Defined.

Lemma resolve_short_forms_idempotent_witness :
  resolve_short_forms (resolve_short_forms sample_heap [0%nat] [1%nat; 2%nat])
    [0%nat] [1%nat; 2%nat]
  = resolve_short_forms sample_heap [0%nat] [1%nat; 2%nat].
Proof.
  apply (resolve_short_forms_idempotent sample_heap [0%nat] [1%nat; 2%nat]
           sample_heap_disjoint).
Defined.

Lemma sample_output_detected : In sample_output (detect sample_doc).
Proof. vm_compute. now left. Qed.

Lemma detect_output_fields_witness :
  is_short_form sample_output = false /\ is_primary sample_output = false
  /\ parent_key sample_output = None /\ confidence sample_output = 1%Q
  /\ (exists m, In m (_remove_overlaps (_scan sample_doc))
        /\ Str.startswith (RawMatch.pattern_name m) "short_" = false
        /\ full_text sample_output = RawMatch.text m
        /\ category sample_output = RawMatch.category m
        /\ display_name sample_output
           = _make_display_name (RawMatch.text m) (RawMatch.category m)
        /\ normalized_key sample_output
           = _normalize (RawMatch.text m) (RawMatch.pattern_name m))
  /\ forall p, In p (pages sample_output) ->
       exists pd, In pd sample_doc /\ PageText.page pd = p.
Proof.
  apply (detect_output_fields sample_doc sample_output). apply sample_output_detected.
Defined.

Lemma merge_pages_union_witness :
  merge_pages (merge_pages sample_full sample_id) sample_pincite
  = merge_pages (merge_pages sample_full sample_pincite) sample_id.
Proof.
  destruct (merge_pages_union sample_full) as [_ H]; [repeat constructor|]. apply H.
Defined.


(** * Greedy loops over a character set *)

Lemma advance_0 (st : Re.mstate) : advance st 0 = st.
Proof. destruct st as [pos rest caps]. unfold advance. simpl. now rewrite Nat.add_0_r. Qed.

Lemma advance_S (pos : nat) (c : ascii) (s : string) (caps : Re.captures) (n : nat) :
  advance (Re.MState pos (String c s) caps) (S n) = advance (Re.MState (S pos) s caps) n.
Proof. unfold advance. simpl. f_equal. lia. Qed.

(** A greedy loop over a character set ends at the end of the run when
    the continuation succeeds there. *)
Lemma star_loop_cls_sure (ic neg : bool) (items : list Re.cls_item)
    (k : Re.mstate -> option Re.mstate) (fuel : nat) (st : Re.mstate) (res : Re.mstate) :
  (String.length (Re.m_rest st) < fuel)%nat ->
  k (advance st (span_len (Re.cls_matches ic neg items) (Re.m_rest st))) = Some res ->
  Re.star_loop (Re.run ic (Re.Cls neg items)) k fuel st = Some res.
Proof.
  revert st. induction fuel as [|fuel IH]; intros [pos rest caps] Hlen Hk;
    cbn [Re.m_rest] in *; [lia|].
  cbn [Re.star_loop]. rewrite run_cls. cbn [Re.m_rest Re.m_pos Re.m_caps].
  destruct rest as [|c s].
  - cbn [span_len] in Hk. now rewrite advance_0 in Hk.
  - cbn [span_len] in Hk. destruct (Re.cls_matches ic neg items c).
    + replace (pos <? S pos)%nat with true by (symmetry; apply Nat.ltb_lt; lia).
      rewrite advance_S in Hk.
      rewrite (IH (Re.MState (S pos) s caps)); [reflexivity| |exact Hk].
      cbn [Re.m_rest]. simpl in Hlen. lia.
    + now rewrite advance_0 in Hk.
Qed.

(** It ends there as well when the continuation cannot start with a
    character of the set: giving back a character of the run is no use. *)
Lemma star_loop_cls_greedy (ic neg : bool) (items : list Re.cls_item)
    (k : Re.mstate -> option Re.mstate) (fuel : nat) (st : Re.mstate) :
  (String.length (Re.m_rest st) < fuel)%nat ->
  (forall pos c s caps, Re.cls_matches ic neg items c = true ->
     k (Re.MState pos (String c s) caps) = None) ->
  Re.star_loop (Re.run ic (Re.Cls neg items)) k fuel st
  = k (advance st (span_len (Re.cls_matches ic neg items) (Re.m_rest st))).
Proof.
  intros Hlen Hk. revert st Hlen.
  induction fuel as [|fuel IH]; intros [pos rest caps] Hlen; cbn [Re.m_rest] in *; [lia|].
  cbn [Re.star_loop]. rewrite run_cls. cbn [Re.m_rest Re.m_pos Re.m_caps].
  destruct rest as [|c s].
  - cbn [span_len]. now rewrite advance_0.
  - cbn [span_len]. destruct (Re.cls_matches ic neg items c) eqn:E.
    + replace (pos <? S pos)%nat with true by (symmetry; apply Nat.ltb_lt; lia).
      rewrite advance_S.
      rewrite (IH (Re.MState (S pos) s caps)) by (cbn [Re.m_rest]; simpl in Hlen; lia).
      cbn [Re.m_rest].
      destruct (k (advance (Re.MState (S pos) s caps) _)) eqn:Ek; [reflexivity|].
      rewrite Hk by exact E. reflexivity.
    + now rewrite advance_0.
Qed.

(** [r+] over a character set, with a continuation that cannot start
    with a character of the set. *)
Lemma run_plus_cls_greedy (ic neg : bool) (items : list Re.cls_item)
    (k : Re.mstate -> option Re.mstate) (st : Re.mstate) :
  (forall pos c s caps, Re.cls_matches ic neg items c = true ->
     k (Re.MState pos (String c s) caps) = None) ->
  Re.run ic (Re.Seq (Re.Cls neg items) (Re.Star (Re.Cls neg items))) k st
  = if (0 <? span_len (Re.cls_matches ic neg items) (Re.m_rest st))%nat
    then k (advance st (span_len (Re.cls_matches ic neg items) (Re.m_rest st)))
    else None.
Proof.
  intros Hk. rewrite run_seq, run_cls. destruct st as [pos rest caps].
  cbn [Re.m_rest Re.m_pos Re.m_caps]. destruct rest as [|c s]; [reflexivity|].
  cbn [span_len]. destruct (Re.cls_matches ic neg items c); [|reflexivity].
  rewrite run_star, star_loop_cls_greedy by (trivial; cbn [Re.m_rest]; lia).
  cbn [Re.m_rest]. now rewrite advance_S.
Qed.

Lemma run_plus_cls_sure (ic neg : bool) (items : list Re.cls_item)
    (k : Re.mstate -> option Re.mstate) (st : Re.mstate) (res : Re.mstate) :
  (0 < span_len (Re.cls_matches ic neg items) (Re.m_rest st))%nat ->
  k (advance st (span_len (Re.cls_matches ic neg items) (Re.m_rest st))) = Some res ->
  Re.run ic (Re.Seq (Re.Cls neg items) (Re.Star (Re.Cls neg items))) k st = Some res.
Proof.
  intros Hpos Hk. rewrite run_seq, run_cls. destruct st as [pos rest caps].
  cbn [Re.m_rest Re.m_pos Re.m_caps] in *. destruct rest as [|c s]; [simpl in Hpos; lia|].
  cbn [span_len] in *. destruct (Re.cls_matches ic neg items c); [|lia].
  rewrite run_star. apply star_loop_cls_sure; [cbn [Re.m_rest]; lia|].
  cbn [Re.m_rest]. now rewrite advance_S in Hk.
Qed.

Lemma run_plus_cls_none (ic neg : bool) (items : list Re.cls_item)
    (k : Re.mstate -> option Re.mstate) (st : Re.mstate) :
  span_len (Re.cls_matches ic neg items) (Re.m_rest st) = 0%nat ->
  Re.run ic (Re.Seq (Re.Cls neg items) (Re.Star (Re.Cls neg items))) k st = None.
Proof.
  intros H0. rewrite run_seq, run_cls. destruct st as [pos rest caps].
  cbn [Re.m_rest] in *. destruct rest as [|c s]; [reflexivity|].
  cbn [span_len] in H0. now destruct (Re.cls_matches ic neg items c).
Qed.

(** * The pattern of a volume and a reporter *)

Lemma VOL_REPORTER_RE_eq :
  VOL_REPORTER_RE
  = Re.Seq
      (Re.Grp 1 (Re.Plus (Re.Cls false [Re.Cat false Re.CatDigit])))
      (Re.Seq
         (Re.Plus (Re.Cls false [Re.Cat false Re.CatSpace]))
         (Re.Grp 2
            (Re.Seq
               (Re.Plus (Re.Cls false [Re.Cat true Re.CatSpace]))
               (Re.Star
                  (Re.Seq (Re.Cls false [Re.One "."])
                     (Re.Plus (Re.Cls false [Re.Cat true Re.CatSpace]))))))).
Proof. vm_compute. reflexivity. Qed.

Lemma cls_digit (c : ascii) :
  Re.cls_matches false false [Re.Cat false Re.CatDigit] c = Char.isdecimal c.
Proof. cls_eq. Qed.

Lemma cls_space (c : ascii) :
  Re.cls_matches false false [Re.Cat false Re.CatSpace] c = Char.isspace c.
Proof. cls_eq. Qed.

Lemma cls_visible (c : ascii) :
  Re.cls_matches false false [Re.Cat true Re.CatSpace] c = Solid.visible c.
Proof. cls_eq. Qed.

Lemma cls_one (a c : ascii) :
  Re.cls_matches false false [Re.One a] c = Ascii.eqb a c.
Proof. cls_eq. Qed.

Lemma span_len_ext (p q : ascii -> bool) (s : string) :
  (forall c, p c = q c) -> span_len p s = span_len q s.
Proof. intros H. induction s as [|c s IH]; simpl; [reflexivity|]. now rewrite H, IH. Qed.

Lemma digit_not_space (c : ascii) : Char.isdecimal c = true -> Char.isspace c = false.
Proof.
  destruct c as [[] [] [] [] [] [] [] []]; vm_compute; congruence.
Qed.

Lemma space_not_dot (c : ascii) : Char.isspace c = true -> Ascii.eqb "." c = false.
Proof.
  destruct c as [[] [] [] [] [] [] [] []]; vm_compute; congruence.
Qed.

(** After the run, the text is at its end or at a character outside. *)
Lemma span_len_stop (p : ascii -> bool) (s : string) :
  match Str.drop (span_len p s) s with
  | EmptyString => True
  | String c _ => p c = false
  end.
Proof.
  induction s as [|c s IH]; simpl; [exact I|].
  destruct (p c) eqn:E; simpl; [exact IH|exact E].
Qed.

Lemma drop_drop (n m : nat) (s : string) : Str.drop m (Str.drop n s) = Str.drop (n + m) s.
Proof.
  revert s. induction n as [|n IH]; intros s; simpl; [reflexivity|].
  destruct s as [|c s]; [now destruct m|]. apply IH.
Qed.

Lemma advance_advance (st : Re.mstate) (n m : nat) :
  advance (advance st n) m = advance st (n + m).
Proof.
  unfold advance. cbn [Re.m_pos Re.m_rest Re.m_caps]. rewrite drop_drop. f_equal. lia.
Qed.

Lemma run_grp (ic : bool) (n : nat) (r : Re.regex) k st :
  Re.run ic (Re.Grp n r) k st
  = Re.run ic r (fun st' => k (Re.set_cap n (Re.m_pos st) st')) st.
Proof. reflexivity. Qed.

(** The reporter token: a run of characters that are no whitespace;
    the optional parts after it find nothing left to take. *)
Lemma run_token (start : nat) (st : Re.mstate) :
  Re.run false
    (Re.Seq (Re.Plus (Re.Cls false [Re.Cat true Re.CatSpace]))
       (Re.Star (Re.Seq (Re.Cls false [Re.One "."])
                   (Re.Plus (Re.Cls false [Re.Cat true Re.CatSpace])))))
    (fun st' => Some (Re.set_cap 2 start st')) st
  = if (0 <? span_len Solid.visible (Re.m_rest st))%nat
    then Some (Re.set_cap 2 start (advance st (span_len Solid.visible (Re.m_rest st))))
    else None.
Proof.
  rewrite run_seq. unfold Re.Plus at 1.
  pose proof (span_len_ext _ _ (Re.m_rest st) cls_visible) as Ht.
  destruct (0 <? span_len Solid.visible (Re.m_rest st))%nat eqn:Hpos.
  - apply Nat.ltb_lt in Hpos.
    apply run_plus_cls_sure; [lia|]. rewrite Ht.
    rewrite run_star. cbn [Re.star_loop]. rewrite run_seq, run_cls.
    pose proof (span_len_stop Solid.visible (Re.m_rest st)) as Hstop.
    change (Str.drop _ (Re.m_rest st))
      with (Re.m_rest (advance st (span_len Solid.visible (Re.m_rest st)))) in Hstop.
    destruct (advance st _) as [p1 [|c s] c1]; cbn [Re.m_rest Re.m_pos Re.m_caps] in *;
      [reflexivity|].
    rewrite cls_one. unfold Solid.visible in Hstop. apply negb_false_iff in Hstop.
    now rewrite (space_not_dot c Hstop).
  - apply Nat.ltb_ge in Hpos. apply run_plus_cls_none. lia.
Qed.

(** Whitespace, then the reporter token. *)
Lemma run_ws_token (st : Re.mstate) :
  Re.run false
    (Re.Seq
       (Re.Plus (Re.Cls false [Re.Cat false Re.CatSpace]))
       (Re.Grp 2
          (Re.Seq (Re.Plus (Re.Cls false [Re.Cat true Re.CatSpace]))
             (Re.Star (Re.Seq (Re.Cls false [Re.One "."])
                         (Re.Plus (Re.Cls false [Re.Cat true Re.CatSpace])))))))
    Some st
  = let w := span_len Char.isspace (Re.m_rest st) in
    let t := span_len Solid.visible (Str.drop w (Re.m_rest st)) in
    if ((0 <? w) && (0 <? t))%nat
    then Some (Re.MState (Re.m_pos st + (w + t)) (Str.drop (w + t) (Re.m_rest st))
                 ((2%nat, ((Re.m_pos st + w)%nat, (Re.m_pos st + (w + t))%nat))
                    :: Re.m_caps st))
    else None.
Proof.
  cbv zeta. destruct st as [pos rest caps].
  rewrite run_seq. unfold Re.Plus at 1.
  rewrite run_plus_cls_greedy.
  2:{ intros pos' c s caps' Hc. rewrite cls_space in Hc.
      rewrite run_grp, run_seq. unfold Re.Plus at 1. rewrite run_seq, run_cls.
      cbn [Re.m_rest Re.m_pos Re.m_caps].
      rewrite cls_visible. unfold Solid.visible. now rewrite Hc. }
  cbn [Re.m_rest Re.m_pos Re.m_caps].
  rewrite (span_len_ext _ _ rest cls_space).
  set (w := span_len Char.isspace rest).
  destruct (0 <? w)%nat; [|reflexivity]. cbn [andb].
  rewrite run_grp, run_token.
  unfold advance, Re.set_cap. cbn [Re.m_rest Re.m_pos Re.m_caps].
  set (t := span_len Solid.visible (Str.drop w rest)).
  destruct (0 <? t)%nat; [|reflexivity].
  rewrite drop_drop. do 2 f_equal; [lia|]. do 3 f_equal. lia.
Qed.

(** The three runs of a match of [VOL_REPORTER_RE]: digits, whitespace,
    and characters that are no whitespace. *)
Lemma match_at_vol_reporter (pos : nat) (rest : string) :
  Re.match_at false VOL_REPORTER_RE pos rest
  = let d := span_len Char.isdecimal rest in
    let w := span_len Char.isspace (Str.drop d rest) in
    let t := span_len Solid.visible (Str.drop (d + w) rest) in
    if ((0 <? d) && (0 <? w) && (0 <? t))%nat
    then Some (Re.MObj pos
                 (Re.MState (pos + (d + w + t)) (Str.drop (d + w + t) rest)
                    [(2%nat, ((pos + (d + w))%nat, (pos + (d + w + t))%nat));
                     (1%nat, (pos, (pos + d)%nat))]))
    else None.
Proof.
  cbv zeta. unfold Re.match_at. rewrite VOL_REPORTER_RE_eq.
  rewrite run_seq, run_grp. unfold Re.Plus at 1.
  rewrite run_plus_cls_greedy.
  2:{ intros pos' c s caps Hc. rewrite cls_digit in Hc.
      rewrite run_seq. unfold Re.Plus at 1. rewrite run_seq, run_cls.
      unfold Re.set_cap. cbn [Re.m_rest Re.m_pos Re.m_caps].
      now rewrite cls_space, (digit_not_space c Hc). }
  cbn [Re.m_rest Re.m_pos]. rewrite (span_len_ext _ _ rest cls_digit).
  set (d := span_len Char.isdecimal rest).
  destruct (0 <? d)%nat; [|reflexivity]. cbn [andb].
  rewrite run_ws_token. cbv zeta.
  unfold advance, Re.set_cap. cbn [Re.m_rest Re.m_pos Re.m_caps].
  set (w := span_len Char.isspace (Str.drop d rest)).
  rewrite drop_drop.
  set (t := span_len Solid.visible (Str.drop (d + w) rest)).
  destruct ((0 <? w) && (0 <? t))%nat; [|reflexivity].
  rewrite drop_drop.
  do 3 f_equal; [lia| f_equal; lia |]. do 3 f_equal; lia.
Qed.

(** * Places in a sorted list *)

Section SortedPlaces.
Context {A : Type} (key : A -> Z).

Local Abbreviation le := (fun a b : A => key a <=? key b).

Lemma last_filter_cons (P : A -> bool) (z : A) (s : list A) :
  last (List.filter P (z :: s))
  = match last (List.filter P s) with
    | Some y => Some y
    | None => if P z then Some z else None
    end.
Proof.
  cbn [List.filter]. destruct (P z); [|now destruct (last _)].
  rewrite last_cons. reflexivity.
Qed.

Lemma sorted_last_key (P : A -> bool) (z : A) (s : list A) (y : A) :
  StronglySorted (fun a b => key a <= key b) (z :: s) ->
  last (List.filter P (z :: s)) = Some y -> key z <= key y.
Proof.
  intros Hs Hy. apply last_Some_elem_of in Hy.
  apply list_elem_of_In, filter_In in Hy. destruct Hy as [[<-|Hy] _]; [lia|].
  inversion Hs as [|? ? _ Hall]; subst. rewrite Forall_forall in Hall.
  apply Hall. now apply list_elem_of_In.
Qed.

(** The last element below a bound, after one more insertion. *)
Lemma last_filter_insert (b : Z) (x : A) (s : list A) :
  StronglySorted (fun a b => key a <= key b) s ->
  last (List.filter (fun a => key a <=? b) (insert_sorted le x s))
  = match last (List.filter (fun a => key a <=? b) s) with
    | Some y => if key x <=? key y then Some y
                else if key x <=? b then Some x else Some y
    | None => if key x <=? b then Some x else None
    end.
Proof.
  set (P := fun a => key a <=? b).
  induction s as [|z s IH]; intros Hs.
  - cbn [insert_sorted List.filter last]. unfold P. now destruct (key x <=? b).
  - cbn [insert_sorted]. cbv beta. destruct (key x <=? key z) eqn:Hxz.
    + rewrite (last_filter_cons P x (z :: s)).
      destruct (last (List.filter P (z :: s))) as [y|] eqn:Hy; [|reflexivity].
      pose proof (sorted_last_key P z s y Hs Hy) as Hzy.
      apply Z.leb_le in Hxz.
      now replace (key x <=? key y) with true by (symmetry; apply Z.leb_le; lia).
    + rewrite (last_filter_cons P z (insert_sorted le x s)).
      rewrite IH by (now inversion Hs).
      rewrite (last_filter_cons P z s).
      destruct (last (List.filter P s)) as [y|] eqn:Hy.
      * destruct (key x <=? key y); [reflexivity|]. now destruct (key x <=? b).
      * unfold P. apply Z.leb_gt in Hxz.
        destruct (key x <=? b) eqn:Hxb.
        -- apply Z.leb_le in Hxb.
           replace (key z <=? b) with true by (symmetry; apply Z.leb_le; lia).
           replace (key x <=? key z) with false by (symmetry; apply Z.leb_gt; lia).
           reflexivity.
        -- destruct (key z <=? b); [|reflexivity].
           now replace (key x <=? key z) with false by (symmetry; apply Z.leb_gt; lia).
Qed.

(** In a list sorted on [key], equal keys in their first order, the
    last element that is not above [b] is the one of the greatest such
    key and, among those of that key, the one at the last place. *)
Lemma last_filter_sort_on (b : Z) (l : list A) :
  match last (List.filter (fun a => key a <=? b) (sort_on key l)) with
  | Some y =>
      exists i, l !! i = Some y /\ key y <= b
        /\ forall j z, l !! j = Some z -> key z <= b ->
             key z < key y \/ (key z = key y /\ (j <= i)%nat)
  | None => forall z, In z l -> b < key z
  end.
Proof.
  induction l as [|x l IH].
  - cbn. intros z [].
  - unfold sort_on in *. cbn [sort].
    rewrite last_filter_insert by apply (sort_on_sorted key l).
    destruct (last (List.filter _ (sort le l))) as [y|].
    + destruct IH as (i & Hi & Hyb & Hmax).
      destruct (key x <=? key y) eqn:Hxy; [|destruct (key x <=? b) eqn:Hxb].
      * apply Z.leb_le in Hxy. exists (S i). split; [exact Hi|]. split; [exact Hyb|].
        intros [|j] z Hz Hzb.
        -- injection Hz as <-. destruct (Z.eq_dec (key x) (key y)); [right|left]; lia.
        -- destruct (Hmax j z Hz Hzb) as [?|[? ?]]; [now left|right; lia].
      * apply Z.leb_gt in Hxy. apply Z.leb_le in Hxb.
        exists 0%nat. split; [reflexivity|]. split; [exact Hxb|].
        intros [|j] z Hz Hzb.
        -- injection Hz as <-. right. lia.
        -- left. destruct (Hmax j z Hz Hzb) as [?|[? ?]]; lia.
      * apply Z.leb_gt in Hxy. apply Z.leb_gt in Hxb.
        exists (S i). split; [exact Hi|]. split; [exact Hyb|].
        intros [|j] z Hz Hzb.
        -- injection Hz as <-. lia.
        -- destruct (Hmax j z Hz Hzb) as [?|[? ?]]; [now left|right; lia].
    + destruct (key x <=? b) eqn:Hxb.
      * apply Z.leb_le in Hxb. exists 0%nat. split; [reflexivity|]. split; [exact Hxb|].
        intros [|j] z Hz Hzb.
        -- injection Hz as <-. right. lia.
        -- change (l !! j = Some z) in Hz.
           apply list_elem_of_lookup_2, list_elem_of_In, IH in Hz. lia.
      * apply Z.leb_gt in Hxb. intros z [<-|Hz]; [exact Hxb|now apply IH].
Qed.

Lemma sorted_find_key (P : A -> bool) (z : A) (s : list A) (y : A) :
  StronglySorted (fun a b => key a <= key b) (z :: s) ->
  List.find P (z :: s) = Some y -> key z <= key y.
Proof.
  intros Hs Hy. apply find_some in Hy. destruct Hy as [[<-|Hy] _]; [lia|].
  inversion Hs as [|? ? _ Hall]; subst. rewrite Forall_forall in Hall.
  apply Hall. now apply list_elem_of_In.
Qed.

(** The first element that passes a test, after one more insertion. *)
Lemma find_insert (P : A -> bool) (x : A) (s : list A) :
  StronglySorted (fun a b => key a <= key b) s ->
  List.find P (insert_sorted le x s)
  = match List.find P s with
    | Some y => if P x && (key x <=? key y) then Some x else Some y
    | None => if P x then Some x else None
    end.
Proof.
  induction s as [|z s IH]; intros Hs.
  - cbn [insert_sorted List.find]. now destruct (P x).
  - cbn [insert_sorted]. cbv beta. destruct (key x <=? key z) eqn:Hxz.
    + cbn [List.find]. destruct (P x); [|cbn [andb]; now destruct (P z), (List.find P s)].
      cbn [andb]. destruct (if P z then Some z else List.find P s) as [y|] eqn:Hy; [|reflexivity].
      assert (Hzy : key z <= key y) by (apply (sorted_find_key P z s y Hs); exact Hy).
      apply Z.leb_le in Hxz.
      now replace (key x <=? key y) with true by (symmetry; apply Z.leb_le; lia).
    + cbn [List.find]. destruct (P z).
      * now rewrite Hxz, andb_false_r.
      * apply IH. now inversion Hs.
Qed.

(** In a list sorted on [key], equal keys in their first order, the
    first element that passes a test is the one of the least key that
    passes it and, among those of that key, the one at the first
    place. *)
Lemma find_sort_on (P : A -> bool) (l : list A) :
  match List.find P (sort_on key l) with
  | Some y =>
      exists i, l !! i = Some y /\ P y = true
        /\ forall j z, l !! j = Some z -> P z = true ->
             key y < key z \/ (key y = key z /\ (i <= j)%nat)
  | None => forall z, In z l -> P z = false
  end.
Proof.
  induction l as [|x l IH].
  - cbn. intros z [].
  - unfold sort_on in *. cbn [sort].
    rewrite find_insert by apply (sort_on_sorted key l).
    destruct (List.find P (sort le l)) as [y|].
    + destruct IH as (i & Hi & HPy & Hmin).
      destruct (P x) eqn:HPx; cbn [andb]; [destruct (key x <=? key y) eqn:Hxy|].
      * apply Z.leb_le in Hxy. exists 0%nat. split; [reflexivity|]. split; [exact HPx|].
        intros [|j] z Hz HPz.
        -- injection Hz as <-. right. lia.
        -- destruct (Hmin j z Hz HPz) as [?|[? ?]].
           ++ left. lia.
           ++ destruct (Z.eq_dec (key x) (key z)); [right|left]; lia.
      * apply Z.leb_gt in Hxy. exists (S i). split; [exact Hi|]. split; [exact HPy|].
        intros [|j] z Hz HPz.
        -- injection Hz as <-. left. lia.
        -- destruct (Hmin j z Hz HPz) as [?|[? ?]]; [now left|right; lia].
      * exists (S i). split; [exact Hi|]. split; [exact HPy|].
        intros [|j] z Hz HPz.
        -- injection Hz as <-. congruence.
        -- destruct (Hmin j z Hz HPz) as [?|[? ?]]; [now left|right; lia].
    + destruct (P x) eqn:HPx.
      * exists 0%nat. split; [reflexivity|]. split; [exact HPx|].
        intros [|j] z Hz HPz.
        -- injection Hz as <-. right. lia.
        -- change (l !! j = Some z) in Hz.
           apply list_elem_of_lookup_2, list_elem_of_In, IH in Hz. congruence.
      * intros z [<-|Hz]; [exact HPx|now apply IH].
Qed.

End SortedPlaces.

(** The first element of a list that passes a test. *)
Lemma find_first {A : Type} (P : A -> bool) (l : list A) :
  match List.find P l with
  | Some y =>
      exists i, l !! i = Some y /\ P y = true
        /\ forall j z, (j < i)%nat -> l !! j = Some z -> P z = false
  | None => forall z, In z l -> P z = false
  end.
Proof.
  induction l as [|x l IH]; cbn [List.find].
  - intros z [].
  - destruct (P x) eqn:HPx.
    + exists 0%nat. split; [reflexivity|]. split; [exact HPx|]. intros j z Hj. lia.
    + destruct (List.find P l) as [y|].
      * destruct IH as (i & Hi & HPy & Hmin). exists (S i).
        split; [exact Hi|]. split; [exact HPy|].
        intros [|j] z Hj Hz; [injection Hz as <-; exact HPx|].
        apply (Hmin j z); [lia|exact Hz].
      * intros z [<-|Hz]; [exact HPx|now apply IH].
Qed.

(** * Id. and Ibid., on the pages *)

Lemma fold_left_min (ps : list Z) (p : Z) :
  In (fold_left Z.min ps p) (p :: ps)
  /\ forall q, In q (p :: ps) -> fold_left Z.min ps p <= q.
Proof.
  revert p. induction ps as [|x ps IH]; intros p; cbn [fold_left].
  - split; [now left|]. intros q [<-|[]]. lia.
  - destruct (IH (Z.min p x)) as [Hin Hle]. split.
    + destruct Hin as [Hm|Hin]; [|right; now right].
      rewrite <- Hm. destruct (Z.min_spec p x) as [[_ ->]|[_ ->]]; [now left|right; now left].
    + intros q Hq.
      assert (Hm : fold_left Z.min ps (Z.min p x) <= Z.min p x) by (apply Hle; now left).
      destruct Hq as [<-|[<-|Hq]]; [lia|lia|]. apply Hle. now right.
Qed.

(** [min_page] computes the first page. *)
Lemma min_page_first_page (c : Citation) : first_page c (min_page c).
Proof.
  unfold first_page, min_page. destruct (pages c) as [|p ps]; [reflexivity|].
  apply fold_left_min.
Qed.

Lemma first_page_unique (c : Citation) (p q : Z) :
  first_page c p -> first_page c q -> p = q.
Proof.
  unfold first_page. destruct (pages c) as [|x ps]; [congruence|].
  intros [Hp Hpm] [Hq Hqm]. specialize (Hpm q Hq). specialize (Hqm p Hp). lia.
Qed.

Lemma first_page_min_page (c : Citation) (p : Z) : first_page c p -> p = min_page c.
Proof. intros H. exact (first_page_unique c p _ H (min_page_first_page c)). Qed.

Lemma linked_link (c fc : Citation) : linked c fc (link c fc).
Proof. unfold linked, same_but_link, link. now destruct c. Qed.

(** Claim C4 (Id./Ibid. resolution).  Let a short-form citation begin,
    letter case apart, with "Id." or "Ibid.", and let [pc] be its first
    page.  Among the full citations whose first page is not after [pc],
    the resolver takes the one that comes last when the full citations
    are put in ascending order of first page, those of the same first
    page in their order in [full_cites]: none of them has a greater first
    page, and none of the same first page stands later in the list.  The
    short form receives its [normalized_key] as [parent_key] and its
    category, and nothing else of it changes.  When every full citation
    has its first page after [pc], the short form stays as it was. *)
Theorem resolve_id_last_prior (h : list Citation) (full_cites short_cites : list nat)
    (sc : nat) (c : Citation) (pc : Z) :
  (forall r, In r full_cites -> ~ In r short_cites) ->
  (forall r, In r full_cites -> is_Some (h !! r)) ->
  In sc short_cites -> h !! sc = Some c ->
  begins_ci "Id." (Str.strip (full_text c)) = true
  \/ begins_ci "Ibid." (Str.strip (full_text c)) = true ->
  first_page c pc ->
  exists c', resolve_short_forms h full_cites short_cites !! sc = Some c'
    /\ ((exists i fc p,
           derefs h full_cites !! i = Some fc /\ first_page fc p /\ p <= pc
           /\ (forall j fc' p',
                 derefs h full_cites !! j = Some fc' -> first_page fc' p' -> p' <= pc ->
                 p' < p \/ (p' = p /\ (j <= i)%nat))
           /\ linked c fc c')
        \/ ((forall fc p, In fc (derefs h full_cites) -> first_page fc p -> pc < p)
            /\ c' = c)).
Proof.
  intros Hdisj Hvalid Hsc Hc Hid Hpc.
  rewrite (resolve_id_lookup h full_cites short_cites sc c Hdisj Hvalid Hsc Hc Hid).
  apply first_page_min_page in Hpc. subst pc.
  pose proof (last_filter_sort_on min_page (min_page c) (derefs h full_cites)) as Hlast.
  destruct (last _) as [fc|]; cbn [link_to].
  - destruct Hlast as (i & Hi & Hle & Hmax).
    exists (link c fc). split; [reflexivity|]. left.
    exists i, fc, (min_page fc).
    split; [exact Hi|]. split; [apply min_page_first_page|]. split; [exact Hle|].
    split; [|apply linked_link].
    intros j fc' p' Hj Hp' Hle'. apply first_page_min_page in Hp'. subst p'.
    exact (Hmax j fc' Hj Hle').
  - exists c. split; [reflexivity|]. right. split; [|reflexivity].
    intros fc p Hfc Hp. apply first_page_min_page in Hp. subst p. now apply Hlast.
Qed.

Lemma id_heap_disjoint (r : nat) : In r id_fulls -> ~ In r [5%nat].
Proof. unfold id_fulls. intros Hr [<-|[]]. cbn in Hr. intuition discriminate. Qed.

Lemma id_heap_valid (r : nat) : In r id_fulls -> is_Some (id_heap !! r).
Proof.
  unfold id_fulls. intros [<-|[<-|[<-|[<-|[<-|[]]]]]]; eexists; reflexivity.
Qed.

(** On [id_heap] the Id. form of page 4 goes to the statute of first
    page 3, the later of the two full citations of that first page. *)
Lemma id_heap_resolved :
  resolve_short_forms id_heap id_fulls [5%nat] !! 5%nat = Some (link id_short id_full_4)
  /\ link id_short id_full_4
     = mkCitation "Id. at 460" "Id. at 460" STATUTES [4] false true (Some "28usc1331") "" 1 "".
Proof. split; reflexivity. Qed.

Lemma resolve_id_last_prior_witness :
  exists c', resolve_short_forms id_heap id_fulls [5%nat] !! 5%nat = Some c'
    /\ ((exists i fc p,
           derefs id_heap id_fulls !! i = Some fc /\ first_page fc p /\ p <= 4
           /\ (forall j fc' p',
                 derefs id_heap id_fulls !! j = Some fc' -> first_page fc' p' -> p' <= 4 ->
                 p' < p \/ (p' = p /\ (j <= i)%nat))
           /\ linked id_short fc c')
        \/ ((forall fc p, In fc (derefs id_heap id_fulls) -> first_page fc p -> 4 < p)
            /\ c' = id_short)).
Proof.
  apply (resolve_id_last_prior id_heap id_fulls [5%nat] 5%nat id_short 4
           id_heap_disjoint id_heap_valid).
  - now left.
  - reflexivity.
  - left. reflexivity.
  - unfold first_page. simpl. split; [now left|]. intros q [<-|[]]. lia.
Defined.

(** * The volume and the reporter token of a text *)

Lemma substring_take_drop (b n : nat) (s : string) :
  String.substring b n s = Str.take n (Str.drop b s).
Proof.
  revert s. induction b as [|b IH]; intros s.
  - cbn [Str.drop]. revert s. induction n as [|n IHn]; intros [|c s]; simpl; try reflexivity.
    now rewrite IHn.
  - destruct s as [|c s]; simpl; [now destruct n|]. apply IH.
Qed.

Lemma span_len_take (p : ascii -> bool) (s : string) :
  forall_chars p (Str.take (span_len p s) s) = true.
Proof.
  induction s as [|c s IH]; simpl; [reflexivity|].
  destruct (p c) eqn:E; simpl; [now rewrite E|reflexivity].
Qed.

Lemma length_take_span (p : ascii -> bool) (s : string) :
  String.length (Str.take (span_len p s) s) = span_len p s.
Proof.
  induction s as [|c s IH]; simpl; [reflexivity|].
  destruct (p c); simpl; [now rewrite IH|reflexivity].
Qed.

(** A run that is followed by a character outside, or by nothing, is
    the whole of the leading run. *)
Lemma span_len_app (p : ascii -> bool) (a b : string) :
  forall_chars p a = true ->
  match b with EmptyString => True | String c _ => p c = false end ->
  span_len p (a ++ b) = String.length a.
Proof.
  intros Ha Hb. induction a as [|c a IH]; simpl in *.
  - destruct b as [|c b]; [reflexivity|]. simpl. now rewrite Hb.
  - apply andb_true_iff in Ha. destruct Ha as [-> Ha]. now rewrite IH.
Qed.

Lemma drop_app_length (a b : string) : Str.drop (String.length a) (a ++ b) = b.
Proof. induction a as [|c a IH]; simpl; [now destruct b|exact IH]. Qed.

Lemma take_app_length (a b : string) : Str.take (String.length a) (a ++ b) = a.
Proof. induction a as [|c a IH]; simpl; [now destruct b|now rewrite IH]. Qed.

Lemma length_zero (s : string) : String.length s = 0%nat <-> s = "".
Proof. destruct s; simpl; split; intros H; congruence. Qed.

Lemma visible_not_space_head (tok rest : string) :
  tok <> "" -> forall_chars Solid.visible tok = true ->
  match tok ++ rest with EmptyString => True | String c _ => Char.isspace c = false end.
Proof.
  destruct tok as [|c tok]; [congruence|]. intros _ H. simpl in *.
  apply andb_true_iff in H. destruct H as [H _]. unfold Solid.visible in H.
  now apply negb_true_iff in H.
Qed.

Lemma space_not_digit_head (ws rest : string) :
  ws <> "" -> forall_chars Char.isspace ws = true ->
  match ws ++ rest with EmptyString => True | String c _ => Char.isdecimal c = false end.
Proof.
  destruct ws as [|c ws]; [congruence|]. intros _ H. simpl in *.
  apply andb_true_iff in H. destruct H as [H _].
  destruct (Char.isdecimal c) eqn:E; [|reflexivity].
  apply digit_not_space in E. congruence.
Qed.

Lemma at_break_visible (rest : string) :
  at_break rest ->
  match rest with EmptyString => True | String c _ => Solid.visible c = false end.
Proof.
  destruct rest as [|c rest]; [trivial|]. unfold at_break, Solid.visible. now intros ->.
Qed.

(** The three runs of a text tell whether it begins with a volume and a
    reporter token, and which. *)
Lemma leads_with_spans (text vol tok : string) :
  leads_with text vol tok
  <-> (let d := span_len Char.isdecimal text in
       let w := span_len Char.isspace (Str.drop d text) in
       let t := span_len Solid.visible (Str.drop (d + w) text) in
       (0 < d)%nat /\ (0 < w)%nat /\ (0 < t)%nat
       /\ vol = Str.take d text /\ tok = Str.take t (Str.drop (d + w) text)).
Proof.
  cbv zeta. split.
  - intros (ws & rest & -> & Hv & Hvd & Hw & Hws & Ht & Htv & Hr).
    assert (Hd : span_len Char.isdecimal (vol ++ ws ++ tok ++ rest) = String.length vol).
    { apply span_len_app; [exact Hvd|]. now apply space_not_digit_head. }
    rewrite Hd, drop_app_length.
    assert (Hwl : span_len Char.isspace (ws ++ tok ++ rest) = String.length ws).
    { apply span_len_app; [exact Hws|]. now apply visible_not_space_head. }
    rewrite Hwl, <- drop_drop, !drop_app_length.
    assert (Htl : span_len Solid.visible (tok ++ rest) = String.length tok).
    { apply span_len_app; [exact Htv|]. now apply at_break_visible. }
    rewrite Htl, !take_app_length.
    repeat split; try reflexivity.
    + destruct vol; [congruence|simpl; lia].
    + destruct ws; [congruence|simpl; lia].
    + destruct tok; [congruence|simpl; lia].
  - set (d := span_len Char.isdecimal text).
    set (w := span_len Char.isspace (Str.drop d text)).
    set (t := span_len Solid.visible (Str.drop (d + w) text)).
    intros (Hd & Hw & Ht & -> & ->).
    exists (Str.take w (Str.drop d text)), (Str.drop t (Str.drop (d + w) text)).
    assert (Hne : forall p s, (0 < span_len p s)%nat -> Str.take (span_len p s) s <> "").
    { intros p s H E. apply length_zero in E. rewrite length_take_span in E. lia. }
    split.
    { rewrite take_drop. rewrite <- drop_drop. now rewrite !take_drop. }
    split; [now apply Hne|]. split; [apply span_len_take|].
    split; [now apply Hne|]. split; [apply span_len_take|].
    split; [now apply Hne|]. split; [apply span_len_take|].
    pose proof (span_len_stop Solid.visible (Str.drop (d + w) text)) as Hstop.
    fold t in Hstop. unfold at_break.
    destruct (Str.drop t _) as [|c s]; [exact I|].
    unfold Solid.visible in Hstop. now apply negb_false_iff in Hstop.
Qed.

Lemma leads_with_unique (text vol tok vol' tok' : string) :
  leads_with text vol tok -> leads_with text vol' tok' -> vol = vol' /\ tok = tok'.
Proof.
  rewrite !leads_with_spans. cbv zeta.
  intros (_ & _ & _ & -> & ->) (_ & _ & _ & -> & ->). now split.
Qed.

(** What a match of [VOL_REPORTER_RE] at an offset of the subject finds,
    and when there is none. *)
Lemma match_at_vol_reporter_spec (text : string) (k : nat) :
  match Re.match_at false VOL_REPORTER_RE k (Str.drop k text) with
  | Some m => leads_with (Str.drop k text) (Re.group text m 1) (Re.group text m 2)
  | None => forall vol tok, ~ leads_with (Str.drop k text) vol tok
  end.
Proof.
  rewrite match_at_vol_reporter. cbv zeta.
  set (rest := Str.drop k text).
  set (d := span_len Char.isdecimal rest).
  set (w := span_len Char.isspace (Str.drop d rest)).
  set (t := span_len Solid.visible (Str.drop (d + w) rest)).
  destruct ((0 <? d)%nat) eqn:Hd; cbn [andb];
    [destruct ((0 <? w)%nat) eqn:Hw; cbn [andb]; [destruct ((0 <? t)%nat) eqn:Ht|]|].
  - apply leads_with_spans. cbv zeta. fold d w t.
    apply Nat.ltb_lt in Hd, Hw, Ht.
    split; [exact Hd|]. split; [exact Hw|]. split; [exact Ht|].
    unfold Re.group. cbn [Re.mo_state Re.m_caps Re.lookup_cap Nat.eqb].
    rewrite !substring_take_drop. unfold rest. rewrite drop_drop. split; f_equal; lia.
  - intros vol tok H. apply leads_with_spans in H. cbv zeta in H. fold d w t in H.
    apply Nat.ltb_ge in Ht. lia.
  - intros vol tok H. apply leads_with_spans in H. cbv zeta in H. fold d w in H.
    apply Nat.ltb_ge in Hw. lia.
  - intros vol tok H. apply leads_with_spans in H. cbv zeta in H. fold d in H.
    apply Nat.ltb_ge in Hd. lia.
Qed.

(** [search] returns the match at the first offset that has one. *)
Lemma search_from_first (ic : bool) (r : Re.regex) (pos : nat) (rest : string) :
  match Re.search_from ic r pos rest with
  | Some m =>
      exists k, Re.match_at ic r (pos + k) (Str.drop k rest) = Some m
        /\ forall j, (j < k)%nat -> Re.match_at ic r (pos + j) (Str.drop j rest) = None
  | None =>
      forall k, (k <= String.length rest)%nat ->
        Re.match_at ic r (pos + k) (Str.drop k rest) = None
  end.
Proof.
  revert pos. induction rest as [|c rest IH]; intros pos; cbn [Re.search_from].
  - destruct (Re.match_at ic r pos "") as [m|] eqn:Hm.
    + exists 0%nat. rewrite Nat.add_0_r. split; [exact Hm|]. intros j Hj. lia.
    + intros k Hk. simpl in Hk. replace k with 0%nat by lia. now rewrite Nat.add_0_r.
  - destruct (Re.match_at ic r pos (String c rest)) as [m|] eqn:Hm.
    + exists 0%nat. rewrite Nat.add_0_r. split; [exact Hm|]. intros j Hj. lia.
    + specialize (IH (S pos)). destruct (Re.search_from ic r (S pos) rest) as [m|].
      * destruct IH as (k & Hk & Hmin). exists (S k).
        replace (pos + S k)%nat with (S pos + k)%nat by lia. split; [exact Hk|].
        intros [|j] Hj; [now rewrite Nat.add_0_r|].
        replace (pos + S j)%nat with (S pos + j)%nat by lia. apply Hmin. lia.
      * intros [|k] Hk; [now rewrite Nat.add_0_r|].
        replace (pos + S k)%nat with (S pos + k)%nat by lia. apply IH. simpl in Hk. lia.
Qed.

Lemma leads_with_nonempty (vol tok : string) : ~ leads_with "" vol tok.
Proof.
  intros (ws & rest & H & Hv & _). destruct vol; [congruence|discriminate].
Qed.

Lemma drop_beyond (k : nat) (s : string) :
  (String.length s <= k)%nat -> Str.drop k s = "".
Proof.
  revert s. induction k as [|k IH]; intros [|c s] H; simpl in *; try reflexivity; try lia.
  apply IH. lia.
Qed.

(** What [search] finds with [VOL_REPORTER_RE]: the first volume and
    reporter token of the text. *)
Lemma search_vol_reporter_spec (text : string) :
  match Re.search false VOL_REPORTER_RE text with
  | Some m => first_pair text (Re.group text m 1) (Re.group text m 2)
  | None => forall vol tok, ~ first_pair text vol tok
  end.
Proof.
  unfold Re.search.
  pose proof (search_from_first false VOL_REPORTER_RE 0 text) as H.
  destruct (Re.search_from false VOL_REPORTER_RE 0 text) as [m|].
  - destruct H as (k & Hk & Hmin). exists k. cbn [Nat.add] in *. split.
    + pose proof (match_at_vol_reporter_spec text k) as Hs. now rewrite Hk in Hs.
    + intros j Hj v t. pose proof (match_at_vol_reporter_spec text j) as Hs.
      rewrite (Hmin j Hj) in Hs. apply Hs.
  - intros vol tok (k & Hk & _). cbn [Nat.add] in H.
    destruct (Nat.le_gt_cases k (String.length text)) as [Hle|Hgt].
    + pose proof (match_at_vol_reporter_spec text k) as Hs.
      rewrite (H k Hle) in Hs. exact (Hs vol tok Hk).
    + rewrite drop_beyond in Hk by lia. exact (leads_with_nonempty vol tok Hk).
Qed.

Lemma first_pair_unique (text vol tok vol' tok' : string) :
  first_pair text vol tok -> first_pair text vol' tok' -> vol = vol' /\ tok = tok'.
Proof.
  intros (k & Hk & Hmin) (k' & Hk' & Hmin').
  destruct (Nat.lt_trichotomy k k') as [Hlt|[->|Hgt]].
  - exfalso. exact (Hmin' k Hlt vol tok Hk).
  - exact (leads_with_unique _ _ _ _ _ Hk Hk').
  - exfalso. exact (Hmin k' Hgt vol' tok' Hk').
Qed.

Lemma sub_squashed (s : string) :
  Re.sub false ShortForm.SPACE_OR_DOT_RE "" (Str.lower s) = squashed s.
Proof. exact (sub_space_or_dot "" (Str.lower s)). Qed.

(** The test of the loop, on the pair of a short form whose token is
    [tok]. *)
Lemma pincite_match_spec (vol tok : string) (fc : Citation) :
  pincite_match vol (squashed tok) fc = true <-> cites_pair vol tok fc.
Proof.
  unfold pincite_match, cites_pair, vol_reporter.
  pose proof (search_vol_reporter_spec (full_text fc)) as Hs.
  destruct (Re.search false VOL_REPORTER_RE (full_text fc)) as [m|]; cbn [fst snd].
  - rewrite sub_squashed, andb_true_iff, !String.eqb_eq. split.
    + intros [-> Hr]. exists (Re.group (full_text fc) m 2). now split.
    + intros (tok' & Hp & Hr).
      destruct (first_pair_unique _ _ _ _ _ Hs Hp) as [-> ->]. now split.
  - split; [discriminate|]. intros (tok' & Hp & _). exfalso. exact (Hs _ _ Hp).
Qed.

(** * Short pincites, on the texts *)

(** Claim C6 (short-pincite resolution).  Let a short-form citation be
    neither an Id./Ibid. form nor a supra form.  When its text begins
    with a volume and a reporter token, it receives [parent_key] and
    [category], and nothing else, from the first full citation of
    [full_cites] whose own first volume is the same text and whose own
    first reporter token is the same once both tokens are lowered and
    rid of whitespace and periods; without such a full citation it stays
    as it was.  It stays as it was, too, when its text does not begin
    with a volume and a reporter token. *)
Theorem resolve_short_pincite_first_match (h : list Citation)
    (full_cites short_cites : list nat) (sc : nat) (c : Citation) :
  (forall r, In r full_cites -> ~ In r short_cites) ->
  In sc short_cites -> h !! sc = Some c ->
  begins_ci "Id." (Str.strip (full_text c)) = false ->
  begins_ci "Ibid." (Str.strip (full_text c)) = false ->
  Str.contains "supra" (Str.lower (Str.strip (full_text c))) = false ->
  exists c', resolve_short_forms h full_cites short_cites !! sc = Some c'
    /\ ((exists vol tok,
           leads_with (Str.strip (full_text c)) vol tok
           /\ ((exists i fc,
                  derefs h full_cites !! i = Some fc /\ cites_pair vol tok fc
                  /\ (forall j fc', (j < i)%nat -> derefs h full_cites !! j = Some fc' ->
                        ~ cites_pair vol tok fc')
                  /\ linked c fc c')
               \/ ((forall fc, In fc (derefs h full_cites) -> ~ cites_pair vol tok fc)
                   /\ c' = c)))
        \/ ((forall vol tok, ~ leads_with (Str.strip (full_text c)) vol tok) /\ c' = c)).
Proof.
  intros Hdisj Hsc Hc Hid Hibid Hsupra.
  assert (Hid' : _is_id_cite (Str.strip (full_text c)) = false)
    by (now rewrite is_id_cite_spec, Hid, Hibid).
  rewrite (resolve_short_pincite_lookup h full_cites short_cites sc c Hdisj Hsc Hc Hid' Hsupra).
  set (text := Str.strip (full_text c)).
  pose proof (match_at_vol_reporter_spec text 0) as Hm. cbn [Str.drop] in Hm.
  unfold Re.rmatch. destruct (Re.match_at false VOL_REPORTER_RE 0 text) as [m|].
  - unfold vol_reporter. rewrite sub_squashed.
    set (vol := Re.group text m 1) in *. set (tok := Re.group text m 2) in *.
    pose proof (find_first (pincite_match vol (squashed tok)) (derefs h full_cites)) as Hf.
    destruct (List.find _ _) as [fc|]; cbn [link_to].
    + destruct Hf as (i & Hi & Hp & Hmin).
      exists (link c fc). split; [reflexivity|]. left. exists vol, tok.
      split; [exact Hm|]. left. exists i, fc.
      split; [exact Hi|]. split; [now apply pincite_match_spec|].
      split; [|apply linked_link].
      intros j fc' Hj Hfc' Hcp. apply pincite_match_spec in Hcp.
      rewrite (Hmin j fc' Hj Hfc') in Hcp. discriminate.
    + exists c. split; [reflexivity|]. left. exists vol, tok.
      split; [exact Hm|]. right. split; [|reflexivity].
      intros fc Hfc Hcp. apply pincite_match_spec in Hcp.
      rewrite (Hf fc Hfc) in Hcp. discriminate.
  - exists c. split; [reflexivity|]. right. split; [exact Hm|reflexivity].
Qed.

Lemma pin_heap_disjoint (r : nat) : In r id_fulls -> ~ In r [5%nat].
Proof. unfold id_fulls. intros Hr [<-|[]]. cbn in Hr. intuition discriminate. Qed.

(** On [pin_heap] the pincite "123 F.3D at 470" goes to the fourth full
    citation: the first and the third have the volume but another
    token, the second has the token but another volume, and the fifth
    comes later. *)
Lemma pin_heap_resolved :
  resolve_short_forms pin_heap id_fulls [5%nat] !! 5%nat = Some (link pin_short id_full_2)
  /\ link pin_short id_full_2
     = mkCitation "123 F.3D at 470" "123 F.3D at 470" CASES [8] false true
         (Some "123_f3d_456") "" 1 "".
Proof. split; reflexivity. Qed.

Lemma resolve_short_pincite_first_match_witness :
  exists c', resolve_short_forms pin_heap id_fulls [5%nat] !! 5%nat = Some c'
    /\ ((exists vol tok,
           leads_with (Str.strip (full_text pin_short)) vol tok
           /\ ((exists i fc,
                  derefs pin_heap id_fulls !! i = Some fc /\ cites_pair vol tok fc
                  /\ (forall j fc', (j < i)%nat -> derefs pin_heap id_fulls !! j = Some fc' ->
                        ~ cites_pair vol tok fc')
                  /\ linked pin_short fc c')
               \/ ((forall fc, In fc (derefs pin_heap id_fulls) -> ~ cites_pair vol tok fc)
                   /\ c' = pin_short)))
        \/ ((forall vol tok, ~ leads_with (Str.strip (full_text pin_short)) vol tok)
            /\ c' = pin_short)).
Proof.
  apply (resolve_short_pincite_first_match pin_heap id_fulls [5%nat] 5%nat pin_short
           pin_heap_disjoint).
  - now left.
  - reflexivity.
  - reflexivity.
  - reflexivity.
  - reflexivity.
Defined.

(** * The pattern of a leading name *)

Lemma SUPRA_NAME_RE_eq :
  SUPRA_NAME_RE
  = Re.Seq Re.Bol
      (Re.Grp 1
         (Re.Seq (Re.Cls false [Re.Range "A" "Z"])
            (Re.Seq (Re.Plus (Re.Cls false [Re.Range "a" "z"]))
               (Re.Alt
                  (Re.Seq (Re.Plus (Re.Cls false [Re.Cat false Re.CatSpace]))
                     (Re.Seq (Re.Cls false [Re.Range "A" "Z"])
                        (Re.Plus (Re.Cls false [Re.Range "a" "z"]))))
                  Re.Eps)))).
Proof. vm_compute. reflexivity. Qed.

Lemma cls_capital (c : ascii) :
  Re.cls_matches false false [Re.Range "A" "Z"] c = capital c.
Proof. cls_eq. Qed.

Lemma cls_small (c : ascii) :
  Re.cls_matches false false [Re.Range "a" "z"] c = small c.
Proof. cls_eq. Qed.

Lemma space_not_capital (c : ascii) : Char.isspace c = true -> capital c = false.
Proof.
  destruct c as [[] [] [] [] [] [] [] []]; vm_compute; congruence.
Qed.

Lemma run_alt (ic : bool) (r1 r2 : Re.regex) k st :
  Re.run ic (Re.Alt r1 r2) k st
  = match Re.run ic r1 k st with
    | Some res => Some res
    | None => Re.run ic r2 k st
    end.
Proof. reflexivity. Qed.

(** [r+] over a character set, with a continuation that never fails. *)
Lemma run_plus_cls_total (ic neg : bool) (items : list Re.cls_item)
    (k : Re.mstate -> option Re.mstate) (f : Re.mstate -> Re.mstate) (st : Re.mstate) :
  (forall st', k st' = Some (f st')) ->
  Re.run ic (Re.Plus (Re.Cls neg items)) k st
  = if (0 <? span_len (Re.cls_matches ic neg items) (Re.m_rest st))%nat
    then Some (f (advance st (span_len (Re.cls_matches ic neg items) (Re.m_rest st))))
    else None.
Proof.
  intros Hk. unfold Re.Plus.
  destruct (0 <? span_len _ _)%nat eqn:H.
  - apply Nat.ltb_lt in H. apply run_plus_cls_sure; [exact H|apply Hk].
  - apply Nat.ltb_ge in H. apply run_plus_cls_none. lia.
Qed.

(** The optional second word: whitespace, a capital letter, small
    letters. *)
Lemma run_second_word (st : Re.mstate) :
  Re.run false
    (Re.Alt
       (Re.Seq (Re.Plus (Re.Cls false [Re.Cat false Re.CatSpace]))
          (Re.Seq (Re.Cls false [Re.Range "A" "Z"])
             (Re.Plus (Re.Cls false [Re.Range "a" "z"]))))
       Re.Eps)
    (fun st' => Some (Re.set_cap 1 0 st')) st
  = Some (Re.set_cap 1 0 (advance st (second_word_len (Re.m_rest st)))).
Proof.
  destruct st as [pos rest caps]. unfold second_word_len. cbn [Re.m_rest].
  rewrite run_alt, run_seq. unfold Re.Plus at 1.
  rewrite run_plus_cls_greedy.
  2:{ intros pos' c s caps' Hc. rewrite cls_space in Hc.
      rewrite run_seq, run_cls. cbn [Re.m_rest].
      now rewrite cls_capital, (space_not_capital c Hc). }
  cbn [Re.m_rest]. rewrite (span_len_ext _ _ rest cls_space).
  set (w := span_len Char.isspace rest).
  assert (Heps : Re.run false Re.Eps (fun st' => Some (Re.set_cap 1 0 st'))
                   (Re.MState pos rest caps)
                 = Some (Re.set_cap 1 0 (advance (Re.MState pos rest caps) 0)))
    by (now rewrite advance_0).
  destruct (0 <? w)%nat; cbn [andb].
  2:{ rewrite Heps. now destruct (Str.drop w rest). }
  rewrite run_seq, run_cls. unfold advance at 1 2 3. cbn [Re.m_rest Re.m_pos Re.m_caps].
  destruct (Str.drop w rest) as [|c2 s2] eqn:Hrest; [exact Heps|].
  rewrite cls_capital. destruct (capital c2); cbn [andb]; [|exact Heps].
  rewrite (run_plus_cls_total false false _ _ (Re.set_cap 1 0)) by reflexivity.
  cbn [Re.m_rest]. rewrite (span_len_ext _ _ s2 cls_small).
  destruct (0 <? span_len small s2)%nat eqn:Hl; [|exact Heps].
  f_equal. unfold Re.set_cap, advance. cbn [Re.m_rest Re.m_pos Re.m_caps].
  f_equal.
  - lia.
  - now rewrite <- drop_drop, Hrest.
  - do 2 f_equal. f_equal. lia.
Qed.

Lemma run_bol (ic : bool) k st :
  Re.run ic Re.Bol k st = if (Re.m_pos st =? 0)%nat then k st else None.
Proof. reflexivity. Qed.

(** What [match] finds with [SUPRA_NAME_RE]. *)
Lemma rmatch_supra_name (text : string) :
  Re.rmatch false SUPRA_NAME_RE text
  = match name_len text with
    | Some n => Some (Re.MObj 0 (Re.MState n (Str.drop n text) [(1%nat, (0%nat, n))]))
    | None => None
    end.
Proof.
  unfold Re.rmatch, Re.match_at, name_len. rewrite SUPRA_NAME_RE_eq.
  rewrite run_seq, run_bol. cbn [Re.m_pos Nat.eqb].
  rewrite run_grp, run_seq, run_cls. cbn [Re.m_rest Re.m_pos Re.m_caps].
  destruct text as [|c1 s1]; [reflexivity|].
  rewrite cls_capital. destruct (capital c1); cbn [andb]; [|reflexivity].
  rewrite run_seq. unfold Re.Plus at 1.
  pose proof (span_len_ext _ _ s1 cls_small) as Hl.
  destruct (0 <? span_len small s1)%nat eqn:Hpos.
  - apply Nat.ltb_lt in Hpos.
    erewrite run_plus_cls_sure; [reflexivity| cbn [Re.m_rest]; lia |].
    cbn [Re.m_rest]. rewrite Hl, run_second_word.
    unfold Re.set_cap, advance. cbn [Re.m_rest Re.m_pos Re.m_caps].
    rewrite drop_drop. cbn [Str.drop Nat.add]. reflexivity.
  - apply Nat.ltb_ge in Hpos. rewrite run_plus_cls_none; [reflexivity|].
    cbn [Re.m_rest]. lia.
Qed.

Lemma take_add (n m : nat) (s : string) :
  Str.take (n + m) s = Str.take n s ++ Str.take m (Str.drop n s).
Proof.
  revert s. induction n as [|n IH]; intros s; cbn [Nat.add Str.take Str.drop append].
  - destruct s; reflexivity.
  - destruct s as [|c s]; [now destruct m|]. cbn [append]. now rewrite IH.
Qed.

Lemma capital_not_space (c : ascii) : capital c = true -> Char.isspace c = false.
Proof.
  intros H. destruct (Char.isspace c) eqn:E; [|reflexivity].
  apply space_not_capital in E. congruence.
Qed.

Lemma span_len_word_end (s : string) : word_end (Str.drop (span_len small s) s).
Proof. exact (span_len_stop small s). Qed.

Lemma take_span_nonempty (p : ascii -> bool) (s : string) :
  (0 < span_len p s)%nat -> Str.take (span_len p s) s <> "".
Proof. intros H E. apply length_zero in E. rewrite length_take_span in E. lia. Qed.

Lemma span_len_small_word (l rest : string) :
  l <> "" -> forall_chars small l = true -> (0 < span_len small (l ++ rest))%nat.
Proof.
  destruct l as [|a l]; [congruence|]. intros _ H. simpl in *.
  apply andb_true_iff in H. destruct H as [-> _]. lia.
Qed.

(** The second word of a name. *)
Lemma second_word_len_spec (rest1 : string) :
  ((0 < second_word_len rest1)%nat ->
     exists ws w2 rest2,
       rest1 = ws ++ w2 ++ rest2
       /\ ws <> "" /\ forall_chars Char.isspace ws = true
       /\ capitalised w2 /\ word_end rest2
       /\ Str.take (second_word_len rest1) rest1 = ws ++ w2)
  /\ (second_word_len rest1 = 0%nat ->
        forall ws w2 rest2,
          ws <> "" -> forall_chars Char.isspace ws = true -> capitalised w2 ->
          rest1 <> ws ++ w2 ++ rest2).
Proof.
  unfold second_word_len. set (w := span_len Char.isspace rest1). split.
  - destruct (Str.drop w rest1) as [|c2 s2] eqn:Hrest; [lia|].
    destruct (0 <? w)%nat eqn:Hw; cbn [andb]; [|lia].
    destruct (capital c2) eqn:Hc; cbn [andb]; [|lia].
    destruct (0 <? span_len small s2)%nat eqn:Hl; [|lia]. intros _.
    apply Nat.ltb_lt in Hw, Hl.
    exists (Str.take w rest1), (String c2 (Str.take (span_len small s2) s2)),
      (Str.drop (span_len small s2) s2).
    split; [cbn [append]; now rewrite take_drop, <- Hrest, take_drop|].
    split; [now apply take_span_nonempty|]. split; [apply span_len_take|].
    split; [cbn [capitalised]; split; [exact Hc|];
            split; [now apply take_span_nonempty|apply span_len_take]|].
    split; [apply span_len_word_end|].
    rewrite take_add, Hrest. reflexivity.
  - intros H0 ws w2 rest2 Hws Hsp Hcap ->.
    destruct w2 as [|c2 l]; [exact Hcap|]. destruct Hcap as (Hc & Hl & Hsm).
    assert (Hw : w = String.length ws).
    { unfold w. apply span_len_app; [exact Hsp|]. cbn [append]. now apply capital_not_space. }
    rewrite Hw, drop_app_length in H0. cbn [append] in H0. rewrite Hc in H0.
    pose proof (span_len_small_word l rest2 Hl Hsm) as Hpos.
    replace (0 <? String.length ws)%nat with true in H0
      by (symmetry; apply Nat.ltb_lt; destruct ws; [congruence|simpl; lia]).
    replace (0 <? span_len small (l ++ rest2))%nat with true in H0
      by (symmetry; now apply Nat.ltb_lt).
    cbn [andb] in H0. lia.
Qed.

(** [name_len] finds the name that leads a text. *)
Lemma name_len_spec (text : string) :
  match name_len text with
  | Some n => leading_name text (Str.take n text)
  | None => forall name, ~ leading_name text name
  end.
Proof.
  unfold name_len. destruct text as [|c1 s1].
  - intros name (w1 & rest1 & H & Hcap & _). destruct w1; [exact Hcap|discriminate].
  - destruct (capital c1) eqn:Hc; cbn [andb];
      [destruct (0 <? span_len small s1)%nat eqn:Hl|].
    + apply Nat.ltb_lt in Hl. set (l1 := span_len small s1) in *.
      exists (String c1 (Str.take l1 s1)), (Str.drop l1 s1).
      split; [cbn [append]; now rewrite take_drop|].
      split; [cbn [capitalised]; split; [exact Hc|];
              split; [now apply take_span_nonempty|apply span_len_take]|].
      split; [apply span_len_word_end|].
      destruct (second_word_len_spec (Str.drop l1 s1)) as [Htwo Hone].
      destruct (Nat.eq_dec (second_word_len (Str.drop l1 s1)) 0%nat) as [H0|Hpos].
      * right. rewrite H0, Nat.add_0_r. split; [reflexivity|]. now apply Hone.
      * left. destruct Htwo as (ws & w2 & rest2 & Hr & Hws & Hsp & Hcap & Hend & Htake); [lia|].
        exists ws, w2, rest2. repeat (split; [assumption|]).
        cbn [Nat.add Str.take append]. f_equal. now rewrite take_add, Htake.
    + intros name (w1 & rest1 & H & Hcap & _).
      destruct w1 as [|c l]; [exact Hcap|]. destruct Hcap as (_ & Hne & Hsm).
      cbn [append] in H. injection H as -> ->.
      pose proof (span_len_small_word l rest1 Hne Hsm). apply Nat.ltb_ge in Hl. lia.
    + intros name (w1 & rest1 & H & Hcap & _).
      destruct w1 as [|c l]; [exact Hcap|]. destruct Hcap as (Hc' & _).
      cbn [append] in H. injection H as -> ->. congruence.
Qed.

(** What [match] finds with [SUPRA_NAME_RE]: the name that leads the
    text. *)
Lemma rmatch_supra_name_spec (text : string) :
  match Re.rmatch false SUPRA_NAME_RE text with
  | Some m => leading_name text (Re.group text m 1)
  | None => forall name, ~ leading_name text name
  end.
Proof.
  rewrite rmatch_supra_name. pose proof (name_len_spec text) as H.
  destruct (name_len text) as [n|]; [|exact H].
  unfold Re.group. cbn [Re.mo_state Re.m_caps Re.lookup_cap Nat.eqb].
  now rewrite substring_take_drop, Nat.sub_0_r.
Qed.

(** * Supra forms, on the names and the pages *)

Lemma prefix_split (sep s : string) :
  String.prefix sep s = true -> s = sep ++ Str.drop (String.length sep) s.
Proof.
  revert s. induction sep as [|a sep IH]; intros s H; [reflexivity|].
  destruct s as [|c s]; [discriminate|]. rewrite prefix_cons in H.
  destruct (Ascii.eqb a c) eqn:E; [|discriminate]. apply Ascii.eqb_eq in E. subst c.
  cbn [append String.length Str.drop]. f_equal. now apply IH.
Qed.

Lemma prefix_append (sep tail : string) : String.prefix sep (sep ++ tail) = true.
Proof.
  induction sep as [|a sep IH]; [apply prefix_nil|].
  cbn [append]. now rewrite prefix_cons, Ascii.eqb_refl.
Qed.

(** [split_head] computes the text before the first separator. *)
Lemma split_head_before (sep s : string) : before_first sep s (Str.split_head sep s).
Proof.
  induction s as [|c s IH]; cbn [Str.split_head].
  - destruct (String.prefix sep "") eqn:E.
    + left. exists (Str.drop (String.length sep) "").
      split; [exact (prefix_split sep "" E)|]. intros k Hk. simpl in Hk. lia.
    + right. split; [reflexivity|]. intros k. now destruct k.
  - destruct (String.prefix sep (String c s)) eqn:E.
    + left. exists (Str.drop (String.length sep) (String c s)).
      split; [exact (prefix_split sep _ E)|]. intros k Hk. simpl in Hk. lia.
    + destruct IH as [(tail & Hs & Hno)|[Hs Hno]].
      * left. exists tail. split; [cbn [append]; now f_equal|].
        intros [|k] Hk; [exact E|]. cbn [Str.drop]. apply Hno. simpl in Hk. lia.
      * right. split; [now f_equal|]. intros [|k]; [exact E|]. apply Hno.
Qed.

Lemma before_first_unique (sep s head : string) :
  before_first sep s head -> head = Str.split_head sep s.
Proof.
  revert head. induction s as [|c s IH]; intros head H; cbn [Str.split_head].
  - destruct H as [(tail & Hs & Hno)|[-> Hno]].
    + destruct head; [|discriminate]. now destruct (String.prefix sep "").
    + pose proof (Hno 0%nat) as H0. cbn [Str.drop] in H0. now rewrite H0.
  - destruct H as [(tail & Hs & Hno)|[-> Hno]].
    + destruct head as [|a head].
      * cbn [append] in Hs. rewrite Hs, prefix_append. reflexivity.
      * pose proof (Hno 0%nat ltac:(simpl; lia)) as H0. cbn [Str.drop] in H0. rewrite H0.
        cbn [append] in Hs. injection Hs as <- Hs.
        f_equal. apply IH. left. exists tail. split; [exact Hs|].
        intros k Hk. apply (Hno (S k)). simpl. lia.
    + pose proof (Hno 0%nat) as H0. cbn [Str.drop] in H0. rewrite H0.
      f_equal. apply IH. right. split; [reflexivity|].
      intros k. apply (Hno (S k)).
Qed.

(** [first_party] computes the first party. *)
Lemma first_party_of_spec (fc : Citation) (party : string) :
  first_party_of fc party <-> party = first_party fc.
Proof.
  unfold first_party_of, first_party. split.
  - intros (h1 & h2 & H1 & H2 & ->).
    apply before_first_unique in H1. subst h1.
    apply before_first_unique in H2. now subst h2.
  - intros ->. exists (Str.split_head " v." (display_name fc)),
      (Str.split_head " v " (Str.split_head " v." (display_name fc))).
    split; [apply split_head_before|]. split; [apply split_head_before|reflexivity].
Qed.

Lemma names_party_spec (name : string) (fc : Citation) :
  names_party name fc <-> Str.contains (Str.lower name) (first_party fc) = true.
Proof.
  unfold names_party. split.
  - intros (party & Hp & Hc). apply first_party_of_spec in Hp. now subst party.
  - intros Hc. exists (first_party fc). split; [now apply first_party_of_spec|exact Hc].
Qed.

(** Extra X15 (supra forms).  Let a short-form citation hold "supra",
    letter case apart, and be no Id./Ibid. form.  When a name leads its
    text, it receives [parent_key] and [category], and nothing else,
    from a full citation whose first party holds that name: the one that
    comes first when the full citations are put in ascending order of
    first page, those of the same first page in their order in
    [full_cites].  Without such a full citation, and when no name leads
    its text, it stays as it was. *)
Theorem resolve_supra_first_match (h : list Citation) (full_cites short_cites : list nat)
    (sc : nat) (c : Citation) :
  (forall r, In r full_cites -> ~ In r short_cites) ->
  (forall r, In r full_cites -> is_Some (h !! r)) ->
  In sc short_cites -> h !! sc = Some c ->
  begins_ci "Id." (Str.strip (full_text c)) = false ->
  begins_ci "Ibid." (Str.strip (full_text c)) = false ->
  Str.contains "supra" (Str.lower (Str.strip (full_text c))) = true ->
  exists c', resolve_short_forms h full_cites short_cites !! sc = Some c'
    /\ ((exists name,
           leading_name (Str.strip (full_text c)) name
           /\ ((exists i fc p,
                  derefs h full_cites !! i = Some fc /\ names_party name fc
                  /\ first_page fc p
                  /\ (forall j fc' p',
                        derefs h full_cites !! j = Some fc' -> names_party name fc' ->
                        first_page fc' p' ->
                        p < p' \/ (p = p' /\ (i <= j)%nat))
                  /\ linked c fc c')
               \/ ((forall fc, In fc (derefs h full_cites) -> ~ names_party name fc)
                   /\ c' = c)))
        \/ ((forall name, ~ leading_name (Str.strip (full_text c)) name) /\ c' = c)).
Proof.
  intros Hdisj Hvalid Hsc Hc Hid Hibid Hsupra.
  assert (Hid' : _is_id_cite (Str.strip (full_text c)) = false)
    by (now rewrite is_id_cite_spec, Hid, Hibid).
  rewrite (resolve_supra_lookup h full_cites short_cites sc c Hdisj Hvalid Hsc Hc Hid' Hsupra).
  set (text := Str.strip (full_text c)).
  pose proof (rmatch_supra_name_spec text) as Hm.
  destruct (Re.rmatch false SUPRA_NAME_RE text) as [m|].
  - cbv zeta. set (name := Re.group text m 1) in *.
    pose proof (find_sort_on min_page
                  (fun fc => Str.contains (Str.lower name) (first_party fc))
                  (derefs h full_cites)) as Hf.
    destruct (List.find _ _) as [fc|]; cbn [link_to].
    + destruct Hf as (i & Hi & Hp & Hmin).
      exists (link c fc). split; [reflexivity|]. left. exists name.
      split; [exact Hm|]. left. exists i, fc, (min_page fc).
      split; [exact Hi|]. split; [now apply names_party_spec|].
      split; [apply min_page_first_page|]. split; [|apply linked_link].
      intros j fc' p' Hj Hn Hp'. apply first_page_min_page in Hp'. subst p'.
      apply names_party_spec in Hn. exact (Hmin j fc' Hj Hn).
    + exists c. split; [reflexivity|]. left. exists name.
      split; [exact Hm|]. right. split; [|reflexivity].
      intros fc Hfc Hn. apply names_party_spec in Hn.
      rewrite (Hf fc Hfc) in Hn. discriminate.
  - exists c. split; [reflexivity|]. right. split; [exact Hm|reflexivity].
Qed.

Lemma supra_heap_disjoint (r : nat) : In r supra_fulls -> ~ In r [4%nat].
Proof. unfold supra_fulls. intros Hr [<-|[]]. cbn in Hr. intuition discriminate. Qed.

Lemma supra_heap_valid (r : nat) : In r supra_fulls -> is_Some (supra_heap !! r).
Proof.
  unfold supra_fulls. intros [<-|[<-|[<-|[<-|[]]]]]; eexists; reflexivity.
Qed.

(** On [supra_heap] the form "Smith, supra, at 130" goes to "Smith v.
    Jones": it is the earlier of the two full citations whose first
    party holds "smith". *)
Lemma supra_heap_resolved :
  resolve_short_forms supra_heap supra_fulls [4%nat] !! 4%nat
  = Some (link supra_short supra_full_2)
  /\ link supra_short supra_full_2
     = mkCitation "Smith, supra, at 130" "Smith, supra, at 130" CASES [5] false true
         (Some "123_f3d_456") "" 1 "".
Proof. split; reflexivity. Qed.

Lemma resolve_supra_first_match_witness :
  exists c', resolve_short_forms supra_heap supra_fulls [4%nat] !! 4%nat = Some c'
    /\ ((exists name,
           leading_name (Str.strip (full_text supra_short)) name
           /\ ((exists i fc p,
                  derefs supra_heap supra_fulls !! i = Some fc /\ names_party name fc
                  /\ first_page fc p
                  /\ (forall j fc' p',
                        derefs supra_heap supra_fulls !! j = Some fc' -> names_party name fc' ->
                        first_page fc' p' ->
                        p < p' \/ (p = p' /\ (i <= j)%nat))
                  /\ linked supra_short fc c')
               \/ ((forall fc, In fc (derefs supra_heap supra_fulls) -> ~ names_party name fc)
                   /\ c' = supra_short)))
        \/ ((forall name, ~ leading_name (Str.strip (full_text supra_short)) name)
            /\ c' = supra_short)).
Proof.
  apply (resolve_supra_first_match supra_heap supra_fulls [4%nat] 4%nat supra_short
           supra_heap_disjoint supra_heap_valid).
  - now left.
  - reflexivity.
  - reflexivity.
  - reflexivity.
  - reflexivity.
Defined.

(** * Candidates on one span *)

(** Extra X27 (candidates on one span).  Of two candidates that have the
    same start and the same end, the resolver keeps the one that stands
    first in the input list and discards the other: between them the
    order of the input decides. *)
Theorem same_span_first_kept (a b : RawMatch.t) :
  RawMatch.start a = RawMatch.start b -> RawMatch.end_ a = RawMatch.end_ b ->
  RawMatch.start a < RawMatch.end_ a ->
  _remove_overlaps [a; b] = [a] /\ _remove_overlaps [b; a] = [b].
Proof.
  intros Hs He Hlt.
  assert (Hab : longer_first a b = true).
  { unfold longer_first. rewrite Hs, He, Z.eqb_refl, Z.leb_refl. apply orb_true_r. }
  assert (Hba : longer_first b a = true).
  { unfold longer_first. rewrite Hs, He, Z.eqb_refl, Z.leb_refl. apply orb_true_r. }
  assert (Hov : forall x y : RawMatch.t,
             RawMatch.start x = RawMatch.start y -> RawMatch.end_ x = RawMatch.end_ y ->
             RawMatch.start x < RawMatch.end_ x ->
             overlaps x (RawMatch.start y, RawMatch.end_ y) = true).
  { intros x y Hs' He' Hlt'. unfold overlaps. rewrite <- Hs', <- He'.
    apply andb_true_iff. split; [now apply Z.ltb_lt|apply Z.gtb_lt; lia]. }
  unfold _remove_overlaps, sort_on. cbn [sort insert_sorted]. rewrite Hab, Hba.
  cbn [keep_loop List.existsb app].
  rewrite (Hov b a), (Hov a b) by (congruence || lia).
  cbn [orb sort insert_sorted]. now split.
Qed.

Lemma same_span_first_kept_witness :
  _remove_overlaps [sample_inner; sample_twin] = [sample_inner]
  /\ _remove_overlaps [sample_twin; sample_inner] = [sample_twin].
Proof.
  apply (same_span_first_kept sample_inner sample_twin); [reflexivity|reflexivity|].
  simpl. lia.
Defined.
